(** * Concurrency examples: primality workers and flag downloads

    A shallow embedding of the dispatcher code of the repository
    (primes/primes.py, primes/procs.py, getflags/flags2_sequential.py and
    getflags/flags2_threadpool.py) together with the properties of the
    specification that were checked against it. *)

From Stdlib Require Import ZArith Znumtheory Zpow_facts Lia Bool.
From Stdlib Require Import PrimFloat.
From Stdlib Require Import Permutation.
From stdpp Require Import base decidable countable list strings pretty gmap fin_maps.

Local Open Scope Z_scope.

(** ** primes/primes.py *)

Module primes.

(** [range(start, stop, step)] for a positive step: the arithmetic
    progression start, start+step, ... strictly below stop. *)
Definition py_range (start stop step : Z) : list Z :=
  map (fun k : nat => start + step * Z.of_nat k)
      (seq 0 (Z.to_nat ((stop - start + step - 1) / step))).

(** The body of the [for i in range(3, root + 1, 2)] loop of [is_prime]:
    the first candidate that divides [n] returns [False]; falling off the
    end of the range reaches the final [return True]. *)
Fixpoint trial_division (n : Z) (candidates : list Z) : bool :=
  match candidates with
  | [] => true
  | i :: rest => if n mod i =? 0 then false else trial_division n rest
  end.

Definition is_prime (n : Z) : bool :=
  if n <? 2 then false
  else if n =? 2 then true
  else if n mod 2 =? 0 then false
  else
    let root := Z.sqrt n in
    trial_division n (py_range 3 (root + 1) 2).

Definition PRIME_FIXTURE : list (Z * bool) :=
  [ (2, true);
    (142702110479723, true);
    (299593572317531, true);
    (3333333333333301, true);
    (3333333333333333, false);
    (3333335652092209, false);
    (4444444444444423, true);
    (4444444444444444, false);
    (4444444488888889, false);
    (5555553133149889, false);
    (5555555555555503, true);
    (5555555555555555, false);
    (6666666666666666, false);
    (6666666666666719, true);
    (6666667141414921, false);
    (7777777536340681, false);
    (7777777777777753, true);
    (7777777777777777, false);
    (9999999999999917, true);
    (9999999999999999, false) ].

(** [NUMBERS = [n for n, _ in PRIME_FIXTURE]] *)
Definition NUMBERS : list Z := map fst PRIME_FIXTURE.

End primes.

(** ** primes/procs.py *)

Module procs.

(** [class PrimeResult(NamedTuple)] *)
Record PrimeResult : Type := mkPrimeResult
  { n : Z; prime : bool; elapsed : float }.

(** [JobQueue] and [ResultQueue]: a [SimpleQueue] is an unbounded FIFO
    channel; [put] appends at the back, [get] takes from the front and
    blocks while the queue is empty. *)
Definition JobQueue := list Z.
Definition ResultQueue := list PrimeResult.

Section clock.

(** [perf_counter()]: the successive readings of the clock. *)
Variable perf_counter : nat -> float.

(** [check(n)]; [ticks] counts the clock readings taken so far. *)
Definition check (n : Z) (ticks : nat) : PrimeResult :=
  let t0 := perf_counter ticks in
  let res := primes.is_prime n in
  mkPrimeResult n res (perf_counter (S ticks) - t0)%float.

(** [PrimeResult(0, False, 0.0)], which a worker sends when it is done. *)
Definition done_marker : PrimeResult := mkPrimeResult 0 false 0%float.

(** How a call on the channels ends: it returns, or it waits for ever in a
    [get] on a queue that stays empty. *)
Inductive ending (A : Type) : Type :=
| Returned (a : A)
| Blocked.
Arguments Returned {A} a.
Arguments Blocked {A}.

(** [worker(jobs, results)] run alone on the two queues.  The loop
    [while n := jobs.get()] goes on as long as the dequeued number is
    truthy (not zero).  The answer gives what is left of [jobs], the new
    [results] and the number of clock readings. *)
Fixpoint worker (jobs : JobQueue) (results : ResultQueue) (ticks : nat)
  : ending unit * JobQueue * ResultQueue * nat :=
  match jobs with
  | [] => (Blocked, [], results, ticks)
  | n :: jobs' =>
      if n =? 0
      then (Returned tt, jobs', results ++ [done_marker], ticks)
      else worker jobs' (results ++ [check n ticks]) (S (S ticks))
  end.

(** [start_jobs(procs, jobs, results)] run alone: the job queue after the
    call, and the number of processes it started.  [range(procs)] is empty
    for a [procs] below one. *)
Definition start_jobs (NUMBERS : list Z) (procs : Z) (jobs : JobQueue)
  : JobQueue * nat :=
  let jobs := fold_left (fun jobs n => jobs ++ [n]) NUMBERS jobs in
  fold_left (fun '(jobs, started) _ => (jobs ++ [0], S started))
            (primes.py_range 0 procs 1) (jobs, 0%nat).

(** One line of [report]'s output: the values formatted into
    [f'{n:16} {label} {elapsed:9.6f}s']. *)
Record line : Type := mkLine { line_n : Z; label : string; line_elapsed : float }.

(** The loop of [report], reading the result stream [results] from the
    front. *)
Fixpoint report_loop (procs : Z) (results : ResultQueue)
    (checked procs_done : Z) (out : list line)
  : ending Z * ResultQueue * Z * list line :=
  if procs_done <? procs then
    match results with
    | [] => (Blocked, [], procs_done, out)
    | r :: results' =>
        if n r =? 0
        then report_loop procs results' checked (procs_done + 1) out
        else
          let checked := checked + 1 in
          let label := if prime r then "P" else " " in
          report_loop procs results' checked procs_done
                      (out ++ [mkLine (n r) label (elapsed r)])
    end
  else (Returned checked, results, procs_done, out).

(** [report(procs, results)]: the count returned (or [Blocked]), the
    results left unread, the markers seen and the lines printed. *)
Definition report (procs : Z) (results : ResultQueue)
  : ending Z * ResultQueue * Z * list line :=
  report_loop procs results 0 0 [].

(** *** The processes running together

    [main] runs [start_jobs] while the workers it has started already take
    jobs.  A worker is at its [jobs.get()], holds a result it is about to
    [put], has left its loop and is about to send the marker, or has
    returned. *)
Inductive worker_pc : Type :=
| AtGet
| AtPut (r : PrimeResult)
| AtMarker
| Exited.

(** A worker with the history the properties speak of: how many sentinels
    it has dequeued and how many markers it has sent. *)
Record worker_state : Type := mkWorker
  { pc : worker_pc; sentinels_seen : nat; markers_sent : nat }.

(** Where [start_jobs] is: in its first loop with [todo] still to enqueue,
    at [proc.start()] or at [jobs.put(0)] of its second loop with [k]
    further rounds to go, or returned. *)
Inductive starter_pc : Type :=
| Enqueue (todo : list Z)
| Start (k : nat)
| Poison (k : nat)
| Started.

Record system : Type := mkSystem
  { jobs : JobQueue;
    results : ResultQueue;
    workers : list worker_state;
    starter : starter_pc;
    ticks : nat;
    jobs_put : list Z }.

(** Which process moves next. *)
Inductive event : Type :=
| Main
| Work (i : nat).

Definition initial (NUMBERS : list Z) : system :=
  mkSystem [] [] [] (Enqueue NUMBERS) 0 [].

Definition step_main (procs : Z) (s : system) : option system :=
  match starter s with
  | Enqueue (n :: todo) =>
      Some (mkSystem (jobs s ++ [n]) (results s) (workers s)
                     (Enqueue todo) (ticks s) (jobs_put s ++ [n]))
  | Enqueue [] =>
      Some (mkSystem (jobs s) (results s) (workers s)
                     (Start (length (primes.py_range 0 procs 1)))
                     (ticks s) (jobs_put s))
  | Start (S k) =>
      Some (mkSystem (jobs s) (results s)
                     (workers s ++ [mkWorker AtGet 0 0])
                     (Poison k) (ticks s) (jobs_put s))
  | Poison k =>
      Some (mkSystem (jobs s ++ [0]) (results s) (workers s)
                     (Start k) (ticks s) (jobs_put s ++ [0]))
  | Start 0 =>
      Some (mkSystem (jobs s) (results s) (workers s)
                     Started (ticks s) (jobs_put s))
  | Started => None
  end.

Definition step_worker (i : nat) (s : system) : option system :=
  match workers s !! i with
  | None => None
  | Some w =>
      match pc w with
      | AtGet =>
          match jobs s with
          | [] => None
          | n :: jobs' =>
              if n =? 0
              then Some (mkSystem jobs' (results s)
                           (<[i := mkWorker AtMarker (S (sentinels_seen w))
                                            (markers_sent w)]> (workers s))
                           (starter s) (ticks s) (jobs_put s))
              else Some (mkSystem jobs' (results s)
                           (<[i := mkWorker (AtPut (check n (ticks s)))
                                            (sentinels_seen w)
                                            (markers_sent w)]> (workers s))
                           (starter s) (S (S (ticks s))) (jobs_put s))
          end
      | AtPut r =>
          Some (mkSystem (jobs s) (results s ++ [r])
                  (<[i := mkWorker AtGet (sentinels_seen w)
                                   (markers_sent w)]> (workers s))
                  (starter s) (ticks s) (jobs_put s))
      | AtMarker =>
          Some (mkSystem (jobs s) (results s ++ [done_marker])
                  (<[i := mkWorker Exited (sentinels_seen w)
                                   (S (markers_sent w))]> (workers s))
                  (starter s) (ticks s) (jobs_put s))
      | Exited => None
      end
  end.

Definition step (procs : Z) (e : event) (s : system) : option system :=
  match e with
  | Main => step_main procs s
  | Work i => step_worker i s
  end.

(** A schedule is the order in which the processes move; it is refused as
    soon as it names a process that cannot move. *)
Fixpoint run (procs : Z) (schedule : list event) (s : system)
  : option system :=
  match schedule with
  | [] => Some s
  | e :: schedule' =>
      match step procs e s with
      | None => None
      | Some s' => run procs schedule' s'
      end
  end.

(** Nothing can move any more. *)
Definition quiescent (procs : Z) (s : system) : Prop :=
  forall e, step procs e s = None.

End clock.

Arguments Returned {A} a.
Arguments Blocked {A}.

End procs.

(** ** Python values and effects used by the flag downloads *)

Module py.

(** An [httpx.Response], as far as the downloads look into it. *)
Record Response : Type := mkResponse
  { status_code : Z; reason_phrase : string; url : string; content : string }.

(** The exceptions the downloads raise, catch or let through. *)
Inductive exn : Type :=
| HTTPStatusError (response : Response)
| RequestError (text : string) (cls : string)
| KeyboardInterrupt
| UnboundLocalError (name : string)
| ValueError (text : string)
| KeyError (key : nat)
| OtherError (cls : string) (text : string).

(** A call returns a value or raises. *)
Inductive result (A : Type) : Type :=
| Return (a : A)
| Raise (e : exn).
Arguments Return {A} a.
Arguments Raise {A} e.

(** What lies outside the scripts: the network behind [httpx.get], the
    check [Response.raise_for_status], the file system behind [save_flag]
    (of flags2_common) and [str.lower]. *)
Class Externals : Type := mkExternals
  { World : Type;
    str_lower : string -> string;
    httpx_get : string -> World -> result Response * World;
    raise_for_status : Response -> result unit;
    save_flag : string -> string -> World -> result unit * World }.

Section effects.
Context `{Externals}.

(** The state a call runs in: the world outside and the lines printed. *)
Record State : Type := mkState { world : World; stdout : list string }.

(** A computation that reads and changes the state and may raise. *)
Definition M (A : Type) : Type := State -> result A * State.

Definition ret {A} (a : A) : M A := fun st => (Return a, st).
Definition raise {A} (e : exn) : M A := fun st => (Raise e, st).
Definition bind {A B} (m : M A) (k : A -> M B) : M B :=
  fun st =>
    match m st with
    | (Return a, st') => k a st'
    | (Raise e, st') => (Raise e, st')
    end.

(** [print(line)] *)
Definition print (line : string) : M unit :=
  fun st => (Return tt, mkState (world st) (stdout st ++ [line])).

(** A call into the world outside. *)
Definition outside {A} (f : World -> result A * World) : M A :=
  fun st =>
    let '(r, w) := f (world st) in (r, mkState w (stdout st)).

End effects.

(** Truth value of a string: false for the empty string only. *)
Definition truthy (s : string) : bool :=
  match s with
  | EmptyString => false
  | String _ _ => true
  end.

(** White space for [str.strip()], among the ASCII characters: tab, line
    feed, vertical tab, form feed, carriage return, the four separators
    28 to 31, and the space. *)
Definition isspace (c : Ascii.ascii) : bool :=
  let k := Ascii.N_of_ascii c in
  ((9 <=? k)%N && (k <=? 13)%N) || ((28 <=? k)%N && (k <=? 32)%N).

Fixpoint lstrip (s : string) : string :=
  match s with
  | EmptyString => EmptyString
  | String c s' => if isspace c then lstrip s' else s
  end.

Fixpoint rstrip (s : string) : string :=
  match s with
  | EmptyString => EmptyString
  | String c s' =>
      match rstrip s' with
      | EmptyString => if isspace c then EmptyString else String c EmptyString
      | kept => String c kept
      end
  end.

(** [str.strip()]: white space is dropped at both ends. *)
Definition strip (s : string) : string := rstrip (lstrip s).

(** [sorted(l)] for a list of strings: insertion in the order of
    [str.__le__]. *)
Fixpoint insert_sorted (x : string) (l : list string) : list string :=
  match l with
  | [] => [x]
  | y :: l' => if String.leb x y then x :: l else y :: insert_sorted x l'
  end.

Definition sorted (l : list string) : list string :=
  foldr insert_sorted [] l.

End py.

Notation "'do' x <- m ; k" := (py.bind m (fun x => k))
  (at level 10, x name, m at level 100, k at level 200).

(** ** getflags/flags2_common.py *)

Module flags2_common.

(** Modelled from the spec: flags2_common.py, which declares the
    [DownloadStatus] enumeration, is not among the sources.  Its members
    are the three outcome categories of the specification (Success,
    NotFound, Error) under the names the scripts use for them. *)
Inductive DownloadStatus : Type := OK | NOT_FOUND | ERROR.

#[global] Instance DownloadStatus_eq_dec : EqDecision DownloadStatus.
Proof. solve_decision. Defined.

#[global] Instance DownloadStatus_countable : Countable DownloadStatus.
Proof.
  refine (inj_countable'
            (fun s => match s with OK => 0%nat | NOT_FOUND => 1%nat | ERROR => 2%nat end)
            (fun k => match k with 0%nat => OK | 1%nat => NOT_FOUND | _ => ERROR end)
            _).
  intros []; reflexivity.
Defined.

End flags2_common.

(** ** getflags/flags2_sequential.py *)

Module flags2_sequential.
Import py flags2_common.

Definition DEFAULT_CONCUR_REQ : Z := 1.
Definition MAX_CONCUR_REQ : Z := 1.

(** [HTTPStatus.NOT_FOUND] *)
Definition NOT_FOUND_code : Z := 404.

(** [Counter[DownloadStatus]]: a key that is absent counts as zero. *)
Abbreviation Counter := (gmap DownloadStatus nat).

(** [counter[status] += 1] *)
Definition increment (status : DownloadStatus) (counter : Counter) : Counter :=
  <[status := S (default 0%nat (counter !! status))]> counter.

Section downloads.
Context `{Externals}.

Definition get_flag (base_url cc : string) : M string :=
  let url := str_lower (base_url +:+ "/" +:+ cc +:+ "/" +:+ cc +:+ ".gif") in
  do resp <- outside (httpx_get url);
  do _ <- (fun st => (raise_for_status resp, st));
  ret (content resp).

Definition download_one (cc base_url : string) (verbose : bool)
  : M DownloadStatus :=
  fun st =>
    let finish (status : DownloadStatus) (msg : string) : M DownloadStatus :=
      do _ <- (if verbose then print (cc +:+ " " +:+ msg) else ret tt);
      ret status in
    match get_flag base_url cc st with
    | (Raise (HTTPStatusError res), st1) =>
        if status_code res =? NOT_FOUND_code
        then finish NOT_FOUND ("not found: " +:+ url res) st1
        else (Raise (HTTPStatusError res), st1)
    | (Raise e, st1) => (Raise e, st1)
    | (Return image, st1) =>
        (do _ <- outside (save_flag image (cc +:+ ".gif")); finish OK "OK") st1
    end.

(** The local variables of [download_many]; a variable not yet assigned
    is [None]. *)
Record locals : Type := mkLocals
  { counter : Counter;
    status : option DownloadStatus;
    error_msg : option string }.

(** How the [try] statement of the loop ends: the loop body goes on, the
    loop is left by [break], or the exception is not caught. *)
Inductive flow : Type :=
| Next (l : locals)
| Break (l : locals)
| Propagate (e : exn).

(** The [try ... except ... else] statement around the call, given how
    the call ended. *)
Definition try_status (r : result DownloadStatus) (l : locals) : flow :=
  match r with
  | Return s => Next (mkLocals (counter l) (Some s) (Some EmptyString))
  | Raise (HTTPStatusError resp) =>
      Next (mkLocals (counter l) (status l)
              (Some ("HTTP error " +:+ pretty (status_code resp)
                       +:+ " - " +:+ reason_phrase resp)))
  | Raise (RequestError text cls) =>
      Next (mkLocals (counter l) (status l)
              (Some (strip (text +:+ " " +:+ "<class '" +:+ cls +:+ "'>"))))
  | Raise KeyboardInterrupt => Break l
  | Raise e => Propagate e
  end.

(** The statements after the [try]: [if error_msg: status = ERROR], then
    [counter[status] += 1], then the line printed for an error. *)
Definition tally (cc : string) (verbose : bool) (l : locals) : M locals :=
  match error_msg l with
  | None => raise (UnboundLocalError "error_msg")
  | Some msg =>
      let status := if truthy msg then Some ERROR else status l in
      match status with
      | None => raise (UnboundLocalError "status")
      | Some s =>
          let l := mkLocals (increment s (counter l)) status (Some msg) in
          if verbose && truthy msg
          then do _ <- print (cc +:+ " error: " +:+ msg); ret l
          else ret l
      end
  end.

(** The [for cc in cc_iter] loop. *)
Fixpoint for_cc (cc_iter : list string) (base_url : string) (verbose : bool)
    (l : locals) : M locals :=
  match cc_iter with
  | [] => ret l
  | cc :: cc_iter' =>
      fun st =>
        let '(r, st1) := download_one cc base_url verbose st in
        match try_status r l with
        | Break l' => (Return l', st1)
        | Propagate e => (Raise e, st1)
        | Next l1 =>
            (do l2 <- tally cc verbose l1;
             for_cc cc_iter' base_url verbose l2) st1
        end
  end.

(** [download_many(cc_list, base_url, verbose, _unused_concur_req)].
    Without [verbose] the loop runs over [tqdm.tqdm(cc_iter)], which yields
    the same elements and draws a progress bar. *)
Definition download_many (cc_list : list string) (base_url : string)
    (verbose : bool) (_unused_concur_req : Z) : M Counter :=
  let start := mkLocals ∅ None None in  (* counter = Counter() *)
  let cc_iter := sorted cc_list in
  do l <- for_cc cc_iter base_url verbose start;
  ret (counter l).

End downloads.

End flags2_sequential.

(** ** getflags/flags2_threadpool.py *)

Module flags2_threadpool.
Import py flags2_common.

Definition DEFAULT_CONCUR_REQ : Z := 30.
Definition MAX_CONCUR_REQ : Z := 1000.

Abbreviation Counter := (gmap DownloadStatus nat).

(** A [Future]: the place of the call among those submitted, and how the
    call ended, which is what [future.result()] returns or raises. *)
Record Future : Type := mkFuture
  { fid : nat; outcome : result DownloadStatus }.

(** What the run of the pool decides: the order in which
    [as_completed] yields the futures (places in the order of
    submission), and, when the operator interrupts, the round of the loop
    in which [KeyboardInterrupt] is raised inside [future.result()]. *)
Record schedule : Type := mkSchedule
  { order : list nat; interrupt_at : option nat }.

(** The local variables of [download_many]. *)
Record locals : Type := mkLocals
  { counter : Counter;
    future : option Future;
    status : option DownloadStatus;
    error_msg : option string }.

Inductive flow : Type :=
| Next (l : locals)
| Break (l : locals)
| Propagate (e : exn).

(** The [try ... except ... else] statement around [future.result()]. *)
Definition try_status (r : result DownloadStatus) (l : locals) : flow :=
  match r with
  | Return s => Next (mkLocals (counter l) (future l) (Some s) (Some EmptyString))
  | Raise (HTTPStatusError resp) =>
      Next (mkLocals (counter l) (future l) (status l)
              (Some ("HTTP error " +:+ pretty (status_code resp)
                       +:+ " - " +:+ reason_phrase resp)))
  | Raise (RequestError text cls) =>
      Next (mkLocals (counter l) (future l) (status l)
              (Some (strip (text +:+ " " +:+ "<class '" +:+ cls +:+ "'>"))))
  | Raise KeyboardInterrupt => Break l
  | Raise e => Propagate e
  end.

(** The [for future in done_iter] loop, whose body is the [try] statement
    alone; [round] counts the futures already yielded.  The interrupt is
    taken inside [future.result()] only; the loop with the interrupt also
    at its head, outside the [try] statement, is
    [flags2_threadpool_interrupted.for_future] below. *)
Fixpoint for_future (done_iter : list Future) (round : nat)
    (interrupt_at : option nat) (l : locals) : flow :=
  match done_iter with
  | [] => Next l
  | fut :: done_iter' =>
      let l := mkLocals (counter l) (Some fut) (status l) (error_msg l) in
      let r := if decide (interrupt_at = Some round)
               then Raise KeyboardInterrupt
               else outcome fut in
      match try_status r l with
      | Next l1 => for_future done_iter' (S round) interrupt_at l1
      | Break l1 => Break l1
      | Propagate e => Propagate e
      end
  end.

Section downloads.
Context `{Externals}.

(** [str([cc])], the value of [to_do_map[future]] formatted into the
    line. *)
Definition repr_list1 (cc : string) : string := "['" +:+ cc +:+ "']".

(** The statements that follow the loop, inside the [with] block. *)
Definition tally (to_do_map : gmap nat (list string)) (verbose : bool)
    (l : locals) : M locals :=
  match error_msg l with
  | None => raise (UnboundLocalError "error_msg")
  | Some msg =>
      let status := if truthy msg then Some ERROR else status l in
      match status with
      | None => raise (UnboundLocalError "status")
      | Some s =>
          let l := mkLocals (flags2_sequential.increment s (counter l))
                            (future l) status (Some msg) in
          if verbose && truthy msg
          then
            match future l with
            | None => raise (UnboundLocalError "future")
            | Some fut =>
                match to_do_map !! fid fut with
                | Some [cc] =>
                    do _ <- print (repr_list1 cc +:+ " error: " +:+ msg); ret l
                | _ => raise (KeyError (fid fut))
                end
            end
          else ret l
      end
  end.

(** The loop over [sorted(cc_list)]: [executor.submit] hands the call to
    the pool, and [to_do_map[future] = [cc]] records it.  The calls run in
    the threads of the pool; their effects on the world are taken in the
    order of submission. *)
Fixpoint submit_all (cc_iter : list string) (base_url : string)
    (verbose : bool) (next : nat) (to_do_map : gmap nat (list string))
    (futures : list Future) (st : State)
  : gmap nat (list string) * list Future * State :=
  match cc_iter with
  | [] => (to_do_map, futures, st)
  | cc :: cc_iter' =>
      let '(r, st1) :=
        flags2_sequential.download_one cc base_url verbose st in
      let fut := mkFuture next r in
      submit_all cc_iter' base_url verbose (S next)
                 (<[fid fut := [cc]]> to_do_map) (futures ++ [fut]) st1
  end.

(** [as_completed(to_do_map)]: the futures in the order the schedule
    gives. *)
Definition as_completed (futures : list Future) (order : list nat)
  : list Future :=
  omap (fun i => futures !! i) order.

(** [download_many(cc_list, base_url, verbose, concur_req)].
    [ThreadPoolExecutor(max_workers=concur_req)] raises [ValueError] for a
    [concur_req] below one; leaving the [with] block waits for the threads.
    Without [verbose] the loop runs over [tqdm.tqdm(done_iter, ...)], which
    yields the same futures and draws a progress bar. *)
Definition download_many (sched : schedule) (cc_list : list string)
    (base_url : string) (verbose : bool) (concur_req : Z) : M Counter :=
  fun st =>
    let start := mkLocals ∅ None None None in  (* counter = Counter() *)
    if concur_req <=? 0
    then (Raise (ValueError "max_workers must be greater than 0"), st)
    else
      let '(to_do_map, futures, st1) :=
        submit_all (sorted cc_list) base_url verbose 0 ∅ [] st in
      let done_iter := as_completed futures (order sched) in
      match for_future done_iter 0 (interrupt_at sched) start with
      | Propagate e => (Raise e, st1)
      | Next l | Break l =>
          (do l' <- tally to_do_map verbose l;
           ret (counter l')) st1
      end.

End downloads.

End flags2_threadpool.

(** ** primes/sequential.py *)

Module sequential.

(** [class Result(NamedTuple)] *)
Record Result : Type := mkResult { prime : bool; elapsed : float }.

(** What [main] prints, the values that go into each line kept apart:
    [f'Checking {len(NUMBERS)} numbers for primality...'],
    [f'{n:16} {label} {elapsed:9.6f}s'] and
    [f'Total time: {elapsed:9.6f}s']. *)
Inductive printed : Type :=
| Checking (count : nat)
| Line (n : Z) (label : string) (elapsed : float)
| TotalTime (elapsed : float).

Section clock.

(** [perf_counter()]: the successive readings of the clock. *)
Variable perf_counter : nat -> float.

(** [check(n)]; [ticks] counts the clock readings taken so far. *)
Definition check (n : Z) (ticks : nat) : Result :=
  let start := perf_counter ticks in
  let prime := primes.is_prime n in
  mkResult prime (perf_counter (S ticks) - start)%float.

(** The loop [for n in NUMBERS] of [main]. *)
Fixpoint for_n (numbers : list Z) (ticks : nat) (out : list printed)
  : list printed * nat :=
  match numbers with
  | [] => (out, ticks)
  | n :: numbers' =>
      let r := check n ticks in
      let label := if prime r then "P" else " " in
      for_n numbers' (S (S ticks)) (out ++ [Line n label (elapsed r)])
  end.

(** [main()], for the list [NUMBERS] it imports. *)
Definition main (NUMBERS : list Z) : list printed :=
  let out := [Checking (length NUMBERS)] in
  let t0 := perf_counter 0 in
  let '(out, ticks) := for_n NUMBERS 1 out in
  let elapsed := (perf_counter ticks - t0)%float in
  out ++ [TotalTime elapsed].

End clock.

End sequential.

(** ** primes/proc_pool.py *)

Module proc_pool.

(** [class PrimeResult(NamedTuple)] *)
Record PrimeResult : Type := mkPrimeResult
  { n : Z; flag : bool; elapsed : float }.

(** What [main] prints:
    [f'Checking {len(NUMBERS)} with {actual_workers} processess:'],
    [f'{n:16} {label} {elapsed:9.6f}s'] and [f'Total time: {time:.2f}s']. *)
Inductive printed : Type :=
| Checking (count : nat) (actual_workers : Z)
| Line (n : Z) (label : string) (elapsed : float)
| TotalTime (time : float).

(** [sorted(numbers, reverse=True)] for integers: insertion in descending
    order, an element going before those equal to it that come after it. *)
Fixpoint insert_reverse (x : Z) (l : list Z) : list Z :=
  match l with
  | [] => [x]
  | y :: l' => if y <=? x then x :: l else y :: insert_reverse x l'
  end.

Definition sorted_reverse (l : list Z) : list Z := foldr insert_reverse [] l.

Section clock.

Variable perf_counter : nat -> float.

(** [check(n)], run in a process of the pool; [ticks] is the number of
    clock readings taken before it. *)
Definition check (n : Z) (ticks : nat) : PrimeResult :=
  let t0 := perf_counter ticks in
  let res := primes.is_prime n in
  mkPrimeResult n res (perf_counter (S ticks) - t0)%float.

(** [executor.map(check, numbers)]: the calls run in the processes of the
    pool, the [k]-th one starting at the clock reading [started k], and
    their results are yielded in the order of [numbers]. *)
Fixpoint executor_map (numbers : list Z) (k : nat) (started : nat -> nat)
  : list PrimeResult :=
  match numbers with
  | [] => []
  | n :: numbers' =>
      check n (started k) :: executor_map numbers' (S k) started
  end.

(** The loop of [main] over the results. *)
Fixpoint for_result (results : list PrimeResult) (out : list printed)
  : list printed :=
  match results with
  | [] => out
  | r :: results' =>
      let label := if flag r then "P" else " " in
      for_result results' (out ++ [Line (n r) label (elapsed r)])
  end.

(** [futures.ProcessPoolExecutor(max_workers)], as far as [main] looks
    into it: the executor takes the number of processors for [None],
    raises [ValueError] for a number below one, and keeps the number of
    its processes in [_max_workers], which is what is returned here. *)
Definition ProcessPoolExecutor (max_workers : option Z) (cpu_count : Z)
  : py.result Z :=
  match max_workers with
  | None => py.Return cpu_count
  | Some w =>
      if w <=? 0
      then py.Raise (py.ValueError "max_workers must be greater than 0")
      else py.Return w
  end.

(** [main()].  [workers] is [None] without a command line argument and
    [int(sys.argv[1])] with one.  [finish] is the number of clock readings
    taken when the pool has shut down. *)
Definition main (workers : option Z) (cpu_count : Z) (NUMBERS : list Z)
    (started : nat -> nat) (finish : nat) : py.result (list printed) :=
  match ProcessPoolExecutor workers cpu_count with
  | py.Raise e => py.Raise e
  | py.Return actual_workers =>
      let out := [Checking (length NUMBERS) actual_workers] in
      let t0 := perf_counter 0 in
      let numbers := sorted_reverse NUMBERS in
      let out := for_result (executor_map numbers 0 started) out in
      let time := (perf_counter finish - t0)%float in
      py.Return (out ++ [TotalTime time])
  end.

End clock.

End proc_pool.
(** ** getflags/flags.py *)

Module flags.
Import py.

Definition POP20_CC : list string :=
  ["CN"; "IN"; "US"; "ID"; "BR"; "PK"; "NG"; "BD"; "RU"; "JP";
   "MX"; "PH"; "VN"; "ET"; "EG"; "DE"; "IR"; "TR"; "CD"; "FR"].

Definition BASE_URL : string := "https://www.fluentpython.com/data/flags".

Section downloads.
Context `{Externals}.

(** [save_flag(img, filename)]: [(DEST_DIR / filename).write_bytes(img)],
    the write of the file in the directory of the downloads being the part
    of the file system. *)
Definition save_flag (img filename : string) : M unit :=
  outside (py.save_flag img filename).

(** [get_flag(cc)] *)
Definition get_flag (cc : string) : M string :=
  let url := str_lower (BASE_URL +:+ "/" +:+ cc +:+ "/" +:+ cc +:+ ".gif") in
  do resp <- outside (httpx_get url);
  do _ <- (fun st => (raise_for_status resp, st));
  ret (content resp).

(** One [write] of the output stream: [stdout] holds the pieces written,
    in order. *)
Definition write (piece : string) : M unit :=
  fun st => (Return tt, mkState (world st) (stdout st ++ [piece])).

(** [print(text, end=ending, flush=True)] writes the text and then
    [ending], which takes the place of the line feed. *)
Definition print_end (text ending : string) : M unit :=
  do _ <- write text; write ending.

(** The loop [for cc in sorted(cc_list)] of [download_any]. *)
Fixpoint for_cc (cc_iter : list string) : M unit :=
  match cc_iter with
  | [] => ret tt
  | cc :: cc_iter' =>
      do image <- get_flag cc;
      do _ <- save_flag image (cc +:+ ".gif");
      do _ <- print_end cc " ";
      for_cc cc_iter'
  end.

(** [download_any(cc_list)] *)
Definition download_any (cc_list : list string) : M Z :=
  do _ <- for_cc (sorted cc_list);
  ret (Z.of_nat (length cc_list)).

End downloads.

End flags.

(** ** getflags/flags_threadpool.py *)

Module flags_threadpool.
Import py.

Section downloads.
Context `{Externals}.

(** [download_one(cc)] *)
Definition download_one (cc : string) : M string :=
  do image <- flags.get_flag cc;
  do _ <- flags.save_flag image (cc +:+ ".gif");
  do _ <- flags.print_end cc " ";
  ret cc.

(** *** The calls running in the threads of the pool

    A call of [download_one] handed to the executor waits for a thread,
    then makes its calls on the world outside, between which the other
    threads may make theirs: it is at [get_flag], holds the image it is
    about to save, has saved it and is about to write the code, has
    written the code and is about to write the space that ends it, or is
    done, with the value it returned or the exception it raised. *)
Inductive task : Type :=
| Waiting (cc : string)
| AtSave (cc : string) (image : string)
| AtPrint (cc : string)
| AtEnd (cc : string)
| Done (cc : string) (r : result string).

(** The next call of a task on the world outside. *)
Definition step_task (t : task) (st : State) : option (task * State) :=
  match t with
  | Waiting cc =>
      match flags.get_flag cc st with
      | (Return image, st') => Some (AtSave cc image, st')
      | (Raise e, st') => Some (Done cc (Raise e), st')
      end
  | AtSave cc image =>
      match flags.save_flag image (cc +:+ ".gif") st with
      | (Return _, st') => Some (AtPrint cc, st')
      | (Raise e, st') => Some (Done cc (Raise e), st')
      end
  | AtPrint cc => Some (AtEnd cc, (flags.write cc st).2)
  | AtEnd cc => Some (Done cc (Return cc), (flags.write " " st).2)
  | Done _ _ => None
  end.

Definition waiting (t : task) : bool :=
  match t with Waiting _ => true | _ => false end.

Definition running (t : task) : bool :=
  match t with AtSave _ _ | AtPrint _ | AtEnd _ => true | _ => false end.

Definition done (t : task) : bool :=
  match t with Done _ _ => true | _ => false end.

(** The pool: the calls in the order of their submission, and the state of
    the world and of the output. *)
Record pool : Type := mkPool { tasks : list task; state : State }.

(** The task at place [i] makes its next call.  A task that waits starts
    only when a thread is free, that is when fewer than [max_workers]
    tasks are running, and when the tasks submitted before it have
    started: the executor hands out the work in the order of
    submission. *)
Definition step (max_workers : nat) (i : nat) (p : pool) : option pool :=
  match tasks p !! i with
  | None => None
  | Some t =>
      if waiting t &&
         negb ((length (filter (fun t => running t = true) (tasks p))
                <? max_workers)%nat
               && forallb (fun t => negb (waiting t)) (take i (tasks p)))
      then None
      else
        match step_task t (state p) with
        | None => None
        | Some (t', st') => Some (mkPool (<[i := t']> (tasks p)) st')
        end
  end.

(** A schedule names the task that moves next; it is refused as soon as it
    names a task that cannot move. *)
Fixpoint run (max_workers : nat) (schedule : list nat) (p : pool)
  : option pool :=
  match schedule with
  | [] => Some p
  | i :: schedule' =>
      match step max_workers i p with
      | None => None
      | Some p' => run max_workers schedule' p'
      end
  end.

(** [len(list(res))] for the iterator [executor.map] returns: the results
    are taken in the order of submission, and the first exception met is
    raised. *)
Fixpoint len_list (ts : list task) (count : Z) : result Z :=
  match ts with
  | [] => Return count
  | Done _ (Return _) :: ts' => len_list ts' (count + 1)
  | Done _ (Raise e) :: _ => Raise e
  | _ :: _ => Return count
  end.

(** [download_many(cc_list)].  [ThreadPoolExecutor()] makes a pool of
    [max_workers] threads, a number it takes from the number of
    processors; [executor.map] submits a call for each code of
    [sorted(cc_list)]; leaving the [with] block waits until every call is
    done.  The answer is [None] for a schedule that is not a run of the
    pool to that point. *)
Definition download_many (max_workers : nat) (schedule : list nat)
    (cc_list : list string) (st : State) : option (result Z * State) :=
  match run max_workers schedule (mkPool (map Waiting (sorted cc_list)) st) with
  | None => None
  | Some p =>
      if forallb done (tasks p)
      then Some (len_list (tasks p) 0, state p)
      else None
  end.

End downloads.

End flags_threadpool.
(** ** getflags/flags_threadpool_futures.py *)

Module flags_threadpool_futures.
Import py flags_threadpool.

(** [repr(res)] for a string with no quote, backslash or control
    character in it, as the country codes are. *)
Definition repr_str (res : string) : string := "'" +:+ res +:+ "'".

(** The line feed that ends what [print] writes. *)
Definition line_feed : string := String (Ascii.ascii_of_nat 10) EmptyString.

Section downloads.
Context `{Externals}.

(** [str(future)]: the text names the future, here by its place in
    [to_do], and says what its call has come to. *)
Variable repr_future : nat -> task -> string.

(** Where the main thread is inside the [with] block: at the head of the
    loop with the codes it has still to submit, about to write the line
    for the future it has just submitted, about to write the line feed
    that ends it, or out of the block. *)
Inductive main_pc : Type :=
| Submit (todo : list string)
| SayScheduled (cc : string) (k : nat) (todo : list string)
| SayNewline (todo : list string)
| Left.

Record system : Type := mkSystem { threads : pool; main : main_pc }.

(** Which thread moves next: the main thread, or the call at a place of
    the pool. *)
Inductive event : Type :=
| Main
| Work (i : nat).

(** A move of the main thread.  [executor.submit] puts the call at the
    end of the pool; [print] writes the text and then the line feed;
    leaving the [with] block waits until every call is done. *)
Definition step_main (s : system) : option system :=
  let p := threads s in
  match main s with
  | Submit (cc :: todo) =>
      Some (mkSystem (mkPool (tasks p ++ [Waiting cc]) (state p))
                     (SayScheduled cc (length (tasks p)) todo))
  | SayScheduled cc k todo =>
      match tasks p !! k with
      | None => None
      | Some t =>
          let text := "Scheduled for " +:+ cc +:+ ": " +:+ repr_future k t in
          Some (mkSystem (mkPool (tasks p) (flags.write text (state p)).2)
                         (SayNewline todo))
      end
  | SayNewline todo =>
      Some (mkSystem (mkPool (tasks p) (flags.write line_feed (state p)).2)
                     (Submit todo))
  | Submit [] =>
      if forallb done (tasks p) then Some (mkSystem p Left) else None
  | Left => None
  end.

(** [ThreadPoolExecutor(max_workers=3)] *)
Definition max_workers : nat := 3.

Definition step (e : event) (s : system) : option system :=
  match e with
  | Main => step_main s
  | Work i =>
      match flags_threadpool.step max_workers i (threads s) with
      | None => None
      | Some p' => Some (mkSystem p' (main s))
      end
  end.

Fixpoint run (schedule : list event) (s : system) : option system :=
  match schedule with
  | [] => Some s
  | e :: schedule' =>
      match step e s with
      | None => None
      | Some s' => run schedule' s'
      end
  end.

(** [as_completed(to_do)]: the futures, each with its place in [to_do],
    in the order in which they are yielded. *)
Definition as_completed (to_do : list task) (yielded : list nat)
  : list (nat * task) :=
  omap (fun k => match to_do !! k with
                 | Some t => Some (k, t)
                 | None => None
                 end) yielded.

(** The loop [for count, future in enumerate(as_completed(to_do), 1)]:
    [n] is the number [enumerate] gives next, and [count] is unassigned
    until the first round.  [future.result()] returns what the call
    returned or raises what it raised; on a call that is not done it
    would wait, and the answer is [None]. *)
Fixpoint for_count (done_iter : list (nat * task)) (n : Z)
    (count : option Z) (st : State) : option (result (option Z) * State) :=
  match done_iter with
  | [] => Some (Return count, st)
  | (k, Done cc (Return res)) :: done_iter' =>
      let text :=
        repr_future k (Done cc (Return res)) +:+ " result: "
        +:+ repr_str res in
      let st1 := (flags.write text st).2 in
      let st2 := (flags.write line_feed st1).2 in
      for_count done_iter' (n + 1) (Some n) st2
  | (k, Done cc (Raise e)) :: _ => Some (Raise e, st)
  | _ :: _ => None
  end.

(** [download_many(cc_list)].  [schedule] is the order in which the
    threads move inside the [with] block and [yielded] the order in which
    [as_completed] yields the futures afterwards; the answer is [None]
    when [schedule] is not a run of the threads to the end of the block or
    [yielded] does not name each future once. *)
Definition download_many (schedule : list event) (yielded : list nat)
    (cc_list : list string) (st : State) : option (result Z * State) :=
  let cc_list := take 5 cc_list in
  match run schedule (mkSystem (mkPool [] st) (Submit (sorted cc_list))) with
  | Some (mkSystem p Left) =>
      if decide (Permutation yielded (seq 0 (length (tasks p))))
      then
        match for_count (as_completed (tasks p) yielded) 1 None (state p) with
        | Some (Return (Some count), st') => Some (Return count, st')
        | Some (Return None, st') =>
            Some (Raise (UnboundLocalError "count"), st')
        | Some (Raise e, st') => Some (Raise e, st')
        | None => None
        end
      else None
  | _ => None
  end.

End downloads.

End flags_threadpool_futures.
(** ** spinner_thread.py *)

Module spinner_thread.

Definition carriage_return : string := String (Ascii.ascii_of_nat 13) EmptyString.

Definition line_feed : string := String (Ascii.ascii_of_nat 10) EmptyString.

(** [s * n] on strings. *)
Fixpoint times (s : string) (n : nat) : string :=
  match n with
  | O => EmptyString
  | S n' => s +:+ times s n'
  end.

(** [print(text, end=ending)] writes the text and then the end on the
    output stream; [stdout] holds the pieces written, in order. *)
Definition print (text ending : string) (stdout : list string) : list string :=
  stdout ++ [text; ending].

(** [itertools.cycle(iterable)]: the items of the iterable still to come,
    the copy the iterator saves of the items it has given, and what is
    left of the round through the copy it is in. *)
Record cycle_iter : Type :=
  mkCycle { source : list Ascii.ascii; saved : list Ascii.ascii;
            round : list Ascii.ascii }.

Definition cycle (iterable : string) : cycle_iter :=
  mkCycle (String.list_ascii_of_string iterable) [] [].

(** The next item, or [None] where the iterator stops: only the cycle of
    an empty iterable does. *)
Definition next (it : cycle_iter) : option (Ascii.ascii * cycle_iter) :=
  match source it with
  | element :: rest => Some (element, mkCycle rest (saved it ++ [element]) [])
  | [] =>
      match round it with
      | element :: rest => Some (element, mkCycle [] (saved it) rest)
      | [] =>
          match saved it with
          | element :: rest => Some (element, mkCycle [] (saved it) rest)
          | [] => None
          end
      end
  end.

(** Where the thread of [spin] is: at the head of the [for] loop, at
    [done.wait(0.1)], at the two lines that wipe the status, or back from
    the call. *)
Inductive spin_pc : Type :=
| AtFor (chars : cycle_iter)
| AtWait (chars : cycle_iter) (status : string)
| AtClear (chars : cycle_iter) (status : string)
| Returned.

(** One move of [spin(msg, done)].  [done] is what the event holds when
    the move is made: [done.wait(0.1)] answers [True] when the event is
    set and [False] when the time has run out with the event unset.  No
    move is left after the return. *)
Definition spin (msg : string) (done : bool) (pc : spin_pc)
    (stdout : list string) : option (spin_pc * list string) :=
  match pc with
  | AtFor chars =>
      match next chars with
      | None => Some (Returned, stdout)
      | Some (char, chars') =>
          let status :=
            carriage_return +:+ String char EmptyString +:+ " " +:+ msg in
          Some (AtWait chars' status, print status EmptyString stdout)
      end
  | AtWait chars status =>
      if done then Some (Returned, stdout)
      else Some (AtClear chars status, stdout)
  | AtClear chars status =>
      let blanks := times " " (String.length status) in
      Some (AtFor chars,
            print (carriage_return +:+ blanks +:+ carriage_return)
                  EmptyString stdout)
  | Returned => None
  end.

(** [slow()]: the three seconds of [time.sleep] are time in which the
    other thread moves; the call returns 42. *)
Definition slow : Z := 42.

(** The [Thread] object: not started yet, or running [spin]. *)
Inductive thread : Type :=
| Initial
| Started (pc : spin_pc).

(** Where the main thread is: in [supervisor], at [print], at
    [spinner.start()], in [slow()], at [done.set()], at [spinner.join()];
    then in [main], at the [print] of the answer, and at its end. *)
Inductive main_pc : Type :=
| AtPrintObject
| AtStart
| AtSlow
| AtSet (result : Z)
| AtJoin (result : Z)
| AtAnswer (result : Z)
| AtExit.

Record system : Type :=
  mkSystem { stdout : list string; done : bool; spinner : thread;
             main : main_pc }.

(** Which thread moves next. *)
Inductive event : Type :=
| Main
| Spin.

Section supervisor.

(** [str(spinner)] for the thread that has not been started. *)
Variable str_spinner : string.

(** A move of the main thread through [supervisor()] and the [print] of
    [main()].  [start()] and [join()] raise RuntimeError for a thread
    started twice or not started; the program has no such call, and the
    model has no move there.  [join()] waits until [spin] has
    returned. *)
Definition step_main (s : system) : option system :=
  match main s with
  | AtPrintObject =>
      Some (mkSystem (print ("spinner object: " +:+ str_spinner) line_feed
                            (stdout s))
                     (done s) (spinner s) AtStart)
  | AtStart =>
      match spinner s with
      | Initial =>
          Some (mkSystem (stdout s) (done s)
                         (Started (AtFor (cycle "\|/-"))) AtSlow)
      | Started _ => None
      end
  | AtSlow => Some (mkSystem (stdout s) (done s) (spinner s) (AtSet slow))
  | AtSet result =>
      Some (mkSystem (stdout s) true (spinner s) (AtJoin result))
  | AtJoin result =>
      match spinner s with
      | Started Returned =>
          Some (mkSystem (stdout s) (done s) (spinner s) (AtAnswer result))
      | _ => None
      end
  | AtAnswer result =>
      Some (mkSystem (print (line_feed +:+ "Answer: " +:+ pretty result)
                            line_feed (stdout s))
                     (done s) (spinner s) AtExit)
  | AtExit => None
  end.

(** A move of the spinner thread: [spin('thinking...', done)]. *)
Definition step_spin (s : system) : option system :=
  match spinner s with
  | Initial => None
  | Started pc =>
      match spin "thinking..." (done s) pc (stdout s) with
      | None => None
      | Some (pc', stdout') =>
          Some (mkSystem stdout' (done s) (Started pc') (main s))
      end
  end.

Definition step (e : event) (s : system) : option system :=
  match e with
  | Main => step_main s
  | Spin => step_spin s
  end.

Fixpoint run (schedule : list event) (s : system) : option system :=
  match schedule with
  | [] => Some s
  | e :: schedule' =>
      match step e s with
      | None => None
      | Some s' => run schedule' s'
      end
  end.

(** The program at the call of [main()]. *)
Definition initial : system := mkSystem [] false Initial AtPrintObject.

End supervisor.

End spinner_thread.

(** ** getflags/flags2_threadpool.py, interrupted at the head of the loop

    [flags2_threadpool.download_many] above takes the interrupt of the
    operator inside [future.result()], where the [try] statement of the
    loop catches it.  The loop [for future in done_iter] also waits, at
    its head, for the next future that [as_completed] yields; that wait
    stands outside the [try] statement, and an interrupt that arrives
    there is not caught.  The definitions below are those of
    [flags2_threadpool] with this second place added. *)

Module flags2_threadpool_interrupted.
Import py flags2_common.
Import flags2_threadpool (Future, outcome, fid, locals, mkLocals, counter,
  status, error_msg, flow, Next, Break, Propagate, try_status, tally,
  submit_all, as_completed, Counter).

(** Where the interrupt of the operator arrives in a round of the loop:
    while the loop waits for its next future, or inside
    [future.result()]. *)
Inductive interrupt : Type :=
| InWait (round : nat)
| InResult (round : nat).

#[global] Instance interrupt_eq_dec : EqDecision interrupt.
Proof. solve_decision. Defined.

(** What the run of the pool decides: the order in which [as_completed]
    yields the futures, and the interrupt of the operator, if any. *)
Record schedule : Type := mkSchedule
  { order : list nat; interrupt_at : option interrupt }.

(** The [for future in done_iter] loop.  An interrupt that arrives at the
    head of a round, where the loop asks the iterator for its next future
    (the iterator may have none left), is raised out of the loop; one that
    arrives inside [future.result()] is caught by the [try] statement. *)
Fixpoint for_future (done_iter : list Future) (round : nat)
    (interrupt_at : option interrupt) (l : locals) : flow :=
  if decide (interrupt_at = Some (InWait round))
  then Propagate KeyboardInterrupt
  else
    match done_iter with
    | [] => Next l
    | fut :: done_iter' =>
        let l := mkLocals (counter l) (Some fut) (status l) (error_msg l) in
        let r := if decide (interrupt_at = Some (InResult round))
                 then Raise KeyboardInterrupt
                 else outcome fut in
        match try_status r l with
        | Next l1 => for_future done_iter' (S round) interrupt_at l1
        | Break l1 => Break l1
        | Propagate e => Propagate e
        end
    end.

Section downloads.
Context `{Externals}.

(** [download_many(cc_list, base_url, verbose, concur_req)].  An
    exception that leaves the loop leaves the [with] block, which waits
    for the threads, and then [download_many]. *)
Definition download_many (sched : schedule) (cc_list : list string)
    (base_url : string) (verbose : bool) (concur_req : Z) : M Counter :=
  fun st =>
    let start := mkLocals ∅ None None None in  (* counter = Counter() *)
    if concur_req <=? 0
    then (Raise (ValueError "max_workers must be greater than 0"), st)
    else
      let '(to_do_map, futures, st1) :=
        submit_all (sorted cc_list) base_url verbose 0 ∅ [] st in
      let done_iter := as_completed futures (order sched) in
      match for_future done_iter 0 (interrupt_at sched) start with
      | Propagate e => (Raise e, st1)
      | Next l | Break l =>
          (do l' <- tally to_do_map verbose l;
           ret (counter l')) st1
      end.

End downloads.

End flags2_threadpool_interrupted.

(** ** Primality: [is_prime] decides primality *)

Module primes_facts.
Import primes.

(** The specification's notion of a prime: at least two, and no divisor
    strictly between one and itself. *)
Definition is_a_prime (n : Z) : Prop :=
  2 <= n /\ forall d, 1 < d < n -> ~ (d | n).

Lemma is_a_prime_Z_prime n : is_a_prime n <-> Z.prime n.
Proof.
  unfold is_a_prime, Z.prime.
  split; intros [H1 H2]; (split; [lia | exact H2]).
Qed.

Lemma is_a_prime_prime n : is_a_prime n <-> prime n.
Proof.
  rewrite <- prime_alt. unfold is_a_prime, Z.prime.
  split; intros [H1 H2]; (split; [lia | exact H2]).
Qed.

Lemma trial_division_spec n l :
  trial_division n l = true <-> Forall (fun i => n mod i <> 0) l.
Proof.
  induction l as [|i l IH]; simpl.
  - split; auto.
  - destruct (Z.eqb_spec (n mod i) 0) as [E|E].
    + split; [discriminate|]. intros H. inversion H; subst. contradiction.
    + rewrite IH. split.
      * intros H. constructor; assumption.
      * intros H. inversion H; assumption.
Qed.

(** The candidates enumerated by [range(3, root + 1, 2)] are the odd
    numbers from 3 up to [root]. *)
Lemma in_py_range_odd root i :
  In i (py_range 3 (root + 1) 2) <-> exists k, 0 <= k /\ i = 3 + 2 * k /\ i <= root.
Proof.
  unfold py_range. rewrite in_map_iff.
  replace (root + 1 - 3 + 2 - 1) with (root - 1) by lia.
  split.
  - intros (k & <- & Hk). apply in_seq in Hk. exists (Z.of_nat k).
    split; [lia|]. split; [reflexivity|].
    zify. Z.div_mod_to_equations. lia.
  - intros (k & Hk & -> & Hle). exists (Z.to_nat k).
    split; [rewrite Z2Nat.id by lia; reflexivity|].
    apply in_seq. zify. Z.div_mod_to_equations. lia.
Qed.


Lemma mod_zero_divide d n : d <> 0 -> (n mod d = 0 <-> (d | n)).
Proof.
  intros Hd. apply Z.mod_divide. exact Hd.
Qed.

(** A proper factorisation has a factor no larger than the integer square
    root. *)
Lemma small_factor n d q :
  1 < d -> 1 < q -> n = d * q -> d <= Z.sqrt n \/ q <= Z.sqrt n.
Proof.
  intros Hd Hq Hn.
  assert (Hpos : 0 <= n) by nia.
  pose proof (Z.sqrt_spec n Hpos) as Hs. cbv zeta in Hs.
  pose proof (Z.sqrt_nonneg n) as Hs0.
  destruct (Z.le_gt_cases d (Z.sqrt n)) as [H|H]; [left; exact H|].
  destruct (Z.le_gt_cases q (Z.sqrt n)) as [H'|H']; [right; exact H'|].
  exfalso. nia.
Qed.

Lemma odd_factor n d : n mod 2 <> 0 -> (d | n) -> exists k, d = 2 * k + 1.
Proof.
  intros Hodd [q Hq]. exists (d / 2).
  assert (d mod 2 <> 0).
  { intros E. apply Hodd. subst n.
    rewrite Z.mul_mod by lia. rewrite E, Z.mul_0_r. reflexivity. }
  Z.div_mod_to_equations. lia.
Qed.

Lemma is_prime_odd_sound n :
  2 < n -> n mod 2 <> 0 ->
  trial_division n (py_range 3 (Z.sqrt n + 1) 2) = true -> is_a_prime n.
Proof.
  intros Hn Hodd Ht. rewrite trial_division_spec, Forall_forall in Ht.
  split; [lia|]. intros d Hd Hdiv.
  destruct Hdiv as [q Hq].
  assert (Hq1 : 1 < q < n) by nia.
  assert (He : exists e, 1 < e /\ e <= Z.sqrt n /\ (e | n)).
  { destruct (small_factor n d q) as [H|H]; [lia|lia|lia| |].
    - exists d. repeat split; [lia|assumption|]. exists q; assumption.
    - exists q. repeat split; [lia|assumption|]. exists d; lia. }
  destruct He as (e & He1 & He2 & He3).
  destruct (odd_factor n e Hodd He3) as [k Hk].
  apply (Ht e).
  - apply list_elem_of_In, in_py_range_odd. exists (k - 1).
    repeat split; lia.
  - apply mod_zero_divide; [lia | assumption].
Qed.

Lemma is_prime_odd_complete n :
  2 < n -> is_a_prime n ->
  trial_division n (py_range 3 (Z.sqrt n + 1) 2) = true.
Proof.
  intros Hn [_ Hp]. rewrite trial_division_spec, Forall_forall.
  intros i Hi Hmod. apply list_elem_of_In, in_py_range_odd in Hi.
  destruct Hi as (k & Hk & -> & Hle).
  assert (Z.sqrt n < n) by (apply Z.sqrt_lt_lin; lia).
  apply (Hp (3 + 2 * k)); [lia|].
  apply mod_zero_divide; [lia | assumption].
Qed.

Lemma is_prime_spec n : is_prime n = true <-> is_a_prime n.
Proof.
  unfold is_prime.
  destruct (Z.ltb_spec n 2) as [H2|H2].
  { split; [discriminate|]. intros [H _]. lia. }
  destruct (Z.eqb_spec n 2) as [E|E].
  { subst n. split; [|reflexivity]. intros _. split; [lia|]. intros d Hd. lia. }
  destruct (Z.eqb_spec (n mod 2) 0) as [Ev|Odd].
  { split; [discriminate|]. intros [_ Hp]. exfalso.
    apply (Hp 2); [lia|]. apply mod_zero_divide; [lia | assumption]. }
  cbv zeta. split.
  - apply is_prime_odd_sound; [lia | assumption].
  - apply is_prime_odd_complete; lia.
Qed.

Lemma is_prime_false_iff n : is_prime n = false <-> ~ is_a_prime n.
Proof.
  rewrite <- is_prime_spec. destruct (is_prime n); split; congruence.
Qed.

Lemma is_prime_composite n a b :
  1 < a -> 1 < b -> n = a * b -> is_prime n = false.
Proof.
  intros Ha Hb Hn. apply is_prime_false_iff. intros [_ Hp].
  apply (Hp a); [nia|]. exists b. lia.
Qed.


(** *** Certificates of primality

    The primes of the fixture have sixteen digits; [is_prime] needs some
    fifty million trial divisions for each of them.  They are shown prime
    by Pocklington's criterion instead: [N] is prime when [N - 1] has a
    divisor [F], a product of known primes with [F * F >= N], and a base
    [a] with [a ^ (N - 1) = 1] modulo [N] and [a ^ ((N - 1) / q) - 1] prime
    to [N] for every prime [q] of [F]. *)

Lemma prime_by_trial q : is_prime q = true -> Z.prime q.
Proof. intros H. apply is_a_prime_Z_prime, is_prime_spec, H. Qed.

Lemma prime_factor n : 1 < n -> exists p, Z.prime p /\ (p | n).
Proof.
  remember (Z.to_nat n) as k eqn:Hk. revert n Hk.
  induction k as [k IH] using lt_wf_ind. intros n Hk Hn.
  destruct (prime_dec n) as [Hp|Hnp].
  - exists n. split; [apply prime_alt; exact Hp | apply Z.divide_refl].
  - destruct (not_prime_divide n Hn Hnp) as (m & Hm & Hdiv).
    destruct (IH (Z.to_nat m) ltac:(lia) m eq_refl ltac:(lia))
      as (p & Hp & Hpm).
    exists p. split; [exact Hp|]. eapply Z.divide_trans; eassumption.
Qed.

Lemma prime_divides_product p qs :
  Z.prime p -> (p | fold_right Z.mul 1 qs) -> exists q, In q qs /\ (p | q).
Proof.
  intros Hp. induction qs as [|q qs IH]; simpl; intros Hdiv.
  - exfalso. apply Z.divide_1_r in Hdiv. pose proof (Z.prime_ge_2 p Hp). lia.
  - destruct (proj1 (Z.divide_prime_mul _ _ p Hp) Hdiv) as [H|H].
    + exists q. split; [left; reflexivity | exact H].
    + destruct (IH H) as (q' & Hin & Hq'). exists q'. split; [right|]; assumption.
Qed.

Lemma product_of_primes_pos qs :
  Forall Z.prime qs -> 0 < fold_right Z.mul 1 qs.
Proof.
  induction 1 as [|q qs Hq _ IH]; simpl; [lia|].
  pose proof (Z.prime_ge_2 q Hq). nia.
Qed.

Section order.

Variables p a : Z.
Hypothesis p_prime : Z.prime p.
Hypothesis p_not_a : ~ (p | a).

(** [a ^ e] is one modulo [p]. *)
Definition unit_power (e : Z) : Prop := (p | a ^ e - 1).

Lemma not_divide_power e : 0 <= e -> ~ (p | a ^ e).
Proof.
  intros He. pattern e. apply natlike_ind; [| |exact He].
  - simpl. intros H. apply Z.divide_1_r in H.
    pose proof (Z.prime_ge_2 p p_prime). lia.
  - intros x Hx IH. rewrite Z.pow_succ_r by exact Hx. intros H.
    destruct (proj1 (Z.divide_prime_mul _ _ p p_prime) H); contradiction.
Qed.

Lemma unit_power_mul d k :
  0 <= d -> 0 <= k -> unit_power d -> unit_power (d * k).
Proof.
  intros Hd Hk Hone. unfold unit_power in *.
  rewrite Z.pow_mul_r by assumption.
  pattern k. apply natlike_ind; [| |exact Hk].
  - simpl. apply Z.divide_0_r.
  - intros x Hx IH. rewrite Z.pow_succ_r by exact Hx.
    replace (a ^ d * (a ^ d) ^ x - 1)
      with (a ^ d * ((a ^ d) ^ x - 1) + (a ^ d - 1)) by ring.
    apply Z.divide_add_r; [apply Z.divide_mul_r|]; assumption.
Qed.

(** From [a ^ (i + j) = a ^ i] modulo [p] to [a ^ j = 1] modulo [p]. *)
Lemma unit_power_cancel i j :
  0 <= i -> 0 <= j -> (p | a ^ (i + j) - a ^ i) -> unit_power j.
Proof.
  intros Hi Hj H. unfold unit_power.
  rewrite Z.pow_add_r in H by assumption.
  replace (a ^ i * a ^ j - a ^ i) with (a ^ i * (a ^ j - 1)) in H by ring.
  destruct (proj1 (Z.divide_prime_mul _ _ p p_prime) H) as [H'|H']; [|exact H'].
  exfalso. exact (not_divide_power i Hi H').
Qed.

(** The order of [a] modulo [p]: the least positive [d] with
    [unit_power d]. *)
Definition is_order (d : Z) : Prop :=
  1 <= d /\ unit_power d /\ forall d', 1 <= d' < d -> ~ unit_power d'.

Lemma order_exists e : 1 <= e -> unit_power e -> exists d, d <= e /\ is_order d.
Proof.
  intros He Hone.
  assert (Hsearch : forall n, 0 <= n ->
            (exists d, d <= n /\ is_order d) \/
            (forall d', 1 <= d' <= n -> ~ unit_power d')).
  { intros n Hn. pattern n. apply natlike_ind; [| |exact Hn].
    - right. intros d' Hd'. lia.
    - intros x Hx [(d & Hd & Hord)|Hnone].
      + left. exists d. split; [lia | exact Hord].
      + assert (Hdec : (p | a ^ Z.succ x - 1) \/ ~ (p | a ^ Z.succ x - 1)).
        { pose proof (Z.prime_ge_2 p p_prime).
          destruct (Z.eq_dec ((a ^ Z.succ x - 1) mod p) 0) as [E|E].
          - left. apply Z.mod_divide; [lia | exact E].
          - right. intros Hy. apply E. apply Z.mod_divide; [lia | exact Hy]. }
        destruct Hdec as [Hy|Hn'].
        * left. exists (Z.succ x). split; [lia|].
          split; [lia|]. split; [exact Hy|].
          intros d' Hd'. apply Hnone. lia.
        * right. intros d' Hd'.
          destruct (Z.eq_dec d' (Z.succ x)) as [->|Hne]; [exact Hn'|].
          apply Hnone. lia. }
  destruct (Hsearch e ltac:(lia)) as [H|H]; [exact H|].
  exfalso. apply (H e); [lia | exact Hone].
Qed.

Lemma order_divides d e : is_order d -> 0 <= e -> unit_power e -> (d | e).
Proof.
  intros (Hd & Hone & Hmin) He Hpow.
  assert (Hr : e mod d = 0).
  { pose proof (Z.mod_pos_bound e d ltac:(lia)) as Hb.
    destruct (Z.eq_dec (e mod d) 0) as [E|E]; [exact E|]. exfalso.
    apply (Hmin (e mod d)); [lia|].
    apply (unit_power_cancel (d * (e / d)) (e mod d)).
    - pose proof (Z.div_pos e d He ltac:(lia)). nia.
    - lia.
    - rewrite <- Z.div_mod by lia.
      pose proof (unit_power_mul d (e / d) ltac:(lia)
                    (Z.div_pos e d He ltac:(lia)) Hone) as Hmul.
      unfold unit_power in *.
      replace (a ^ e - a ^ (d * (e / d)))
        with ((a ^ e - 1) - (a ^ (d * (e / d)) - 1)) by ring.
      apply Z.divide_sub_r; assumption. }
  apply Z.mod_divide; [lia | exact Hr].
Qed.

(** The powers below the order are pairwise distinct residues, none of
    them zero, so there are at most [p - 1] of them. *)
Lemma order_below d : is_order d -> d <= p - 1.
Proof.
  intros (Hd & Hone & Hmin).
  pose proof (Z.prime_ge_2 p p_prime) as Hp2.
  set (powers := (fun i : nat => a ^ Z.of_nat i mod p) <$> seq 0 (Z.to_nat d)).
  set (residues := Z.of_nat <$> seq 1 (Z.to_nat (p - 1))).
  assert (Hnodup : NoDup powers).
  { apply NoDup_fmap_2_strong; [|apply NoDup_seq].
    assert (Hlt : forall i j : nat,
              (i < j)%nat -> Z.of_nat j < d ->
              a ^ Z.of_nat i mod p = a ^ Z.of_nat j mod p -> False).
    { intros i j Hij Hj Heq.
      apply (Hmin (Z.of_nat j - Z.of_nat i)); [lia|].
      apply (unit_power_cancel (Z.of_nat i)); [lia|lia|].
      replace (Z.of_nat i + (Z.of_nat j - Z.of_nat i)) with (Z.of_nat j) by lia.
      apply Z.mod_divide; [lia|].
      rewrite Zminus_mod, Heq, Z.sub_diag. apply Z.mod_0_l. lia. }
    intros i j Hi Hj Heq.
    apply elem_of_seq in Hi, Hj.
    destruct (Nat.lt_trichotomy i j) as [H|[H|H]]; [|exact H|].
    - exfalso. apply (Hlt i j); [exact H | lia | exact Heq].
    - exfalso. apply (Hlt j i); [exact H | lia | symmetry; exact Heq]. }
  assert (Hincl : forall x, x ∈ powers -> x ∈ residues).
  { intros x Hx. apply list_elem_of_fmap in Hx. destruct Hx as (i & -> & Hi).
    pose proof (Z.mod_pos_bound (a ^ Z.of_nat i) p ltac:(lia)) as Hb.
    assert (Hnz : a ^ Z.of_nat i mod p <> 0).
    { intros E. apply Z.mod_divide in E; [|lia].
      exact (not_divide_power (Z.of_nat i) ltac:(lia) E). }
    apply list_elem_of_fmap. exists (Z.to_nat (a ^ Z.of_nat i mod p)).
    split; [lia|]. apply elem_of_seq. lia. }
  pose proof (submseteq_length _ _ (NoDup_submseteq _ _ Hnodup Hincl)) as Hlen.
  unfold powers, residues in Hlen.
  rewrite !length_fmap, !length_seq in Hlen. lia.
Qed.

End order.

Section pocklington.

Variables N a R : Z.
Variable qs : list Z.
Hypothesis N_large : 1 < N.
Hypothesis qs_prime : Forall Z.prime qs.
Hypothesis N_pred : N - 1 = fold_right Z.mul 1 qs * R.
Hypothesis F_large : N <= fold_right Z.mul 1 qs * fold_right Z.mul 1 qs.
Hypothesis a_unit : Zpow_mod a (N - 1) N = 1.
Hypothesis a_witness :
  Forall (fun q => Z.gcd (Zpow_mod a ((N - 1) / q) N - 1) N = 1) qs.

Lemma factor_above p : Z.prime p -> (p | N) -> fold_right Z.mul 1 qs < p.
Proof.
  intros Hp HpN. set (F := fold_right Z.mul 1 qs) in *.
  pose proof (Z.prime_ge_2 p Hp) as Hp2.
  pose proof (product_of_primes_pos qs qs_prime) as HF. fold F in HF.
  assert (Hone : unit_power p a (N - 1)).
  { unfold unit_power. apply Z.divide_trans with N; [exact HpN|].
    rewrite Zpow_mod_correct in a_unit by lia.
    apply Z.mod_divide; [lia|].
    rewrite Zminus_mod, a_unit. rewrite (Z.mod_small 1 N) by lia.
    rewrite Z.sub_diag. apply Z.mod_0_l. lia. }
  assert (Hpa : ~ (p | a)).
  { intros Hdiv. unfold unit_power in Hone.
    assert (Hpow : (p | a ^ (N - 1))).
    { replace (N - 1) with (Z.succ (N - 2)) by lia.
      rewrite Z.pow_succ_r by lia. apply Z.divide_mul_l. exact Hdiv. }
    assert (H1 : (p | 1)).
    { replace 1 with (a ^ (N - 1) - (a ^ (N - 1) - 1)) by ring.
      apply Z.divide_sub_r; assumption. }
    apply Z.divide_1_r in H1. lia. }
  destruct (order_exists p a Hp (N - 1) ltac:(lia) Hone) as (d & Hde & Hord).
  pose proof (order_divides p a Hp Hpa d (N - 1) Hord ltac:(lia) Hone)
    as [k Hk].
  pose proof (order_below p a Hp Hpa d Hord) as Hdp.
  destruct Hord as (Hd1 & Hd & Hmin).
  assert (Hrel : Z.gcd F k = 1).
  { pose proof (Z.gcd_nonneg F k) as Hg0.
    destruct (Z.eq_dec (Z.gcd F k) 1) as [E|E]; [exact E|]. exfalso.
    assert (Hg : 1 < Z.gcd F k).
    { assert (Z.gcd F k <> 0); [|lia].
      intros E0. apply Z.gcd_eq_0_l in E0. lia. }
    destruct (prime_factor _ Hg) as (q & Hq & Hqg).
    assert (HqF : (q | F)).
    { eapply Z.divide_trans; [exact Hqg | apply Z.gcd_divide_l]. }
    assert (Hqk : (q | k)).
    { eapply Z.divide_trans; [exact Hqg | apply Z.gcd_divide_r]. }
    destruct (prime_divides_product q qs Hq HqF) as (q' & Hin & Hqq').
    rewrite Forall_forall in qs_prime, a_witness.
    assert (q = q').
    { apply Z.divide_prime_prime;
        [exact Hq | apply qs_prime, list_elem_of_In, Hin | exact Hqq']. }
    subst q'.
    specialize (a_witness q (proj2 (list_elem_of_In _ _) Hin)).
    pose proof (Z.prime_ge_2 q Hq) as Hq2.
    destruct Hqk as [k' Hk'].
    assert (Hdivq : (N - 1) / q = k' * d).
    { rewrite Hk, Hk'. replace (k' * q * d) with (k' * d * q) by ring.
      apply Z.div_mul. lia. }
    assert (Hk'pos : 0 <= k') by nia.
    assert (Hunit : unit_power p a ((N - 1) / q)).
    { rewrite Hdivq, Z.mul_comm.
      apply unit_power_mul; [lia | exact Hk'pos | exact Hd]. }
    assert (Hpg : (p | Z.gcd (Zpow_mod a ((N - 1) / q) N - 1) N)).
    { apply Z.gcd_greatest; [|exact HpN].
      rewrite Zpow_mod_correct by lia.
      unfold unit_power in Hunit.
      rewrite Z.mod_eq by lia.
      replace (a ^ ((N - 1) / q) - N * (a ^ ((N - 1) / q) / N) - 1)
        with ((a ^ ((N - 1) / q) - 1) - N * (a ^ ((N - 1) / q) / N)) by ring.
      apply Z.divide_sub_r; [exact Hunit|].
      apply Z.divide_mul_l. exact HpN. }
    rewrite a_witness in Hpg. apply Z.divide_1_r in Hpg. lia. }
  assert (HFd : (F | d)).
  { apply (Z.gauss F k d); [|exact Hrel].
    rewrite <- Hk, N_pred. fold F. apply Z.divide_mul_l, Z.divide_refl. }
  apply Z.divide_pos_le in HFd; lia.
Qed.

Theorem pocklington : Z.prime N.
Proof.
  apply is_a_prime_Z_prime. split; [lia|].
  intros u Hu [v Hv].
  set (F := fold_right Z.mul 1 qs) in *.
  assert (Hv1 : 1 < v) by nia.
  assert (Hsmall : exists m, 1 < m /\ (m | N) /\ m * m <= N).
  { destruct (Z.le_gt_cases u v).
    - exists u. split; [lia|]. split; [exists v; exact Hv | nia].
    - exists v. split; [lia|]. split; [exists u; lia | nia]. }
  destruct Hsmall as (m & Hm & HmN & Hmm).
  destruct (prime_factor m Hm) as (p & Hp & Hpm).
  pose proof (factor_above p Hp (Z.divide_trans _ _ _ Hpm HmN)) as HFp.
  pose proof (Z.divide_pos_le p m ltac:(lia) Hpm) as Hple.
  pose proof (product_of_primes_pos qs qs_prime) as HF. fold F in HF, HFp.
  nia.
Qed.

End pocklington.

(** *** Checking the fixture *)

Ltac small_primes :=
  repeat (constructor;
          [first [assumption | apply prime_by_trial; vm_compute; reflexivity]|]);
  try constructor.

Ltac certified a R qs :=
  apply (pocklington _ a R qs);
  [ lia
  | small_primes
  | vm_compute; reflexivity
  | vm_compute; discriminate
  | vm_compute; reflexivity
  | repeat (constructor; [vm_compute; reflexivity|]); constructor ].

Lemma prime_263013367 : Z.prime 263013367.
Proof.
  certified 7 5869 [2; 3; 7; 11; 97].
Qed.

Lemma prime_142702110479723 : Z.prime 142702110479723.
Proof.
  pose proof prime_263013367.
  certified 2 1 [2; 67; 4049; 263013367].
Qed.

Lemma prime_30049505749 : Z.prime 30049505749.
Proof.
  certified 2 138403 [2; 2; 3; 3; 37; 163].
Qed.

Lemma prime_299593572317531 : Z.prime 299593572317531.
Proof.
  pose proof prime_30049505749.
  certified 2 1 [2; 5; 997; 30049505749].
Qed.

Lemma prime_3333333333333301 : Z.prime 3333333333333301.
Proof.
  certified 2 909091 [2; 2; 3; 5; 5; 11; 239; 4649].
Qed.

Lemma prime_4444444444444423 : Z.prime 4444444444444423.
Proof.
  certified 3 19239541 [2; 3; 11; 71; 49297].
Qed.

Lemma prime_5555555555555503 : Z.prime 5555555555555503.
Proof.
  certified 3 593353 [2; 3; 3; 3; 3; 7; 523; 15787].
Qed.

Lemma prime_11990407673861 : Z.prime 11990407673861.
Proof.
  certified 2 10531 [2; 2; 5; 7; 11; 227; 3257].
Qed.

Lemma prime_3333333333333359 : Z.prime 3333333333333359.
Proof.
  pose proof prime_11990407673861.
  certified 11 1 [2; 139; 11990407673861].
Qed.

Lemma prime_6666666666666719 : Z.prime 6666666666666719.
Proof.
  pose proof prime_3333333333333359.
  certified 11 1 [2; 3333333333333359].
Qed.

Lemma prime_4096861991 : Z.prime 4096861991.
Proof.
  certified 17 1 [2; 5; 13; 101; 312023].
Qed.

Lemma prime_7777777777777753 : Z.prime 7777777777777753.
Proof.
  pose proof prime_4096861991.
  certified 5 1 [2; 2; 2; 3; 79103; 4096861991].
Qed.

Lemma prime_2615477 : Z.prime 2615477.
Proof.
  certified 2 1 [2; 2; 373; 1753].
Qed.

Lemma prime_15692863 : Z.prime 15692863.
Proof.
  pose proof prime_2615477.
  certified 3 1 [2; 3; 2615477].
Qed.

Lemma prime_11487175717 : Z.prime 11487175717.
Proof.
  pose proof prime_15692863.
  certified 5 1 [2; 2; 3; 61; 15692863].
Qed.

Lemma prime_390563974379 : Z.prime 390563974379.
Proof.
  pose proof prime_11487175717.
  certified 2 1 [2; 17; 11487175717].
Qed.

Lemma prime_9999999999999917 : Z.prime 9999999999999917.
Proof.
  pose proof prime_390563974379.
  certified 2 1 [2; 2; 37; 173; 390563974379].
Qed.

Lemma prime_fixture_is_prime N : Z.prime N -> is_prime N = true.
Proof. intros H. apply is_prime_spec, is_a_prime_Z_prime, H. Qed.

Lemma PRIME_FIXTURE_agrees :
  Forall (fun entry => is_prime (fst entry) = snd entry) PRIME_FIXTURE.
Proof.
  unfold PRIME_FIXTURE.
  repeat match goal with
  | |- Forall _ [] => constructor
  | |- Forall _ (_ :: _) => constructor; cbn [fst snd]
  end.
  - reflexivity.
  - apply prime_fixture_is_prime, prime_142702110479723.
  - apply prime_fixture_is_prime, prime_299593572317531.
  - apply prime_fixture_is_prime, prime_3333333333333301.
  - apply (is_prime_composite _ 3 1111111111111111); reflexivity.
  - apply (is_prime_composite _ 57735047 57735047); reflexivity.
  - apply prime_fixture_is_prime, prime_4444444444444423.
  - apply (is_prime_composite _ 2 2222222222222222); reflexivity.
  - apply (is_prime_composite _ 66666667 66666667); reflexivity.
  - apply (is_prime_composite _ 74535583 74535583); reflexivity.
  - apply prime_fixture_is_prime, prime_5555555555555503.
  - apply (is_prime_composite _ 5 1111111111111111); reflexivity.
  - apply (is_prime_composite _ 2 3333333333333333); reflexivity.
  - apply prime_fixture_is_prime, prime_6666666666666719.
  - apply (is_prime_composite _ 81649661 81649661); reflexivity.
  - apply (is_prime_composite _ 88191709 88191709); reflexivity.
  - apply prime_fixture_is_prime, prime_7777777777777753.
  - apply (is_prime_composite _ 7 1111111111111111); reflexivity.
  - apply prime_fixture_is_prime, prime_9999999999999917.
  - apply (is_prime_composite _ 3 3333333333333333); reflexivity.
Qed.

End primes_facts.

Example is_prime_small :
  map primes.is_prime [-3; 0; 1; 2; 3; 4; 9; 25; 29; 49; 97; 121] =
  [false; false; false; true; true; false; false; false; true; false; true; false].
Proof. reflexivity. Qed.

(** ** The process pool: sentinels, markers and the drain loop *)

Module procs_facts.
Import procs.

Lemma length_py_range_0 (procs : Z) :
  length (primes.py_range 0 procs 1) = Z.to_nat procs.
Proof.
  unfold primes.py_range. rewrite length_map, length_seq.
  f_equal. rewrite Z.div_1_r. lia.
Qed.

(** *** Counting over results and workers *)

(** How many elements of a list satisfy [f]. *)
Fixpoint how_many {A : Type} (f : A -> bool) (l : list A) : nat :=
  match l with
  | [] => 0
  | x :: l' => (if f x then 1 else 0) + how_many f l'
  end.

Lemma how_many_app {A} (f : A -> bool) l l' :
  how_many f (l ++ l') = (how_many f l + how_many f l')%nat.
Proof. induction l as [|x l IH]; simpl; [reflexivity | rewrite IH; lia]. Qed.

Lemma how_many_le {A} (f : A -> bool) l : (how_many f l <= length l)%nat.
Proof. induction l as [|x l IH]; simpl; [lia | destruct (f x); lia]. Qed.

Lemma how_many_insert {A} (f : A -> bool) (l : list A) i x x' :
  l !! i = Some x ->
  (how_many f (<[i := x']> l) + (if f x then 1 else 0) =
   how_many f l + (if f x' then 1 else 0))%nat.
Proof.
  intros Hi.
  rewrite insert_take_drop by (eapply lookup_lt_Some; eassumption).
  rewrite <- (take_drop_middle l i x Hi) at 3.
  rewrite !how_many_app. simpl. lia.
Qed.

Lemma how_many_all {A} (f : A -> bool) l :
  how_many f l = length l -> Forall (fun x => f x = true) l.
Proof.
  induction l as [|x l IH]; intros H; [constructor|]. simpl in H.
  pose proof (how_many_le f l).
  destruct (f x) eqn:E; [|lia].
  constructor; [exact E | apply IH; lia].
Qed.

Lemma how_many_Forall {A} (f : A -> bool) l :
  Forall (fun x => f x = true) l -> how_many f l = length l.
Proof.
  induction 1 as [|x l Hx _ IH]; simpl; [reflexivity|].
  rewrite Hx, IH. reflexivity.
Qed.

Lemma how_many_none {A} (f : A -> bool) l :
  how_many f l = 0%nat -> Forall (fun x => f x = false) l.
Proof.
  induction l as [|x l IH]; intros H; [constructor|]. simpl in H.
  destruct (f x) eqn:E; [lia|].
  constructor; [exact E | apply IH; lia].
Qed.

Lemma how_many_some {A} (f : A -> bool) l :
  (0 < how_many f l)%nat -> exists i x, l !! i = Some x /\ f x = true.
Proof.
  induction l as [|x l IH]; simpl; [lia|].
  destruct (f x) eqn:E.
  - intros _. exists 0%nat, x. split; [reflexivity | exact E].
  - intros H. destruct (IH H) as (i & x' & Hi & Hx).
    exists (S i), x'. split; assumption.
Qed.

Lemma how_many_last {A} (f : A -> bool) l :
  l <> [] -> (forall x, last l = Some x -> f x = true) ->
  (0 < how_many f l)%nat.
Proof.
  induction l as [|x l IH]; intros Hne Hlast; [congruence|]. simpl.
  destruct l as [|y l].
  - rewrite (Hlast x eq_refl). simpl. lia.
  - assert (0 < how_many f (y :: l))%nat; [|lia].
    apply IH; [discriminate|]. intros z Hz. apply Hlast. exact Hz.
Qed.

Definition is_marker (r : PrimeResult) : bool := n r =? 0.

Definition markers (rs : ResultQueue) : nat := how_many is_marker rs.
Definition checks (rs : ResultQueue) : nat :=
  how_many (fun r => negb (is_marker r)) rs.

Lemma markers_checks rs : (markers rs + checks rs)%nat = length rs.
Proof.
  unfold markers, checks.
  induction rs as [|r rs IH]; simpl; [reflexivity|].
  destruct (is_marker r); simpl; lia.
Qed.

(** The program points of a worker. *)
Definition active (w : worker_state) : bool :=
  match pc w with AtGet | AtPut _ => true | _ => false end.
Definition holding (w : worker_state) : bool :=
  match pc w with AtPut _ => true | _ => false end.
Definition leaving (w : worker_state) : bool :=
  match pc w with AtMarker => true | _ => false end.
Definition gone (w : worker_state) : bool :=
  match pc w with Exited => true | _ => false end.

Lemma census_partition ws :
  (how_many active ws + how_many leaving ws + how_many gone ws)%nat = length ws.
Proof.
  induction ws as [|w ws IH]; [reflexivity|]. simpl.
  destruct w as [[] ? ?]; simpl in *; lia.
Qed.

Lemma census_holding_active ws : (how_many holding ws <= how_many active ws)%nat.
Proof.
  induction ws as [|w ws IH]; [reflexivity|]. simpl.
  destruct w as [[] ? ?]; simpl in *; lia.
Qed.

(** *** The three functions run alone *)

Section alone.

Variable perf_counter : nat -> float.

Lemma fold_put (xs : list Z) (q : JobQueue) :
  fold_left (fun jobs n => jobs ++ [n]) xs q = q ++ xs.
Proof.
  revert q. induction xs as [|x xs IH]; intros q; simpl.
  - rewrite app_nil_r. reflexivity.
  - rewrite IH, <- app_assoc. reflexivity.
Qed.

Lemma fold_poison {A} (l : list A) (q : JobQueue) (k : nat) :
  fold_left (fun '(jobs, started) _ => (jobs ++ [0], S started)) l (q, k) =
  (q ++ repeat 0 (length l), (k + length l)%nat).
Proof.
  revert q k. induction l as [|x l IH]; intros q k; simpl.
  - rewrite app_nil_r. f_equal. lia.
  - rewrite IH, <- app_assoc. simpl. f_equal. lia.
Qed.

Lemma start_jobs_spec NUMBERS procs q :
  start_jobs NUMBERS procs q =
  (q ++ NUMBERS ++ repeat 0 (Z.to_nat procs), Z.to_nat procs).
Proof.
  unfold start_jobs. rewrite fold_put, fold_poison, length_py_range_0.
  rewrite <- app_assoc. reflexivity.
Qed.

(** The results of checking [xs] one after the other, the clock having
    been read [ticks] times before. *)
Fixpoint checked_in_turn (xs : list Z) (ticks : nat) : list PrimeResult :=
  match xs with
  | [] => []
  | x :: xs' => check perf_counter x ticks :: checked_in_turn xs' (S (S ticks))
  end.

Lemma checked_in_turn_n xs ticks : map n (checked_in_turn xs ticks) = xs.
Proof.
  revert ticks. induction xs as [|x xs IH]; intros ticks; simpl;
    [reflexivity | rewrite IH; reflexivity].
Qed.

Lemma checked_in_turn_prime xs ticks :
  map prime (checked_in_turn xs ticks) = map primes.is_prime xs.
Proof.
  revert ticks. induction xs as [|x xs IH]; intros ticks; simpl;
    [reflexivity | rewrite IH; reflexivity].
Qed.

Lemma checked_in_turn_checks xs ticks :
  Forall (fun x => x <> 0) xs ->
  checks (checked_in_turn xs ticks) = length xs /\
  markers (checked_in_turn xs ticks) = 0%nat.
Proof.
  revert ticks. unfold checks, markers.
  induction xs as [|x xs IH]; intros ticks H; simpl; [split; reflexivity|].
  inversion H as [|? ? Hx Hxs]; subst.
  destruct (IH (S (S ticks)) Hxs) as [-> ->].
  assert (E : is_marker (check perf_counter x ticks) = false).
  { unfold is_marker. simpl. apply Z.eqb_neq. exact Hx. }
  rewrite E. split; reflexivity.
Qed.

Lemma worker_spec xs rest rs ticks :
  Forall (fun x => x <> 0) xs ->
  worker perf_counter (xs ++ 0 :: rest) rs ticks =
  (Returned tt, rest, rs ++ checked_in_turn xs ticks ++ [done_marker],
   (ticks + 2 * length xs)%nat).
Proof.
  revert rs ticks. induction xs as [|x xs IH]; intros rs ticks H; simpl.
  - repeat f_equal. lia.
  - inversion H as [|? ? Hx Hxs]; subst.
    destruct (Z.eqb_spec x 0); [contradiction|].
    rewrite IH by assumption. rewrite <- app_assoc. simpl.
    repeat f_equal. lia.
Qed.

Lemma worker_blocks xs rs ticks :
  Forall (fun x => x <> 0) xs ->
  worker perf_counter xs rs ticks =
  (Blocked, [], rs ++ checked_in_turn xs ticks, (ticks + 2 * length xs)%nat).
Proof.
  revert rs ticks. induction xs as [|x xs IH]; intros rs ticks H; simpl.
  - rewrite app_nil_r. repeat f_equal. lia.
  - inversion H as [|? ? Hx Hxs]; subst.
    destruct (Z.eqb_spec x 0); [contradiction|].
    rewrite IH by assumption. rewrite <- app_assoc. simpl.
    repeat f_equal. lia.
Qed.

(** The lines [report] prints for a stream of results. *)
Definition lines_of (rs : ResultQueue) : list line :=
  omap (fun r => if is_marker r then None
                 else Some (mkLine (n r) (if prime r then "P" else " ")
                                   (elapsed r))) rs.

(** [report] goes on waiting as long as fewer than [procs] markers have
    come. *)
Lemma report_loop_waits procs rs : forall checked procs_done out,
  Z.of_nat (markers rs) < procs - procs_done ->
  (report_loop procs rs checked procs_done out).1.1.1 = Blocked.
Proof.
  unfold markers.
  induction rs as [|r rs IH]; intros checked procs_done out H; simpl in *.
  - destruct (Z.ltb_spec procs_done procs); [reflexivity | lia].
  - destruct (Z.ltb_spec procs_done procs); [|destruct (is_marker r); lia].
    assert (E : is_marker r = (n r =? 0)) by reflexivity.
    destruct (n r =? 0); rewrite E in H; apply IH; lia.
Qed.

(** On a stream that ends with its [procs]-th marker, [report] reads the
    whole stream and returns the number of results in it. *)
Lemma report_loop_spec procs rs : forall checked procs_done out,
  Z.of_nat (markers rs) = procs - procs_done ->
  (forall r, last rs = Some r -> is_marker r = true) ->
  report_loop procs rs checked procs_done out =
  (Returned (checked + Z.of_nat (checks rs)), [], procs, out ++ lines_of rs).
Proof.
  unfold markers, checks, lines_of.
  induction rs as [|r rs IH]; intros checked procs_done out Hm Hlast; simpl in *.
  - destruct (Z.ltb_spec procs_done procs); [lia|].
    rewrite app_nil_r. repeat f_equal; lia.
  - assert (Hlt : procs_done < procs).
    { pose proof (how_many_last is_marker (r :: rs) ltac:(discriminate) Hlast)
        as Hpos. simpl in Hpos. lia. }
    destruct (Z.ltb_spec procs_done procs); [|lia].
    assert (Hlast' : forall r0, last rs = Some r0 -> is_marker r0 = true).
    { intros r0 Hr0. apply Hlast. destruct rs; [discriminate | exact Hr0]. }
    assert (E : is_marker r = (n r =? 0)) by reflexivity.
    destruct (n r =? 0); rewrite E in *; simpl in *.
    + rewrite IH by (assumption || lia).
      match goal with |- (Returned ?a, _, _, _) = (Returned ?b, _, _, _) =>
        replace a with b by lia end. reflexivity.
    + rewrite IH by (assumption || lia). rewrite <- app_assoc. simpl.
      match goal with |- (Returned ?a, _, _, _) = (Returned ?b, _, _, _) =>
        replace a with b by lia end. reflexivity.
Qed.

End alone.

(** *** The invariant of the running pool *)

Section pool.

Variable perf_counter : nat -> float.
Variable NUMBERS : list Z.
Variable procs : Z.

(** Numbers [start_jobs] has still to enqueue, processes it has still to
    start, sentinels it has still to send. *)
Definition todo_of (p : starter_pc) : list Z :=
  match p with Enqueue todo => todo | _ => [] end.

Definition unstarted (p : starter_pc) : nat :=
  match p with
  | Enqueue _ => Z.to_nat procs
  | Start k | Poison k => k
  | Started => 0
  end.

Definition unsent (p : starter_pc) : nat :=
  match p with
  | Enqueue _ => Z.to_nat procs
  | Start k => k
  | Poison k => S k
  | Started => 0
  end.

(** What a worker has seen and sent at each of its program points. *)
Definition worker_ok (w : worker_state) : Prop :=
  match pc w with
  | AtGet => sentinels_seen w = 0%nat /\ markers_sent w = 0%nat
  | AtPut r => n r <> 0 /\ sentinels_seen w = 0%nat /\ markers_sent w = 0%nat
  | AtMarker => sentinels_seen w = 1%nat /\ markers_sent w = 0%nat
  | Exited => sentinels_seen w = 1%nat /\ markers_sent w = 1%nat
  end.

Definition invariant (s : system) : Prop :=
  exists (rest : list Z) (z : nat),
    jobs s = rest ++ repeat 0 z /\
    Forall (fun x => x <> 0) rest /\
    Forall (fun x => x <> 0) (todo_of (starter s)) /\
    (length (workers s) + unstarted (starter s) = Z.to_nat procs)%nat /\
    (z + unsent (starter s) =
     how_many active (workers s) + unstarted (starter s))%nat /\
    (length (todo_of (starter s)) + length rest +
     how_many holding (workers s) + checks (results s) = length NUMBERS)%nat /\
    markers (results s) = how_many gone (workers s) /\
    (rest <> [] \/ todo_of (starter s) <> [] ->
     how_many active (workers s) = length (workers s)) /\
    (forall r, last (results s) = Some r -> is_marker r = false ->
               (how_many gone (workers s) < Z.to_nat procs)%nat) /\
    Forall worker_ok (workers s) /\
    jobs_put s ++ todo_of (starter s) ++ repeat 0 (unsent (starter s)) =
    NUMBERS ++ repeat 0 (Z.to_nat procs).

Hypothesis no_sentinel_job : Forall (fun x => x <> 0) NUMBERS.

Lemma invariant_initial : invariant (initial NUMBERS).
Proof.
  exists [], 0%nat. simpl.
  repeat split; try (constructor || assumption || lia || reflexivity).
  all: try (intros r Hr; discriminate).
  unfold checks. simpl. lia.
Qed.

Lemma repeat_snoc {A} (x : A) k : repeat x k ++ [x] = repeat x (S k).
Proof. induction k as [|k IH]; simpl; [reflexivity | rewrite IH; reflexivity]. Qed.

Lemma invariant_step_main s s' :
  invariant s -> step_main procs s = Some s' -> invariant s'.
Proof.
  intros (rest & z & Hj & Hrest & Htodo & Hlen & Hz & Hn & Hm & Hall & Hlast
          & Hok & Hput) Hstep.
  unfold step_main in Hstep.
  destruct (starter s) as [[|x todo]|[|k]|k|] eqn:Est;
    inversion Hstep; subst s'; clear Hstep; simpl in *.
  - (* the first loop is over *)
    exists rest, z. rewrite length_py_range_0. simpl.
    repeat split; try assumption; try lia.
  - (* jobs.put(n) *)
    pose proof (how_many_le active (workers s)).
    assert (z = 0%nat) by lia. subst z. simpl in Hj. rewrite app_nil_r in Hj.
    exists (rest ++ [x]), 0%nat. simpl.
    inversion Htodo as [|? ? Hx Htodo']. clear Htodo.
    repeat split; try assumption; try lia.
    + rewrite Hj, app_nil_r. reflexivity.
    + apply Forall_app. split; [assumption|]. constructor; [assumption|constructor].
    + rewrite length_app. simpl. lia.
    + rewrite <- Hput. rewrite <- !app_assoc. reflexivity.
  - (* start_jobs returns *)
    exists rest, z. simpl. repeat split; try assumption; try lia.
  - (* proc.start() *)
    exists rest, z. simpl. rewrite !how_many_app, length_app. simpl.
    repeat split; try assumption; try lia.
    + intros H. specialize (Hall H). lia.
    + intros r Hr Hmk. pose proof (census_partition (workers s)). lia.
    + apply Forall_app. split; [assumption|].
      constructor; [|constructor]. split; reflexivity.
  - (* jobs.put(0) *)
    exists rest, (S z). simpl.
    repeat split; try assumption; try lia.
    + rewrite Hj, <- app_assoc, repeat_snoc. reflexivity.
    + rewrite <- Hput. rewrite <- !app_assoc. reflexivity.
Qed.

Ltac census ws i w w' Hi :=
  pose proof (how_many_insert active ws i w w' Hi);
  pose proof (how_many_insert holding ws i w w' Hi);
  pose proof (how_many_insert leaving ws i w w' Hi);
  pose proof (how_many_insert gone ws i w w' Hi);
  pose proof (census_partition ws);
  pose proof (census_holding_active ws);
  pose proof (census_partition (<[i := w']> ws));
  pose proof (length_insert ws i w').

Lemma invariant_step_worker i s s' :
  invariant s -> step_worker perf_counter i s = Some s' -> invariant s'.
Proof.
  intros (rest & z & Hj & Hrest & Htodo & Hlen & Hz & Hn & Hm & Hall & Hlast
          & Hok & Hput) Hstep.
  unfold step_worker in Hstep.
  destruct (workers s !! i) as [w|] eqn:Hi; [|discriminate].
  assert (Hw : worker_ok w).
  { rewrite Forall_forall in Hok. apply Hok.
    apply list_elem_of_lookup. exists i. exact Hi. }
  unfold worker_ok in Hw.
  destruct w as [p seen sent]. simpl in *.
  destruct p as [|r| |]; simpl in *.
  - (* jobs.get() *)
    destruct (jobs s) as [|x jobs'] eqn:Ejobs; [discriminate|].
    destruct (Z.eqb_spec x 0) as [Ex|Ex];
      inversion Hstep; subst s'; clear Hstep; simpl.
    + (* the sentinel *)
      destruct rest as [|y rest].
      2:{ simpl in Hj. inversion Hj; subst. inversion Hrest; subst. congruence. }
      destruct z as [|z]; [discriminate|].
      simpl in Hj. inversion Hj; subst.
      assert (Htd : todo_of (starter s) = []).
      { destruct (starter s) as [todo| | |] eqn:Est; try reflexivity. simpl in *.
        pose proof (how_many_le active (workers s)). lia. }
      match goal with |- context [<[i := ?w']> _] =>
        census (workers s) i (mkWorker AtGet seen sent) w' Hi end.
      simpl in *.
      exists [], z. simpl. rewrite Htd in *. simpl in *.
      split; [reflexivity|]. split; [assumption|]. split; [assumption|].
      split; [lia|]. split; [lia|]. split; [lia|]. split; [lia|].
      split; [intros [H'|H']; congruence|].
      split; [intros r Hr Hmk; specialize (Hlast r Hr Hmk); lia|].
      split; [|assumption].
      apply Forall_insert; [assumption|]. unfold worker_ok. simpl. lia.
    + (* a number *)
      destruct rest as [|y rest].
      { simpl in Hj. destruct z as [|z]; [discriminate|].
        simpl in Hj. inversion Hj; subst. congruence. }
      simpl in Hj. inversion Hj; subst.
      inversion Hrest as [|? ? Hy Hrest']. subst.
      match goal with |- context [<[i := ?w']> _] =>
        census (workers s) i (mkWorker AtGet seen sent) w' Hi end.
      simpl in *.
      assert (how_many active (workers s) = length (workers s)).
      { apply Hall. left. discriminate. }
      exists rest, z. simpl.
      split; [reflexivity|]. split; [assumption|]. split; [assumption|].
      split; [lia|]. split; [lia|]. split; [lia|]. split; [lia|].
      split; [intros _; lia|].
      split; [intros r Hr Hmk; specialize (Hlast r Hr Hmk); lia|].
      split; [|assumption].
      apply Forall_insert; [assumption|]. unfold worker_ok. simpl.
      split; [exact Hy | lia].
  - (* results.put(check(n)) *)
    inversion Hstep; subst s'; clear Hstep; simpl.
    match goal with |- context [<[i := ?w']> _] =>
      census (workers s) i (mkWorker (AtPut r) seen sent) w' Hi end.
    simpl in *.
    assert (Hr : is_marker r = false).
    { unfold is_marker. apply Z.eqb_neq. tauto. }
    exists rest, z. simpl. unfold checks, markers in *.
    rewrite !how_many_app. simpl. rewrite Hr. simpl.
    split; [assumption|]. split; [assumption|]. split; [assumption|].
    split; [lia|]. split; [lia|]. split; [lia|]. split; [lia|].
    split; [intros H'; specialize (Hall H'); lia|].
    split; [intros r' _ _; lia|].
    split; [|assumption].
    apply Forall_insert; [assumption|]. unfold worker_ok. simpl. lia.
  - (* results.put(PrimeResult(0, False, 0.0)) *)
    inversion Hstep; subst s'; clear Hstep; simpl.
    match goal with |- context [<[i := ?w']> _] =>
      census (workers s) i (mkWorker AtMarker seen sent) w' Hi end.
    simpl in *.
    exists rest, z. simpl. unfold checks, markers in *.
    rewrite !how_many_app. simpl.
    split; [assumption|]. split; [assumption|]. split; [assumption|].
    split; [lia|]. split; [lia|]. split; [lia|]. split; [lia|].
    split; [intros H'; specialize (Hall H'); lia|].
    split; [intros r'; rewrite last_snoc; intros [= <-]; discriminate|].
    split; [|assumption].
    apply Forall_insert; [assumption|]. unfold worker_ok. simpl. lia.
  - discriminate.
Qed.

Lemma invariant_step e s s' :
  invariant s -> step perf_counter procs e s = Some s' -> invariant s'.
Proof.
  destruct e as [|i]; simpl.
  - apply invariant_step_main.
  - apply invariant_step_worker.
Qed.

Lemma invariant_run schedule : forall s s',
  invariant s -> run perf_counter procs schedule s = Some s' -> invariant s'.
Proof.
  induction schedule as [|e schedule IH]; intros s s' Hinv Hrun; simpl in Hrun.
  - inversion Hrun; subst. exact Hinv.
  - destruct (step perf_counter procs e s) as [s1|] eqn:E; [|discriminate].
    apply (IH s1); [|exact Hrun]. eapply invariant_step; eassumption.
Qed.

Lemma invariant_reachable schedule s :
  run perf_counter procs schedule (initial NUMBERS) = Some s -> invariant s.
Proof. apply invariant_run, invariant_initial. Qed.

(** *** The pool comes to rest *)

(** [start_jobs] has returned and every worker has returned. *)
Definition finished (s : system) : Prop :=
  starter s = Started /\ Forall (fun w => pc w = Exited) (workers s).

Lemma gone_exited ws :
  Forall (fun w => gone w = true) ws <-> Forall (fun w => pc w = Exited) ws.
Proof.
  apply Forall_iff. intros [[] ? ?]; unfold gone; simpl; split; congruence.
Qed.

Lemma finished_quiescent s : finished s -> quiescent perf_counter procs s.
Proof.
  intros [Hst Hws] [|i]; simpl.
  - unfold step_main. rewrite Hst. reflexivity.
  - unfold step_worker. destruct (workers s !! i) as [w|] eqn:Hi; [|reflexivity].
    rewrite Forall_forall in Hws. rewrite (Hws w); [reflexivity|].
    apply list_elem_of_lookup. exists i. exact Hi.
Qed.

(** No deadlock: a pool that is not finished has a process that can move. *)
Lemma progress s :
  invariant s ->
  finished s \/ exists e s', step perf_counter procs e s = Some s'.
Proof.
  intros (rest & z & Hj & Hrest & Htodo & Hlen & Hz & Hn & Hm & Hall & Hlast
          & Hok & Hput).
  destruct (starter s) as [[|x todo]|[|k]|k|] eqn:Est;
    try (right; exists Main; simpl; unfold step_main; rewrite Est; eauto; fail).
  simpl in *.
  pose proof (census_partition (workers s)) as Hpart.
  destruct (Nat.eq_dec (how_many leaving (workers s)) 0%nat) as [Hl|Hl].
  2:{ destruct (how_many_some leaving (workers s)) as (i & w & Hi & Hw); [lia|].
      right. exists (Work i). simpl. unfold step_worker. rewrite Hi.
      destruct w as [[] ? ?]; try discriminate. eauto. }
  destruct (Nat.eq_dec (how_many active (workers s)) 0%nat) as [Ha|Ha].
  - left. split; [exact Est|]. apply gone_exited, how_many_all. lia.
  - destruct (how_many_some active (workers s)) as (i & w & Hi & Hw); [lia|].
    right. exists (Work i). simpl. unfold step_worker. rewrite Hi.
    destruct w as [[] ? ?]; try discriminate; simpl; [|eauto].
    destruct z as [|z]; [lia|].
    rewrite Hj. destruct rest as [|y rest]; simpl.
    + eauto.
    + destruct (y =? 0); eauto.
Qed.

(** The number of moves the pool has still to make. *)
Definition starter_moves (p : starter_pc) : nat :=
  match p with
  | Enqueue todo => (3 * length todo + 4 * Z.to_nat procs + 2)%nat
  | Start k => (4 * k + 1)%nat
  | Poison k => (4 * k + 4)%nat
  | Started => 0%nat
  end.

Definition moves_left (s : system) : nat :=
  (starter_moves (starter s) + 2 * length (jobs s) +
   how_many holding (workers s) + how_many leaving (workers s))%nat.

Lemma step_moves_left e s s' :
  step perf_counter procs e s = Some s' -> moves_left s = S (moves_left s').
Proof.
  destruct e as [|i]; simpl; unfold moves_left.
  - unfold step_main.
    destruct (starter s) as [[|x todo]|[|k]|k|] eqn:Est; intros [= <-]; simpl;
      rewrite ?length_py_range_0, ?length_app, ?how_many_app; simpl; lia.
  - unfold step_worker.
    destruct (workers s !! i) as [w|] eqn:Hi; [|discriminate].
    destruct w as [p seen sent]. destruct p as [|r| |]; simpl.
    + destruct (jobs s) as [|x jobs'] eqn:Ejobs; [discriminate|].
      destruct (x =? 0); intros [= <-]; simpl;
        match goal with |- context [<[i := ?w']> _] =>
          census (workers s) i (mkWorker AtGet seen sent) w' Hi end;
        simpl in *; lia.
    + intros [= <-]; simpl.
      match goal with |- context [<[i := ?w']> _] =>
        census (workers s) i (mkWorker (AtPut r) seen sent) w' Hi end.
      simpl in *; lia.
    + intros [= <-]; simpl.
      match goal with |- context [<[i := ?w']> _] =>
        census (workers s) i (mkWorker AtMarker seen sent) w' Hi end.
      simpl in *; lia.
    + discriminate.
Qed.

Lemma run_moves_left schedule : forall s s',
  run perf_counter procs schedule s = Some s' ->
  moves_left s = (length schedule + moves_left s')%nat.
Proof.
  induction schedule as [|e schedule IH]; intros s s' Hrun; simpl in Hrun.
  - inversion Hrun; reflexivity.
  - destruct (step perf_counter procs e s) as [s1|] eqn:E; [|discriminate].
    apply step_moves_left in E. apply IH in Hrun. simpl. lia.
Qed.

Lemma run_app schedule schedule' s s1 s2 :
  run perf_counter procs schedule s = Some s1 ->
  run perf_counter procs schedule' s1 = Some s2 ->
  run perf_counter procs (schedule ++ schedule') s = Some s2.
Proof.
  revert s. induction schedule as [|e schedule IH]; intros s H1 H2; simpl in *.
  - inversion H1; subst. exact H2.
  - destruct (step perf_counter procs e s) as [s'|]; [|discriminate].
    apply IH; assumption.
Qed.

(** From every state the pool can reach, some schedule brings it to rest. *)
Lemma can_finish s :
  invariant s ->
  exists schedule s',
    run perf_counter procs schedule s = Some s' /\ finished s'.
Proof.
  remember (moves_left s) as m eqn:Hm. revert s Hm.
  induction m as [m IH] using lt_wf_ind. intros s Hm Hinv.
  destruct (progress s Hinv) as [Hfin|(e & s1 & Hstep)].
  - exists [], s. split; [reflexivity | exact Hfin].
  - pose proof (step_moves_left _ _ _ Hstep) as Hlt.
    destruct (IH (moves_left s1) ltac:(lia) s1 eq_refl) as (sch & s' & Hrun & Hfin).
    { eapply invariant_step; eassumption. }
    exists (e :: sch), s'. split; [|exact Hfin]. simpl. rewrite Hstep. exact Hrun.
Qed.

(** *** What the pool has done when every worker has returned *)

Lemma all_exited s :
  1 <= procs -> invariant s ->
  (Z.to_nat procs <= how_many gone (workers s))%nat ->
  jobs s = [] /\
  markers (results s) = Z.to_nat procs /\
  checks (results s) = length NUMBERS /\
  (forall r, last (results s) = Some r -> is_marker r = true) /\
  results s <> [] /\
  Forall (fun w => pc w = Exited) (workers s) /\
  length (workers s) = Z.to_nat procs.
Proof.
  intros Hprocs (rest & z & Hj & Hrest & Htodo & Hlen & Hz & Hn & Hm & Hall
                 & Hlast & Hok & Hput) Hgone.
  pose proof (census_partition (workers s)) as Hpart.
  pose proof (census_holding_active (workers s)) as Hhold.
  assert (Htd : todo_of (starter s) = []).
  { destruct (starter s); simpl in *; try reflexivity. lia. }
  rewrite Htd in *. simpl in *.
  assert (Hrest0 : rest = []).
  { destruct rest as [|y rest]; [reflexivity|].
    assert (how_many active (workers s) = length (workers s)).
    { apply Hall. left. discriminate. }
    lia. }
  subst rest. simpl in *.
  assert (z = 0%nat) by lia. subst z.
  split; [exact Hj|]. split; [lia|]. split; [lia|].
  split.
  { intros r Hr. destruct (is_marker r) eqn:E; [reflexivity|].
    specialize (Hlast r Hr E). lia. }
  split.
  { intros E. rewrite E in Hm. unfold markers in Hm. simpl in Hm. lia. }
  split; [|lia].
  apply gone_exited, how_many_all. lia.
Qed.

Lemma gone_bounded s :
  invariant s -> (how_many gone (workers s) <= Z.to_nat procs)%nat.
Proof.
  intros (rest & z & Hj & Hrest & Htodo & Hlen & Hz & Hn & Hm & Hall
          & Hlast & Hok & Hput).
  pose proof (how_many_le gone (workers s)). lia.
Qed.

(** [report] on the results a reachable pool has sent so far. *)
Lemma report_on_reachable s :
  1 <= procs -> invariant s ->
  (forall checked left seen out,
     report procs (results s) = (Returned checked, left, seen, out) ->
     seen = procs /\ checked = Z.of_nat (length NUMBERS) /\ left = [] /\
     out = lines_of (results s) /\
     markers (results s) = Z.to_nat procs /\
     checks (results s) = length NUMBERS /\
     Forall (fun w => pc w = Exited) (workers s)) /\
  (Forall (fun w => pc w = Exited) (workers s) ->
   length (workers s) = Z.to_nat procs ->
   report procs (results s) =
   (Returned (Z.of_nat (length NUMBERS)), [], procs, lines_of (results s))).
Proof.
  intros Hprocs Hinv.
  assert (Hfull : (Z.to_nat procs <= how_many gone (workers s))%nat ->
          report procs (results s) =
          (Returned (Z.of_nat (length NUMBERS)), [], procs,
           lines_of (results s))).
  { intros Hgone.
    destruct (all_exited s Hprocs Hinv Hgone)
      as (_ & Hmk & Hck & Hlast & _ & _ & _).
    unfold report. rewrite report_loop_spec; [|lia|exact Hlast].
    rewrite Hck. reflexivity. }
  split.
  - intros checked left seen out Hrep.
    destruct (Nat.le_gt_cases (Z.to_nat procs) (how_many gone (workers s)))
      as [Hgone|Hgone].
    + rewrite (Hfull Hgone) in Hrep. inversion Hrep; subst.
      destruct (all_exited s Hprocs Hinv Hgone)
        as (_ & Hmk & Hck & _ & _ & Hex & _).
      repeat split; try reflexivity; assumption.
    + exfalso.
      assert (Hm : markers (results s) = how_many gone (workers s)).
      { destruct Hinv as (? & ? & ? & ? & ? & ? & ? & ? & Hm & _). exact Hm. }
      pose proof (report_loop_waits procs (results s) 0 0 []) as Hw.
      unfold report in Hrep. rewrite Hrep in Hw. simpl in Hw.
      assert (Returned checked = Blocked) by (apply Hw; lia). discriminate.
  - intros Hex Hlen. apply Hfull.
    apply gone_exited, how_many_Forall in Hex. lia.
Qed.

(** The sentinels on the job channel and what each worker sees of them. *)
Lemma sentinels_on_reachable s :
  invariant s ->
  (exists later, jobs_put s ++ later = NUMBERS ++ repeat 0 (Z.to_nat procs)) /\
  Forall (fun w => (sentinels_seen w <= 1)%nat /\ (markers_sent w <= 1)%nat /\
                   (pc w = Exited ->
                    sentinels_seen w = 1%nat /\ markers_sent w = 1%nat))
         (workers s) /\
  (finished s ->
   jobs_put s = NUMBERS ++ repeat 0 (Z.to_nat procs) /\
   length (workers s) = Z.to_nat procs).
Proof.
  intros (rest & z & Hj & Hrest & Htodo & Hlen & Hz & Hn & Hm & Hall
          & Hlast & Hok & Hput).
  split; [eexists; exact Hput|]. split.
  - eapply Forall_impl; [exact Hok|].
    intros [[] seen sent]; unfold worker_ok; simpl; intros H;
      repeat split; try lia; try discriminate.
  - intros [Hst _]. rewrite Hst in *. simpl in *.
    rewrite app_nil_r in Hput. split; [exact Hput | lia].
Qed.

End pool.

End procs_facts.
(** ** The flag downloads: classification and tally *)

Module flags_facts.
Import py flags2_common.

(** *** Strings *)

(** A string with a character that is not white space. *)
Fixpoint has_ink (s : string) : bool :=
  match s with
  | EmptyString => false
  | String c s' => negb (isspace c) || has_ink s'
  end.

Lemma has_ink_app s s' : has_ink (s +:+ s') = has_ink s || has_ink s'.
Proof.
  induction s as [|c s IH]; simpl; [reflexivity|].
  rewrite IH. apply orb_assoc.
Qed.

Lemma lstrip_ink s : has_ink s = true -> has_ink (lstrip s) = true.
Proof.
  induction s as [|c s IH]; simpl; [discriminate|].
  destruct (isspace c) eqn:E; simpl.
  - exact IH.
  - rewrite E. reflexivity.
Qed.

Lemma rstrip_ink s : has_ink s = true -> truthy (rstrip s) = true.
Proof.
  induction s as [|c s IH]; simpl; [discriminate|].
  destruct (rstrip s) eqn:Er.
  - destruct (isspace c); simpl; [|reflexivity].
    intros Hs. simpl in IH. specialize (IH Hs). discriminate.
  - reflexivity.
Qed.

Lemma strip_ink s : has_ink s = true -> truthy (strip s) = true.
Proof. intros Hs. apply rstrip_ink, lstrip_ink, Hs. Qed.

(** The message built for a [RequestError] is never empty. *)
Lemma request_error_msg_truthy text cls :
  truthy (strip (text +:+ " " +:+ "<class '" +:+ cls +:+ "'>")) = true.
Proof.
  apply strip_ink. rewrite !has_ink_app. simpl.
  rewrite !orb_true_r. reflexivity.
Qed.

Lemma status_error_msg_truthy (code : Z) reason :
  truthy ("HTTP error " +:+ pretty code +:+ " - " +:+ reason) = true.
Proof. reflexivity. Qed.

(** *** Sorting *)

Lemma insert_sorted_perm x l : Permutation (insert_sorted x l) (x :: l).
Proof.
  induction l as [|y l IH]; simpl; [reflexivity|].
  destruct (String.leb x y); [reflexivity|].
  rewrite IH. apply perm_swap.
Qed.

Lemma sorted_perm l : Permutation (sorted l) l.
Proof.
  induction l as [|x l IH]; simpl; [reflexivity|].
  rewrite insert_sorted_perm, IH. reflexivity.
Qed.

Lemma sorted_length l : length (sorted l) = length l.
Proof. apply Permutation_length, sorted_perm. Qed.

(** *** Counters *)

Abbreviation Counter := (gmap DownloadStatus nat).

(** The sum of the counts of a tally. *)
Definition total (c : Counter) : nat :=
  map_fold (fun _ count sum => (count + sum)%nat) 0%nat c.

Lemma total_empty : total ∅ = 0%nat.
Proof. apply map_fold_empty. Qed.

Lemma total_insert_fresh (c : Counter) s k :
  c !! s = None -> total (<[s := k]> c) = (k + total c)%nat.
Proof.
  intros Hs. unfold total. rewrite map_fold_insert_L; [reflexivity| |exact Hs].
  intros. lia.
Qed.

Lemma total_increment s (c : Counter) :
  total (flags2_sequential.increment s c) = S (total c).
Proof.
  unfold flags2_sequential.increment.
  destruct (c !! s) as [k|] eqn:Hs; simpl.
  - rewrite <- (insert_delete_eq c s (S k)).
    rewrite total_insert_fresh by apply lookup_delete_eq.
    rewrite <- (insert_delete_id c s k Hs) at 2.
    rewrite total_insert_fresh by apply lookup_delete_eq. lia.
  - rewrite total_insert_fresh by exact Hs. lia.
Qed.

Lemma increment_comm a b (c : Counter) :
  flags2_sequential.increment a (flags2_sequential.increment b c) =
  flags2_sequential.increment b (flags2_sequential.increment a c).
Proof.
  unfold flags2_sequential.increment.
  destruct (decide (a = b)) as [->|Hne]; [reflexivity|].
  rewrite !lookup_insert_ne by congruence.
  apply insert_insert_ne. congruence.
Qed.

(** The tally of a list of outcomes, counted one after the other. *)
Definition tally_of (outcomes : list DownloadStatus) : Counter :=
  foldr flags2_sequential.increment ∅ outcomes.

Lemma tally_of_perm outcomes outcomes' :
  Permutation outcomes outcomes' -> tally_of outcomes = tally_of outcomes'.
Proof.
  unfold tally_of. induction 1 as [| x l l' _ IH | x y l | l l' l'' _ IH1 _ IH2];
    simpl.
  - reflexivity.
  - rewrite IH. reflexivity.
  - apply increment_comm.
  - rewrite IH1. exact IH2.
Qed.

Lemma total_tally_of outcomes : total (tally_of outcomes) = length outcomes.
Proof.
  induction outcomes as [|s l IH]; simpl; [apply total_empty|].
  rewrite total_increment, IH. reflexivity.
Qed.

Lemma increment_empty s :
  flags2_sequential.increment s ∅ = ({[s := 1%nat]} : Counter).
Proof.
  unfold flags2_sequential.increment. rewrite lookup_empty. simpl.
  apply insert_empty.
Qed.

Lemma Return_inj {A} (a b : A) : Return a = Return b -> a = b.
Proof. congruence. Qed.

(** *** The sequential download *)

Section sequential.
Context `{Externals}.
Import flags2_sequential.

(** The category under which the loop counts the ending of a call, when
    it counts it. *)
Definition category (r : result DownloadStatus) : option DownloadStatus :=
  match r with
  | Return s => Some s
  | Raise (HTTPStatusError _) | Raise (RequestError _ _) => Some ERROR
  | Raise _ => None
  end.

Lemma tally_counts cc verbose l msg s st :
  error_msg l = Some msg ->
  (if truthy msg then Some ERROR else status l) = Some s ->
  exists st',
    tally cc verbose l st
    = (Return (mkLocals (increment s (counter l)) (Some s) (Some msg)), st') /\
    world st' = world st.
Proof.
  intros Hmsg Hs. unfold tally. rewrite Hmsg. cbv zeta. rewrite Hs.
  destruct (verbose && truthy msg); eexists; split; reflexivity.
Qed.

(** One round of the loop for a call whose ending is counted: the count
    of its category goes up by one and the loop goes on. *)
Lemma round_counts r s cc verbose l st :
  category r = Some s ->
  exists l1 l2 st',
    try_status r l = Next l1 /\
    tally cc verbose l1 st = (Return l2, st') /\
    counter l2 = increment s (counter l) /\
    world st' = world st.
Proof.
  intros Hr.
  assert (Hl1 : exists l1 msg,
             try_status r l = Next l1 /\ counter l1 = counter l /\
             error_msg l1 = Some msg /\
             (if truthy msg then Some ERROR else status l1) = Some s).
  { destruct r as [s0|e]; simpl in Hr.
    - inversion Hr; subst s0. eexists _, _. repeat split; reflexivity.
    - destruct e as [resp|text cls| | | | |]; try discriminate;
        inversion Hr; subst s; eexists _, _; cbn [try_status];
        (split; [reflexivity|]); (split; [reflexivity|]);
        (split; [reflexivity|]).
      + reflexivity.
      + rewrite request_error_msg_truthy. reflexivity. }
  destruct Hl1 as (l1 & msg & Htry & Hc & Hmsg & Hs).
  destruct (tally_counts cc verbose l1 msg s st Hmsg Hs) as (st' & Ht & Hw).
  eexists l1, _, st'. split; [exact Htry|]. split; [exact Ht|].
  split; [simpl; rewrite Hc; reflexivity | exact Hw].
Qed.

(** The calls of a run all end in a way the loop counts: no interrupt, and
    no exception other than the two kinds of [httpx]. *)
Definition calm (base_url : string) (verbose : bool) : Prop :=
  forall cc st,
    exists s, category (download_one cc base_url verbose st).1 = Some s.

Lemma for_cc_total base_url verbose :
  calm base_url verbose ->
  forall cc_iter l st,
    exists l' st',
      for_cc cc_iter base_url verbose l st = (Return l', st') /\
      total (counter l') = (total (counter l) + length cc_iter)%nat.
Proof.
  intros Hcalm cc_iter.
  induction cc_iter as [|cc cc_iter IH]; intros l st; simpl.
  - exists l, st. split; [reflexivity | lia].
  - destruct (Hcalm cc st) as [s Hs].
    destruct (download_one cc base_url verbose st) as [r st1] eqn:Ed.
    simpl in Hs.
    destruct (round_counts r s cc verbose l st1 Hs)
      as (l1 & l2 & st2 & Htry & Htally & Hcount & _).
    rewrite Htry. unfold bind. rewrite Htally.
    destruct (IH l2 st2) as (l' & st' & Hfor & Htotal).
    exists l', st'. split; [exact Hfor|].
    rewrite Htotal, Hcount, total_increment. lia.
Qed.

(** Without interruption the sequential [download_many] counts every job
    of the batch once. *)
Lemma sequential_counts_every_job base_url verbose cc_list concur_req st :
  calm base_url verbose ->
  exists c st',
    download_many cc_list base_url verbose concur_req st = (Return c, st') /\
    total c = length cc_list.
Proof.
  intros Hcalm. unfold download_many, bind.
  destruct (for_cc_total base_url verbose Hcalm (sorted cc_list)
              (mkLocals ∅ None None) st) as (l' & st' & Hfor & Htotal).
  rewrite Hfor. exists (counter l'), st'. split; [reflexivity|].
  rewrite Htotal. simpl. rewrite total_empty, sorted_length. reflexivity.
Qed.

(** An interrupt during the next call ends the loop at once: the loop
    returns the variables as they were, and the state is the one the
    interrupted call left, so nothing more has been called. *)
Lemma for_cc_interrupt cc cc_iter base_url verbose l st st1 :
  download_one cc base_url verbose st = (Raise KeyboardInterrupt, st1) ->
  for_cc (cc :: cc_iter) base_url verbose l st = (Return l, st1).
Proof. intros Hd. simpl. rewrite Hd. reflexivity. Qed.

(** The ending of [download_one] from the ending of [get_flag]. *)
Lemma download_one_not_found cc base_url verbose st resp st1 :
  get_flag base_url cc st = (Raise (HTTPStatusError resp), st1) ->
  status_code resp = 404 ->
  (download_one cc base_url verbose st).1 = Return NOT_FOUND.
Proof.
  intros Hg Hcode. unfold download_one. rewrite Hg.
  unfold NOT_FOUND_code. rewrite Hcode. simpl.
  unfold bind. destruct verbose; reflexivity.
Qed.

Lemma download_one_status_error cc base_url verbose st resp st1 :
  get_flag base_url cc st = (Raise (HTTPStatusError resp), st1) ->
  status_code resp <> 404 ->
  download_one cc base_url verbose st = (Raise (HTTPStatusError resp), st1).
Proof.
  intros Hg Hcode. unfold download_one. rewrite Hg.
  unfold NOT_FOUND_code. destruct (Z.eqb_spec (status_code resp) 404);
    [contradiction | reflexivity].
Qed.

Lemma download_one_raises cc base_url verbose st e st1 :
  get_flag base_url cc st = (Raise e, st1) ->
  (forall resp, e <> HTTPStatusError resp) ->
  download_one cc base_url verbose st = (Raise e, st1).
Proof.
  intros Hg He. unfold download_one. rewrite Hg.
  destruct e; try reflexivity. exfalso. eapply He. reflexivity.
Qed.

Lemma download_one_saved cc base_url verbose st image st1 :
  get_flag base_url cc st = (Return image, st1) ->
  (download_one cc base_url verbose st).1 =
  match (outside (save_flag image (cc +:+ ".gif")) st1).1 with
  | Return _ => Return OK
  | Raise e => Raise e
  end.
Proof.
  intros Hg. unfold download_one. rewrite Hg. unfold bind.
  destruct (outside (save_flag image (cc +:+ ".gif")) st1) as [[[]|e] st2];
    simpl; [|reflexivity].
  destruct verbose; reflexivity.
Qed.

(** A call that returns [NOT_FOUND] had its [get_flag] raise the status
    error 404. *)
Lemma download_one_not_found_inv cc base_url verbose st :
  (download_one cc base_url verbose st).1 = Return NOT_FOUND ->
  exists resp,
    (get_flag base_url cc st).1 = Raise (HTTPStatusError resp) /\
    status_code resp = 404.
Proof.
  unfold download_one.
  destruct (get_flag base_url cc st) as [[image|e] st1]; simpl.
  - unfold bind.
    destruct (outside (save_flag image (cc +:+ ".gif")) st1) as [[[]|e] st2];
      simpl; [destruct verbose|]; discriminate.
  - destruct e as [resp| | | | | |]; try discriminate.
    unfold NOT_FOUND_code.
    destruct (Z.eqb_spec (status_code resp) 404) as [E|E]; [|discriminate].
    intros _. exists resp. split; [reflexivity | exact E].
Qed.

(** The tally of a batch of one job. *)
Lemma download_many_one cc base_url verbose concur_req st s :
  category (download_one cc base_url verbose st).1 = Some s ->
  (download_many [cc] base_url verbose concur_req st).1
  = Return ({[s := 1%nat]} : Counter).
Proof.
  intros Hs. unfold download_many, bind. simpl.
  destruct (download_one cc base_url verbose st) as [r st1]. simpl in Hs.
  destruct (round_counts r s cc verbose (mkLocals ∅ None None) st1 Hs)
    as (l1 & l2 & st2 & Htry & Htally & Hcount & _).
  rewrite Htry. unfold bind. rewrite Htally. unfold ret. cbn [fst].
  rewrite Hcount. cbn [counter]. rewrite increment_empty. reflexivity.
Qed.

Lemma download_many_one_inv cc base_url verbose concur_req st s :
  (download_many [cc] base_url verbose concur_req st).1
  = Return ({[s := 1%nat]} : Counter) ->
  category (download_one cc base_url verbose st).1 = Some s.
Proof.
  destruct (category (download_one cc base_url verbose st).1) as [s'|] eqn:E.
  - rewrite (download_many_one cc base_url verbose concur_req st s' E).
    intros Heq. apply Return_inj in Heq. f_equal.
    assert (Hl : ({[s' := 1%nat]} : Counter) !! s = Some 1%nat).
    { rewrite Heq. apply lookup_singleton_eq. }
    apply lookup_singleton_Some in Hl. tauto.
  - unfold download_many, bind. simpl.
    destruct (download_one cc base_url verbose st) as [r st1]. simpl in E.
    destruct r as [s0|e]; [discriminate|].
    destruct e; try discriminate; cbn [try_status fst]; discriminate.
Qed.

End sequential.

(** *** The download with a pool of threads *)

Section threadpool.
Context `{Externals}.
Import flags2_threadpool.

(** The loop over the futures never touches the counter. *)
Lemma for_future_counter done_iter : forall round interrupt_at l l',
  for_future done_iter round interrupt_at l = Next l' \/
  for_future done_iter round interrupt_at l = Break l' ->
  counter l' = counter l.
Proof.
  induction done_iter as [|fut done_iter IH]; intros round interrupt_at l l';
    simpl.
  - intros [[= <-]|[=]]. reflexivity.
  - set (r := if decide (interrupt_at = Some round)
              then Raise KeyboardInterrupt else outcome fut).
    destruct r as [s|e]; cbn [try_status].
    + intros Hf. apply IH in Hf. exact Hf.
    + destruct e; cbn [counter future status error_msg];
        try (intros [[=]|[=]]; fail).
      * intros Hf. apply IH in Hf. exact Hf.
      * intros Hf. apply IH in Hf. exact Hf.
      * intros [[=]|[= <-]]. reflexivity.
Qed.

Lemma tally_one to_do_map verbose l l' st st' :
  tally to_do_map verbose l st = (Return l', st') ->
  exists s, counter l' = flags2_sequential.increment s (counter l).
Proof.
  unfold tally. destruct (error_msg l) as [msg|]; [|discriminate].
  cbv zeta.
  destruct (if truthy msg then Some ERROR else status l) as [s|];
    [|discriminate].
  destruct (verbose && truthy msg).
  - cbn [future]. destruct (future l) as [fut|]; [|discriminate].
    destruct (to_do_map !! fid fut) as [[|cc [|? ?]]|]; try discriminate.
    unfold bind, print, ret. intros Heq. inversion Heq. exists s. reflexivity.
  - unfold ret. intros Heq. inversion Heq. exists s. reflexivity.
Qed.

(** Whatever the batch, a tally that [download_many] returns holds one
    count. *)
Lemma threadpool_tallies_one sched cc_list base_url verbose concur_req st c st' :
  download_many sched cc_list base_url verbose concur_req st = (Return c, st') ->
  exists s, c = ({[s := 1%nat]} : Counter).
Proof.
  unfold download_many. destruct (concur_req <=? 0); [discriminate|].
  destruct (submit_all (sorted cc_list) base_url verbose 0 ∅ [] st)
    as [[to_do_map futures] st1].
  destruct (for_future (as_completed futures (order sched)) 0
              (interrupt_at sched) (mkLocals ∅ None None None))
    as [l|l|e] eqn:Ef; [| |discriminate].
  - unfold bind.
    destruct (tally to_do_map verbose l st1) as [[l'|e] st2] eqn:Et;
      [|discriminate].
    unfold ret. intros Heq. inversion Heq; subst c st'. clear Heq.
    destruct (tally_one _ _ _ _ _ _ Et) as [s Hs]. exists s.
    rewrite Hs, (for_future_counter _ _ _ _ _ (or_introl Ef)).
    apply increment_empty.
  - unfold bind.
    destruct (tally to_do_map verbose l st1) as [[l'|e] st2] eqn:Et;
      [|discriminate].
    unfold ret. intros Heq. inversion Heq; subst c st'. clear Heq.
    destruct (tally_one _ _ _ _ _ _ Et) as [s Hs]. exists s.
    rewrite Hs, (for_future_counter _ _ _ _ _ (or_intror Ef)).
    apply increment_empty.
Qed.

Lemma as_completed_nil order : as_completed [] order = [].
Proof.
  unfold as_completed. induction order as [|i order IH]; [reflexivity|].
  simpl. exact IH.
Qed.

Lemma threadpool_empty_batch sched base_url verbose concur_req st :
  1 <= concur_req ->
  download_many sched [] base_url verbose concur_req st
  = (Raise (UnboundLocalError "error_msg"), st).
Proof.
  intros Hc. unfold download_many.
  destruct (Z.leb_spec concur_req 0); [lia|].
  simpl. rewrite as_completed_nil. reflexivity.
Qed.

End threadpool.

(** *** A scripted world for the examples

    The network answers the successive calls of [httpx.get] with the
    responses of a script, and with a time-out once the script is used up;
    a response outside the 2xx range fails [raise_for_status]; saving a
    file succeeds. *)

Definition ascii_lower (c : Ascii.ascii) : Ascii.ascii :=
  let k := Ascii.N_of_ascii c in
  if ((65 <=? k)%N && (k <=? 90)%N)%bool then Ascii.ascii_of_N (k + 32) else c.

Fixpoint lower (s : string) : string :=
  match s with
  | EmptyString => EmptyString
  | String c s' => String (ascii_lower c) (lower s')
  end.

Definition scripted : Externals :=
  {| World := list (result Response);
     str_lower := lower;
     httpx_get := fun url w =>
       match w with
       | r :: w' => (r, w')
       | [] => (Raise (RequestError "timed out" "httpx.ConnectTimeout"), [])
       end;
     raise_for_status := fun resp =>
       if ((200 <=? status_code resp) && (status_code resp <? 300))%bool
       then Return tt else Raise (HTTPStatusError resp);
     save_flag := fun img filename w => (Return tt, w) |}.

Definition found : result Response :=
  Return (mkResponse 200 "OK" EmptyString "GIF89a").
Definition not_found : result Response :=
  Return (mkResponse 404 "Not Found" EmptyString EmptyString).

Definition scripted_state (script : list (result Response)) : @State scripted :=
  @mkState scripted script [].

Example sequential_three :
  (@flags2_sequential.download_many scripted ["MX"; "BR"; "CN"] "http://flags"
     false 1 (scripted_state [found; found; found])).1
  = Return ({[OK := 3%nat]} : Counter).
Proof. vm_compute. reflexivity. Qed.

End flags_facts.
(** ** More on primes/procs.py: what [report] reads, and which jobs the
    pool answers *)

Module procs_more.
Import procs procs_facts.

Lemma markers_cons r rs :
  markers (r :: rs) = ((if is_marker r then 1 else 0) + markers rs)%nat.
Proof. reflexivity. Qed.

Lemma checks_cons r rs :
  checks (r :: rs) = ((if is_marker r then 0 else 1) + checks rs)%nat.
Proof. unfold checks. simpl. destruct (is_marker r); reflexivity. Qed.

Lemma lines_of_cons r rs :
  lines_of (r :: rs) =
  (if is_marker r then []
   else [mkLine (n r) (if prime r then "P" else " ") (elapsed r)])
  ++ lines_of rs.
Proof. unfold lines_of. simpl. destruct (is_marker r); reflexivity. Qed.

Lemma report_loop_cons procs r rs checked procs_done out :
  report_loop procs (r :: rs) checked procs_done out =
  if procs_done <? procs
  then if is_marker r
       then report_loop procs rs checked (procs_done + 1) out
       else report_loop procs rs (checked + 1) procs_done
              (out ++ [mkLine (n r) (if prime r then "P" else " ") (elapsed r)])
  else (Returned checked, r :: rs, procs_done, out).
Proof. reflexivity. Qed.

Lemma report_loop_done procs rs checked procs_done out :
  procs <= procs_done ->
  report_loop procs rs checked procs_done out =
  (Returned checked, rs, procs_done, out).
Proof.
  intros H. assert (E : (procs_done <? procs) = false) by (apply Z.ltb_ge; lia).
  destruct rs; simpl; rewrite E; reflexivity.
Qed.

(** [report] reads up to its [procs]-th marker and no further. *)
Lemma report_loop_stops procs pre rest : forall checked procs_done out,
  Z.of_nat (markers pre) = procs - procs_done ->
  (forall r, last pre = Some r -> is_marker r = true) ->
  report_loop procs (pre ++ rest) checked procs_done out =
  (Returned (checked + Z.of_nat (checks pre)), rest, procs, out ++ lines_of pre).
Proof.
  induction pre as [|r pre IH]; intros checked procs_done out Hm Hlast.
  - change (markers []) with 0%nat in Hm.
    rewrite report_loop_done by lia.
    change (lines_of []) with (@nil line). change (checks []) with 0%nat.
    rewrite app_nil_r. repeat f_equal; lia.
  - assert (Hlt : procs_done < procs).
    { pose proof (how_many_last is_marker (r :: pre) ltac:(discriminate) Hlast)
        as Hpos. fold (markers (r :: pre)) in Hpos. lia. }
    assert (Hlast' : forall r0, last pre = Some r0 -> is_marker r0 = true).
    { intros r0 Hr0. apply Hlast. destruct pre; [discriminate | exact Hr0]. }
    rewrite markers_cons in Hm.
    rewrite <- app_comm_cons, report_loop_cons, checks_cons, lines_of_cons.
    destruct (Z.ltb_spec procs_done procs); [|lia].
    destruct (is_marker r).
    + rewrite IH by (assumption || lia). simpl.
      match goal with |- (Returned ?a, _, _, _) = (Returned ?b, _, _, _) =>
        replace a with b by lia end. reflexivity.
    + rewrite IH by (assumption || lia). rewrite <- app_assoc.
      match goal with |- (Returned ?a, _, _, _) = (Returned ?b, _, _, _) =>
        replace a with b by lia end. reflexivity.
Qed.

(** With fewer than [procs] markers in the stream, [report] prints a line
    for every result in it and then waits. *)
Lemma report_loop_blocks procs rs : forall checked procs_done out,
  Z.of_nat (markers rs) < procs - procs_done ->
  report_loop procs rs checked procs_done out =
  (Blocked, [], procs_done + Z.of_nat (markers rs), out ++ lines_of rs).
Proof.
  induction rs as [|r rs IH]; intros checked procs_done out H.
  - change (markers []) with 0%nat in *. simpl.
    destruct (Z.ltb_spec procs_done procs); [|lia].
    rewrite app_nil_r. repeat f_equal. lia.
  - rewrite markers_cons in *. rewrite report_loop_cons, lines_of_cons.
    destruct (Z.ltb_spec procs_done procs); [|lia].
    destruct (is_marker r).
    + rewrite IH by lia. f_equal. f_equal. lia.
    + rewrite IH by lia. rewrite <- app_assoc. reflexivity.
Qed.

(** Splitting a stream at its [k]-th marker. *)
Lemma split_at_marker (k : nat) : forall rs,
  (0 < k)%nat -> (k <= markers rs)%nat ->
  exists pre rest,
    rs = pre ++ rest /\ markers pre = k /\
    (forall r, last pre = Some r -> is_marker r = true).
Proof.
  unfold markers.
  induction k as [|k IH]; intros rs Hk Hrs; [lia|].
  induction rs as [|r rs IHrs]; simpl in *; [lia|].
  destruct (is_marker r) eqn:Er.
  - destruct k as [|k'].
    + exists [r], rs. simpl. rewrite Er. split; [reflexivity|].
      split; [reflexivity|]. intros r0 [= <-]. exact Er.
    + destruct (IH rs ltac:(lia) ltac:(lia)) as (pre & rest & -> & Hpre & Hlast).
      exists (r :: pre), rest. simpl. rewrite Er.
      split; [reflexivity|]. split; [lia|].
      intros r0 Hr0. apply Hlast.
      destruct pre; [simpl in Hpre; lia | exact Hr0].
  - destruct (IHrs ltac:(lia)) as (pre & rest & -> & Hpre & Hlast).
    exists (r :: pre), rest. simpl. rewrite Er.
    split; [reflexivity|]. split; [lia|].
    intros r0 Hr0. apply Hlast.
    destruct pre; [simpl in Hpre; lia | exact Hr0].
Qed.

(** The numbers of the lines [report] prints for a stream. *)
Definition answered (rs : ResultQueue) : list Z := map line_n (lines_of rs).

Lemma lines_of_app rs rs' : lines_of (rs ++ rs') = lines_of rs ++ lines_of rs'.
Proof. unfold lines_of. apply omap_app. Qed.

Lemma answered_app rs rs' : answered (rs ++ rs') = answered rs ++ answered rs'.
Proof. unfold answered. rewrite lines_of_app. apply map_app. Qed.

Lemma answered_result r : n r <> 0 -> answered [r] = [n r].
Proof.
  intros Hr. unfold answered, lines_of, is_marker. simpl.
  destruct (Z.eqb_spec (n r) 0); [contradiction | reflexivity].
Qed.

Lemma answered_marker : answered [done_marker] = [].
Proof. reflexivity. Qed.

Lemma length_lines_of rs : length (lines_of rs) = checks rs.
Proof.
  induction rs as [|r rs IH]; [reflexivity|].
  rewrite lines_of_cons, checks_cons, length_app, IH.
  destruct (is_marker r); reflexivity.
Qed.

(** A record says of its number what [is_prime] says. *)
Definition honest (r : PrimeResult) : Prop := prime r = primes.is_prime (n r).

Lemma honest_lines rs :
  Forall honest rs ->
  Forall (fun l => label l = if primes.is_prime (line_n l) then "P" else " ")
         (lines_of rs).
Proof.
  unfold lines_of. induction 1 as [|r rs Hr _ IH]; simpl; [constructor|].
  destruct (is_marker r); [exact IH|].
  constructor; [|exact IH]. simpl. rewrite Hr. reflexivity.
Qed.

(** A number with the label its line carries. *)
Definition labelled (n : Z) : Z * string :=
  (n, if primes.is_prime n then "P" else " ").

Lemma lines_labelled rs :
  Forall honest rs ->
  map (fun l => (line_n l, label l)) (lines_of rs) = map labelled (answered rs).
Proof.
  intros Hrs. unfold answered. rewrite map_map.
  apply List.map_ext_Forall.
  eapply Forall_impl; [apply honest_lines; exact Hrs|].
  intros l Hl. cbv beta in *. unfold labelled. rewrite Hl. reflexivity.
Qed.

(** The number of the result a worker holds between its [check] and its
    [put]. *)
Definition in_hand (w : worker_state) : list Z :=
  match pc w with AtPut r => [n r] | _ => [] end.

Definition held (ws : list worker_state) : list Z := concat (map in_hand ws).

Lemma held_snoc ws w : held (ws ++ [w]) = held ws ++ in_hand w.
Proof.
  unfold held. rewrite map_app, concat_app. simpl. rewrite app_nil_r.
  reflexivity.
Qed.

Lemma held_insert ws : forall i w w',
  ws !! i = Some w ->
  Permutation (held (<[i := w']> ws) ++ in_hand w) (held ws ++ in_hand w').
Proof.
  unfold held.
  induction ws as [|w0 ws IH]; intros [|i] w w' Hi; simpl in *;
    try discriminate.
  - injection Hi as ->.
    etransitivity; [apply Permutation_app_comm|].
    rewrite <- app_assoc. apply Permutation_app_head, Permutation_app_comm.
  - specialize (IH i w w' Hi).
    rewrite <- !app_assoc. apply Permutation_app_head. exact IH.
Qed.

Ltac look := cbn [jobs results workers starter ticks jobs_put todo_of].

Section pool.

Variable perf_counter : nat -> float.
Variable NUMBERS : list Z.
Variable procs : Z.

Local Abbreviation nonzero := (fun x : Z => x <> 0).

(** Every job that is not the sentinel is in one place: still to be
    enqueued, on the job queue, in the hand of a worker, or answered on
    the result queue; and what a worker answers is what [is_prime] says. *)
Definition accounted (s : system) : Prop :=
  Permutation (filter nonzero (todo_of (starter s)) ++
               filter nonzero (jobs s) ++
               held (workers s) ++ answered (results s))
              (filter nonzero NUMBERS) /\
  Forall honest (results s) /\
  Forall (fun w => match pc w with
                   | AtPut r => honest r /\ n r <> 0
                   | _ => True
                   end) (workers s).

Lemma accounted_initial : accounted (initial NUMBERS).
Proof.
  split; [|split; constructor]. simpl.
  unfold held, answered. simpl. rewrite app_nil_r. reflexivity.
Qed.

Lemma filter_nonzero_snoc (l : list Z) x :
  filter nonzero (l ++ [x]) =
  filter nonzero l ++ (if decide (x = 0) then [] else [x]).
Proof.
  rewrite filter_app. f_equal.
  destruct (decide (x = 0)) as [Hx|Hx].
  - apply (filter_cons_False _ x []). intros H. apply H. exact Hx.
  - apply (filter_cons_True _ x []). exact Hx.
Qed.

Lemma filter_nonzero_cons (l : list Z) x :
  filter nonzero (x :: l) =
  (if decide (x = 0) then [] else [x]) ++ filter nonzero l.
Proof.
  destruct (decide (x = 0)) as [Hx|Hx].
  - apply (filter_cons_False _ x l). intros H. apply H. exact Hx.
  - apply (filter_cons_True _ x l). exact Hx.
Qed.

Lemma accounted_step_main s s' :
  accounted s -> step_main procs s = Some s' -> accounted s'.
Proof.
  intros (Hperm & Hres & Hws) Hstep. unfold step_main in Hstep.
  destruct (starter s) as [todo|k|k|] eqn:Es; cbn [todo_of] in Hperm.
  - destruct todo as [|x todo]; injection Hstep as <-;
      (split; [|split; assumption]); look; [exact Hperm|].
    rewrite filter_nonzero_snoc. rewrite filter_nonzero_cons in Hperm.
    rewrite <- Hperm. rewrite <- !app_assoc. symmetry.
    etransitivity; [apply Permutation_app_swap_app|].
    apply Permutation_app_head, Permutation_app_swap_app.
  - destruct k as [|k]; injection Hstep as <-.
    + split; [|split; assumption]. look. exact Hperm.
    + split; [|split]; look.
      * rewrite held_snoc. cbn [in_hand pc]. rewrite app_nil_r. exact Hperm.
      * exact Hres.
      * apply Forall_app. split; [exact Hws|]. repeat constructor.
  - injection Hstep as <-. split; [|split; assumption]. look.
    rewrite filter_nonzero_snoc. rewrite decide_True by reflexivity.
    rewrite app_nil_r. exact Hperm.
  - discriminate.
Qed.

Lemma accounted_step_worker i s s' :
  accounted s -> step_worker perf_counter i s = Some s' -> accounted s'.
Proof.
  intros (Hperm & Hres & Hws) Hstep. unfold step_worker in Hstep.
  destruct (workers s !! i) as [w|] eqn:Hi; [|discriminate].
  pose proof (Forall_lookup_1 _ _ _ _ Hws Hi) as Hw. cbv beta in Hw.
  assert (Hh : forall w',
             Permutation (held (<[i := w']> (workers s)) ++ in_hand w)
                         (held (workers s) ++ in_hand w'))
    by (intros w'; apply held_insert; exact Hi).
  unfold in_hand in Hh.
  destruct (pc w) as [|r| |] eqn:Epc.
  - destruct (jobs s) as [|x jobs'] eqn:Ejobs; [discriminate|].
    rewrite filter_nonzero_cons in Hperm.
    destruct (Z.eqb_spec x 0) as [->|Hx]; injection Hstep as <-;
      (split; [|split]); look; try exact Hres.
    + rewrite decide_True in Hperm by reflexivity.
      specialize (Hh (mkWorker AtMarker (S (sentinels_seen w))
                               (markers_sent w))).
      cbn [pc] in Hh. rewrite !app_nil_r in Hh. rewrite Hh. exact Hperm.
    + apply Forall_insert; [exact Hws | exact I].
    + rewrite decide_False in Hperm by exact Hx.
      specialize (Hh (mkWorker (AtPut (check perf_counter x (ticks s)))
                               (sentinels_seen w) (markers_sent w))).
      cbn [pc] in Hh. rewrite app_nil_r in Hh. rewrite Hh.
      rewrite <- Hperm. apply Permutation_app_head.
      rewrite <- !app_assoc. cbn [n check app].
      rewrite (app_assoc (filter nonzero jobs') _ (x :: _)).
      rewrite (app_assoc (filter nonzero jobs') _ (answered _)).
      symmetry. apply Permutation_middle.
    + apply Forall_insert; [exact Hws|]. cbn [pc].
      split; [reflexivity | exact Hx].
  - injection Hstep as <-. destruct Hw as [Hr Hnr].
    (split; [|split]); look.
    + rewrite answered_app, (answered_result r Hnr).
      specialize (Hh (mkWorker AtGet (sentinels_seen w) (markers_sent w))).
      cbn [pc] in Hh. rewrite app_nil_r in Hh.
      rewrite <- Hperm, <- Hh. rewrite <- !app_assoc.
      apply Permutation_app_head, Permutation_app_head, Permutation_app_head.
      apply Permutation_app_comm.
    + apply Forall_app. split; [exact Hres|]. repeat constructor. exact Hr.
    + apply Forall_insert; [exact Hws | exact I].
  - injection Hstep as <-. (split; [|split]); look.
    + rewrite answered_app, answered_marker, app_nil_r.
      specialize (Hh (mkWorker Exited (sentinels_seen w)
                               (S (markers_sent w)))).
      cbn [pc] in Hh. rewrite !app_nil_r in Hh. rewrite Hh. exact Hperm.
    + apply Forall_app. split; [exact Hres|]. repeat constructor.
    + apply Forall_insert; [exact Hws | exact I].
  - discriminate.
Qed.

Lemma accounted_run schedule : forall s s',
  accounted s -> run perf_counter procs schedule s = Some s' -> accounted s'.
Proof.
  induction schedule as [|e schedule IH]; intros s s' Hs Hrun; simpl in Hrun.
  - injection Hrun as <-. exact Hs.
  - destruct (step perf_counter procs e s) as [s1|] eqn:Estep; [|discriminate].
    apply (IH s1 s'); [|exact Hrun].
    destruct e; simpl in Estep.
    + eapply accounted_step_main; eassumption.
    + eapply accounted_step_worker; eassumption.
Qed.

Lemma filter_nonzero_all (l : list Z) :
  Forall nonzero l -> filter nonzero l = l.
Proof.
  induction 1 as [|x l Hx _ IH]; [reflexivity|].
  rewrite filter_cons_True by exact Hx. rewrite IH. reflexivity.
Qed.

Lemma held_exited ws : Forall (fun w => pc w = Exited) ws -> held ws = [].
Proof.
  unfold held, in_hand. induction 1 as [|w ws Hw _ IH]; [reflexivity|].
  simpl. rewrite Hw, IH. reflexivity.
Qed.

(** At rest every job has been answered. *)
Lemma answered_at_rest schedule s :
  1 <= procs -> Forall nonzero NUMBERS ->
  run perf_counter procs schedule (initial NUMBERS) = Some s ->
  finished s ->
  Permutation (answered (results s)) NUMBERS /\ Forall honest (results s) /\
  jobs s = [] /\ length (workers s) = Z.to_nat procs.
Proof.
  intros Hprocs Hnz Hrun [Hst Hex].
  pose proof (accounted_run schedule _ _ accounted_initial Hrun)
    as (Hperm & Hres & _).
  pose proof (invariant_reachable perf_counter NUMBERS procs Hnz
                schedule s Hrun) as Hinv.
  assert (Hgone : (Z.to_nat procs <= how_many gone (workers s))%nat).
  { destruct Hinv as (rest & z & _ & _ & _ & Hlen & _).
    rewrite Hst in Hlen. simpl in Hlen.
    rewrite (how_many_Forall gone) by (apply gone_exited; exact Hex).
    lia. }
  destruct (all_exited NUMBERS procs s Hprocs Hinv Hgone)
    as (Hjobs & _ & _ & _ & _ & _ & Hlen).
  rewrite Hst, Hjobs, (held_exited _ Hex) in Hperm.
  simpl in Hperm. rewrite (filter_nonzero_all _ Hnz) in Hperm.
  tauto.
Qed.

(** *** A pool that is asked for no worker *)

Definition idle (s : system) : Prop :=
  workers s = [] /\ results s = [] /\ ticks s = 0%nat /\
  jobs s ++ todo_of (starter s) = NUMBERS /\
  jobs_put s = jobs s /\
  match starter s with
  | Enqueue _ | Start 0 | Started => True
  | _ => False
  end.

Lemma idle_step e s s' :
  procs <= 0 -> idle s -> step perf_counter procs e s = Some s' -> idle s'.
Proof.
  intros Hprocs (Hws & Hrs & Ht & Hjobs & Hput & Hpc) Hstep.
  destruct e as [|i]; simpl in Hstep.
  - unfold step_main in Hstep.
    destruct (starter s) as [[|x todo]|[|k]|k|] eqn:Es;
      try discriminate; try contradiction; injection Hstep as <-;
      unfold idle; look; cbn [todo_of] in Hjobs.
    + rewrite length_py_range_0.
      replace (Z.to_nat procs) with 0%nat by lia. tauto.
    + rewrite <- app_assoc. cbn [app]. rewrite Hput. tauto.
    + rewrite app_nil_r in *. tauto.
  - unfold step_worker in Hstep. rewrite Hws in Hstep. discriminate.
Qed.

Lemma idle_run schedule : forall s s',
  procs <= 0 -> idle s -> run perf_counter procs schedule s = Some s' ->
  idle s'.
Proof.
  induction schedule as [|e schedule IH]; intros s s' Hprocs Hs Hrun;
    simpl in Hrun.
  - injection Hrun as <-. exact Hs.
  - destruct (step perf_counter procs e s) as [s1|] eqn:Estep; [|discriminate].
    apply (IH s1 s'); [exact Hprocs | | exact Hrun].
    eapply idle_step; eassumption.
Qed.

Lemma idle_initial : idle (initial NUMBERS).
Proof. unfold idle. simpl. tauto. Qed.

End pool.

(** *** A pool of one worker *)

Section single.

Variable perf_counter : nat -> float.
Variable NUMBERS : list Z.

Local Abbreviation nonzero := (fun x : Z => x <> 0).

Lemma checked_in_turn_snoc xs : forall x ticks,
  checked_in_turn perf_counter (xs ++ [x]) ticks =
  checked_in_turn perf_counter xs ticks ++
  [check perf_counter x (ticks + 2 * length xs)].
Proof.
  induction xs as [|y xs IH]; intros x ticks.
  - replace (ticks + 2 * length (@nil Z))%nat with ticks by (simpl; lia).
    reflexivity.
  - replace (ticks + 2 * length (y :: xs))%nat
      with (S (S ticks) + 2 * length xs)%nat by (simpl; lia).
    cbn [app checked_in_turn]. rewrite IH. reflexivity.
Qed.

(** With one worker the results come in the order of the jobs: [done] have
    been answered, [hold] is in the hand of the worker, and the rest
    follows on the job queue and in [start_jobs]. *)
Definition in_order (s : system) : Prop :=
  exists done hold : list Z,
    NUMBERS = done ++ hold ++ filter nonzero (jobs s) ++ todo_of (starter s) /\
    ticks s = (2 * (length done + length hold))%nat /\
    match workers s with
    | [] => hold = [] /\ done = [] /\ results s = []
    | [w] =>
        match pc w with
        | AtPut r =>
            exists x, hold = [x] /\
                      r = check perf_counter x (2 * length done) /\
                      results s = checked_in_turn perf_counter done 0
        | Exited =>
            hold = [] /\
            results s = checked_in_turn perf_counter done 0 ++ [done_marker]
        | _ => hold = [] /\ results s = checked_in_turn perf_counter done 0
        end
    | _ => False
    end.

Hypothesis no_sentinel_job : Forall nonzero NUMBERS.

Lemma in_order_initial : in_order (initial NUMBERS).
Proof.
  exists [], []. split; [reflexivity|]. split; [reflexivity|].
  cbn. tauto.
Qed.

Lemma in_order_step_main s s' :
  invariant NUMBERS 1 s ->
  in_order s -> step_main 1 s = Some s' -> in_order s'.
Proof.
  intros Hinv (done & hold & HN & Ht & Hw) Hstep.
  assert (Htodo : Forall nonzero (todo_of (starter s))).
  { rewrite HN in no_sentinel_job.
    rewrite !Forall_app in no_sentinel_job. tauto. }
  destruct Hinv as (rest & z & _ & _ & _ & Hlen & _).
  unfold step_main in Hstep.
  destruct (starter s) as [todo|k|k|] eqn:Es;
    cbn [todo_of unstarted] in *.
  - destruct todo as [|x todo]; injection Hstep as <-;
      exists done, hold; look.
    + split; [exact HN|]. split; [exact Ht | exact Hw].
    + apply Forall_cons in Htodo as [Hx _].
      rewrite filter_nonzero_snoc, decide_False by exact Hx.
      rewrite <- !app_assoc. cbn [app].
      split; [exact HN|]. split; [exact Ht | exact Hw].
  - destruct k as [|k]; injection Hstep as <-.
    + exists done, hold; look.
      split; [exact HN|]. split; [exact Ht | exact Hw].
    + assert (Hnone : workers s = []).
      { destruct (workers s); [reflexivity | simpl in Hlen; lia]. }
      rewrite Hnone in *. destruct Hw as (-> & -> & Hres).
      exists [], []. look. cbn [app pc].
      split; [exact HN|]. split; [exact Ht|]. split; [reflexivity|].
      exact Hres.
  - injection Hstep as <-. exists done, hold; look.
    rewrite filter_nonzero_snoc, decide_True by reflexivity.
    rewrite app_nil_r.
    split; [exact HN|]. split; [exact Ht | exact Hw].
  - discriminate.
Qed.

Lemma in_order_step_worker i s s' :
  in_order s -> step_worker perf_counter i s = Some s' -> in_order s'.
Proof.
  intros (done & hold & HN & Ht & Hw) Hstep.
  unfold step_worker in Hstep.
  destruct (workers s) as [|w [|w' ws]] eqn:Ews; [discriminate| |contradiction].
  destruct i as [|i]; [|discriminate]. cbn [lookup list_lookup] in Hstep.
  destruct (pc w) as [|r| |] eqn:Epc.
  - destruct Hw as [-> Hres].
    destruct (jobs s) as [|x jobs'] eqn:Ejobs; [discriminate|].
    rewrite filter_nonzero_cons in HN.
    destruct (Z.eqb_spec x 0) as [->|Hx]; injection Hstep as <-.
    + rewrite decide_True in HN by reflexivity.
      exists done, []. look. cbn [insert list_insert pc].
      split; [exact HN|]. split; [exact Ht|]. split; [reflexivity|].
      exact Hres.
    + rewrite decide_False in HN by exact Hx.
      exists done, [x]. look. cbn [insert list_insert pc].
      split; [rewrite <- app_assoc in HN; exact HN|].
      split; [cbn [length] in *; lia|].
      exists x. split; [reflexivity|]. split; [|exact Hres].
      f_equal. cbn [length] in Ht. lia.
  - destruct Hw as (x & -> & -> & Hres). injection Hstep as <-.
    exists (done ++ [x]), []. look. cbn [insert list_insert pc].
    split; [rewrite <- !app_assoc; exact HN|].
    split; [rewrite length_app; cbn [length] in *; lia|].
    split; [reflexivity|].
    rewrite checked_in_turn_snoc, Hres. reflexivity.
  - destruct Hw as [-> Hres]. injection Hstep as <-.
    exists done, []. look. cbn [insert list_insert pc].
    split; [exact HN|]. split; [exact Ht|]. split; [reflexivity|].
    rewrite Hres. reflexivity.
  - discriminate.
Qed.

Lemma in_order_run schedule : forall s s',
  invariant NUMBERS 1 s -> in_order s ->
  run perf_counter 1 schedule s = Some s' -> in_order s'.
Proof.
  induction schedule as [|e schedule IH]; intros s s' Hinv Hs Hrun;
    simpl in Hrun.
  - injection Hrun as <-. exact Hs.
  - destruct (step perf_counter 1 e s) as [s1|] eqn:Estep; [|discriminate].
    apply (IH s1 s'); [| |exact Hrun].
    + eapply invariant_step; eassumption.
    + destruct e; simpl in Estep.
      * eapply in_order_step_main; eassumption.
      * eapply in_order_step_worker; eassumption.
Qed.

End single.

End procs_more.
(** ** Facts on primes/sequential.py and primes/proc_pool.py *)

Module sequential_facts.
Import sequential.

(** The number and the label of a line. *)
Definition entry_of (p : printed) : option (Z * string) :=
  match p with
  | Line n label _ => Some (n, label)
  | _ => None
  end.

Section clock.
Variable perf_counter : nat -> float.

(** The lines of the loop, written out. *)
Fixpoint lines (numbers : list Z) (ticks : nat) : list printed :=
  match numbers with
  | [] => []
  | n :: numbers' =>
      Line n (if primes.is_prime n then "P" else " ")
           (perf_counter (S ticks) - perf_counter ticks)%float
      :: lines numbers' (S (S ticks))
  end.

Lemma for_n_spec numbers : forall ticks out,
  for_n perf_counter numbers ticks out =
  (out ++ lines numbers ticks, (ticks + 2 * length numbers)%nat).
Proof.
  induction numbers as [|n numbers IH]; intros ticks out.
  - cbn [for_n lines length]. rewrite app_nil_r. f_equal. lia.
  - cbn [for_n lines length]. rewrite IH. rewrite <- app_assoc.
    f_equal. lia.
Qed.

Lemma lines_entries numbers : forall ticks,
  omap entry_of (lines numbers ticks) = map procs_more.labelled numbers.
Proof.
  induction numbers as [|n numbers IH]; intros ticks; [reflexivity|].
  simpl. f_equal. apply IH.
Qed.

Lemma length_lines numbers : forall ticks,
  length (lines numbers ticks) = length numbers.
Proof.
  induction numbers as [|n numbers IH]; intros ticks; [reflexivity|].
  cbn [lines length]. rewrite IH. reflexivity.
Qed.

End clock.

End sequential_facts.

Module proc_pool_facts.
Import proc_pool.

Lemma insert_reverse_perm x l : Permutation (insert_reverse x l) (x :: l).
Proof.
  induction l as [|y l IH]; simpl; [reflexivity|].
  destruct (y <=? x); [reflexivity|].
  rewrite IH. apply perm_swap.
Qed.

Lemma sorted_reverse_perm l : Permutation (sorted_reverse l) l.
Proof.
  induction l as [|x l IH]; simpl; [reflexivity|].
  rewrite insert_reverse_perm, IH. reflexivity.
Qed.

(** A list goes down: no element is below one that follows it. *)
Fixpoint descending (l : list Z) : Prop :=
  match l with
  | [] => True
  | x :: l' => Forall (fun y => y <= x) l' /\ descending l'
  end.

Lemma insert_reverse_descending x l :
  descending l -> descending (insert_reverse x l).
Proof.
  induction l as [|y l IH]; intros Hl; simpl.
  - split; [constructor | exact I].
  - destruct Hl as [Hy Hl].
    destruct (Z.leb_spec y x) as [Hyx|Hxy].
    + split; [|split; assumption].
      constructor; [exact Hyx|].
      eapply Forall_impl; [exact Hy|]. intros z Hz. cbv beta in *. lia.
    + split; [|apply IH; exact Hl].
      rewrite insert_reverse_perm. constructor; [lia | exact Hy].
Qed.

Lemma sorted_reverse_descending l : descending (sorted_reverse l).
Proof.
  induction l as [|x l IH]; simpl; [exact I|].
  apply insert_reverse_descending. exact IH.
Qed.

(** The number and the label of a line. *)
Definition entry_of (p : printed) : option (Z * string) :=
  match p with
  | Line n label _ => Some (n, label)
  | _ => None
  end.

Section clock.
Variable perf_counter : nat -> float.

Fixpoint pool_lines (numbers : list Z) (k : nat) (started : nat -> nat)
  : list printed :=
  match numbers with
  | [] => []
  | n :: numbers' =>
      Line n (if primes.is_prime n then "P" else " ")
           (perf_counter (S (started k)) - perf_counter (started k))%float
      :: pool_lines numbers' (S k) started
  end.

Lemma for_result_spec numbers started : forall k out,
  for_result (executor_map perf_counter numbers k started) out =
  out ++ pool_lines numbers k started.
Proof.
  induction numbers as [|n numbers IH]; intros k out.
  - cbn [executor_map for_result pool_lines]. rewrite app_nil_r. reflexivity.
  - cbn [executor_map for_result pool_lines]. rewrite IH, <- app_assoc.
    reflexivity.
Qed.

Lemma pool_lines_entries numbers started : forall k,
  omap entry_of (pool_lines numbers k started)
  = map procs_more.labelled numbers.
Proof.
  induction numbers as [|n numbers IH]; intros k; [reflexivity|].
  simpl. f_equal. apply IH.
Qed.

End clock.

End proc_pool_facts.
(** ** More on getflags/flags2_sequential.py and flags2_threadpool.py *)

Module flags_more.
Import py flags2_common flags_facts.

Section downloads.
Context `{Externals}.

(** What [get_flag] does to the world outside. *)
Definition fetched (base_url cc : string) (w : World) : result string * World :=
  let url := str_lower (base_url +:+ "/" +:+ cc +:+ "/" +:+ cc +:+ ".gif") in
  match httpx_get url w with
  | (Return resp, w') =>
      (match raise_for_status resp with
       | Return _ => Return (content resp)
       | Raise e => Raise e
       end, w')
  | (Raise e, w') => (Raise e, w')
  end.

Lemma get_flag_fetched base_url cc st :
  flags2_sequential.get_flag base_url cc st =
  ((fetched base_url cc (world st)).1,
   mkState (fetched base_url cc (world st)).2 (stdout st)).
Proof.
  unfold flags2_sequential.get_flag, fetched, bind, outside, ret.
  destruct (httpx_get _ (world st)) as [[resp|e] w']; cbn [fst snd world stdout];
    [|reflexivity].
  destruct (raise_for_status resp); reflexivity.
Qed.

(** What [download_one] does to the world outside: the status it returns
    with the message it has for the operator, or the exception it
    raises. *)
Definition attempt (base_url cc : string) (w : World)
  : result (DownloadStatus * string) * World :=
  match fetched base_url cc w with
  | (Raise (HTTPStatusError res), w1) =>
      if status_code res =? flags2_sequential.NOT_FOUND_code
      then (Return (NOT_FOUND, "not found: " +:+ url res), w1)
      else (Raise (HTTPStatusError res), w1)
  | (Raise e, w1) => (Raise e, w1)
  | (Return image, w1) =>
      match save_flag image (cc +:+ ".gif") w1 with
      | (Return _, w2) => (Return (OK, "OK"), w2)
      | (Raise e, w2) => (Raise e, w2)
      end
  end.

(** The line [download_one] prints when it is asked to. *)
Definition said (cc : string) (verbose : bool) (msg : string) : list string :=
  if verbose then [cc +:+ " " +:+ msg] else [].

Lemma download_one_attempt cc base_url verbose st :
  flags2_sequential.download_one cc base_url verbose st =
  match attempt base_url cc (world st) with
  | (Return (s, msg), w') =>
      (Return s, mkState w' (stdout st ++ said cc verbose msg))
  | (Raise e, w') => (Raise e, mkState w' (stdout st))
  end.
Proof.
  unfold flags2_sequential.download_one, attempt.
  rewrite get_flag_fetched.
  destruct (fetched base_url cc (world st)) as [[image|e] w1];
    cbn [fst snd].
  - unfold bind, outside, ret, print, said. cbn [world stdout].
    destruct (save_flag image _ w1) as [[[]|e] w2]; cbn [world stdout];
      [|reflexivity].
    destruct verbose; cbn [world stdout]; [reflexivity|].
    rewrite app_nil_r. reflexivity.
  - destruct e; try reflexivity.
    destruct (status_code response =? flags2_sequential.NOT_FOUND_code);
      [|reflexivity].
    unfold bind, ret, print, said.
    destruct verbose; cbn [world stdout]; [reflexivity|].
    rewrite app_nil_r. reflexivity.
Qed.

(** The status of an attempt, without the message. *)
Definition ended (a : result (DownloadStatus * string)) : result DownloadStatus :=
  match a with
  | Return (s, _) => Return s
  | Raise e => Raise e
  end.

(** How the calls of [download_one] for the codes of [cc_iter] end, each
    call made in the world the call before has left. *)
Fixpoint calls (cc_iter : list string) (base_url : string) (w : World)
  : list (result DownloadStatus) :=
  match cc_iter with
  | [] => []
  | cc :: cc_iter' =>
      ended (attempt base_url cc w).1
      :: calls cc_iter' base_url (attempt base_url cc w).2
  end.

Lemma length_calls cc_iter base_url : forall w,
  length (calls cc_iter base_url w) = length cc_iter.
Proof.
  induction cc_iter as [|cc cc_iter IH]; intros w; [reflexivity|].
  cbn [calls length]. rewrite IH. reflexivity.
Qed.

(** The messages of the two kinds of error the loop catches. *)
Definition status_error_msg (resp : Response) : string :=
  "HTTP error " +:+ pretty (status_code resp) +:+ " - " +:+ reason_phrase resp.

Definition request_error_msg (text cls : string) : string :=
  strip (text +:+ " " +:+ "<class '" +:+ cls +:+ "'>").

(** The line the loop prints for an error when it is asked to. *)
Definition complained (cc : string) (verbose : bool) (msg : string)
  : list string :=
  if verbose then [cc +:+ " error: " +:+ msg] else [].

(** The loop of [download_many] seen from outside: the tally it returns
    or the exception it lets through, the world it leaves and the lines
    it prints. *)
Fixpoint rounds (cc_iter : list string) (base_url : string) (verbose : bool)
    (w : World) (c : flags2_sequential.Counter)
  : result flags2_sequential.Counter * World * list string :=
  match cc_iter with
  | [] => (Return c, w, [])
  | cc :: cc_iter' =>
      match attempt base_url cc w with
      | (Return (s, msg), w') =>
          let '(r, w2, out) :=
            rounds cc_iter' base_url verbose w'
                   (flags2_sequential.increment s c) in
          (r, w2, said cc verbose msg ++ out)
      | (Raise (HTTPStatusError resp), w') =>
          let '(r, w2, out) :=
            rounds cc_iter' base_url verbose w'
                   (flags2_sequential.increment ERROR c) in
          (r, w2, complained cc verbose (status_error_msg resp) ++ out)
      | (Raise (RequestError text cls), w') =>
          let '(r, w2, out) :=
            rounds cc_iter' base_url verbose w'
                   (flags2_sequential.increment ERROR c) in
          (r, w2, complained cc verbose (request_error_msg text cls) ++ out)
      | (Raise KeyboardInterrupt, w') => (Return c, w', [])
      | (Raise e, w') => (Raise e, w', [])
      end
  end.

Lemma tally_said cc verbose c status msg st :
  (if truthy msg then Some ERROR else status) <> None ->
  exists s,
    (if truthy msg then Some ERROR else status) = Some s /\
    flags2_sequential.tally cc verbose
      (flags2_sequential.mkLocals c status (Some msg)) st
    = (Return (flags2_sequential.mkLocals
                 (flags2_sequential.increment s c) (Some s) (Some msg)),
       mkState (world st)
               (stdout st ++ if truthy msg then complained cc verbose msg
                             else [])).
Proof.
  intros Hs. unfold flags2_sequential.tally.
  cbn [flags2_sequential.error_msg flags2_sequential.status
       flags2_sequential.counter].
  destruct (if truthy msg then Some ERROR else status) as [s|] eqn:Es;
    [|contradiction].
  exists s. split; [reflexivity|].
  unfold complained.
  destruct verbose, (truthy msg); cbn [andb];
    unfold bind, print, ret; cbn [world stdout];
    rewrite ?app_nil_r; destruct st; reflexivity.
Qed.

Lemma for_cc_rounds base_url verbose cc_iter : forall l st,
  (flags2_sequential.for_cc cc_iter base_url verbose l st).2
  = mkState (rounds cc_iter base_url verbose (world st)
                    (flags2_sequential.counter l)).1.2
            (stdout st
             ++ (rounds cc_iter base_url verbose (world st)
                        (flags2_sequential.counter l)).2) /\
  match (rounds cc_iter base_url verbose (world st)
                (flags2_sequential.counter l)).1.1 with
  | Return c =>
      exists l',
        (flags2_sequential.for_cc cc_iter base_url verbose l st).1 = Return l' /\
        flags2_sequential.counter l' = c
  | Raise e =>
      (flags2_sequential.for_cc cc_iter base_url verbose l st).1 = Raise e
  end.
Proof.
  induction cc_iter as [|cc cc_iter IH]; intros l st.
  - cbn [flags2_sequential.for_cc rounds fst snd]. unfold ret. cbn [fst snd].
    rewrite app_nil_r. destruct st. split; [reflexivity|].
    exists l. split; reflexivity.
  - cbn [flags2_sequential.for_cc rounds].
    rewrite download_one_attempt.
    destruct (attempt base_url cc (world st)) as [[[s msg]|e] w'].
    + cbn [flags2_sequential.try_status].
      destruct (tally_said cc verbose (flags2_sequential.counter l) (Some s)
                  EmptyString
                  (mkState w' (stdout st ++ said cc verbose msg)))
        as (s' & Hs' & Htally); [discriminate|].
      cbn [truthy world stdout] in Hs', Htally. injection Hs' as <-.
      rewrite app_nil_r in Htally.
      unfold bind. rewrite Htally.
      specialize (IH (flags2_sequential.mkLocals
                        (flags2_sequential.increment s
                           (flags2_sequential.counter l))
                        (Some s) (Some EmptyString))
                     (mkState w' (stdout st ++ said cc verbose msg))).
      cbn [world stdout flags2_sequential.counter] in IH.
      destruct (rounds cc_iter base_url verbose w'
                  (flags2_sequential.increment s (flags2_sequential.counter l)))
        as [[r w2] out].
      cbn [fst snd] in *. rewrite <- app_assoc in IH. exact IH.
    + destruct e as [resp|text cls| | | | |].
      * cbn [flags2_sequential.try_status].
        destruct (tally_said cc verbose (flags2_sequential.counter l)
                    (flags2_sequential.status l) (status_error_msg resp)
                    (mkState w' (stdout st)))
          as (s' & Hs' & Htally).
        { unfold status_error_msg. rewrite status_error_msg_truthy.
          discriminate. }
        unfold status_error_msg in Hs', Htally.
        rewrite status_error_msg_truthy in Hs', Htally.
        injection Hs' as <-. cbn [world stdout] in Htally.
        unfold bind. rewrite Htally.
        specialize (IH (flags2_sequential.mkLocals
                          (flags2_sequential.increment ERROR
                             (flags2_sequential.counter l))
                          (Some ERROR)
                          (Some ("HTTP error " +:+ pretty (status_code resp)
                                   +:+ " - " +:+ reason_phrase resp)))
                       (mkState w'
                          (stdout st
                           ++ complained cc verbose
                                ("HTTP error " +:+ pretty (status_code resp)
                                   +:+ " - " +:+ reason_phrase resp)))).
        cbn [world stdout flags2_sequential.counter] in IH.
        destruct (rounds cc_iter base_url verbose w'
                    (flags2_sequential.increment ERROR
                       (flags2_sequential.counter l)))
          as [[r w2] out].
        cbn [fst snd] in *. rewrite <- app_assoc in IH. exact IH.
      * cbn [flags2_sequential.try_status].
        destruct (tally_said cc verbose (flags2_sequential.counter l)
                    (flags2_sequential.status l) (request_error_msg text cls)
                    (mkState w' (stdout st)))
          as (s' & Hs' & Htally).
        { unfold request_error_msg. rewrite request_error_msg_truthy.
          discriminate. }
        unfold request_error_msg in Hs', Htally.
        rewrite request_error_msg_truthy in Hs', Htally.
        injection Hs' as <-. cbn [world stdout] in Htally.
        unfold bind. rewrite Htally.
        specialize (IH (flags2_sequential.mkLocals
                          (flags2_sequential.increment ERROR
                             (flags2_sequential.counter l))
                          (Some ERROR)
                          (Some (strip (text +:+ " " +:+ "<class '" +:+ cls
                                          +:+ "'>"))))
                       (mkState w'
                          (stdout st
                           ++ complained cc verbose
                                (strip (text +:+ " " +:+ "<class '" +:+ cls
                                          +:+ "'>"))))).
        cbn [world stdout flags2_sequential.counter] in IH.
        destruct (rounds cc_iter base_url verbose w'
                    (flags2_sequential.increment ERROR
                       (flags2_sequential.counter l)))
          as [[r w2] out].
        cbn [fst snd] in *. rewrite <- app_assoc in IH. exact IH.
      * cbn [flags2_sequential.try_status fst snd]. rewrite app_nil_r.
        split; [reflexivity|]. exists l. split; reflexivity.
      * cbn [flags2_sequential.try_status fst snd]. rewrite app_nil_r.
        split; reflexivity.
      * cbn [flags2_sequential.try_status fst snd]. rewrite app_nil_r.
        split; reflexivity.
      * cbn [flags2_sequential.try_status fst snd]. rewrite app_nil_r.
        split; reflexivity.
      * cbn [flags2_sequential.try_status fst snd]. rewrite app_nil_r.
        split; reflexivity.
Qed.

Lemma download_many_rounds cc_list base_url verbose concur_req st :
  flags2_sequential.download_many cc_list base_url verbose concur_req st
  = ((rounds (sorted cc_list) base_url verbose (world st) ∅).1.1,
     mkState (rounds (sorted cc_list) base_url verbose (world st) ∅).1.2
             (stdout st
              ++ (rounds (sorted cc_list) base_url verbose (world st) ∅).2)).
Proof.
  unfold flags2_sequential.download_many, bind.
  pose proof (for_cc_rounds base_url verbose (sorted cc_list)
                (flags2_sequential.mkLocals ∅ None None) st) as [Hst Hr].
  cbn [flags2_sequential.counter] in Hst, Hr.
  destruct (flags2_sequential.for_cc (sorted cc_list) base_url verbose
              (flags2_sequential.mkLocals ∅ None None) st) as [r st'].
  cbn [fst snd] in Hst, Hr. subst st'.
  destruct ((rounds (sorted cc_list) base_url verbose (world st) ∅).1.1)
    as [c|e].
  - destruct Hr as (l' & -> & <-). reflexivity.
  - rewrite Hr. reflexivity.
Qed.

(** What the loop makes of the way the calls end: a call that returns or
    raises one of the two errors caught is counted, the interrupt ends
    the loop with the tally as it is, another exception goes through. *)
Fixpoint verdict (rs : list (result DownloadStatus))
    (c : flags2_sequential.Counter) : result flags2_sequential.Counter :=
  match rs with
  | [] => Return c
  | r :: rs' =>
      match category r, r with
      | Some s, _ => verdict rs' (flags2_sequential.increment s c)
      | None, Raise KeyboardInterrupt => Return c
      | None, Raise e => Raise e
      | None, Return _ => Return c
      end
  end.

(** The number of rounds the loop goes through to their end. *)
Fixpoint counted (rs : list (result DownloadStatus)) : nat :=
  match rs with
  | [] => 0
  | r :: rs' => match category r with Some _ => S (counted rs') | None => 0 end
  end.

Lemma rounds_verdict base_url verbose cc_iter : forall w c,
  (rounds cc_iter base_url verbose w c).1.1
  = verdict (calls cc_iter base_url w) c /\
  length (rounds cc_iter base_url verbose w c).2
  = (if verbose then counted (calls cc_iter base_url w) else 0)%nat.
Proof.
  induction cc_iter as [|cc cc_iter IH]; intros w c.
  - cbn. destruct verbose; split; reflexivity.
  - cbn [rounds calls verdict counted].
    destruct (attempt base_url cc w) as [[[s msg]|e] w'] eqn:Ea;
      cbn [fst snd ended category].
    + specialize (IH w' (flags2_sequential.increment s c)).
      destruct (rounds cc_iter base_url verbose w'
                  (flags2_sequential.increment s c)) as [[r w2] out].
      cbn [fst snd] in *. destruct IH as [-> IH2]. split; [reflexivity|].
      rewrite length_app, IH2. unfold said.
      destruct verbose; reflexivity.
    + destruct e as [resp|text cls| | | | |]; cbn [category];
        try (destruct verbose; split; reflexivity).
      * specialize (IH w' (flags2_sequential.increment ERROR c)).
        destruct (rounds cc_iter base_url verbose w'
                    (flags2_sequential.increment ERROR c)) as [[r w2] out].
        cbn [fst snd] in *. destruct IH as [-> IH2]. split; [reflexivity|].
        rewrite length_app, IH2. unfold complained.
        destruct verbose; reflexivity.
      * specialize (IH w' (flags2_sequential.increment ERROR c)).
        destruct (rounds cc_iter base_url verbose w'
                    (flags2_sequential.increment ERROR c)) as [[r w2] out].
        cbn [fst snd] in *. destruct IH as [-> IH2]. split; [reflexivity|].
        rewrite length_app, IH2. unfold complained.
        destruct verbose; reflexivity.
Qed.

End downloads.

(** *** The tally of a list of outcomes *)

Definition tallied (cats : list DownloadStatus)
    (c : flags2_sequential.Counter) : flags2_sequential.Counter :=
  fold_left (fun c s => flags2_sequential.increment s c) cats c.

Definition count (s : DownloadStatus) (c : flags2_sequential.Counter) : nat :=
  default 0%nat (c !! s).

Lemma count_increment s s' c :
  count s (flags2_sequential.increment s' c)
  = ((if decide (s = s') then 1 else 0) + count s c)%nat.
Proof.
  unfold count, flags2_sequential.increment.
  destruct (decide (s = s')) as [->|Hne].
  - rewrite lookup_insert. destruct (decide (s' = s')); [|contradiction].
    reflexivity.
  - rewrite lookup_insert_ne by congruence. reflexivity.
Qed.

Lemma count_tallied s cats : forall c,
  count s (tallied cats c)
  = (length (filter (fun s' => s' = s) cats) + count s c)%nat.
Proof.
  induction cats as [|s' cats IH]; intros c; [reflexivity|].
  cbn [tallied fold_left]. fold (tallied cats (flags2_sequential.increment s' c)).
  rewrite IH, count_increment.
  destruct (decide (s = s')) as [->|Hne].
  - rewrite filter_cons_True by reflexivity. cbn [length]. lia.
  - rewrite filter_cons_False by congruence. lia.
Qed.

Lemma total_tallied cats : forall c,
  total (tallied cats c) = (length cats + total c)%nat.
Proof.
  induction cats as [|s cats IH]; intros c; [reflexivity|].
  cbn [tallied fold_left]. fold (tallied cats (flags2_sequential.increment s c)).
  rewrite IH, total_increment. cbn [length]. lia.
Qed.

Lemma verdict_counted rs : forall c,
  Forall (fun r => category r <> None) rs ->
  verdict rs c = Return (tallied (omap category rs) c) /\
  counted rs = length rs.
Proof.
  induction rs as [|r rs IH]; intros c Hrs; [split; reflexivity|].
  apply Forall_cons in Hrs as [Hr Hrs].
  cbn [verdict counted omap list_omap].
  destruct (category r) as [s|] eqn:Er; [|contradiction].
  destruct (IH (flags2_sequential.increment s c) Hrs) as [-> ->].
  split; reflexivity.
Qed.

Lemma verdict_stopped pre r post : forall c,
  Forall (fun r => category r <> None) pre ->
  category r = None ->
  verdict (pre ++ r :: post) c
  = match r with
    | Raise KeyboardInterrupt | Return _ =>
        Return (tallied (omap category pre) c)
    | Raise e => Raise e
    end /\
  counted (pre ++ r :: post) = length pre.
Proof.
  induction pre as [|r0 pre IH]; intros c Hpre Hr.
  - cbn [app verdict counted omap list_omap tallied fold_left length].
    rewrite Hr. split; [|reflexivity].
    destruct r as [s|e]; [reflexivity|]. destruct e; reflexivity.
  - apply Forall_cons in Hpre as [Hr0 Hpre].
    cbn [app verdict counted omap list_omap length].
    destruct (category r0) as [s|] eqn:Er0; [|contradiction].
    destruct (IH (flags2_sequential.increment s c) Hpre Hr) as [-> ->].
    split; reflexivity.
Qed.

Lemma verdict_raises rs : forall c e,
  verdict rs c = Raise e ->
  exists pre post,
    rs = pre ++ Raise e :: post /\
    Forall (fun r => category r <> None) pre /\
    category (Raise e) = None /\ e <> KeyboardInterrupt.
Proof.
  induction rs as [|r rs IH]; intros c e; cbn [verdict]; [discriminate|].
  destruct (category r) as [s|] eqn:Er.
  - intros Hv. destruct (IH _ _ Hv) as (pre & post & -> & Hpre & He & Hki).
    exists (r :: pre), post. split; [reflexivity|].
    split; [constructor; [congruence | exact Hpre]|]. split; assumption.
  - destruct r as [s|e0]; [discriminate|].
    destruct e0; try discriminate; intros [= <-];
      (eexists [], rs; split; [reflexivity|]; split; [constructor|];
       split; [exact Er | discriminate]).
Qed.

Lemma count_categories s rs :
  length (filter (fun s' => s' = s) (omap category rs))
  = length (filter (fun r => category r = Some s) rs).
Proof.
  induction rs as [|r rs IH]; [reflexivity|].
  cbn [omap list_omap]. destruct (category r) as [s'|] eqn:Er.
  - destruct (decide (s' = s)) as [->|Hne].
    + rewrite !filter_cons_True by (reflexivity || exact Er).
      cbn [length]. rewrite IH. reflexivity.
    + rewrite !filter_cons_False by congruence. exact IH.
  - rewrite filter_cons_False by congruence. exact IH.
Qed.

Lemma length_omap_category rs :
  Forall (fun r => category r <> None) rs ->
  length (omap category rs) = length rs.
Proof.
  induction 1 as [|r rs Hr _ IH]; [reflexivity|].
  cbn [omap list_omap]. destruct (category r); [|contradiction].
  cbn [length]. rewrite IH. reflexivity.
Qed.

Lemma count_empty s : count s ∅ = 0%nat.
Proof. reflexivity. Qed.

(** *** [sorted] gives one order to all the orders of a list *)

Lemma ascii_compare_lt_trans a b c :
  Ascii.compare a b = Lt -> Ascii.compare b c = Lt -> Ascii.compare a c = Lt.
Proof.
  unfold Ascii.compare. rewrite !N.compare_lt_iff. lia.
Qed.

Lemma compare_lt_trans a : forall b c,
  String.compare a b = Lt -> String.compare b c = Lt ->
  String.compare a c = Lt.
Proof.
  induction a as [|x a IH]; intros [|y b] [|z c]; cbn [String.compare];
    try discriminate; try reflexivity.
  destruct (Ascii.compare x y) eqn:Exy; try discriminate;
    destruct (Ascii.compare y z) eqn:Eyz; try discriminate; intros Hab Hbc.
  - apply Ascii.compare_eq_iff in Exy, Eyz. subst.
    replace (Ascii.compare z z) with Eq
      by (symmetry; unfold Ascii.compare; apply N.compare_refl).
    exact (IH _ _ Hab Hbc).
  - apply Ascii.compare_eq_iff in Exy. subst. rewrite Eyz. reflexivity.
  - apply Ascii.compare_eq_iff in Eyz. subst. rewrite Exy. reflexivity.
  - rewrite (ascii_compare_lt_trans _ _ _ Exy Eyz). reflexivity.
Qed.

Lemma leb_trans a b c :
  String.leb a b = true -> String.leb b c = true -> String.leb a c = true.
Proof.
  unfold String.leb.
  destruct (String.compare a b) eqn:Eab; try discriminate;
    destruct (String.compare b c) eqn:Ebc; try discriminate; intros _ _.
  - apply String.compare_eq_iff in Eab, Ebc. subst.
    destruct (String.compare c c) eqn:E; try reflexivity.
    pose proof (String.compare_antisym c c) as Ha.
    rewrite E in Ha. discriminate Ha.
  - apply String.compare_eq_iff in Eab. subst. rewrite Ebc. reflexivity.
  - apply String.compare_eq_iff in Ebc. subst. rewrite Eab. reflexivity.
  - rewrite (compare_lt_trans _ _ _ Eab Ebc). reflexivity.
Qed.

(** A list in which no element comes before a smaller one. *)
Fixpoint ordered (l : list string) : Prop :=
  match l with
  | [] => True
  | x :: l' => Forall (fun y => String.leb x y = true) l' /\ ordered l'
  end.

Lemma insert_sorted_ordered x l : ordered l -> ordered (insert_sorted x l).
Proof.
  induction l as [|y l IH]; intros Hl; cbn [insert_sorted].
  - split; [constructor | exact I].
  - destruct Hl as [Hy Hl].
    destruct (String.leb x y) eqn:Exy.
    + split; [|split; assumption].
      constructor; [exact Exy|].
      eapply Forall_impl; [exact Hy|].
      intros z Hz. cbv beta in *. eapply leb_trans; eassumption.
    + split; [|apply IH; exact Hl].
      rewrite insert_sorted_perm. constructor; [|exact Hy].
      destruct (String.leb_total x y) as [E|E]; [congruence | exact E].
Qed.

Lemma sorted_ordered l : ordered (sorted l).
Proof.
  induction l as [|x l IH]; [exact I|].
  cbn [sorted foldr]. apply insert_sorted_ordered. exact IH.
Qed.

Lemma ordered_unique l : forall l',
  ordered l -> ordered l' -> Permutation l l' -> l = l'.
Proof.
  induction l as [|x l IH]; intros [|y l'] Hl Hl' Hperm.
  - reflexivity.
  - apply Permutation_nil_l in Hperm. discriminate.
  - apply Permutation_nil_r in Hperm. discriminate.
  - destruct Hl as [Hx Hl], Hl' as [Hy Hl'].
    assert (Hxy : x = y).
    { assert (Hyin : y ∈ x :: l) by (rewrite Hperm; left).
      assert (Hxin : x ∈ y :: l') by (rewrite <- Hperm; left).
      apply elem_of_cons in Hyin as [->|Hyin]; [reflexivity|].
      apply elem_of_cons in Hxin as [->|Hxin]; [reflexivity|].
      rewrite Forall_forall in Hx, Hy.
      apply String.leb_antisym; [apply Hx | apply Hy]; assumption. }
    subst y. f_equal. apply IH; [assumption..|].
    eapply Permutation_cons_inv; eassumption.
Qed.

Lemma sorted_permutation l l' : Permutation l l' -> sorted l = sorted l'.
Proof.
  intros Hperm. apply ordered_unique; [apply sorted_ordered..|].
  rewrite !sorted_perm. exact Hperm.
Qed.

End flags_more.
(** ** More on getflags/flags2_threadpool.py: what the loop over the
    futures leaves behind *)

Module threadpool_more.
Import py flags2_common flags_facts flags2_threadpool.

(** What the statements after the loop will count: nothing while
    [error_msg] is unassigned, [ERROR] for a message, the value of
    [status] otherwise. *)
Definition mood (l : locals) : option DownloadStatus :=
  match error_msg l with
  | None => None
  | Some msg => if truthy msg then Some ERROR else status l
  end.

(** What [future.result()] gives in each round of the loop: the outcome
    of the future, or the interrupt in the round the schedule names. *)
Fixpoint effective (done_iter : list Future) (round : nat)
    (interrupt_at : option nat) : list (result DownloadStatus) :=
  match done_iter with
  | [] => []
  | fut :: done_iter' =>
      (if decide (interrupt_at = Some round)
       then Raise KeyboardInterrupt else outcome fut)
      :: effective done_iter' (S round) interrupt_at
  end.

(** What the loop makes of these: each round that returns or raises a
    caught error replaces what the round before left, the interrupt ends
    the loop, another exception goes through. *)
Fixpoint outlook (rs : list (result DownloadStatus))
    (m : option DownloadStatus) : result (option DownloadStatus) :=
  match rs with
  | [] => Return m
  | r :: rs' =>
      match category r, r with
      | Some s, _ => outlook rs' (Some s)
      | None, Raise KeyboardInterrupt => Return m
      | None, Raise e => Raise e
      | None, Return _ => Return m
      end
  end.

(** The variables are in step: a message that is assigned comes with
    something to count and with a future of the batch. *)
Definition good (all : list Future) (l : locals) : Prop :=
  error_msg l = None \/
  (mood l <> None /\ exists fut, future l = Some fut /\ fut ∈ all).

(** A round whose [future.result()] returns or raises a caught error. *)
Lemma round_counted r s l :
  category r = Some s ->
  exists l1,
    try_status r l = Next l1 /\ mood l1 = Some s /\
    counter l1 = counter l /\ future l1 = future l.
Proof.
  intros Hr. destruct r as [s0|e].
  - injection Hr as <-. eexists. split; [reflexivity|].
    split; [reflexivity|]. split; reflexivity.
  - destruct e; try discriminate; injection Hr as <-;
      (eexists; split; [reflexivity|]; split; [|split; reflexivity]);
      unfold mood; cbn [error_msg].
    + rewrite status_error_msg_truthy. reflexivity.
    + rewrite request_error_msg_truthy. reflexivity.
Qed.

(** A round whose [future.result()] raises something else. *)
Lemma round_left r l :
  category r = None ->
  match r with
  | Raise KeyboardInterrupt => try_status r l = Break l
  | Raise e => try_status r l = Propagate e
  | Return _ => False
  end.
Proof.
  destruct r as [s|e]; [discriminate|].
  destruct e; try discriminate; reflexivity.
Qed.

Lemma for_future_outlook all done_iter : forall round interrupt_at l,
  (forall fut, fut ∈ done_iter -> fut ∈ all) ->
  good all l ->
  match for_future done_iter round interrupt_at l,
        outlook (effective done_iter round interrupt_at) (mood l) with
  | Next l', Return m | Break l', Return m =>
      mood l' = m /\ counter l' = counter l /\ good all l'
  | Propagate e, Raise e' => e = e'
  | _, _ => False
  end.
Proof.
  induction done_iter as [|fut done_iter IH]; intros round interrupt_at l Hin Hl.
  - cbn. tauto.
  - cbn [for_future effective outlook].
    assert (Hfut : fut ∈ all) by (apply Hin; left).
    assert (Hin' : forall f, f ∈ done_iter -> f ∈ all)
      by (intros f Hf; apply Hin; right; exact Hf).
    set (l0 := mkLocals (counter l) (Some fut) (status l) (error_msg l)).
    assert (Hgood0 : good all l0).
    { destruct Hl as [Hl|[Hm _]]; [left; exact Hl|].
      right. split; [exact Hm|]. exists fut. split; [reflexivity | exact Hfut]. }
    set (r := if decide (interrupt_at = Some round)
              then Raise KeyboardInterrupt else outcome fut).
    destruct (category r) as [s|] eqn:Er.
    + destruct (round_counted r s l0 Er) as (l1 & -> & Hm1 & Hc1 & Hf1).
      assert (Hg1 : good all l1).
      { right. split; [congruence|]. exists fut.
        split; [rewrite Hf1; reflexivity | exact Hfut]. }
      specialize (IH (S round) interrupt_at l1 Hin' Hg1).
      rewrite Hm1 in IH.
      destruct (for_future done_iter (S round) interrupt_at l1),
               (outlook (effective done_iter (S round) interrupt_at) (Some s));
        try exact IH;
        (destruct IH as (Hm & Hc & Hg'); split; [exact Hm|];
         split; [rewrite Hc, Hc1; reflexivity | exact Hg']).
    + pose proof (round_left r l0 Er) as Hleft.
      destruct r as [s|e]; [contradiction|].
      destruct e; rewrite Hleft;
        try reflexivity.
      split; [reflexivity|]. split; [reflexivity | exact Hgood0].
Qed.

(** The outcomes the loop goes through: all that arrive, or those that
    arrive before the round of the interrupt. *)
Definition consumed (arrivals : list (result DownloadStatus))
    (interrupt_at : option nat) : list (result DownloadStatus) :=
  match interrupt_at with
  | None => arrivals
  | Some k => take k arrivals
  end.

(** The last of a list, or what there was before. *)
Definition latest (m : option DownloadStatus) (cats : list DownloadStatus)
  : option DownloadStatus :=
  match last cats with
  | Some s => Some s
  | None => m
  end.

Lemma latest_cons m s cats : latest m (s :: cats) = latest (Some s) cats.
Proof.
  unfold latest. destruct cats as [|s' cats]; [reflexivity|].
  change (last (s :: s' :: cats)) with (last (s' :: cats)).
  destruct (last (s' :: cats)) eqn:E; [reflexivity|].
  apply last_None in E. discriminate.
Qed.

Lemma outlook_uninterrupted done_iter : forall round m,
  Forall (fun r => category r <> None) (map outcome done_iter) ->
  outlook (effective done_iter round None) m
  = Return (latest m (omap category (map outcome done_iter))).
Proof.
  induction done_iter as [|fut done_iter IH]; intros round m Hall;
    [reflexivity|].
  cbn [map] in Hall. apply Forall_cons in Hall as [Hfut Hall].
  cbn [effective outlook map omap list_omap].
  destruct (decide (None = Some round)) as [|_]; [discriminate|].
  destruct (category (outcome fut)) as [s|]; [|contradiction].
  rewrite IH by exact Hall. rewrite latest_cons. reflexivity.
Qed.

Lemma outlook_interrupted done_iter : forall round k m,
  (round <= k)%nat ->
  Forall (fun r => category r <> None)
         (take (k - round) (map outcome done_iter)) ->
  outlook (effective done_iter round (Some k)) m
  = Return (latest m (omap category
                        (take (k - round) (map outcome done_iter)))).
Proof.
  induction done_iter as [|fut done_iter IH]; intros round k m Hk Hall.
  - cbn [map effective outlook]. rewrite take_nil. reflexivity.
  - cbn [effective outlook map].
    destruct (decide (Some k = Some round)) as [[= ->]|Hne].
    + cbn [category]. replace (round - round)%nat with 0%nat by lia.
      reflexivity.
    + assert (Hlt : (S round <= k)%nat)
        by (destruct (decide (k = round)); [congruence | lia]).
      replace (k - round)%nat with (S (k - S round)) in * by lia.
      cbn [map take] in Hall. apply Forall_cons in Hall as [Hfut Hall].
      cbn [take omap list_omap].
      destruct (category (outcome fut)) as [s|]; [|contradiction].
      rewrite (IH (S round) k (Some s) Hlt Hall), latest_cons. reflexivity.
Qed.

Lemma outlook_consumed done_iter interrupt_at m :
  Forall (fun r => category r <> None)
         (consumed (map outcome done_iter) interrupt_at) ->
  outlook (effective done_iter 0 interrupt_at) m
  = Return (latest m (omap category
                        (consumed (map outcome done_iter) interrupt_at))).
Proof.
  destruct interrupt_at as [k|]; cbn [consumed]; intros Hall.
  - pose proof (outlook_interrupted done_iter 0 k m ltac:(lia)) as Ho.
    rewrite Nat.sub_0_r in Ho. apply Ho. exact Hall.
  - apply outlook_uninterrupted. exact Hall.
Qed.

Lemma outlook_raises rs : forall m e,
  outlook rs m = Raise e ->
  In (Raise e) rs /\ e <> KeyboardInterrupt /\ category (Raise e) = None.
Proof.
  induction rs as [|r rs IH]; intros m e; cbn [outlook]; [discriminate|].
  destruct (category r) as [s|] eqn:Er.
  - intros Ho. destruct (IH _ _ Ho) as (Hin & Hki & Hcat).
    split; [right; exact Hin|]. split; assumption.
  - destruct r as [s|e0]; [discriminate|].
    destruct e0; try discriminate; intros [= <-];
      (split; [left; reflexivity|]; split; [discriminate | exact Er]).
Qed.

Lemma effective_outcome done_iter : forall round interrupt_at e,
  In (Raise e) (effective done_iter round interrupt_at) ->
  e <> KeyboardInterrupt ->
  In (Raise e) (map outcome done_iter).
Proof.
  induction done_iter as [|fut done_iter IH]; intros round interrupt_at e;
    cbn [effective map]; [tauto|].
  intros [Hhere|Hlater] He.
  - destruct (decide (interrupt_at = Some round)); [congruence|].
    left. exact Hhere.
  - right. eapply IH; eassumption.
Qed.

(** The outcomes of the futures [as_completed] yields. *)
Lemma outcome_as_completed futures order :
  map outcome (as_completed futures order)
  = omap (fun i => map outcome futures !! i) order.
Proof.
  unfold as_completed.
  induction order as [|i order IH]; [reflexivity|].
  cbn [omap list_omap].
  change (map outcome futures) with (outcome <$> futures).
  rewrite list_lookup_fmap.
  destruct (futures !! i) as [fut|]; cbn [fmap option_fmap option_map map];
    [f_equal|]; exact IH.
Qed.

Lemma as_completed_elem futures order fut :
  fut ∈ as_completed futures order -> fut ∈ futures.
Proof.
  unfold as_completed. rewrite list_elem_of_omap.
  intros (i & _ & Hi). eapply list_elem_of_lookup_2. exact Hi.
Qed.

Section downloads.
Context `{Externals}.

(** The statements after the loop count what the loop has left. *)
Lemma tally_mood all to_do_map verbose l st :
  good all l ->
  (forall fut, fut ∈ all -> exists cc, to_do_map !! fid fut = Some [cc]) ->
  match mood l with
  | None =>
      tally to_do_map verbose l st = (Raise (UnboundLocalError "error_msg"), st)
  | Some s =>
      exists l' st',
        tally to_do_map verbose l st = (Return l', st') /\
        counter l' = flags2_sequential.increment s (counter l) /\
        world st' = world st
  end.
Proof.
  intros Hl Hmap. unfold tally, mood in *.
  destruct Hl as [Hl|(Hm & fut & Hf & Hfut)].
  - rewrite Hl. reflexivity.
  - unfold mood in Hm.
    destruct (error_msg l) as [msg|]; [|contradiction].
    cbv zeta.
    destruct (if truthy msg then Some ERROR else status l) as [s|];
      [|contradiction].
    destruct (verbose && truthy msg).
    + cbn [future]. rewrite Hf.
      destruct (Hmap fut Hfut) as [cc ->].
      unfold bind, print, ret. eexists _, _. repeat split; reflexivity.
    + unfold ret. eexists _, _. repeat split; reflexivity.
Qed.

(** The futures [submit_all] makes carry the outcomes of the calls of
    [download_one], in the order of submission, and each has its entry in
    [to_do_map]. *)
Lemma submit_all_spec base_url verbose cc_iter :
  forall next to_do_map futures st,
    Forall (fun fut => exists cc, to_do_map !! fid fut = Some [cc]) futures ->
    map outcome
        (submit_all cc_iter base_url verbose next to_do_map futures st).1.2
    = map outcome futures ++ flags_more.calls cc_iter base_url (world st) /\
    Forall (fun fut =>
              exists cc,
                (submit_all cc_iter base_url verbose next to_do_map futures
                            st).1.1 !! fid fut = Some [cc])
           (submit_all cc_iter base_url verbose next to_do_map futures st).1.2.
Proof.
  induction cc_iter as [|cc cc_iter IH]; intros next to_do_map futures st Hmap.
  - cbn [submit_all flags_more.calls fst snd]. rewrite app_nil_r.
    split; [reflexivity | exact Hmap].
  - cbn [submit_all flags_more.calls].
    rewrite flags_more.download_one_attempt.
    destruct (flags_more.attempt base_url cc (world st)) as [[[s msg]|e] w'];
      cbn [fst snd flags_more.ended].
    + match goal with |- context [submit_all _ _ _ _ ?m ?fs ?st1] =>
        specialize (IH (S next) m fs st1) end.
      cbn [world] in IH. rewrite map_app in IH. cbn [map outcome] in IH.
      rewrite <- app_assoc in IH. cbn [app] in IH.
      apply IH. apply Forall_app. split.
      * eapply Forall_impl; [exact Hmap|]. intros fut [cc0 Hcc0].
        cbn [fid].
        destruct (decide (next = fid fut)) as [->|Hne].
        -- exists cc. apply lookup_insert_eq.
        -- exists cc0. rewrite lookup_insert_ne by exact Hne. exact Hcc0.
      * repeat constructor. exists cc. cbn [fid]. apply lookup_insert_eq.
    + match goal with |- context [submit_all _ _ _ _ ?m ?fs ?st1] =>
        specialize (IH (S next) m fs st1) end.
      cbn [world] in IH. rewrite map_app in IH. cbn [map outcome] in IH.
      rewrite <- app_assoc in IH. cbn [app] in IH.
      apply IH. apply Forall_app. split.
      * eapply Forall_impl; [exact Hmap|]. intros fut [cc0 Hcc0].
        cbn [fid].
        destruct (decide (next = fid fut)) as [->|Hne].
        -- exists cc. apply lookup_insert_eq.
        -- exists cc0. rewrite lookup_insert_ne by exact Hne. exact Hcc0.
      * repeat constructor. exists cc. cbn [fid]. apply lookup_insert_eq.
Qed.

End downloads.

End threadpool_more.
(** ** Facts on flags2_threadpool.py interrupted at the head of the loop *)

Module interrupted_facts.
Import py flags2_common flags_facts.

(** The interrupt inside [future.result()], which is the one
    [flags2_threadpool] has. *)
Definition inner (i : option flags2_threadpool_interrupted.interrupt)
  : option nat :=
  match i with
  | Some (flags2_threadpool_interrupted.InResult k) => Some k
  | _ => None
  end.

(** The schedule of [flags2_threadpool] with the same order and the same
    interrupt inside [future.result()]. *)
Definition base (sched : flags2_threadpool_interrupted.schedule)
  : flags2_threadpool.schedule :=
  flags2_threadpool.mkSchedule
    (flags2_threadpool_interrupted.order sched)
    (inner (flags2_threadpool_interrupted.interrupt_at sched)).

(** The loop ends as the loop of [flags2_threadpool] does, or with the
    interrupt raised at its head. *)
Lemma for_future_cases done_iter : forall round i l,
  flags2_threadpool_interrupted.for_future done_iter round i l
  = flags2_threadpool.for_future done_iter round (inner i) l \/
  (flags2_threadpool_interrupted.for_future done_iter round i l
   = flags2_threadpool.Propagate KeyboardInterrupt /\
   exists k, i = Some (flags2_threadpool_interrupted.InWait k)).
Proof.
  induction done_iter as [|fut done_iter IH]; intros round i l;
    cbn [flags2_threadpool_interrupted.for_future
         flags2_threadpool.for_future].
  - destruct (decide (i = Some (flags2_threadpool_interrupted.InWait round)))
      as [->|_]; [right; split; [reflexivity | eexists; reflexivity]|].
    left. reflexivity.
  - destruct (decide (i = Some (flags2_threadpool_interrupted.InWait round)))
      as [->|_]; [right; split; [reflexivity | eexists; reflexivity]|].
    assert (Hsame :
      (if decide (i = Some (flags2_threadpool_interrupted.InResult round))
       then Raise KeyboardInterrupt
       else flags2_threadpool.outcome fut)
      = (if decide (inner i = Some round)
         then Raise KeyboardInterrupt
         else flags2_threadpool.outcome fut)).
    { destruct (decide (i = Some
                          (flags2_threadpool_interrupted.InResult round)))
        as [->|Hne].
      - cbn [inner]. destruct (decide (Some round = Some round));
          [reflexivity | congruence].
      - destruct (decide (inner i = Some round)) as [Hi|_]; [|reflexivity].
        exfalso. apply Hne. destruct i as [[k|k]|]; cbn [inner] in Hi;
          congruence. }
    rewrite Hsame.
    destruct (flags2_threadpool.try_status _ _) as [l1|l1|e];
      [apply IH | left; reflexivity | left; reflexivity].
Qed.

(** With no interrupt at the head of the loop, the loop is that of
    [flags2_threadpool]. *)
Lemma for_future_inner done_iter round i l :
  (forall k, i <> Some (flags2_threadpool_interrupted.InWait k)) ->
  flags2_threadpool_interrupted.for_future done_iter round i l
  = flags2_threadpool.for_future done_iter round (inner i) l.
Proof.
  intros Hno.
  destruct (for_future_cases done_iter round i l) as [Heq|[_ [k Hk]]];
    [exact Heq | exfalso; exact (Hno k Hk)].
Qed.

Section downloads.
Context `{Externals}.

Lemma download_many_cases sched cc_list base_url verbose concur_req st :
  flags2_threadpool_interrupted.download_many sched cc_list base_url verbose
    concur_req st
  = flags2_threadpool.download_many (base sched) cc_list base_url verbose
      concur_req st \/
  ((flags2_threadpool_interrupted.download_many sched cc_list base_url
      verbose concur_req st).1 = Raise KeyboardInterrupt /\
   1 <= concur_req /\
   exists k,
     flags2_threadpool_interrupted.interrupt_at sched
     = Some (flags2_threadpool_interrupted.InWait k)).
Proof.
  unfold flags2_threadpool_interrupted.download_many,
    flags2_threadpool.download_many.
  destruct (Z.leb_spec concur_req 0) as [Hreq|Hreq]; [left; reflexivity|].
  destruct (flags2_threadpool.submit_all (sorted cc_list) base_url verbose
              0 ∅ [] st) as [[to_do_map futures] st1].
  cbn [base flags2_threadpool.order flags2_threadpool.interrupt_at].
  destruct (for_future_cases
              (flags2_threadpool.as_completed futures
                 (flags2_threadpool_interrupted.order sched)) 0
              (flags2_threadpool_interrupted.interrupt_at sched)
              (flags2_threadpool.mkLocals ∅ None None None))
    as [->|[-> Hk]].
  - left. reflexivity.
  - right. split; [reflexivity|]. split; [lia | exact Hk].
Qed.

Lemma download_many_inner sched cc_list base_url verbose concur_req st :
  (forall k, flags2_threadpool_interrupted.interrupt_at sched
             <> Some (flags2_threadpool_interrupted.InWait k)) ->
  flags2_threadpool_interrupted.download_many sched cc_list base_url verbose
    concur_req st
  = flags2_threadpool.download_many (base sched) cc_list base_url verbose
      concur_req st.
Proof.
  intros Hno.
  destruct (download_many_cases sched cc_list base_url verbose concur_req st)
    as [Heq|(_ & _ & k & Hk)]; [exact Heq | exfalso; exact (Hno k Hk)].
Qed.

(** An interrupt before the first future is yielded leaves
    [download_many], with the calls made. *)
Lemma download_many_interrupted_at_once sched cc_list base_url verbose
    concur_req st :
  1 <= concur_req ->
  flags2_threadpool_interrupted.interrupt_at sched
  = Some (flags2_threadpool_interrupted.InWait 0) ->
  flags2_threadpool_interrupted.download_many sched cc_list base_url verbose
    concur_req st
  = (Raise KeyboardInterrupt,
     (flags2_threadpool.submit_all (sorted cc_list) base_url verbose
        0 ∅ [] st).2).
Proof.
  intros Hreq Hi. unfold flags2_threadpool_interrupted.download_many.
  destruct (Z.leb_spec concur_req 0); [lia|].
  destruct (flags2_threadpool.submit_all (sorted cc_list) base_url verbose
              0 ∅ [] st) as [[to_do_map futures] st1].
  rewrite Hi.
  destruct (flags2_threadpool.as_completed futures
              (flags2_threadpool_interrupted.order sched));
    reflexivity.
Qed.

(** What [flags2_threadpool.download_many] raises. *)
Lemma raises_three_ways (sched : flags2_threadpool.schedule)
    (cc_list : list string) (base_url : string) (verbose : bool)
    (concur_req : Z) (st : State) (e : exn) :
  (flags2_threadpool.download_many sched cc_list base_url verbose concur_req
     st).1 = Raise e ->
  (concur_req <= 0 /\
   e = ValueError "max_workers must be greater than 0") \/
  e = UnboundLocalError "error_msg" \/
  (In (Raise e)
      (flags_more.calls (sorted cc_list) base_url (world st)) /\
   e <> KeyboardInterrupt /\
   category (Raise e) = None).
Proof.
  unfold flags2_threadpool.download_many.
  destruct (Z.leb_spec concur_req 0) as [Hreq|Hreq].
  { intros [= <-]. left. split; [exact Hreq | reflexivity]. }
  pose proof (threadpool_more.submit_all_spec base_url verbose
                (py.sorted cc_list) 0 ∅ [] st (Forall_nil_2 _))
    as [Hout Hmap].
  destruct (flags2_threadpool.submit_all (py.sorted cc_list) base_url verbose
              0 ∅ [] st) as [[to_do_map futures] st1].
  cbn [fst snd map app] in Hout, Hmap.
  set (done_iter := flags2_threadpool.as_completed futures
                      (flags2_threadpool.order sched)) in *.
  set (start := flags2_threadpool.mkLocals ∅ None None None).
  pose proof (threadpool_more.for_future_outlook futures done_iter 0
                (flags2_threadpool.interrupt_at sched) start
                (threadpool_more.as_completed_elem futures _)
                (or_introl eq_refl)) as Hloop.
  rewrite Forall_forall in Hmap.
  destruct (flags2_threadpool.for_future done_iter 0
              (flags2_threadpool.interrupt_at sched) start)
    as [l|l|e0].
  - destruct (threadpool_more.outlook _ _) as [m|]; [|contradiction].
    destruct Hloop as (Hm & Hc & Hg).
    pose proof (threadpool_more.tally_mood futures to_do_map verbose l st1
                  Hg Hmap) as Ht.
    unfold py.bind. destruct (threadpool_more.mood l).
    + destruct Ht as (l' & st' & -> & _). discriminate.
    + rewrite Ht. intros [= <-]. right. left. reflexivity.
  - destruct (threadpool_more.outlook _ _) as [m|]; [|contradiction].
    destruct Hloop as (Hm & Hc & Hg).
    pose proof (threadpool_more.tally_mood futures to_do_map verbose l st1
                  Hg Hmap) as Ht.
    unfold py.bind. destruct (threadpool_more.mood l).
    + destruct Ht as (l' & st' & -> & _). discriminate.
    + rewrite Ht. intros [= <-]. right. left. reflexivity.
  - destruct (threadpool_more.outlook _ _) as [m|e1] eqn:Eo; [contradiction|].
    subst e1. intros [= <-].
    destruct (threadpool_more.outlook_raises _ _ _ Eo) as (Hin & Hki & Hcat).
    right. right. split; [|split; assumption].
    apply threadpool_more.effective_outcome in Hin; [|exact Hki].
    rewrite <- Hout.
    unfold done_iter, flags2_threadpool.as_completed in Hin.
    apply in_map_iff in Hin as (fut & Hfut & Hin).
    apply list_elem_of_In, list_elem_of_omap in Hin as (i & _ & Hi).
    apply in_map_iff. exists fut. split; [exact Hfut|].
    apply list_elem_of_In. eapply list_elem_of_lookup_2. exact Hi.
Qed.

End downloads.

End interrupted_facts.

(** ** A world for the downloads of getflags/flags.py

    A server that answers each address always in the same way, and a disk
    that keeps every file written on it.  The world records the addresses
    asked for and the files saved, in the order of the calls. *)

Module archive.
Import py.

Record Disk : Type := mkDisk
  { requests : list string; files : list (string * string) }.

Section server.

(** What the server answers to [httpx.get] at each address. *)
Variable server : string -> result Response.

Definition externals : Externals :=
  {| World := Disk;
     str_lower := flags_facts.lower;
     httpx_get := fun url w =>
       (server url, mkDisk (requests w ++ [url]) (files w));
     raise_for_status := fun resp =>
       if ((200 <=? status_code resp) && (status_code resp <? 300))%bool
       then Return tt else Raise (HTTPStatusError resp);
     save_flag := fun img filename w =>
       (Return tt, mkDisk (requests w) (files w ++ [(filename, img)])) |}.

(** The address [get_flag] asks for. *)
Definition url_of (cc : string) : string :=
  flags_facts.lower
    (flags.BASE_URL +:+ "/" +:+ cc +:+ "/" +:+ cc +:+ ".gif").

(** What [get_flag] returns or raises for a code. *)
Definition served (cc : string) : result string :=
  match server (url_of cc) with
  | Return resp =>
      if ((200 <=? status_code resp) && (status_code resp <? 300))%bool
      then Return (content resp) else Raise (HTTPStatusError resp)
  | Raise e => Raise e
  end.

(** The file a download that succeeds leaves on the disk. *)
Definition flag_of (cc : string) : list (string * string) :=
  match served cc with
  | Return image => [(cc +:+ ".gif", image)]
  | Raise _ => []
  end.

(** What a download that succeeds writes on the output. *)
Definition pieces_of (cc : string) : list string :=
  match served cc with
  | Return _ => [cc; " "]
  | Raise _ => []
  end.

Definition State : Type := @py.State externals.

Lemma get_flag_served cc (st : State) :
  @flags.get_flag externals cc st
  = (served cc,
     @mkState externals
       (mkDisk (requests (world st) ++ [url_of cc]) (files (world st)))
       (stdout st)).
Proof.
  unfold flags.get_flag, served, bind, outside, ret.
  cbn [httpx_get raise_for_status externals world stdout str_lower].
  fold (url_of cc).
  destruct (server (url_of cc)) as [resp|e]; [|reflexivity].
  destruct ((200 <=? status_code resp) && (status_code resp <? 300))%bool;
    reflexivity.
Qed.

(** The codes the sequential download gets through, those before the
    first that fails, and the exception that one raises. *)
Fixpoint reached (codes : list string) : list string :=
  match codes with
  | [] => []
  | cc :: codes' =>
      match served cc with
      | Return _ => cc :: reached codes'
      | Raise _ => []
      end
  end.

Fixpoint failure (codes : list string) : option (string * exn) :=
  match codes with
  | [] => None
  | cc :: codes' =>
      match served cc with
      | Return _ => failure codes'
      | Raise e => Some (cc, e)
      end
  end.

(** The addresses the sequential download asks for. *)
Definition asked_in_turn (codes : list string) : list string :=
  map url_of (reached codes)
  ++ match failure codes with
     | Some (cc, _) => [url_of cc]
     | None => []
     end.

Lemma for_cc_archive codes : forall st : State,
  @flags.for_cc externals codes st
  = (match failure codes with
     | None => Return tt
     | Some (_, e) => Raise e
     end,
     @mkState externals
       (mkDisk (requests (world st) ++ asked_in_turn codes)
               (files (world st) ++ concat (map flag_of (reached codes))))
       (stdout st ++ concat (map pieces_of (reached codes)))).
Proof.
  induction codes as [|cc codes IH]; intros st.
  - cbn. rewrite !app_nil_r. destruct st as [[? ?] ?]. reflexivity.
  - cbn [flags.for_cc reached failure]. unfold bind at 1.
    rewrite get_flag_served. unfold asked_in_turn.
    cbn [reached failure]. unfold flag_of at 1, pieces_of at 1.
    destruct (served cc) as [image|e] eqn:Ecc.
    + unfold bind at 1. unfold flags.save_flag, outside.
      cbn [save_flag externals world stdout].
      unfold bind at 1. unfold flags.print_end, flags.write, bind.
      cbn [world stdout].
      rewrite IH. cbn [world stdout requests files map concat app].
      unfold asked_in_turn. rewrite ?Ecc. rewrite <- !app_assoc.
      reflexivity.
    + cbn [map concat app]. rewrite !app_nil_r. reflexivity.
Qed.

End server.

End archive.
(** ** Facts on the pool of getflags/flags_threadpool.py *)

Module pool_facts.
Import py flags_threadpool procs_facts.

(** The calls a task has still to make, at most. *)
Definition moves (t : task) : nat :=
  match t with
  | Waiting _ => 4
  | AtSave _ _ => 3
  | AtPrint _ => 2
  | AtEnd _ => 1
  | Done _ _ => 0
  end.

Definition moves_left (ts : list task) : nat := list_sum (map moves ts).

(** The code a task was submitted for. *)
Definition code (t : task) : string :=
  match t with
  | Waiting cc | AtSave cc _ | AtPrint cc | AtEnd cc | Done cc _ => cc
  end.

Lemma running_count ts :
  length (filter (fun t => running t = true) ts) = how_many running ts.
Proof.
  induction ts as [|t ts IH]; [reflexivity|].
  cbn [how_many]. destruct (running t) eqn:Et.
  - rewrite filter_cons_True by exact Et. cbn [length]. rewrite IH. reflexivity.
  - rewrite filter_cons_False by congruence. exact IH.
Qed.

Lemma moves_left_insert ts : forall i t t',
  ts !! i = Some t ->
  (moves_left (<[i := t']> ts) + moves t = moves_left ts + moves t')%nat.
Proof.
  unfold moves_left.
  induction ts as [|t0 ts IH]; intros [|i] t t' Hi; try discriminate.
  - injection Hi as ->. cbn. lia.
  - specialize (IH i t t' Hi). simpl in *. lia.
Qed.

Lemma moves_left_waiting codes :
  moves_left (map Waiting codes) = (4 * length codes)%nat.
Proof.
  unfold moves_left. induction codes as [|cc codes IH]; [reflexivity|].
  change (list_sum (map moves (map Waiting (cc :: codes))))
    with (4 + list_sum (map moves (map Waiting codes)))%nat.
  rewrite IH. cbn [length]. lia.
Qed.

Lemma forallb_done_moves ts : forallb done ts = true <-> moves_left ts = 0%nat.
Proof.
  unfold moves_left. induction ts as [|t ts IH]; [split; reflexivity|].
  cbn [forallb map list_sum]. rewrite andb_true_iff, IH.
  destruct t; cbn; split; intros; try lia; try tauto; try discriminate;
    destruct H; try discriminate; try lia.
Qed.

Section pool.
Context `{Externals}.

Lemma step_task_moves t st t' st' :
  step_task t st = Some (t', st') ->
  (moves t' < moves t)%nat /\ code t' = code t /\
  (running t' = true -> waiting t = true \/ running t = true) /\
  waiting t' = false.
Proof.
  assert (Hall : forall t0 t1 : task,
             (moves t1 < moves t0)%nat -> code t1 = code t0 ->
             waiting t1 = false ->
             (waiting t0 = true \/ running t0 = true) ->
             (moves t1 < moves t0)%nat /\ code t1 = code t0 /\
             (running t1 = true -> waiting t0 = true \/ running t0 = true) /\
             waiting t1 = false) by (intros; tauto).
  destruct t as [cc|cc image|cc|cc|cc r]; cbn [step_task].
  - destruct (flags.get_flag cc st) as [[image|e] st1]; intros [= <- <-];
      apply Hall; cbn; auto; lia.
  - destruct (flags.save_flag image _ st) as [[[]|e] st1]; intros [= <- <-];
      apply Hall; cbn; auto; lia.
  - intros [= <- <-]. apply Hall; cbn; auto; lia.
  - intros [= <- <-]. apply Hall; cbn; auto; lia.
  - discriminate.
Qed.

(** What a step of the pool is made of. *)
Lemma step_inv max_workers i p p' :
  step max_workers i p = Some p' ->
  exists t t',
    tasks p !! i = Some t /\
    step_task t (state p) = Some (t', state p') /\
    tasks p' = <[i := t']> (tasks p) /\
    (waiting t = true ->
     (how_many running (tasks p) < max_workers)%nat /\
     forallb (fun t => negb (waiting t)) (take i (tasks p)) = true).
Proof.
  unfold step. destruct (tasks p !! i) as [t|] eqn:Hi; [|discriminate].
  destruct (waiting t &&
            negb ((length (filter (fun t => running t = true) (tasks p))
                   <? max_workers)%nat
                  && forallb (fun t => negb (waiting t)) (take i (tasks p))))
    eqn:Eguard; [discriminate|].
  destruct (step_task t (state p)) as [[t' st']|] eqn:Et; [|discriminate].
  intros [= <-]. exists t, t'. cbn [tasks state].
  split; [reflexivity|]. split; [exact Et|]. split; [reflexivity|].
  intros Hw. rewrite Hw in Eguard. cbn [andb] in Eguard.
  apply negb_false_iff, andb_true_iff in Eguard as [Hlt Hbefore].
  apply Nat.ltb_lt in Hlt. rewrite running_count in Hlt.
  split; assumption.
Qed.

(** Every step uses up a move, and no more than [max_workers] tasks run
    at a time. *)
Lemma pool_step_moves_left max_workers i p p' :
  step max_workers i p = Some p' ->
  (moves_left (tasks p') < moves_left (tasks p))%nat /\
  map code (tasks p') = map code (tasks p) /\
  ((how_many running (tasks p) <= max_workers)%nat ->
   (how_many running (tasks p') <= max_workers)%nat).
Proof.
  intros Hstep.
  destruct (step_inv _ _ _ _ Hstep) as (t & t' & Hi & Ht & -> & Hw).
  destruct (step_task_moves _ _ _ _ Ht) as (Hm & Hc & Hr & _).
  pose proof (moves_left_insert (tasks p) i t t' Hi).
  pose proof (how_many_insert running (tasks p) i t t' Hi) as Hrun.
  split; [lia|]. split.
  - change (map code ?l) with (code <$> l).
    rewrite list_fmap_insert, Hc.
    apply list_insert_id. rewrite list_lookup_fmap, Hi. reflexivity.
  - intros Hle. destruct (running t') eqn:Et'; [|destruct (running t); lia].
    destruct (Hr eq_refl) as [Hwait|Hrunning].
    + destruct (Hw Hwait) as [Hlt _].
      destruct (running t); lia.
    + rewrite Hrunning in Hrun. lia.
Qed.

Lemma pool_run_moves_left max_workers schedule : forall p p',
  run max_workers schedule p = Some p' ->
  (length schedule + moves_left (tasks p') <= moves_left (tasks p))%nat /\
  map code (tasks p') = map code (tasks p) /\
  ((how_many running (tasks p) <= max_workers)%nat ->
   (how_many running (tasks p') <= max_workers)%nat).
Proof.
  induction schedule as [|i schedule IH]; intros p p'; cbn [run].
  - intros [= <-]. cbn. split; [lia|]. split; [reflexivity | tauto].
  - destruct (step max_workers i p) as [p1|] eqn:Estep; [|discriminate].
    intros Hrun. destruct (IH _ _ Hrun) as (Hm & Hc & Hr).
    destruct (pool_step_moves_left _ _ _ _ Estep) as (Hm1 & Hc1 & Hr1).
    cbn [length]. split; [lia|]. split; [congruence | tauto].
Qed.

Lemma pool_run_app max_workers schedule schedule' p p1 p2 :
  run max_workers schedule p = Some p1 ->
  run max_workers schedule' p1 = Some p2 ->
  run max_workers (schedule ++ schedule') p = Some p2.
Proof.
  revert p. induction schedule as [|i schedule IH]; intros p; cbn [run app].
  - intros [= <-]. tauto.
  - destruct (step max_workers i p); [apply IH | discriminate].
Qed.

(** A pool that is not done has a task that can move. *)
Lemma pool_progress max_workers p :
  (1 <= max_workers)%nat ->
  forallb done (tasks p) = false ->
  exists i p', step max_workers i p = Some p'.
Proof.
  intros Hmw Hnot.
  destruct (how_many running (tasks p)) as [|k] eqn:Erun.
  - (* none is running: the first that waits starts *)
    assert (Hfirst : forall ts,
               forallb done ts = false -> how_many running ts = 0%nat ->
               exists i cc, ts !! i = Some (Waiting cc) /\
                 forallb (fun t => negb (waiting t)) (take i ts) = true).
    { induction ts as [|t ts IH]; cbn [forallb how_many]; [discriminate|].
      destruct t as [cc|cc image|cc|cc|cc r]; cbn [done running andb];
        try (intros _ ?; lia).
      - intros _ _. exists 0%nat, cc. split; reflexivity.
      - intros Hd Hr. destruct (IH Hd Hr) as (i & cc0 & Hi & Hb).
        exists (S i), cc0. split; [exact Hi|]. cbn. exact Hb. }
    destruct (Hfirst _ Hnot Erun) as (i & cc & Hi & Hbefore).
    exists i. unfold step. rewrite Hi, running_count, Erun, Hbefore.
    replace (0 <? max_workers)%nat with true
      by (symmetry; apply Nat.ltb_lt; lia).
    cbn [waiting andb negb step_task].
    destruct (flags.get_flag cc (state p)) as [[image|e] st1];
      eexists; reflexivity.
  - assert (Hsome : (0 < how_many running (tasks p))%nat) by lia.
    apply how_many_some in Hsome as (i & t & Hi & Ht).
    exists i. unfold step. rewrite Hi.
    destruct t as [cc|cc image|cc|cc|cc r]; try discriminate;
      cbn [waiting andb step_task].
    + destruct (flags.save_flag image _ (state p)) as [[[]|e] st1];
        eexists; reflexivity.
    + eexists; reflexivity.
    + eexists; reflexivity.
Qed.

(** Every run of the pool can be carried on until every call is done. *)
Lemma pool_can_finish max_workers :
  (1 <= max_workers)%nat ->
  forall k p, (moves_left (tasks p) <= k)%nat ->
  exists schedule p',
    run max_workers schedule p = Some p' /\ forallb done (tasks p') = true.
Proof.
  intros Hmw. induction k as [|k IH]; intros p Hk.
  - exists [], p. split; [reflexivity|]. apply forallb_done_moves. lia.
  - destruct (forallb done (tasks p)) eqn:Hd.
    + exists [], p. split; [reflexivity | exact Hd].
    + destruct (pool_progress max_workers p Hmw Hd) as (i & p1 & Hstep).
      destruct (pool_step_moves_left _ _ _ _ Hstep) as (Hm & _).
      destruct (IH p1 ltac:(lia)) as (schedule & p' & Hrun & Hdone).
      exists (i :: schedule), p'. split; [|exact Hdone].
      cbn [run]. rewrite Hstep. exact Hrun.
Qed.

End pool.

End pool_facts.

(** ** The pool in the world of the archive *)

Module pool_archive.
Import py flags_threadpool pool_facts archive.

Lemma concat_insert_grow {A} (f : task -> list A) ts : forall i t t' extra,
  ts !! i = Some t -> f t' = f t ++ extra ->
  Permutation (concat (map f (<[i := t']> ts))) (concat (map f ts) ++ extra).
Proof.
  induction ts as [|t0 ts IH]; intros [|i] t t' extra Hi Hf;
    try discriminate.
  - injection Hi as ->. cbn [insert list_insert map concat].
    rewrite Hf, <- !app_assoc. apply Permutation_app_head.
    apply Permutation_app_comm.
  - cbn [insert list_insert map concat]. rewrite <- app_assoc.
    apply Permutation_app_head. eapply IH; eassumption.
Qed.

Section server.
Variable server : string -> result Response.

Local Abbreviation E := (archive.externals server).

(** A task is where the answer of the server lets it be. *)
Definition task_ok (t : task) : Prop :=
  match t with
  | Waiting _ => True
  | AtSave cc image => served server cc = Return image
  | AtPrint cc | AtEnd cc => exists image, served server cc = Return image
  | Done cc (Return c) =>
      c = cc /\ exists image, served server cc = Return image
  | Done cc (Raise e) => served server cc = Raise e
  end.

(** What a task has put on the disk, asked the server and written so
    far. *)
Definition saved (t : task) : list (string * string) :=
  match t with
  | AtPrint cc | AtEnd cc | Done cc (Return _) => flag_of server cc
  | _ => []
  end.

Definition asked (t : task) : list string :=
  match t with
  | Waiting _ => []
  | _ => [url_of (code t)]
  end.

Definition written (t : task) : list string :=
  match t with
  | AtEnd cc => [cc]
  | Done cc (Return _) => [cc; " "]
  | _ => []
  end.

Definition inv (st0 : @py.State E) (p : @pool E) : Prop :=
  Forall task_ok (tasks p) /\
  Permutation (files (world (state p)))
              (files (world st0) ++ concat (map saved (tasks p))) /\
  Permutation (requests (world (state p)))
              (requests (world st0) ++ concat (map asked (tasks p))) /\
  Permutation (stdout (state p))
              (stdout st0 ++ concat (map written (tasks p))).

Lemma inv_initial st0 codes : inv st0 (mkPool (map Waiting codes) st0).
Proof.
  assert (Hnil : forall A (f : task -> list A),
             (forall cc, f (Waiting cc) = []) ->
             concat (map f (map Waiting codes)) = []).
  { intros A f Hf. induction codes as [|cc codes IH]; [reflexivity|].
    cbn [map concat]. rewrite Hf, IH. reflexivity. }
  unfold inv. cbn [tasks state].
  rewrite !Hnil by reflexivity. rewrite !app_nil_r.
  split; [|split; [|split]]; try reflexivity.
  clear Hnil. induction codes as [|cc codes IH]; cbn [map];
    [apply Forall_nil_2 | apply Forall_cons_2; [exact I | exact IH]].
Qed.

Lemma inv_step st0 max_workers i p p' :
  inv st0 p -> step max_workers i p = Some p' -> inv st0 p'.
Proof.
  intros (Hok & Hfiles & Hreq & Hout) Hstep.
  destruct (step_inv _ _ _ _ Hstep) as (t & t' & Hi & Ht & Htasks & _).
  pose proof (Forall_lookup_1 _ _ _ _ Hok Hi) as Hokt.
  unfold inv. rewrite Htasks.
  destruct t as [cc|cc image|cc|cc|cc r]; cbn [step_task] in Ht.
  - rewrite get_flag_served in Ht.
    destruct (served server cc) as [image|e] eqn:Ecc;
      injection Ht as <- Hst; rewrite <- Hst; cbn [world stdout requests files];
      (split; [apply Forall_insert; [exact Hok | exact Ecc]|]);
      rewrite (concat_insert_grow saved _ i _ _ [] Hi) by reflexivity;
      rewrite (concat_insert_grow written _ i _ _ [] Hi) by reflexivity;
      rewrite (concat_insert_grow asked _ i _ _ [url_of cc] Hi) by reflexivity;
      rewrite !app_nil_r;
      (split; [exact Hfiles|]); (split; [|exact Hout]);
      rewrite Hreq, app_assoc; reflexivity.
  - cbn [task_ok] in Hokt.
    unfold flags.save_flag, outside in Ht.
    cbn [save_flag externals] in Ht.
    injection Ht as <- Hst; rewrite <- Hst; cbn [world stdout requests files].
    split; [apply Forall_insert; [exact Hok | exists image; exact Hokt]|].
    rewrite (concat_insert_grow saved _ i _ _ [(cc +:+ ".gif", image)] Hi)
      by (cbn [saved]; unfold flag_of; rewrite Hokt; reflexivity).
    rewrite (concat_insert_grow written _ i _ _ [] Hi) by reflexivity.
    rewrite (concat_insert_grow asked _ i _ _ [] Hi) by reflexivity.
    rewrite !app_nil_r.
    split; [|split; [exact Hreq | exact Hout]].
    rewrite Hfiles, app_assoc. reflexivity.
  - cbn [task_ok] in Hokt.
    injection Ht as <- Hst; rewrite <- Hst.
    unfold flags.write. cbn [snd world stdout requests files].
    split; [apply Forall_insert; [exact Hok | exact Hokt]|].
    rewrite (concat_insert_grow saved _ i _ _ [] Hi)
      by (cbn [saved]; rewrite app_nil_r; reflexivity).
    rewrite (concat_insert_grow written _ i _ _ [cc] Hi) by reflexivity.
    rewrite (concat_insert_grow asked _ i _ _ [] Hi) by reflexivity.
    rewrite !app_nil_r.
    split; [exact Hfiles|]. split; [exact Hreq|].
    rewrite Hout, app_assoc. reflexivity.
  - cbn [task_ok] in Hokt.
    injection Ht as <- Hst; rewrite <- Hst.
    unfold flags.write. cbn [snd world stdout requests files].
    split; [apply Forall_insert;
            [exact Hok | split; [reflexivity | exact Hokt]]|].
    rewrite (concat_insert_grow saved _ i _ _ [] Hi)
      by (cbn [saved]; rewrite app_nil_r; reflexivity).
    rewrite (concat_insert_grow written _ i _ _ [" "] Hi) by reflexivity.
    rewrite (concat_insert_grow asked _ i _ _ [] Hi) by reflexivity.
    rewrite !app_nil_r.
    split; [exact Hfiles|]. split; [exact Hreq|].
    rewrite Hout, app_assoc. reflexivity.
  - discriminate.
Qed.

Lemma inv_run st0 max_workers schedule : forall p p',
  inv st0 p -> run max_workers schedule p = Some p' -> inv st0 p'.
Proof.
  induction schedule as [|i schedule IH]; intros p p' Hp; cbn [run].
  - intros [= <-]. exact Hp.
  - destruct (step max_workers i p) as [p1|] eqn:Estep; [|discriminate].
    apply IH. eapply inv_step; eassumption.
Qed.

(** How the call for a code ends. *)
Definition final (cc : string) : task :=
  Done cc match served server cc with
          | Return _ => Return cc
          | Raise e => Raise e
          end.

Lemma done_final ts :
  Forall task_ok ts -> forallb done ts = true ->
  ts = map final (map code ts).
Proof.
  induction 1 as [|t ts Ht _ IH]; [reflexivity|].
  cbn [forallb map]. intros [Hd Hds]%andb_true_iff.
  rewrite <- IH by exact Hds. f_equal.
  destruct t as [cc|cc image|cc|cc|cc [c|e]]; try discriminate;
    cbn [task_ok code] in *; unfold final.
  - destruct Ht as [-> [image ->]]. reflexivity.
  - rewrite Ht. reflexivity.
Qed.

Lemma final_contribution cc :
  saved (final cc) = flag_of server cc /\
  asked (final cc) = [url_of cc] /\
  written (final cc) = pieces_of server cc.
Proof.
  unfold final, flag_of, pieces_of. cbn [asked code].
  destruct (served server cc) eqn:Ecc; cbn [saved written];
    unfold flag_of; rewrite ?Ecc; repeat split; reflexivity.
Qed.

Lemma final_contributions codes :
  concat (map saved (map final codes)) = concat (map (flag_of server) codes) /\
  concat (map asked (map final codes)) = map url_of codes /\
  concat (map written (map final codes))
  = concat (map (pieces_of server) codes).
Proof.
  induction codes as [|cc codes (IH1 & IH2 & IH3)]; [repeat split|].
  destruct (final_contribution cc) as (H1 & H2 & H3).
  cbn [map concat]. rewrite IH1, IH2, IH3, H1, H2, H3.
  repeat split; reflexivity.
Qed.

Lemma len_list_final codes : forall count,
  len_list (map final codes) count
  = match failure server codes with
    | None => Return (count + Z.of_nat (length codes))
    | Some (_, e) => Raise e
    end.
Proof.
  induction codes as [|cc codes IH]; intros count.
  - cbn. f_equal. lia.
  - cbn [map len_list failure final]. unfold final at 1.
    destruct (served server cc); [|reflexivity].
    cbn [len_list]. rewrite IH.
    destruct (failure server codes) as [[? ?]|]; [reflexivity|].
    f_equal. cbn [length]. lia.
Qed.

Lemma reached_all codes :
  failure server codes = None -> reached server codes = codes.
Proof.
  induction codes as [|cc codes IH]; [reflexivity|].
  cbn [failure reached]. destruct (served server cc); [|discriminate].
  intros Hf. rewrite IH by exact Hf. reflexivity.
Qed.

Lemma reached_stopped pre cc e post :
  Forall (fun c => exists image, served server c = Return image) pre ->
  served server cc = Raise e ->
  reached server (pre ++ cc :: post) = pre /\
  failure server (pre ++ cc :: post) = Some (cc, e).
Proof.
  intros Hpre Hcc. induction Hpre as [|c pre [image Hc] _ IH].
  - cbn [app reached failure]. rewrite Hcc. split; reflexivity.
  - cbn [app reached failure]. rewrite Hc. destruct IH as [-> ->].
    split; reflexivity.
Qed.

Lemma failure_none codes :
  Forall (fun c => exists image, served server c = Return image) codes ->
  failure server codes = None.
Proof.
  induction 1 as [|c codes [image Hc] _ IH]; [reflexivity|].
  cbn [failure]. rewrite Hc. exact IH.
Qed.

End server.

End pool_archive.
(** ** Facts on getflags/flags.py in any world *)

Module flags_py_facts.
Import py.

Section downloads.
Context `{Externals}.

(** What a download writes on the output when it succeeds. *)
Definition pieces (cc : string) : list string := [cc; " "].

Lemma get_flag_stdout cc st :
  stdout (flags.get_flag cc st).2 = stdout st.
Proof.
  change (flags.get_flag cc)
    with (flags2_sequential.get_flag flags.BASE_URL cc).
  rewrite flags_more.get_flag_fetched. reflexivity.
Qed.

Lemma save_flag_stdout img filename st :
  stdout (flags.save_flag img filename st).2 = stdout st.
Proof.
  unfold flags.save_flag, outside.
  destruct (py.save_flag img filename (world st)). reflexivity.
Qed.

(** The loop of [download_any] writes the codes it gets through, and
    stops at the first call that raises. *)
Lemma for_cc_writes codes : forall st,
  match flags.for_cc codes st with
  | (Return _, st') =>
      stdout st' = stdout st ++ concat (map pieces codes)
  | (Raise e, st') =>
      exists pre cc post,
        codes = pre ++ cc :: post /\
        stdout st' = stdout st ++ concat (map pieces pre)
  end.
Proof.
  induction codes as [|cc codes IH]; intros st.
  - cbn. rewrite app_nil_r. reflexivity.
  - cbn [flags.for_cc]. unfold bind at 1.
    pose proof (get_flag_stdout cc st) as Hget.
    destruct (flags.get_flag cc st) as [[image|e] st1]; cbn [snd] in Hget.
    + unfold bind at 1.
      pose proof (save_flag_stdout image (cc +:+ ".gif") st1) as Hsave.
      destruct (flags.save_flag image (cc +:+ ".gif") st1) as [[[]|e] st2];
        cbn [snd] in Hsave.
      * unfold bind at 1. unfold flags.print_end, flags.write, bind.
        specialize (IH (mkState (world st2) ((stdout st2 ++ [cc]) ++ [" "]))).
        cbn [world stdout] in *.
        destruct (flags.for_cc codes _) as [[[]|e] st3].
        -- rewrite IH, Hsave, Hget. cbn [map concat pieces app].
           rewrite <- !app_assoc. reflexivity.
        -- destruct IH as (pre & c & post & -> & Hout).
           exists (cc :: pre), c, post. split; [reflexivity|].
           rewrite Hout, Hsave, Hget. cbn [map concat pieces app].
           rewrite <- !app_assoc. reflexivity.
      * exists [], cc, codes. split; [reflexivity|].
        cbn. rewrite app_nil_r, Hsave, Hget. reflexivity.
    + exists [], cc, codes. split; [reflexivity|].
      cbn. rewrite app_nil_r, Hget. reflexivity.
Qed.

(** What one round of the loop of [download_any] does to the world
    outside: [get_flag], then [save_flag] with what it returned. *)
Definition download (cc : string) (w : World) : result unit * World :=
  match flags_more.fetched flags.BASE_URL cc w with
  | (Return image, w1) => save_flag image (cc +:+ ".gif") w1
  | (Raise e, w1) => (Raise e, w1)
  end.

(** The world after the downloads of the codes, one after the other, when
    each of them returns. *)
Fixpoint downloaded (codes : list string) (w : World) : option World :=
  match codes with
  | [] => Some w
  | cc :: codes' =>
      match download cc w with
      | (Return _, w') => downloaded codes' w'
      | (Raise _, _) => None
      end
  end.

(** The loop of [download_any] makes the downloads in turn; it writes the
    code of each one that returns, and at the first one that raises it
    stops with that exception. *)
Lemma for_cc_downloads codes : forall st,
  match flags.for_cc codes st with
  | (Return _, st') =>
      downloaded codes (world st) = Some (world st') /\
      stdout st' = stdout st ++ concat (map pieces codes)
  | (Raise e, st') =>
      exists pre cc post w,
        codes = pre ++ cc :: post /\
        downloaded pre (world st) = Some w /\
        download cc w = (Raise e, world st') /\
        stdout st' = stdout st ++ concat (map pieces pre)
  end.
Proof.
  induction codes as [|cc codes IH]; intros st.
  - cbn. rewrite app_nil_r. split; reflexivity.
  - cbn [flags.for_cc downloaded]. unfold bind at 1. unfold download.
    change (flags.get_flag cc)
      with (flags2_sequential.get_flag flags.BASE_URL cc).
    rewrite flags_more.get_flag_fetched.
    destruct (flags_more.fetched flags.BASE_URL cc (world st))
      as [[image|e] w1] eqn:Ef; cbn [fst snd].
    + unfold bind at 1. unfold flags.save_flag, outside. cbn [world stdout].
      destruct (save_flag image (cc +:+ ".gif") w1) as [[[]|e] w2] eqn:Es.
      * unfold bind at 1. unfold flags.print_end, flags.write, bind.
        cbn [world stdout].
        specialize (IH (mkState w2 ((stdout st ++ [cc]) ++ [" "]))).
        cbn [world stdout] in IH.
        destruct (flags.for_cc codes _) as [[[]|e] st3].
        -- destruct IH as [Hw Hout]. split; [exact Hw|].
           rewrite Hout. cbn [map concat pieces app].
           rewrite <- !app_assoc. reflexivity.
        -- destruct IH as (pre & c & post & w & -> & Hw & Hd & Hout).
           exists (cc :: pre), c, post, w. split; [reflexivity|].
           split; [cbn [downloaded]; unfold download; rewrite Ef, Es; exact Hw|].
           split; [exact Hd|].
           rewrite Hout. cbn [map concat pieces app].
           rewrite <- !app_assoc. reflexivity.
      * exists [], cc, codes, (world st). split; [reflexivity|].
        split; [reflexivity|].
        split; [unfold download; rewrite Ef, Es; reflexivity|].
        cbn. rewrite app_nil_r. reflexivity.
    + exists [], cc, codes, (world st). split; [reflexivity|].
      split; [reflexivity|].
      split; [unfold download; rewrite Ef; reflexivity|].
      cbn. rewrite app_nil_r. reflexivity.
Qed.

End downloads.

End flags_py_facts.
(** ** Facts on getflags/flags_threadpool_futures.py *)

Module futures_facts.
Import py flags_threadpool flags_threadpool_futures pool_facts.

Section downloads.
Context `{Externals}.
Variable repr_future : nat -> task -> string.

(** The codes the main thread has still to submit. *)
Definition todo_of (pc : main_pc) : list string :=
  match pc with
  | Submit todo | SayScheduled _ _ todo | SayNewline todo => todo
  | Left => []
  end.

(** The futures stand for the codes submitted so far, and the main thread
    leaves the block only when every call is done. *)
Definition in_step (codes : list string) (s : system) : Prop :=
  map code (tasks (threads s)) ++ todo_of (main s) = codes /\
  match main s with
  | SayScheduled _ k _ => (k < length (tasks (threads s)))%nat
  | Left => forallb done (tasks (threads s)) = true
  | _ => True
  end.

Lemma in_step_initial codes st :
  in_step codes (mkSystem (mkPool [] st) (Submit codes)).
Proof. split; [reflexivity | exact I]. Qed.

Lemma step_keeps_done max_workers i p p' :
  flags_threadpool.step max_workers i p = Some p' ->
  forallb done (tasks p) = false.
Proof.
  intros Hstep.
  destruct (pool_step_moves_left _ _ _ _ Hstep) as (Hm & _).
  destruct (forallb done (tasks p)) eqn:Hd; [|reflexivity].
  apply forallb_done_moves in Hd. lia.
Qed.

Lemma in_step_step codes e s s' :
  in_step codes s -> step repr_future e s = Some s' -> in_step codes s'.
Proof.
  intros [Hcodes Hpc] Hstep. destruct e as [|i]; cbn [step] in Hstep.
  - unfold step_main in Hstep.
    destruct (main s) as [[|cc todo]|cc k todo|todo|] eqn:Emain;
      cbn [todo_of] in *.
    + destruct (forallb done (tasks (threads s))) eqn:Hd; [|discriminate].
      injection Hstep as <-. split; [exact Hcodes | exact Hd].
    + injection Hstep as <-. split; cbn [threads tasks main todo_of].
      * rewrite map_app, <- app_assoc. exact Hcodes.
      * rewrite length_app. cbn [length]. lia.
    + destruct (tasks (threads s) !! k); [|discriminate].
      injection Hstep as <-. split; [exact Hcodes | exact I].
    + injection Hstep as <-. split; [exact Hcodes | exact I].
    + discriminate.
  - destruct (flags_threadpool.step max_workers i (threads s)) as [p'|] eqn:Ep;
      [|discriminate].
    injection Hstep as <-.
    destruct (pool_step_moves_left _ _ _ _ Ep) as (_ & Hcode & _).
    split; cbn [threads main]; [rewrite Hcode; exact Hcodes|].
    destruct (main s); try exact I.
    + rewrite <- (length_map code), Hcode, length_map. exact Hpc.
    + pose proof (step_keeps_done _ _ _ _ Ep). congruence.
Qed.

Lemma in_step_run codes schedule : forall s s',
  in_step codes s -> run repr_future schedule s = Some s' -> in_step codes s'.
Proof.
  induction schedule as [|e schedule IH]; intros s s' Hs; cbn [run].
  - intros [= <-]. exact Hs.
  - destruct (step repr_future e s) as [s1|] eqn:Estep; [|discriminate].
    apply IH. eapply in_step_step; eassumption.
Qed.

(** A future whose call returned. *)
Definition returned (t : task) : bool :=
  match t with Done _ (Return _) => true | _ => false end.

(** The loop over the futures that are done: it counts them, or raises
    what the first call that failed raised. *)
Lemma for_count_done done_iter : forall n count st,
  Forall (fun kt => done kt.2 = true) done_iter ->
  exists r st',
    for_count repr_future done_iter n count st = Some (r, st') /\
    world st' = world st /\
    match r with
    | Return c =>
        c = match done_iter with
            | [] => count
            | _ :: _ => Some (n + Z.of_nat (length done_iter) - 1)
            end /\
        Forall (fun kt => returned kt.2 = true) done_iter
    | Raise e => exists k cc, (k, Done cc (Raise e)) ∈ done_iter
    end.
Proof.
  induction done_iter as [|[k t] done_iter IH]; intros n count st Hall.
  - cbn. eexists _, _. repeat split; [reflexivity..|constructor].
  - apply Forall_cons in Hall as [Ht Hall]. cbn [snd] in Ht.
    destruct t as [cc|cc image|cc|cc|cc [res|e]]; try discriminate;
      cbn [for_count].
    + destruct (IH (n + 1) (Some n)
                   (flags.write line_feed
                      (flags.write
                         (repr_future k (Done cc (Return res)) +:+ " result: "
                          +:+ repr_str res) st).2).2 Hall)
        as (r & st' & -> & Hw & Hr).
      eexists _, _. split; [reflexivity|]. split; [exact Hw|].
      destruct r as [c|e].
      * destruct Hr as [-> Hret]. split.
        -- destruct done_iter; cbn [length]; f_equal; lia.
        -- constructor; [reflexivity | exact Hret].
      * destruct Hr as (k' & cc' & Hin). exists k', cc'. right. exact Hin.
    + eexists _, _. split; [reflexivity|]. split; [reflexivity|].
      exists k, cc. left.
Qed.

Lemma as_completed_done to_do yielded :
  forallb done to_do = true ->
  Forall (fun kt => done kt.2 = true) (as_completed to_do yielded).
Proof.
  intros Hd. rewrite forallb_forall in Hd.
  apply Forall_forall. intros [k t] Hin.
  apply list_elem_of_omap in Hin as (k' & _ & Hk').
  destruct (to_do !! k') as [t'|] eqn:Et; [|discriminate].
  injection Hk' as <- <-. apply Hd.
  apply list_elem_of_In. eapply list_elem_of_lookup_2. exact Et.
Qed.

Lemma length_as_completed to_do yielded :
  Permutation yielded (seq 0 (length to_do)) ->
  length (as_completed to_do yielded) = length to_do.
Proof.
  intros Hperm.
  assert (Hall : Forall (fun k => (k < length to_do)%nat) yielded).
  { rewrite Hperm. apply Forall_forall. intros k Hk.
    apply list_elem_of_In, in_seq in Hk. lia. }
  assert (Hlen : length yielded = length to_do)
    by (rewrite (Permutation_length Hperm); apply List.length_seq).
  rewrite <- Hlen. clear Hperm Hlen. unfold as_completed.
  induction Hall as [|k yielded Hk _ IH]; [reflexivity|].
  cbn [omap list_omap].
  destruct (lookup_lt_is_Some_2 _ _ Hk) as [t ->].
  cbn [length]. rewrite IH. reflexivity.
Qed.

Lemma as_completed_place to_do yielded k t :
  (k, t) ∈ as_completed to_do yielded -> to_do !! k = Some t.
Proof.
  intros Hin. apply list_elem_of_omap in Hin as (k' & _ & Hk').
  destruct (to_do !! k') as [t'|] eqn:Et; [|discriminate].
  injection Hk' as <- <-. exact Et.
Qed.

(** The moves the main thread has still to make before it has submitted
    every call and written every line. *)
Definition main_moves (pc : main_pc) : nat :=
  match pc with
  | Submit todo => 3 * length todo
  | SayScheduled _ _ todo => 3 * length todo + 2
  | SayNewline todo => 3 * length todo + 1
  | Left => 0
  end.

(** The main thread is never held up before the end of the block. *)
Lemma main_submits_all n : forall codes s,
  in_step codes s -> main s <> Left -> main_moves (main s) = n ->
  exists s',
    run repr_future (replicate n Main) s = Some s' /\ main s' = Submit [].
Proof.
  induction n as [|n IH]; intros codes s Hs Hleft Hn.
  - exists s. split; [reflexivity|].
    destruct (main s) as [[|cc todo]|cc k todo|todo|]; cbn in Hn;
      try lia; [reflexivity | contradiction].
  - assert (Hstep : exists s1,
               step_main repr_future s = Some s1 /\
               main s1 <> Left /\ main_moves (main s1) = n).
    { destruct Hs as [_ Hpc]. unfold step_main.
      destruct (main s) as [[|cc todo]|cc k todo|todo|];
        cbn [main_moves length] in Hn; try lia.
      - eexists. split; [reflexivity|]. cbn [main main_moves].
        split; [discriminate | lia].
      - destruct (lookup_lt_is_Some_2 _ _ Hpc) as [t ->].
        eexists. split; [reflexivity|]. cbn [main main_moves].
        split; [discriminate | lia].
      - eexists. split; [reflexivity|]. cbn [main main_moves].
        split; [discriminate | lia]. }
    destruct Hstep as (s1 & Hstep & Hleft1 & Hn1).
    assert (Hs1 : in_step codes s1)
      by (apply (in_step_step codes Main s s1 Hs); exact Hstep).
    destruct (IH codes s1 Hs1 Hleft1 Hn1) as (s' & Hrun & Hmain).
    exists s'. split; [|exact Hmain].
    cbn [replicate run step]. rewrite Hstep. exact Hrun.
Qed.

(** A run of the pool is a run of the program in which the main thread
    stands still. *)
Lemma work_run schedule : forall p p' pc,
  flags_threadpool.run flags_threadpool_futures.max_workers schedule p
  = Some p' ->
  run repr_future (map Work schedule) (mkSystem p pc)
  = Some (mkSystem p' pc).
Proof.
  induction schedule as [|i schedule IH]; intros p p' pc; cbn [map run].
  - intros [= <-]. reflexivity.
  - cbn [flags_threadpool.run step threads main].
    destruct (flags_threadpool.step flags_threadpool_futures.max_workers i p)
      as [p1|]; [|discriminate].
    apply IH.
Qed.

Lemma futures_run_app schedule : forall schedule' s s1 s2,
  run repr_future schedule s = Some s1 ->
  run repr_future schedule' s1 = Some s2 ->
  run repr_future (schedule ++ schedule') s = Some s2.
Proof.
  induction schedule as [|e schedule IH]; intros schedule' s s1 s2;
    cbn [run app].
  - intros [= <-]. tauto.
  - destruct (step repr_future e s); [apply IH | discriminate].
Qed.

(** Every run of the program can be carried on to the end of the [with]
    block: the main thread submits what it has still to submit, the calls
    run until each is done, and the main thread leaves the block. *)
Lemma futures_can_finish codes s :
  in_step codes s ->
  exists rest s', run repr_future rest s = Some s' /\ main s' = Left.
Proof.
  intros Hs.
  assert (Hcases : main s = Left \/ main s <> Left)
    by (destruct (main s); [right; discriminate..|left; reflexivity]).
  destruct Hcases as [Hl|Hl].
  { exists [], s. split; [reflexivity | exact Hl]. }
  destruct (main_submits_all _ codes s Hs Hl eq_refl) as (s1 & Hrun1 & Hmain1).
  destruct s1 as [p1 pc1]. cbn [main] in Hmain1. subst pc1.
  destruct (pool_can_finish flags_threadpool_futures.max_workers
              ltac:(unfold flags_threadpool_futures.max_workers; lia)
              _ p1 (le_n _))
    as (work & p2 & Hrun2 & Hdone).
  pose proof (work_run work p1 p2 (Submit []) Hrun2) as Hrun2'.
  exists (replicate (main_moves (main s)) Main ++ map Work work ++ [Main]).
  exists (mkSystem p2 Left). split; [|reflexivity].
  eapply futures_run_app; [exact Hrun1|].
  eapply futures_run_app; [exact Hrun2'|].
  cbn [run step]. unfold step_main. cbn [main threads]. rewrite Hdone.
  reflexivity.
Qed.

(** Every run of the threads inside the [with] block can be carried on to
    a run for which [download_many] gives its answer. *)
Lemma futures_can_answer schedule cc_list st s :
  run repr_future schedule
    (mkSystem (mkPool [] st) (Submit (sorted (take 5 cc_list)))) = Some s ->
  exists rest yielded answer,
    download_many repr_future (schedule ++ rest) yielded cc_list st
    = Some answer.
Proof.
  intros Hrun.
  pose proof (in_step_run _ schedule _ _ (in_step_initial _ st) Hrun) as Hs.
  destruct (futures_can_finish _ s Hs) as (rest & s' & Hrest & Hleft).
  pose proof (in_step_run _ rest _ _ Hs Hrest) as [_ Hdone].
  destruct s' as [p pc]. cbn [main threads] in Hleft, Hdone. subst pc.
  exists rest, (seq 0 (length (tasks p))).
  unfold download_many.
  rewrite (futures_run_app _ _ _ _ _ Hrun Hrest).
  destruct (decide (Permutation (seq 0 (length (tasks p)))
                                (seq 0 (length (tasks p)))))
    as [_|Hn]; [|exfalso; apply Hn; reflexivity].
  destruct (for_count_done (as_completed (tasks p) (seq 0 (length (tasks p))))
              1 None (state p) (as_completed_done _ _ Hdone))
    as (r & st' & -> & _).
  destruct r as [[c|]|e]; eexists; reflexivity.
Qed.

End downloads.

End futures_facts.

(** ** The futures variant in the world of the archive *)

Module futures_archive.
Import py flags_threadpool flags_threadpool_futures pool_facts archive.

Section server.
Variable server : string -> result Response.
Variable repr_future : nat -> task -> string.

Local Abbreviation E := (archive.externals server).

(** The invariant of the pool, with what the main thread has written
    counted in. *)
Definition inv_sys (st0 : @py.State E) (s : @system E) : Prop :=
  exists said,
    pool_archive.inv server
      (@mkState E (world st0) (stdout st0 ++ said)) (threads s).

Lemma inv_sys_initial st0 codes :
  inv_sys st0 (mkSystem (mkPool [] st0) (Submit codes)).
Proof.
  exists []. rewrite app_nil_r. destruct st0 as [w out].
  apply (pool_archive.inv_initial server (@mkState E w out) []).
Qed.

Lemma inv_written st0 said (p : @pool E) piece :
  pool_archive.inv server (@mkState E (world st0) (stdout st0 ++ said)) p ->
  pool_archive.inv server
    (@mkState E (world st0) (stdout st0 ++ said ++ [piece]))
    (mkPool (tasks p) (flags.write piece (state p)).2).
Proof.
  intros (Hok & Hfiles & Hreq & Hout). unfold pool_archive.inv in *.
  unfold flags.write. cbn [snd tasks state world stdout] in *.
  split; [exact Hok|]. split; [exact Hfiles|]. split; [exact Hreq|].
  rewrite Hout, <- !app_assoc.
  apply Permutation_app_head, Permutation_app_head, Permutation_app_comm.
Qed.

Lemma inv_sys_step st0 e s s' :
  inv_sys st0 s -> step repr_future e s = Some s' -> inv_sys st0 s'.
Proof.
  intros [said Hinv] Hstep. destruct e as [|i]; cbn [step] in Hstep.
  - unfold step_main in Hstep.
    destruct (main s) as [[|cc todo]|cc k todo|todo|].
    + destruct (forallb done (tasks (threads s))); [|discriminate].
      injection Hstep as <-. exists said. exact Hinv.
    + injection Hstep as <-. exists said. cbn [threads].
      destruct Hinv as (Hok & Hfiles & Hreq & Hout).
      unfold pool_archive.inv. cbn [tasks state].
      rewrite !map_app, !concat_app. cbn [map concat].
      cbn [pool_archive.saved pool_archive.asked pool_archive.written].
      rewrite !app_nil_r.
      split; [|split; [|split]]; try assumption.
      apply Forall_app. split; [exact Hok|]. repeat constructor.
    + destruct (tasks (threads s) !! k); [|discriminate].
      injection Hstep as <-. eexists. cbn [threads].
      apply inv_written. exact Hinv.
    + injection Hstep as <-. eexists. cbn [threads].
      apply inv_written. exact Hinv.
    + discriminate.
  - destruct (flags_threadpool.step max_workers i (threads s)) as [p'|] eqn:Ep;
      [|discriminate].
    injection Hstep as <-. exists said. cbn [threads].
    eapply pool_archive.inv_step; eassumption.
Qed.

Lemma inv_sys_run st0 schedule : forall s s',
  inv_sys st0 s -> run repr_future schedule s = Some s' -> inv_sys st0 s'.
Proof.
  induction schedule as [|e schedule IH]; intros s s' Hs; cbn [run].
  - intros [= <-]. exact Hs.
  - destruct (step repr_future e s) as [s1|] eqn:Estep; [|discriminate].
    apply IH. eapply inv_sys_step; eassumption.
Qed.

End server.

End futures_archive.

(** ** What a complete run of flags_threadpool_futures.py gives *)

Module futures_runs.

(** The answer of [download_many] for a run of the threads to the end of
    the [with] block: the count of the first five codes, the error of the
    unassigned [count] for an empty list, or what a call raised. *)
Lemma complete_run_counts `{py.Externals}
    (repr_future : nat -> flags_threadpool.task -> string)
    (schedule : list flags_threadpool_futures.event) (yielded : list nat)
    (cc_list : list string) (st st' : py.State) (r : py.result Z) :
  flags_threadpool_futures.download_many repr_future schedule yielded
    cc_list st = Some (r, st') ->
  (cc_list = [] -> r = py.Raise (py.UnboundLocalError "count")) /\
  (forall count, r = py.Return count ->
     cc_list <> [] /\ count = Z.of_nat (min 5 (length cc_list))) /\
  (forall e, r = py.Raise e ->
     (cc_list = [] /\ e = py.UnboundLocalError "count") \/
     exists s k cc,
       flags_threadpool_futures.run repr_future schedule
         (flags_threadpool_futures.mkSystem
            (flags_threadpool.mkPool [] st)
            (flags_threadpool_futures.Submit (py.sorted (take 5 cc_list))))
       = Some s /\
       flags_threadpool.tasks (flags_threadpool_futures.threads s) !! k
       = Some (flags_threadpool.Done cc (py.Raise e))).
Proof.
  unfold flags_threadpool_futures.download_many. cbv zeta.
  destruct (flags_threadpool_futures.run repr_future schedule _)
    as [[p pc]|] eqn:Erun; [|discriminate].
  destruct pc; try discriminate.
  destruct (decide (Permutation yielded
                      (seq 0 (length (flags_threadpool.tasks p)))))
    as [Hperm|]; [|discriminate].
  pose proof (futures_facts.in_step_run repr_future _ schedule _ _
                (futures_facts.in_step_initial _ st) Erun)
    as [Hcodes Hdone].
  cbn [flags_threadpool_futures.threads flags_threadpool_futures.main
       futures_facts.todo_of] in Hcodes, Hdone.
  rewrite app_nil_r in Hcodes.
  assert (Hlen : length (flags_threadpool.tasks p)
                 = min 5 (length cc_list)).
  { rewrite <- (length_map pool_facts.code), Hcodes,
      flags_facts.sorted_length, length_take. reflexivity. }
  pose proof (futures_facts.length_as_completed _ _ Hperm) as Hlen'.
  destruct (futures_facts.for_count_done repr_future
              (flags_threadpool_futures.as_completed
                 (flags_threadpool.tasks p) yielded)
              1 None (flags_threadpool.state p)
              (futures_facts.as_completed_done _ _ Hdone))
    as (r0 & st0 & -> & _ & Hr0).
  destruct r0 as [[c|]|e]; intros [= <- <-].
  - destruct Hr0 as [Hc _].
    destruct (flags_threadpool_futures.as_completed
                (flags_threadpool.tasks p) yielded) as [|kt done_iter] eqn:Ed;
      [discriminate|].
    injection Hc as ->.
    assert (Hne : cc_list <> []).
    { intros ->. cbn in Hlen. rewrite Hlen in Hlen'. discriminate. }
    split; [contradiction|]. split.
    + intros count [= <-]. split; [exact Hne|].
      rewrite <- Hlen, <- Hlen'. cbn [length]. lia.
    + discriminate.
  - destruct Hr0 as [Hc _].
    destruct (flags_threadpool_futures.as_completed
                (flags_threadpool.tasks p) yielded) as [|kt done_iter] eqn:Ed;
      [|discriminate].
    split; [reflexivity|]. split; [discriminate|].
    intros e [= <-]. left. split; [|reflexivity].
    cbn [length] in Hlen'. rewrite <- Hlen' in Hlen.
    destruct cc_list; [reflexivity | discriminate].
  - destruct Hr0 as (k & cc & Hin).
    apply futures_facts.as_completed_place in Hin.
    split.
    { intros ->. cbn in Hlen.
      destruct (flags_threadpool.tasks p); [discriminate | discriminate]. }
    split; [discriminate|].
    intros e0 [= <-]. right. eexists _, k, cc. split; [reflexivity|].
    exact Hin.
Qed.

(** The same in the world of the archive: what is asked for and what is
    saved. *)
Lemma complete_run_saves
    (server : string -> py.result py.Response)
    (repr_future : nat -> flags_threadpool.task -> string)
    (schedule : list flags_threadpool_futures.event) (yielded : list nat)
    (cc_list : list string)
    (st st' : @py.State (archive.externals server)) (r : py.result Z) :
  @flags_threadpool_futures.download_many (archive.externals server)
     repr_future schedule yielded cc_list st = Some (r, st') ->
  let codes := py.sorted (take 5 cc_list) in
  Permutation (archive.requests (py.world st'))
              (archive.requests (py.world st) ++ map archive.url_of codes) /\
  Permutation (archive.files (py.world st'))
              (archive.files (py.world st)
               ++ concat (map (archive.flag_of server) codes)) /\
  (forall count, r = py.Return count ->
     Forall (fun cc => exists image, archive.served server cc = py.Return image)
            codes) /\
  (forall e, r = py.Raise e -> cc_list <> [] ->
     exists cc, cc ∈ codes /\ archive.served server cc = py.Raise e).
Proof.
  unfold flags_threadpool_futures.download_many. cbv zeta.
  destruct (flags_threadpool_futures.run repr_future schedule _)
    as [[p pc]|] eqn:Erun; [|discriminate].
  destruct pc; try discriminate.
  destruct (decide (Permutation yielded
                      (seq 0 (length (flags_threadpool.tasks p)))))
    as [Hperm|]; [|discriminate].
  pose proof (futures_facts.in_step_run repr_future _ schedule _ _
                (futures_facts.in_step_initial _ st) Erun)
    as [Hcodes Hdone].
  cbn [flags_threadpool_futures.threads flags_threadpool_futures.main
       futures_facts.todo_of] in Hcodes, Hdone.
  rewrite app_nil_r in Hcodes.
  pose proof (futures_archive.inv_sys_run server repr_future st schedule _ _
                (futures_archive.inv_sys_initial server st _) Erun)
    as (said & Hok & Hfiles & Hreq & _).
  cbn [flags_threadpool_futures.threads py.world py.stdout] in Hok, Hfiles, Hreq.
  pose proof (pool_archive.done_final server _ Hok Hdone) as Hfinal.
  rewrite Hcodes in Hfinal.
  destruct (pool_archive.final_contributions server
              (py.sorted (take 5 cc_list))) as (Hs & Ha & _).
  rewrite Hfinal, Hs in Hfiles. rewrite Hfinal, Ha in Hreq.
  destruct (futures_facts.for_count_done repr_future
              (flags_threadpool_futures.as_completed
                 (flags_threadpool.tasks p) yielded)
              1 None (flags_threadpool.state p)
              (futures_facts.as_completed_done _ _ Hdone))
    as (r0 & st0 & Hfor & Hworld & Hr0).
  rewrite Hfor.
  assert (Hres : (forall count, r0 = py.Return (Some count) ->
                    Forall (fun cc => exists image,
                              archive.served server cc = py.Return image)
                           (py.sorted (take 5 cc_list))) /\
                 (forall e, r0 = py.Raise e ->
                    exists cc, cc ∈ py.sorted (take 5 cc_list) /\
                               archive.served server cc = py.Raise e)).
  { split.
    - intros count ->. destruct Hr0 as [_ Hret].
      apply Forall_forall. intros cc Hcc.
      apply list_elem_of_lookup_1 in Hcc as [k Hk].
      assert (Hkp : (k < length (flags_threadpool.tasks p))%nat).
      { rewrite Hfinal, !length_map. eapply lookup_lt_Some. exact Hk. }
      assert (Hy : k ∈ yielded).
      { rewrite Hperm. apply list_elem_of_In, in_seq. lia. }
      destruct (lookup_lt_is_Some_2 _ _ Hkp) as [t Ht].
      assert (Hin : (k, t) ∈ flags_threadpool_futures.as_completed
                                (flags_threadpool.tasks p) yielded).
      { unfold flags_threadpool_futures.as_completed.
        apply list_elem_of_omap. exists k. split; [exact Hy|].
        rewrite Ht. reflexivity. }
      rewrite Forall_forall in Hret. specialize (Hret _ Hin). cbn [snd] in Hret.
      rewrite Hfinal in Ht.
      change (map ?f ?l) with (f <$> l) in Ht.
      rewrite list_lookup_fmap, Hk in Ht. cbn in Ht. injection Ht as <-.
      unfold pool_archive.final in Hret.
      destruct (archive.served server cc) as [image|e]; [|discriminate].
      exists image. reflexivity.
    - intros e ->. destruct Hr0 as (k & cc & Hin).
      apply futures_facts.as_completed_place in Hin.
      rewrite Hfinal in Hin.
      change (map ?f ?l) with (f <$> l) in Hin.
      rewrite list_lookup_fmap in Hin.
      destruct (py.sorted (take 5 cc_list) !! k) as [cc0|] eqn:Ek;
        [|discriminate].
      cbn in Hin. unfold pool_archive.final in Hin.
      exists cc0. split; [eapply list_elem_of_lookup_2; exact Ek|].
      destruct (archive.served server cc0); [discriminate|].
      injection Hin as _ <-. reflexivity. }
  destruct Hres as [Hret Hraise].
  destruct r0 as [[c|]|e]; intros [= <- <-]; rewrite Hworld;
    (split; [exact Hreq|]); (split; [exact Hfiles|]).
  - split; [intros count [= <-]; apply (Hret c); reflexivity | discriminate].
  - split; [discriminate|].
    intros e [= <-] Hne. exfalso.
    destruct Hr0 as [_ Hret0].
    destruct (flags_threadpool_futures.as_completed
                (flags_threadpool.tasks p) yielded) as [|kt done_iter] eqn:Ed.
    + pose proof (futures_facts.length_as_completed _ _ Hperm) as Hlen.
      rewrite Ed in Hlen. cbn [length] in Hlen.
      assert (Hz : length (py.sorted (take 5 cc_list)) = 0%nat)
        by (rewrite <- Hcodes, length_map; lia).
      rewrite flags_facts.sorted_length, length_take in Hz.
      destruct cc_list; [contradiction | cbn in Hz; lia].
    + destruct (futures_facts.for_count_done repr_future (kt :: done_iter)
                  1 None (flags_threadpool.state p)) as (r1 & st1 & Hf1 & _ & Hr1).
      { rewrite <- Ed. apply futures_facts.as_completed_done. exact Hdone. }
      rewrite Hf1 in Hfor. injection Hfor as -> _.
      destruct Hr1 as [Hc _]. discriminate.
  - split; [discriminate|].
    intros e0 [= <-] _. apply Hraise. reflexivity.
Qed.

End futures_runs.
(** ** Facts on spinner_thread.py *)

Module spinner_facts.
Import spinner_thread.

(** The character of the frame of number [k]: the characters of
    ['\\|/-'], over and over. *)
Definition char_at (k : nat) : Ascii.ascii :=
  nth (k mod 4) (String.list_ascii_of_string "\|/-") Ascii.Space.

(** The iterator of [itertools.cycle('\\|/-')] after [k] items. *)
Fixpoint after (k : nat) : cycle_iter :=
  match k with
  | O => cycle "\|/-"
  | S k' =>
      match next (after k') with
      | Some (_, chars) => chars
      | None => after k'
      end
  end.

Lemma after_period k : (4 <= k)%nat -> after (k + 4) = after k.
Proof.
  induction 1 as [|k Hk IH]; [reflexivity|].
  change (S k + 4)%nat with (S (k + 4)).
  cbn [after]. rewrite IH. reflexivity.
Qed.

Lemma char_at_period k : char_at (k + 4) = char_at k.
Proof.
  unfold char_at. replace (k + 4)%nat with (k + 1 * 4)%nat by lia.
  rewrite Nat.Div0.mod_add. reflexivity.
Qed.

Lemma next_after k : next (after k) = Some (char_at k, after (S k)).
Proof.
  induction k as [k IH] using lt_wf_ind.
  destruct (Nat.lt_ge_cases k 8) as [Hk|Hk].
  - do 8 (destruct k as [|k]; [reflexivity|]). lia.
  - replace k with ((k - 4) + 4)%nat at 1 2 by lia.
    replace (S k) with (S (k - 4) + 4)%nat by lia.
    rewrite !after_period, char_at_period by lia.
    apply IH. lia.
Qed.

(** The status line of frame [k], and the line that wipes it. *)
Definition status_of (msg : string) (k : nat) : string :=
  carriage_return +:+ String (char_at k) EmptyString +:+ " " +:+ msg.

Definition wipe_of (msg : string) (k : nat) : string :=
  carriage_return +:+ times " " (String.length (status_of msg k))
  +:+ carriage_return.

(** What one round of the loop writes, and what [k] rounds write. *)
Definition frame (msg : string) (k : nat) : list string :=
  [status_of msg k; EmptyString; wipe_of msg k; EmptyString].

Fixpoint frames (msg : string) (k : nat) : list string :=
  match k with
  | O => []
  | S k' => frames msg k' ++ frame msg k'
  end.

Lemma length_append (s t : string) :
  String.length (s +:+ t) = (String.length s + String.length t)%nat.
Proof.
  induction s as [|c s IH]; [reflexivity|].
  change (String c s +:+ t) with (String c (s +:+ t)).
  cbn [String.length]. rewrite IH. reflexivity.
Qed.

Lemma length_times_blank n : String.length (times " " n) = n.
Proof.
  induction n as [|n IH]; [reflexivity|].
  cbn [times]. rewrite length_append, IH. reflexivity.
Qed.

Lemma length_status msg k :
  String.length (status_of msg k) = (3 + String.length msg)%nat.
Proof. unfold status_of. rewrite !length_append. reflexivity. Qed.

Lemma length_wipe msg k :
  String.length (wipe_of msg k) = (2 + String.length (status_of msg k))%nat.
Proof.
  unfold wipe_of. rewrite !length_append, length_times_blank.
  cbn [carriage_return String.length]. lia.
Qed.

(** [n] moves of [spin], one after the other. *)
Fixpoint moves (msg : string) (done : bool) (n : nat) (pc : spin_pc)
    (stdout : list string) : option (spin_pc * list string) :=
  match n with
  | O => Some (pc, stdout)
  | S n' =>
      match spin msg done pc stdout with
      | None => None
      | Some (pc', stdout') => moves msg done n' pc' stdout'
      end
  end.

Lemma moves_app msg done n m pc stdout pc' stdout' :
  moves msg done n pc stdout = Some (pc', stdout') ->
  moves msg done (n + m) pc stdout = moves msg done m pc' stdout'.
Proof.
  revert pc stdout. induction n as [|n IH]; intros pc stdout Hn.
  - injection Hn as -> ->. reflexivity.
  - cbn [moves Nat.add] in *.
    destruct (spin msg done pc stdout) as [[pc1 stdout1]|]; [|discriminate].
    apply IH, Hn.
Qed.

Lemma one_round msg k stdout :
  moves msg false 3 (AtFor (after k)) stdout
  = Some (AtFor (after (S k)), stdout ++ frame msg k).
Proof.
  cbn [moves spin]. rewrite next_after. cbn [moves spin].
  unfold print, frame. rewrite <- app_assoc. reflexivity.
Qed.

Lemma rounds msg k stdout :
  moves msg false (3 * k) (AtFor (after 0)) stdout
  = Some (AtFor (after k), stdout ++ frames msg k).
Proof.
  induction k as [|k IH].
  - cbn [Nat.mul moves frames]. rewrite app_nil_r. reflexivity.
  - replace (3 * S k)%nat with (3 * k + 3)%nat by lia.
    rewrite (moves_app _ _ _ 3 _ _ _ _ IH), one_round.
    cbn [frames]. rewrite app_assoc. reflexivity.
Qed.

(** The places of [spin] from which it goes on, with the iterator the
    loop has made. *)
Definition spinning (pc : spin_pc) : Prop :=
  match pc with
  | AtFor chars | AtWait chars _ | AtClear chars _ => exists k, chars = after k
  | Returned => False
  end.

Lemma spinning_move msg pc stdout :
  spinning pc ->
  exists pc' stdout',
    spin msg false pc stdout = Some (pc', stdout') /\ spinning pc'.
Proof.
  destruct pc as [chars|chars status|chars status|]; cbn [spinning spin].
  - intros [k ->]. rewrite next_after. eexists _, _. split; [reflexivity|].
    exists (S k). reflexivity.
  - intros Hk. eexists _, _. split; [reflexivity|]. exact Hk.
  - intros Hk. eexists _, _. split; [reflexivity|]. exact Hk.
  - intros [].
Qed.

Lemma spinning_moves msg n : forall pc stdout,
  spinning pc ->
  exists pc' stdout',
    moves msg false n pc stdout = Some (pc', stdout') /\ spinning pc'.
Proof.
  induction n as [|n IH]; intros pc stdout Hpc.
  - eexists _, _. split; [reflexivity | exact Hpc].
  - destruct (spinning_move msg pc stdout Hpc) as (pc1 & stdout1 & Hm & H1).
    cbn [moves]. rewrite Hm. apply IH, H1.
Qed.

(** What [spin] has written when it is at [pc] with [k] frames wiped. *)
Definition spun (msg : string) (pc : spin_pc) (k : nat)
    (written : list string) : Prop :=
  match pc with
  | AtFor chars => chars = after k /\ written = frames msg k
  | AtWait chars status | AtClear chars status =>
      chars = after (S k) /\ status = status_of msg k /\
      written = frames msg k ++ [status_of msg k; EmptyString]
  | Returned => written = frames msg k ++ [status_of msg k; EmptyString]
  end.

(** The moves [spin] has made to come to [pc] with [k] frames wiped. *)
Definition made (pc : spin_pc) (k : nat) : nat :=
  match pc with
  | AtFor _ => 3 * k
  | AtWait _ _ => 3 * k + 1
  | AtClear _ _ | Returned => 3 * k + 2
  end.

(** The moves [spin] has still to make once the event is set. *)
Definition left (pc : spin_pc) : nat :=
  match pc with
  | AtClear _ _ => 3
  | AtFor _ => 2
  | AtWait _ _ => 1
  | Returned => 0
  end.

Lemma spun_move msg done pc k written before pc' stdout' :
  spun msg pc k written ->
  spin msg done pc (before ++ written) = Some (pc', stdout') ->
  exists k' written',
    spun msg pc' k' written' /\ stdout' = before ++ written' /\
    made pc' k' = S (made pc k) /\
    (pc' = Returned -> done = true) /\
    (done = true -> S (left pc') = left pc).
Proof.
  destruct pc as [chars|chars status|chars status|];
    cbn [spun spin made left].
  - intros [-> ->]. rewrite next_after. intros [= <- <-].
    exists k, (frames msg k ++ [status_of msg k; EmptyString]).
    cbn [spun made left]. unfold print. rewrite <- app_assoc.
    repeat split; try reflexivity; try lia. discriminate.
  - intros (-> & -> & ->). destruct done; intros [= <- <-].
    + exists k, (frames msg k ++ [status_of msg k; EmptyString]).
      cbn [spun made left]. repeat split; try reflexivity; lia.
    + exists k, (frames msg k ++ [status_of msg k; EmptyString]).
      cbn [spun made left]. repeat split; try reflexivity; try lia;
        discriminate.
  - intros (-> & -> & ->). intros [= <- <-].
    exists (S k), (frames msg (S k)).
    cbn [spun made left frames]. unfold print, frame.
    rewrite <- !app_assoc.
    repeat split; try reflexivity; try lia. discriminate.
  - discriminate.
Qed.

Section supervisor.
Variable str_spinner : string.

Local Abbreviation msg := ("thinking..."%string).

(** The line [supervisor] writes first, and the lines [main] writes
    last. *)
Definition header : list string :=
  ["spinner object: " +:+ str_spinner; line_feed].

Definition answer : list string :=
  [line_feed +:+ "Answer: 42"; line_feed].

(** The moves of the spinner thread in a schedule. *)
Fixpoint spins (schedule : list event) : nat :=
  match schedule with
  | [] => 0
  | Spin :: schedule' => S (spins schedule')
  | Main :: schedule' => spins schedule'
  end.

(** What the main thread has written after the header. *)
Definition closing (pc : main_pc) : list string :=
  match pc with
  | AtExit => answer
  | _ => []
  end.

(** What holds of the event, the result and the spinner thread at each
    place of the main thread. *)
Definition guard (pc : main_pc) (done : bool) (at_spin : spin_pc) : Prop :=
  match pc with
  | AtPrintObject | AtStart => False
  | AtSlow => done = false /\ at_spin <> Returned
  | AtSet result => result = 42 /\ done = false /\ at_spin <> Returned
  | AtJoin result => result = 42 /\ done = true
  | AtAnswer result => result = 42 /\ done = true /\ at_spin = Returned
  | AtExit => done = true /\ at_spin = Returned
  end.

(** The states of the program after [n] moves of the spinner thread. *)
Definition inv (n : nat) (s : system) : Prop :=
  match main s with
  | AtPrintObject => s = initial /\ n = O
  | AtStart => s = mkSystem header false Initial AtStart /\ n = O
  | pc =>
      exists at_spin k written,
        spinner s = Started at_spin /\ spun msg at_spin k written /\
        stdout s = header ++ written ++ closing pc /\
        n = made at_spin k /\ guard pc (done s) at_spin
  end.

Lemma spinner_inv_initial : inv 0 initial.
Proof. split; reflexivity. Qed.

Lemma inv_step_main n s s' :
  inv n s -> step_main str_spinner s = Some s' -> inv n s'.
Proof.
  destruct s as [out d sp pc]. unfold inv, step_main.
  cbn [main stdout done spinner].
  destruct pc as [| | |result|result|result|].
  - intros [[= -> -> ->] ->] [= <-]. cbn [main]. split; reflexivity.
  - intros [[= -> -> ->] ->] [= <-]. cbn [main spinner stdout done].
    exists (AtFor (cycle "\|/-")), O, []. cbn [spun frames made closing guard].
    repeat split; try reflexivity. discriminate.
  - intros (at_spin & k & written & -> & Hspun & -> & -> & Hd & Hpc) [= <-].
    cbn [main spinner stdout done closing guard].
    exists at_spin, k, written. repeat split; try assumption; reflexivity.
  - intros (at_spin & k & written & -> & Hspun & -> & -> & -> & Hd & Hpc)
           [= <-].
    cbn [main spinner stdout done closing guard].
    exists at_spin, k, written. repeat split; try assumption; reflexivity.
  - intros (at_spin & k & written & -> & Hspun & -> & -> & -> & Hd).
    destruct at_spin; try discriminate. intros [= <-].
    cbn [main spinner stdout done closing guard].
    exists Returned, k, written. repeat split; try assumption; reflexivity.
  - intros (at_spin & k & written & -> & Hspun & -> & -> & -> & Hd & ->)
           [= <-].
    cbn [main spinner stdout done closing guard].
    exists Returned, k, written. cbn [closing] in *.
    repeat split; try assumption; try reflexivity.
    unfold print, answer, header. rewrite app_nil_r. reflexivity.
  - discriminate.
Qed.

Lemma inv_step_spin n s s' :
  inv n s -> step_spin s = Some s' ->
  inv (S n) s' /\ main s' = main s /\ done s' = done s /\
  exists pc pc', spinner s = Started pc /\ spinner s' = Started pc' /\
                 (done s = true -> S (left pc') = left pc).
Proof.
  destruct s as [out d sp pc]. unfold inv, step_spin.
  cbn [main stdout done spinner].
  destruct pc as [| | |result|result|result|];
    try (intros [[= -> -> ->] ->]; discriminate);
    intros (at_spin & k & written & -> & Hspun & -> & -> & Hguard);
    cbn [guard closing] in *.
  4: { destruct Hguard as (_ & _ & ->). discriminate. }
  4: { destruct Hguard as (_ & ->). discriminate. }
  all: rewrite app_nil_r;
    destruct (spin msg d at_spin (header ++ written))
      as [[pc' stdout']|] eqn:Hspin; try discriminate;
    intros [= <-];
    destruct (spun_move _ _ _ _ _ _ _ _ Hspun Hspin)
      as (k' & written' & Hspun' & -> & Hmade & Hret & Hleft);
    cbn [main spinner stdout done closing];
    (split; [|split; [reflexivity|split; [reflexivity|
                exists at_spin, pc'; repeat split; try reflexivity;
                exact Hleft]]]);
    exists pc', k', written'; rewrite app_nil_r;
    (split; [reflexivity|]); (split; [exact Hspun'|]);
    (split; [reflexivity|]); (split; [symmetry; exact Hmade|]).
  - destruct Hguard as [-> _]. split; [reflexivity|].
    intros ->. specialize (Hret eq_refl). discriminate.
  - destruct Hguard as (-> & -> & _). repeat split.
    intros ->. specialize (Hret eq_refl). discriminate.
  - exact Hguard.
Qed.

Definition is_spin (e : event) : nat :=
  match e with
  | Spin => 1
  | Main => 0
  end.

Lemma spinner_inv_step n e s s' :
  inv n s -> step str_spinner e s = Some s' -> inv (n + is_spin e) s'.
Proof.
  destruct e; cbn [step is_spin]; intros Hinv Hstep.
  - rewrite Nat.add_0_r. eapply inv_step_main; eassumption.
  - rewrite Nat.add_1_r. eapply inv_step_spin; eassumption.
Qed.

Lemma spinner_inv_run schedule : forall n s s',
  inv n s -> run str_spinner schedule s = Some s' ->
  inv (n + spins schedule) s'.
Proof.
  induction schedule as [|e schedule IH]; intros n s s' Hinv Hrun.
  - injection Hrun as <-. cbn [spins]. rewrite Nat.add_0_r. exact Hinv.
  - cbn [run] in Hrun.
    destruct (step str_spinner e s) as [s1|] eqn:Hstep; [|discriminate].
    pose proof (spinner_inv_step _ _ _ _ Hinv Hstep) as H1.
    specialize (IH _ _ _ H1 Hrun).
    destruct e; cbn [spins is_spin] in *.
    + rewrite Nat.add_0_r in IH. exact IH.
    + replace (n + S (spins schedule))%nat
        with (n + 1 + spins schedule)%nat by lia. exact IH.
Qed.

Lemma spinner_run_app schedule : forall schedule' s s' s'',
  run str_spinner schedule s = Some s' ->
  run str_spinner schedule' s' = Some s'' ->
  run str_spinner (schedule ++ schedule') s = Some s''.
Proof.
  induction schedule as [|e schedule IH]; intros schedule' s s' s'' H1 H2.
  - injection H1 as ->. exact H2.
  - cbn [run app] in *.
    destruct (step str_spinner e s) as [s1|]; [|discriminate].
    eapply IH; eassumption.
Qed.

(** Once the event is set the spinner thread has at most three moves
    left. *)
Definition moves_left (s : system) : nat :=
  match spinner s with
  | Initial => 0
  | Started pc => left pc
  end.

Lemma set_step n e s s' :
  inv n s -> done s = true -> step str_spinner e s = Some s' ->
  done s' = true /\ (moves_left s' + is_spin e = moves_left s)%nat.
Proof.
  intros Hinv Hd Hstep. destruct e; cbn [step is_spin] in *.
  - destruct s as [out d sp pc]. unfold inv, step_main in *.
    cbn [main stdout done spinner] in *. subst d.
    destruct pc as [| | |result|result|result|].
    + destruct Hinv as [[=] _].
    + destruct Hinv as [[=] _].
    + destruct Hinv as (? & ? & ? & _ & _ & _ & _ & [=] & _).
    + destruct Hinv as (? & ? & ? & _ & _ & _ & _ & _ & [=] & _).
    + destruct sp as [|[]]; try discriminate. injection Hstep as <-.
      split; [reflexivity|]. unfold moves_left. cbn. reflexivity.
    + injection Hstep as <-. split; [reflexivity|].
      unfold moves_left. cbn [spinner]. lia.
    + discriminate.
  - destruct (inv_step_spin _ _ _ Hinv Hstep)
      as (_ & _ & Hd' & pc & pc' & Hs & Hs' & Hleft).
    split; [congruence|]. unfold moves_left. rewrite Hs, Hs'.
    specialize (Hleft Hd). lia.
Qed.

Lemma set_run schedule : forall n s s',
  inv n s -> done s = true -> run str_spinner schedule s = Some s' ->
  (moves_left s' + spins schedule = moves_left s)%nat.
Proof.
  induction schedule as [|e schedule IH]; intros n s s' Hinv Hd Hrun.
  - injection Hrun as <-. cbn [spins]. lia.
  - cbn [run] in Hrun.
    destruct (step str_spinner e s) as [s1|] eqn:Hstep; [|discriminate].
    destruct (set_step _ _ _ _ Hinv Hd Hstep) as [Hd1 Hl].
    pose proof (spinner_inv_step _ _ _ _ Hinv Hstep) as H1.
    specialize (IH _ _ _ H1 Hd1 Hrun).
    destruct e; cbn [spins is_spin] in *; lia.
Qed.

Lemma moves_left_bound s : (moves_left s <= 3)%nat.
Proof. unfold moves_left. destruct (spinner s) as [|[]]; cbn; lia. Qed.

(** The place of the main thread, counted in its moves. *)
Definition place (pc : main_pc) : nat :=
  match pc with
  | AtPrintObject => 0
  | AtStart => 1
  | AtSlow => 2
  | AtSet _ => 3
  | AtJoin _ => 4
  | AtAnswer _ => 5
  | AtExit => 6
  end.

(** Up to [join()] the main thread is never held up. *)
Lemma main_moves_on n s :
  inv n s -> (place (main s) < 4)%nat ->
  exists s', step_main str_spinner s = Some s' /\
             place (main s') = S (place (main s)).
Proof.
  destruct s as [out d sp pc]. unfold inv, step_main.
  cbn [main stdout done spinner].
  destruct pc as [| | |result|result|result|]; cbn [place];
    intros Hinv Hlt; try lia.
  - eexists. split; reflexivity.
  - destruct Hinv as [[= -> -> ->] _]. eexists. split; reflexivity.
  - eexists. split; reflexivity.
  - eexists. split; reflexivity.
Qed.

Lemma reach_join m : forall n s,
  inv n s -> (place (main s) + m = 4)%nat ->
  exists s', run str_spinner (replicate m Main) s = Some s' /\
             place (main s') = 4%nat /\ inv n s'.
Proof.
  induction m as [|m IH]; intros n s Hinv Hm.
  - exists s. repeat split; [lia | exact Hinv].
  - destruct (main_moves_on n s Hinv ltac:(lia)) as (s1 & Hstep & Hplace).
    pose proof (inv_step_main _ _ _ Hinv Hstep) as H1.
    destruct (IH n s1 H1 ltac:(lia)) as (s' & Hrun & Hp & Hinv').
    exists s'. cbn [replicate run step]. rewrite Hstep.
    repeat split; assumption.
Qed.

(** With the event set, [spin] returns in the moves it has left. *)
Lemma can_return n s :
  inv n s -> place (main s) = 4%nat ->
  exists s', run str_spinner (replicate (moves_left s) Spin) s = Some s' /\
             main s' = main s /\ spinner s' = Started Returned /\
             inv (n + moves_left s) s'.
Proof.
  remember (moves_left s) as m eqn:Hm. revert n s Hm.
  induction m as [|m IH]; intros n s Hm Hinv Hplace.
  - exists s. rewrite Nat.add_0_r. repeat split; try assumption.
    destruct s as [out d sp pc]. unfold inv, moves_left in *.
    cbn [main spinner] in *.
    destruct pc; cbn [place] in Hplace; try discriminate.
    destruct Hinv as (at_spin & ? & ? & -> & _).
    destruct at_spin; cbn [left] in Hm; try discriminate. reflexivity.
  - assert (Hd : done s = true).
    { destruct s as [out d sp pc]. unfold inv in Hinv.
      cbn [main done] in *.
      destruct pc; cbn [place] in Hplace; try discriminate.
      destruct Hinv as (? & ? & ? & _ & _ & _ & _ & _ & Hd). exact Hd. }
    assert (Hstep : exists s1, step_spin s = Some s1).
    { destruct s as [out d sp pc]. unfold inv, moves_left, step_spin in *.
      cbn [main spinner done stdout] in *.
      destruct pc; cbn [place] in Hplace; try discriminate.
      destruct Hinv as (at_spin & k & written & -> & Hspun & _).
      destruct at_spin as [chars|chars status|chars status|];
        cbn [left spun spin] in *; try discriminate.
      - destruct Hspun as [-> _]. rewrite next_after. eexists. reflexivity.
      - subst d. eexists. reflexivity.
      - eexists. reflexivity. }
    destruct Hstep as [s1 Hstep].
    destruct (inv_step_spin _ _ _ Hinv Hstep)
      as (H1 & Hmain & Hd1 & pc & pc' & Hs & Hs' & Hleft).
    specialize (Hleft Hd).
    assert (Hm1 : m = moves_left s1).
    { unfold moves_left in *. rewrite Hs in Hm. rewrite Hs'. lia. }
    destruct (IH (S n) s1 Hm1 H1 ltac:(congruence))
      as (s' & Hrun & Hmain' & Hsp & Hinv').
    exists s'. cbn [replicate run step]. rewrite Hstep.
    repeat split; try assumption; try congruence.
    replace (n + S m)%nat with (S n + m)%nat by lia. exact Hinv'.
Qed.

(** From [join()] with [spin] back, two moves end the program. *)
Lemma can_exit n s :
  inv n s -> (4 <= place (main s))%nat -> spinner s = Started Returned ->
  exists s', run str_spinner (replicate (6 - place (main s)) Main) s = Some s'
             /\ main s' = AtExit.
Proof.
  destruct s as [out d sp pc]. unfold inv.
  cbn [main stdout done spinner].
  destruct pc as [| | |result|result|result|]; cbn [place];
    intros Hinv Hge ->; try lia.
  - eexists. cbn. split; reflexivity.
  - eexists. cbn. split; reflexivity.
  - eexists. cbn. split; reflexivity.
Qed.

Lemma spinner_can_finish n s :
  inv n s ->
  exists rest s',
    (length rest <= 9)%nat /\ run str_spinner rest s = Some s' /\
    main s' = AtExit.
Proof.
  intros Hinv.
  destruct (Nat.lt_ge_cases (place (main s)) 4) as [Hlt|Hge].
  - destruct (reach_join (4 - place (main s)) n s Hinv ltac:(lia))
      as (s1 & Hrun1 & Hp1 & Hinv1).
    destruct (can_return n s1 Hinv1 Hp1) as (s2 & Hrun2 & Hmain2 & Hsp2 & Hinv2).
    destruct (can_exit _ s2 Hinv2 ltac:(rewrite Hmain2; lia) Hsp2)
      as (s3 & Hrun3 & Hexit).
    eexists _, s3. split; [|split; [|exact Hexit]].
    2: { eapply spinner_run_app; [exact Hrun1|].
         eapply spinner_run_app; [exact Hrun2|exact Hrun3]. }
    rewrite !length_app, !length_replicate.
    pose proof (moves_left_bound s1). rewrite Hmain2, Hp1. lia.
  - destruct (Nat.eq_dec (place (main s)) 4%nat) as [H4|H4].
    + destruct (can_return n s Hinv H4) as (s2 & Hrun2 & Hmain2 & Hsp2 & Hinv2).
      destruct (can_exit _ s2 Hinv2 ltac:(rewrite Hmain2; lia) Hsp2)
        as (s3 & Hrun3 & Hexit).
      eexists _, s3. split; [|split; [|exact Hexit]].
      2: { eapply spinner_run_app; [exact Hrun2|exact Hrun3]. }
      rewrite !length_app, !length_replicate.
      pose proof (moves_left_bound s). rewrite Hmain2, H4. lia.
    + assert (Hsp : spinner s = Started Returned).
      { destruct s as [out d sp pc]. unfold inv in Hinv.
        cbn [main spinner] in *.
        destruct pc; cbn [place] in *; try lia.
        - destruct Hinv as (? & ? & ? & -> & _ & _ & _ & _ & _ & ->).
          reflexivity.
        - destruct Hinv as (? & ? & ? & -> & _ & _ & _ & _ & ->).
          reflexivity. }
      destruct (can_exit _ s Hinv Hge Hsp) as (s3 & Hrun3 & Hexit).
      eexists _, s3. split; [|split; [exact Hrun3|exact Hexit]].
      rewrite length_replicate. lia.
Qed.

(** Every move of the main thread takes it one place on, and a move of
    the spinner thread leaves it where it is. *)
Lemma place_step e s s' :
  step str_spinner e s = Some s' ->
  (place (main s') + is_spin e = S (place (main s)))%nat.
Proof.
  destruct s as [out d sp pc]. destruct e; cbn [step is_spin].
  - unfold step_main. cbn [main stdout done spinner].
    destruct pc as [| | |result|result|result|]; cbn [place];
      try (intros [= <-]; cbn [main place]; lia).
    + destruct sp; intros [= <-]. cbn [main place]. lia.
    + destruct sp as [|[]]; intros [= <-]. cbn [main place]. lia.
  - unfold step_spin. cbn [main stdout done spinner].
    destruct sp as [|at_spin]; [discriminate|].
    destruct (spin _ _ _ _) as [[pc' stdout']|]; intros [= <-].
    cbn [main]. lia.
Qed.

Lemma place_run schedule : forall s s',
  run str_spinner schedule s = Some s' ->
  (place (main s') + spins schedule = place (main s) + length schedule)%nat.
Proof.
  induction schedule as [|e schedule IH]; intros s s' Hrun.
  - injection Hrun as <-. cbn [spins length]. lia.
  - cbn [run] in Hrun.
    destruct (step str_spinner e s) as [s1|] eqn:Hstep; [|discriminate].
    pose proof (place_step _ _ _ Hstep) as H1.
    specialize (IH _ _ Hrun).
    destruct e; cbn [spins is_spin length] in *; lia.
Qed.

End supervisor.

End spinner_facts.

(** * The properties of the specification *)

(** C9. For every integer [n], [is_prime n] answers [True] exactly when [n]
    is prime, that is [n >= 2] and no [d] with [1 < d < n] divides [n]; it
    answers [False] for every [n < 2] and for every even [n > 2]; and it
    agrees with the expected answer on every pair of [PRIME_FIXTURE]. *)
Theorem is_prime_decides_primality :
  (forall n : Z,
     primes.is_prime n = true <-> 2 <= n /\ forall d, 1 < d < n -> ~ (d | n)) /\
  (forall n : Z, primes.is_prime n = true <-> prime n) /\
  (forall n : Z, n < 2 -> primes.is_prime n = false) /\
  (forall n : Z, 2 < n -> n mod 2 = 0 -> primes.is_prime n = false) /\
  Forall (fun entry => primes.is_prime (fst entry) = snd entry)
         primes.PRIME_FIXTURE.
Proof.
  split; [exact primes_facts.is_prime_spec|].
  split.
  { intros n. rewrite primes_facts.is_prime_spec.
    apply primes_facts.is_a_prime_prime. }
  split.
  { intros n Hn. apply primes_facts.is_prime_false_iff. intros [H _]. lia. }
  split.
  { intros n Hn Heven. apply (primes_facts.is_prime_composite n 2 (n / 2)).
    - lia.
    - Z.div_mod_to_equations. lia.
    - Z.div_mod_to_equations. lia. }
  exact primes_facts.PRIME_FIXTURE_agrees.
Qed.

(** A clock that always reads zero, for the examples. *)
Definition still_clock : nat -> float := fun _ => 0%float.

(** A schedule for two numbers and two workers: [start_jobs] runs to its
    end, then the workers take turns, the second one being the first to
    answer. *)
Definition two_by_two : list procs.event :=
  [procs.Main; procs.Main; procs.Main; procs.Main;
   procs.Main; procs.Main; procs.Main; procs.Main;
   procs.Work 0; procs.Work 1; procs.Work 1; procs.Work 0;
   procs.Work 1; procs.Work 0; procs.Work 1; procs.Work 0].

(** The state that schedule leaves the pool in for the numbers 7 and 9. *)
Definition two_by_two_end : procs.system :=
  Eval vm_compute in
    match procs.run still_clock 2 two_by_two (procs.initial [7; 9]) with
    | Some s => s
    | None => procs.initial []
    end.

(** C4. For [W] worker processes ([W >= 1]) and [N] jobs, none of them the
    sentinel, and for every interleaving of the processes: [report] does
    not return before it has seen [W] markers; when it returns it has seen
    exactly [W] markers and its count is the number of results sent, which
    is [N], with nothing left unread; once the workers have returned it does
    return; and from every state reached the pool can be brought to rest, no
    schedule being longer than [3N + 4W + 2] moves. *)
Theorem report_counts_every_job
    (perf_counter : nat -> float) (NUMBERS : list Z) (procs : Z)
    (schedule : list procs.event) (s : procs.system) :
  1 <= procs ->
  Forall (fun x => x <> 0) NUMBERS ->
  procs.run perf_counter procs schedule (procs.initial NUMBERS) = Some s ->
  (forall checked left seen out,
     procs.report procs (procs.results s)
       = (procs.Returned checked, left, seen, out) ->
     seen = procs /\ checked = Z.of_nat (length NUMBERS) /\ left = [] /\
     procs_facts.markers (procs.results s) = Z.to_nat procs /\
     procs_facts.checks (procs.results s) = length NUMBERS) /\
  (procs_facts.finished s ->
   procs.report procs (procs.results s)
     = (procs.Returned (Z.of_nat (length NUMBERS)), [], procs,
        procs_facts.lines_of (procs.results s))) /\
  (procs_facts.finished s \/
   exists e s', procs.step perf_counter procs e s = Some s') /\
  (exists schedule' s',
     procs.run perf_counter procs schedule' s = Some s' /\
     procs_facts.finished s') /\
  (length schedule <= 3 * length NUMBERS + 4 * Z.to_nat procs + 2)%nat.
Proof.
  intros Hprocs Hnz Hrun.
  pose proof (procs_facts.invariant_reachable perf_counter NUMBERS procs Hnz
                schedule s Hrun) as Hinv.
  destruct (procs_facts.report_on_reachable NUMBERS procs s Hprocs Hinv)
    as [Hret Hfin].
  split.
  { intros checked left seen out Hrep.
    destruct (Hret checked left seen out Hrep) as (? & ? & ? & ? & ? & ? & ?).
    repeat split; assumption. }
  split.
  { intros [Hst Hex]. apply Hfin; [exact Hex|].
    destruct (procs_facts.sentinels_on_reachable NUMBERS procs s Hinv)
      as (_ & _ & Hlen).
    apply Hlen. split; assumption. }
  split; [apply (procs_facts.progress perf_counter NUMBERS procs); exact Hinv|].
  split; [apply (procs_facts.can_finish perf_counter NUMBERS procs); exact Hinv|].
  pose proof (procs_facts.run_moves_left perf_counter procs schedule _ _ Hrun)
    as Hmoves.
  unfold procs_facts.moves_left at 1 in Hmoves. simpl in Hmoves. lia.
Qed.

Lemma report_counts_every_job_witness :
  procs.run still_clock 2 two_by_two (procs.initial [7; 9])
    = Some two_by_two_end /\
  procs.report 2 (procs.results two_by_two_end)
    = (procs.Returned 2, [], 2,
       procs_facts.lines_of (procs.results two_by_two_end)).
Proof.
  split; [vm_compute; reflexivity|].
  refine (proj1 (proj2 (report_counts_every_job still_clock [7; 9] 2
            two_by_two two_by_two_end _ _ _)) _).
  - lia.
  - repeat constructor; discriminate.
  - vm_compute. reflexivity.
  - split; [reflexivity|]. repeat constructor.
Defined.

(** C5. For [W] workers, [start_jobs] puts every one of the [N] job inputs
    on the job channel before any sentinel and puts exactly [W] sentinels,
    one for each worker it starts.  With the channel first-in first-out and
    no job input equal to the sentinel, in every interleaving no worker
    sees more than one sentinel or sends more than one marker, a worker
    that has returned has seen exactly one sentinel and sent exactly one
    marker, the pool can always be brought to rest, and at rest all [W]
    workers have returned. *)
Theorem start_jobs_one_sentinel_per_worker
    (perf_counter : nat -> float) (NUMBERS : list Z) (procs : Z)
    (schedule : list procs.event) (s : procs.system) :
  Forall (fun x => x <> 0) NUMBERS ->
  procs.run perf_counter procs schedule (procs.initial NUMBERS) = Some s ->
  procs.start_jobs NUMBERS procs []
    = (NUMBERS ++ repeat 0 (Z.to_nat procs), Z.to_nat procs) /\
  (exists later,
     procs.jobs_put s ++ later = NUMBERS ++ repeat 0 (Z.to_nat procs)) /\
  Forall (fun w => (procs.sentinels_seen w <= 1)%nat /\
                   (procs.markers_sent w <= 1)%nat /\
                   (procs.pc w = procs.Exited ->
                    procs.sentinels_seen w = 1%nat /\
                    procs.markers_sent w = 1%nat))
         (procs.workers s) /\
  (procs_facts.finished s ->
   procs.jobs_put s = NUMBERS ++ repeat 0 (Z.to_nat procs) /\
   length (procs.workers s) = Z.to_nat procs /\
   Forall (fun w => procs.pc w = procs.Exited /\
                    procs.sentinels_seen w = 1%nat /\
                    procs.markers_sent w = 1%nat) (procs.workers s)) /\
  (exists schedule' s',
     procs.run perf_counter procs schedule' s = Some s' /\
     procs_facts.finished s').
Proof.
  intros Hnz Hrun.
  pose proof (procs_facts.invariant_reachable perf_counter NUMBERS procs Hnz
                schedule s Hrun) as Hinv.
  destruct (procs_facts.sentinels_on_reachable NUMBERS procs s Hinv)
    as (Hprefix & Hws & Hfin).
  split; [apply procs_facts.start_jobs_spec|].
  split; [exact Hprefix|]. split; [exact Hws|]. split.
  - intros Hf. destruct (Hfin Hf) as [Hput Hlen].
    split; [exact Hput|]. split; [exact Hlen|].
    destruct Hf as [_ Hex].
    rewrite Forall_forall in Hws, Hex. apply Forall_forall. intros w Hw.
    specialize (Hex w Hw). destruct (Hws w Hw) as (_ & _ & H1).
    split; [exact Hex | exact (H1 Hex)].
  - apply (procs_facts.can_finish perf_counter NUMBERS procs). exact Hinv.
Qed.

Lemma start_jobs_one_sentinel_per_worker_witness :
  procs.run still_clock 2 two_by_two (procs.initial [7; 9])
    = Some two_by_two_end /\
  procs.jobs_put two_by_two_end = [7; 9] ++ repeat 0 (Z.to_nat 2) /\
  length (procs.workers two_by_two_end) = Z.to_nat 2 /\
  Forall (fun w => procs.pc w = procs.Exited /\
                   procs.sentinels_seen w = 1%nat /\
                   procs.markers_sent w = 1%nat)
         (procs.workers two_by_two_end).
Proof.
  split; [vm_compute; reflexivity|].
  refine (proj1 (proj2 (proj2 (proj2
            (start_jobs_one_sentinel_per_worker still_clock [7; 9] 2
               two_by_two two_by_two_end _ _)))) _).
  - repeat constructor; discriminate.
  - vm_compute. reflexivity.
  - split; [reflexivity|]. repeat constructor.
Defined.

(** C6. A worker given a job channel that holds the inputs [xs], none of
    them the sentinel, then a sentinel, takes them one after the other;
    for each input it calls [check] and puts exactly one result record for
    it on the result channel, in order, and for the sentinel it puts
    exactly one worker-done marker and returns, leaving what follows the
    sentinel on the job channel. *)
Theorem worker_answers_each_job
    (perf_counter : nat -> float) (xs rest : list Z)
    (rs : procs.ResultQueue) (ticks : nat) :
  Forall (fun x => x <> 0) xs ->
  procs.worker perf_counter (xs ++ 0 :: rest) rs ticks
    = (procs.Returned tt, rest,
       rs ++ procs_facts.checked_in_turn perf_counter xs ticks
          ++ [procs.done_marker],
       (ticks + 2 * length xs)%nat) /\
  length (procs_facts.checked_in_turn perf_counter xs ticks) = length xs /\
  map procs.n (procs_facts.checked_in_turn perf_counter xs ticks) = xs /\
  map procs.prime (procs_facts.checked_in_turn perf_counter xs ticks)
    = map primes.is_prime xs /\
  procs_facts.markers (procs_facts.checked_in_turn perf_counter xs ticks)
    = 0%nat.
Proof.
  intros Hxs.
  split; [apply procs_facts.worker_spec; exact Hxs|].
  split.
  { rewrite <- (procs_facts.checked_in_turn_n perf_counter xs ticks) at 2.
    rewrite length_map. reflexivity. }
  split; [apply procs_facts.checked_in_turn_n|].
  split; [apply procs_facts.checked_in_turn_prime|].
  apply procs_facts.checked_in_turn_checks. exact Hxs.
Qed.

Lemma worker_answers_each_job_witness :
  procs.worker still_clock ([7; 9] ++ 0 :: [11]) [] 0
    = (procs.Returned tt, [11],
       [] ++ [procs.mkPrimeResult 7 true 0; procs.mkPrimeResult 9 false 0]
          ++ [procs.done_marker],
       (0 + 2 * 2)%nat).
Proof.
  exact (proj1 (worker_answers_each_job still_clock [7; 9] [11] [] 0
                  ltac:(repeat constructor; discriminate))).
Defined.

(** C7, as the specification has it, does not hold: a batch with the
    sentinel value among its inputs is not refused.  [start_jobs] puts the
    zero on the job channel like any other input; the worker that takes it
    sends its marker and returns, and with one worker [report] returns a
    count of 1 for a batch of three while 11 is left on the channel. *)
Lemma sentinel_job_is_not_refused :
  In 0 [7; 0; 11] /\
  procs.start_jobs [7; 0; 11] 1 [] = ([7; 0; 11; 0], 1%nat) /\
  procs.worker still_clock [7; 0; 11; 0] [] 0
    = (procs.Returned tt, [11; 0],
       [procs.mkPrimeResult 7 true 0; procs.done_marker], 2%nat) /\
  procs.report 1 [procs.mkPrimeResult 7 true 0; procs.done_marker]
    = (procs.Returned 1, [], 1,
       [procs.mkLine 7 "P" 0]).
Proof.
  split; [right; left; reflexivity|].
  repeat split; vm_compute; reflexivity.
Qed.

(** C7, amended. [start_jobs] makes no check of its inputs: a batch
    [pre ++ 0 :: post] goes on the job channel as it is, followed by the
    [W] sentinels.  A worker run on that channel answers the inputs before
    the zero, takes the zero for its sentinel, sends its marker and
    returns; the inputs after the zero stay on the channel. *)
Theorem sentinel_job_ends_a_worker
    (perf_counter : nat -> float) (pre post : list Z) (procs : Z) :
  Forall (fun x => x <> 0) pre ->
  procs.start_jobs (pre ++ 0 :: post) procs []
    = ((pre ++ 0 :: post) ++ repeat 0 (Z.to_nat procs), Z.to_nat procs) /\
  procs.worker perf_counter
      (fst (procs.start_jobs (pre ++ 0 :: post) procs [])) [] 0
    = (procs.Returned tt, post ++ repeat 0 (Z.to_nat procs),
       procs_facts.checked_in_turn perf_counter pre 0 ++ [procs.done_marker],
       (2 * length pre)%nat).
Proof.
  intros Hpre.
  rewrite procs_facts.start_jobs_spec. simpl.
  split; [reflexivity|].
  rewrite <- app_assoc. simpl.
  rewrite procs_facts.worker_spec by exact Hpre. reflexivity.
Qed.

Lemma sentinel_job_ends_a_worker_witness :
  procs.worker still_clock
      (fst (procs.start_jobs ([7] ++ 0 :: [11]) 1 [])) [] 0
    = (procs.Returned tt, [11] ++ repeat 0 (Z.to_nat 1),
       procs_facts.checked_in_turn still_clock [7] 0 ++ [procs.done_marker],
       (2 * length [7])%nat).
Proof.
  exact (proj2 (sentinel_job_ends_a_worker still_clock [7] [11] 1
                  ltac:(repeat constructor; discriminate))).
Defined.

(** C2, amended.  The classification of a job by the sequential download.
    The job is counted under [NOT_FOUND] exactly when its [get_flag]
    raised the HTTP status error with code 404; a status error with
    another code and a transport error ([httpx.RequestError]) are counted
    under [ERROR], wherever in the call they were raised; a call that
    returns normally is counted under the status it returns, which is
    [OK] when the flag was fetched and saved.  A failure of another kind
    is not classified: [download_one] lets it through and [download_many]
    raises it and returns no tally; the interrupt of the operator ends
    the loop with nothing counted for the job. *)
Theorem failures_are_classified `{py.Externals}
    (cc base_url : string) (verbose : bool) (concur_req : Z) (st : py.State) :
  let job := (flags2_sequential.get_flag base_url cc st).1 in
  let answer := (flags2_sequential.download_one cc base_url verbose st).1 in
  let tallied :=
    (flags2_sequential.download_many [cc] base_url verbose concur_req st).1 in
  (answer = py.Return flags2_common.NOT_FOUND <->
   exists resp, job = py.Raise (py.HTTPStatusError resp) /\
                py.status_code resp = 404) /\
  (tallied = py.Return {[flags2_common.NOT_FOUND := 1%nat]} <->
   exists resp, job = py.Raise (py.HTTPStatusError resp) /\
                py.status_code resp = 404) /\
  (forall resp, job = py.Raise (py.HTTPStatusError resp) ->
                py.status_code resp <> 404 ->
                tallied = py.Return {[flags2_common.ERROR := 1%nat]}) /\
  (forall text cls, job = py.Raise (py.RequestError text cls) ->
                    tallied = py.Return {[flags2_common.ERROR := 1%nat]}) /\
  (forall s, answer = py.Return s -> tallied = py.Return {[s := 1%nat]}) /\
  (forall image st1,
     flags2_sequential.get_flag base_url cc st = (py.Return image, st1) ->
     (py.outside (py.save_flag image (cc +:+ ".gif")) st1).1 = py.Return tt ->
     answer = py.Return flags2_common.OK /\
     tallied = py.Return {[flags2_common.OK := 1%nat]}) /\
  (forall resp, answer = py.Raise (py.HTTPStatusError resp) ->
                tallied = py.Return {[flags2_common.ERROR := 1%nat]}) /\
  (forall text cls, answer = py.Raise (py.RequestError text cls) ->
                    tallied = py.Return {[flags2_common.ERROR := 1%nat]}) /\
  (answer = py.Raise py.KeyboardInterrupt -> tallied = py.Return ∅) /\
  (forall e, answer = py.Raise e ->
             (forall resp, e <> py.HTTPStatusError resp) ->
             (forall text cls, e <> py.RequestError text cls) ->
             e <> py.KeyboardInterrupt ->
             tallied = py.Raise e) /\
  (forall e, tallied = py.Raise e -> answer = py.Raise e).
Proof.
  cbv zeta.
  assert (Hnf : (flags2_sequential.download_one cc base_url verbose st).1
                = py.Return flags2_common.NOT_FOUND <->
                exists resp,
                  (flags2_sequential.get_flag base_url cc st).1
                  = py.Raise (py.HTTPStatusError resp) /\
                  py.status_code resp = 404).
  { split.
    - apply flags_facts.download_one_not_found_inv.
    - intros (resp & Hjob & Hcode).
      destruct (flags2_sequential.get_flag base_url cc st) as [g st1] eqn:Eg.
      simpl in Hjob. subst g.
      eapply flags_facts.download_one_not_found; eassumption. }
  split; [exact Hnf|]. split.
  { rewrite <- Hnf. split.
    - intros Ht. apply flags_facts.download_many_one_inv in Ht.
      destruct (flags2_sequential.download_one cc base_url verbose st).1
        as [s|e]; simpl in Ht.
      + congruence.
      + destruct e; discriminate.
    - intros Ha. apply flags_facts.download_many_one. rewrite Ha. reflexivity. }
  split.
  { intros resp Hjob Hcode. apply flags_facts.download_many_one.
    destruct (flags2_sequential.get_flag base_url cc st) as [g st1] eqn:Eg.
    simpl in Hjob. subst g.
    rewrite (flags_facts.download_one_status_error _ _ _ _ _ _ Eg Hcode).
    reflexivity. }
  split.
  { intros text cls Hjob. apply flags_facts.download_many_one.
    destruct (flags2_sequential.get_flag base_url cc st) as [g st1] eqn:Eg.
    simpl in Hjob. subst g.
    rewrite (flags_facts.download_one_raises _ _ _ _ _ _ Eg); [reflexivity|].
    intros resp. discriminate. }
  split.
  { intros s Ha. apply flags_facts.download_many_one. rewrite Ha. reflexivity. }
  split.
  { intros image st1 Hg Hsave.
    assert (Ha : (flags2_sequential.download_one cc base_url verbose st).1
                 = py.Return flags2_common.OK).
    { rewrite (flags_facts.download_one_saved _ _ _ _ _ _ Hg), Hsave.
      reflexivity. }
    split; [exact Ha|].
    apply flags_facts.download_many_one. rewrite Ha. reflexivity. }
  split.
  { intros resp Ha. apply flags_facts.download_many_one. rewrite Ha.
    reflexivity. }
  split.
  { intros text cls Ha. apply flags_facts.download_many_one. rewrite Ha.
    reflexivity. }
  unfold flags2_sequential.download_many, py.bind.
  cbn [py.sorted foldr py.insert_sorted flags2_sequential.for_cc].
  destruct (flags2_sequential.download_one cc base_url verbose st)
    as [[s|e] st1]; cbn [fst].
  - split; [discriminate|]. split; [discriminate|].
    intros e. cbn [flags2_sequential.try_status].
    unfold py.bind.
    destruct (flags2_sequential.tally cc verbose _ st1) as [[l2|e2] st2] eqn:Et;
      cbn [fst py.ret flags2_sequential.for_cc]; [discriminate|].
    unfold flags2_sequential.tally in Et.
    cbn [flags2_sequential.error_msg py.truthy flags2_sequential.status] in Et.
    rewrite andb_false_r in Et. discriminate.
  - split; [intros [= ->]; reflexivity|]. split.
    + intros e0 [= <-] Hh Hr Hk.
      destruct e; try reflexivity;
        [exfalso; eapply Hh; reflexivity
        |exfalso; eapply Hr; reflexivity
        |contradiction].
    + intros e0.
      destruct e; cbn [flags2_sequential.try_status fst py.ret];
        try (intros [= <-]; reflexivity);
        try discriminate.
      * unfold py.bind.
        destruct (flags2_sequential.tally cc verbose _ st1)
          as [[l2|e2] st2] eqn:Et;
          cbn [fst py.ret flags2_sequential.for_cc]; [discriminate|].
        unfold flags2_sequential.tally in Et.
        cbn [flags2_sequential.error_msg flags2_sequential.status] in Et.
        rewrite flags_facts.status_error_msg_truthy in Et.
        destruct verbose; discriminate.
      * unfold py.bind.
        destruct (flags2_sequential.tally cc verbose _ st1)
          as [[l2|e2] st2] eqn:Et;
          cbn [fst py.ret flags2_sequential.for_cc]; [discriminate|].
        unfold flags2_sequential.tally in Et.
        cbn [flags2_sequential.error_msg flags2_sequential.status] in Et.
        rewrite flags_facts.request_error_msg_truthy in Et.
        destruct verbose; discriminate.
Qed.

(** A world in which the flags are served and the disk is full: every
    address is answered with a flag, and no file can be written. *)
Definition disk_full : py.Externals :=
  {| py.World := unit;
     py.str_lower := flags_facts.lower;
     py.httpx_get := fun url w => (flags_facts.found, w);
     py.raise_for_status := fun resp =>
       if ((200 <=? py.status_code resp) && (py.status_code resp <? 300))%bool
       then py.Return tt else py.Raise (py.HTTPStatusError resp);
     py.save_flag := fun img filename w =>
       (py.Raise (py.OtherError "OSError"
                    "[Errno 28] No space left on device"), w) |}.

(** C2, as the specification has it, does not hold: a failure that is
    neither an HTTP status error nor a transport error is not counted as
    an error.  When the flag is fetched and the write of the file fails,
    [download_one] raises the error of the write, and [download_many]
    raises it in turn instead of returning a tally with one [ERROR]. *)
Lemma failure_to_save_is_not_classified :
  (@flags2_sequential.download_one disk_full "BR" "http://flags" false
     (@py.mkState disk_full tt [])).1
  = py.Raise (py.OtherError "OSError" "[Errno 28] No space left on device") /\
  (@flags2_sequential.download_many disk_full ["BR"] "http://flags" false 1
     (@py.mkState disk_full tt [])).1
  = py.Raise (py.OtherError "OSError" "[Errno 28] No space left on device") /\
  (@flags2_sequential.download_many disk_full ["BR"] "http://flags" false 1
     (@py.mkState disk_full tt [])).1
  <> py.Return {[flags2_common.ERROR := 1%nat]}.
Proof.
  split; [reflexivity|]. split; [reflexivity|]. discriminate.
Qed.

(** The state a script of three answers leaves behind when nothing is
    printed. *)
Definition script_used_up : @py.State flags_facts.scripted :=
  @py.mkState flags_facts.scripted [] [].

(** C1 fails on the download with a pool of threads.  The statements that
    count ([counter[status] += 1]) stand after the loop over the futures,
    not in it: whatever the size of the batch and the number of workers, a
    tally that [download_many] returns sums to one. *)
Theorem threadpool_tally_sums_to_one `{py.Externals}
    (sched : flags2_threadpool.schedule) (cc_list : list string)
    (base_url : string) (verbose : bool) (concur_req : Z)
    (st st' : py.State) (c : gmap flags2_common.DownloadStatus nat) :
  flags2_threadpool.download_many sched cc_list base_url verbose concur_req st
    = (py.Return c, st') ->
  flags_facts.total c = 1%nat.
Proof.
  intros Hrun.
  destruct (flags_facts.threadpool_tallies_one _ _ _ _ _ _ _ _ Hrun)
    as [s ->].
  unfold flags_facts.total. rewrite map_fold_singleton. reflexivity.
Qed.

Lemma threadpool_tally_sums_to_one_witness :
  @flags2_threadpool.download_many flags_facts.scripted
     (flags2_threadpool.mkSchedule [0; 1; 2]%nat None)
     ["BR"; "CN"; "MX"] "http://flags" false 2
     (flags_facts.scripted_state
        [flags_facts.found; flags_facts.found; flags_facts.found])
    = (py.Return {[flags2_common.OK := 1%nat]}, script_used_up) /\
  flags_facts.total {[flags2_common.OK := 1%nat]} = 1%nat /\
  length ["BR"; "CN"; "MX"] = 3%nat.
Proof.
  assert (Hrun : @flags2_threadpool.download_many flags_facts.scripted
     (flags2_threadpool.mkSchedule [0; 1; 2]%nat None)
     ["BR"; "CN"; "MX"] "http://flags" false 2
     (flags_facts.scripted_state
        [flags_facts.found; flags_facts.found; flags_facts.found])
    = (py.Return {[flags2_common.OK := 1%nat]}, script_used_up))
    by (vm_compute; reflexivity).
  split; [exact Hrun|]. split; [|reflexivity].
  exact (@threadpool_tally_sums_to_one flags_facts.scripted _ _ _ _ _ _ _ _
           Hrun).
Defined.

(** C3 fails on the download with a pool of threads.  Two jobs, the first
    fetched and the second not found, end the same way in both runs; when
    the futures arrive in the order of submission the tally returned is
    [NOT_FOUND: 1], and when they arrive in the other order it is
    [OK: 1]. *)
Theorem threadpool_tally_follows_arrival_order :
  let run order :=
    (@flags2_threadpool.download_many flags_facts.scripted
       (flags2_threadpool.mkSchedule order None)
       ["BR"; "XX"] "http://flags" false 2
       (flags_facts.scripted_state
          [flags_facts.found; flags_facts.not_found])).1 in
  Permutation [0; 1]%nat [1; 0]%nat /\
  run [0; 1]%nat = py.Return {[flags2_common.NOT_FOUND := 1%nat]} /\
  run [1; 0]%nat = py.Return {[flags2_common.OK := 1%nat]} /\
  run [0; 1]%nat <> run [1; 0]%nat.
Proof.
  cbv zeta. split; [apply perm_swap|].
  split; [vm_compute; reflexivity|].
  split; [vm_compute; reflexivity|].
  vm_compute. discriminate.
Qed.

(** C8 fails on the download with a pool of threads.  Three jobs are
    fetched.  When the interrupt comes in the third round of the loop, two
    completions have been consumed and the tally returned is [OK: 1]; when
    it comes in the first round the call does not return a tally but fails
    on the unassigned [error_msg].  The sequential download, interrupted
    in its third call, returns [OK: 2]. *)
Theorem threadpool_interrupt_loses_counts :
  let run interrupt_at :=
    (@flags2_threadpool.download_many flags_facts.scripted
       (flags2_threadpool.mkSchedule [0; 1; 2]%nat interrupt_at)
       ["BR"; "CN"; "MX"] "http://flags" false 2
       (flags_facts.scripted_state
          [flags_facts.found; flags_facts.found; flags_facts.found])).1 in
  run (Some 2%nat) = py.Return {[flags2_common.OK := 1%nat]} /\
  run (Some 0%nat) = py.Raise (py.UnboundLocalError "error_msg") /\
  (@flags2_sequential.download_many flags_facts.scripted
     ["BR"; "CN"; "MX"] "http://flags" false 1
     (flags_facts.scripted_state
        [flags_facts.found; flags_facts.found;
         py.Raise py.KeyboardInterrupt])).1
  = py.Return {[flags2_common.OK := 2%nat]}.
Proof.
  cbv zeta. repeat split; vm_compute; reflexivity.
Qed.

(** C10. Called with an empty batch (and a number of workers the pool
    accepts), [download_many] of flags2_threadpool does not return a
    tally: the body of the loop over the futures never runs, the variables
    [error_msg] and [status] are still unassigned after it, and the call
    fails at the first read, that of [error_msg], with the error of an
    unbound local variable. *)
Theorem empty_batch_fails_unbound `{py.Externals}
    (sched : flags2_threadpool.schedule) (base_url : string)
    (verbose : bool) (concur_req : Z) (st : py.State) :
  1 <= concur_req ->
  (exists l,
     flags2_threadpool.for_future
       (flags2_threadpool.as_completed [] (flags2_threadpool.order sched)) 0
       (flags2_threadpool.interrupt_at sched)
       (flags2_threadpool.mkLocals ∅ None None None)
     = flags2_threadpool.Next l /\
     flags2_threadpool.error_msg l = None /\
     flags2_threadpool.status l = None) /\
  flags2_threadpool.download_many sched [] base_url verbose concur_req st
    = (py.Raise (py.UnboundLocalError "error_msg"), st) /\
  (forall c st',
     flags2_threadpool.download_many sched [] base_url verbose concur_req st
     <> (py.Return c, st')).
Proof.
  intros Hc. split.
  { rewrite flags_facts.as_completed_nil. eexists. split; [reflexivity|].
    split; reflexivity. }
  rewrite (flags_facts.threadpool_empty_batch _ _ _ _ _ Hc).
  split; [reflexivity|]. intros c st'. discriminate.
Qed.

Lemma empty_batch_fails_unbound_witness :
  (@flags2_threadpool.download_many flags_facts.scripted
     (flags2_threadpool.mkSchedule [] None) [] "http://flags" true 30
     (flags_facts.scripted_state [])).1
  = py.Raise (py.UnboundLocalError "error_msg").
Proof.
  rewrite (proj1 (proj2 (@empty_batch_fails_unbound flags_facts.scripted
             (flags2_threadpool.mkSchedule [] None) "http://flags" true 30
             (flags_facts.scripted_state []) ltac:(lia)))).
  reflexivity.
Defined.
(** * Further properties of the code *)

(** [is_prime] looks for a divisor no further than the integer square
    root: for [n >= 2] it answers [False] exactly when some [d] with
    [2 <= d] and [d * d <= n] divides [n]. *)
Theorem is_prime_rejects_by_a_small_divisor (n : Z) :
  2 <= n ->
  (primes.is_prime n = false <->
   exists d, 2 <= d /\ d * d <= n /\ (d | n)).
Proof.
  intros Hn. split.
  - intros Hfalse. unfold primes.is_prime in Hfalse.
    destruct (Z.ltb_spec n 2); [lia|].
    destruct (Z.eqb_spec n 2); [discriminate|].
    destruct (Z.eqb_spec (n mod 2) 0) as [Heven|Hodd].
    + exists 2. split; [lia|]. split.
      * Z.div_mod_to_equations. lia.
      * apply Z.mod_divide; [lia | exact Heven].
    + cbv zeta in Hfalse.
      assert (Hex : forall l, primes.trial_division n l = false ->
                               exists i, In i l /\ n mod i = 0).
      { induction l as [|i l IH]; simpl; [discriminate|].
        destruct (Z.eqb_spec (n mod i) 0) as [Hi|_].
        - intros _. exists i. split; [left; reflexivity | exact Hi].
        - intros Hl. destruct (IH Hl) as (j & Hj & Hdiv).
          exists j. split; [right; exact Hj | exact Hdiv]. }
      destruct (Hex _ Hfalse) as (i & Hi & Hdiv).
      apply primes_facts.in_py_range_odd in Hi as (k & Hk & -> & Hroot).
      exists (3 + 2 * k). split; [lia|]. split.
      * pose proof (Z.sqrt_spec n ltac:(lia)) as [Hsqrt _].
        etransitivity; [|exact Hsqrt].
        apply Z.mul_le_mono_nonneg; lia.
      * apply Z.mod_divide; [lia | exact Hdiv].
  - intros (d & Hd & Hsq & q & Hq).
    apply (primes_facts.is_prime_composite n d q); nia.
Qed.

Lemma is_prime_rejects_by_a_small_divisor_witness :
  primes.is_prime 91 = false <->
  exists d, 2 <= d /\ d * d <= 91 /\ (d | 91).
Proof.
  apply (is_prime_rejects_by_a_small_divisor 91). lia.
Defined.
(** * Further properties of primes/procs.py *)

(** A worker whose job queue holds no sentinel answers every job on it, in
    order, and then waits in [jobs.get()]: the call does not return and no
    worker-done marker is sent. *)
Theorem worker_without_sentinel_waits
    (perf_counter : nat -> float) (xs : list Z)
    (rs : procs.ResultQueue) (ticks : nat) :
  Forall (fun x => x <> 0) xs ->
  procs.worker perf_counter xs rs ticks
    = (procs.Blocked, [],
       rs ++ procs_facts.checked_in_turn perf_counter xs ticks,
       (ticks + 2 * length xs)%nat) /\
  map procs.n (procs_facts.checked_in_turn perf_counter xs ticks) = xs /\
  procs_facts.markers (procs_facts.checked_in_turn perf_counter xs ticks)
    = 0%nat.
Proof.
  intros Hxs. split; [apply procs_facts.worker_blocks; exact Hxs|].
  split; [apply procs_facts.checked_in_turn_n|].
  apply procs_facts.checked_in_turn_checks. exact Hxs.
Qed.

Lemma worker_without_sentinel_waits_witness :
  procs.worker still_clock [7; 9] [] 0
    = (procs.Blocked, [],
       [procs.mkPrimeResult 7 true 0; procs.mkPrimeResult 9 false 0],
       4%nat).
Proof.
  apply (worker_without_sentinel_waits still_clock [7; 9] [] 0).
  repeat constructor; discriminate.
Defined.

(** [report] reads the result queue up to the marker of the last worker
    and no further: on a stream with at least [procs] markers
    ([procs >= 1]) it returns the number of results that come before the
    [procs]-th marker, prints a line for each of them, and leaves on the
    queue whatever follows that marker. *)
Theorem report_reads_up_to_last_marker
    (procs : Z) (rs : procs.ResultQueue) :
  1 <= procs ->
  (Z.to_nat procs <= procs_facts.markers rs)%nat ->
  exists pre rest,
    rs = pre ++ rest /\
    procs_facts.markers pre = Z.to_nat procs /\
    (forall r, last pre = Some r -> procs.n r = 0) /\
    procs.report procs rs
      = (procs.Returned (Z.of_nat (procs_facts.checks pre)), rest, procs,
         procs_facts.lines_of pre) /\
    length (procs_facts.lines_of pre) = procs_facts.checks pre.
Proof.
  intros Hprocs Hrs.
  destruct (procs_more.split_at_marker (Z.to_nat procs) rs ltac:(lia) Hrs)
    as (pre & rest & -> & Hpre & Hlast).
  exists pre, rest. split; [reflexivity|]. split; [exact Hpre|].
  split.
  { intros r Hr. apply Hlast in Hr. unfold procs_facts.is_marker in Hr.
    apply Z.eqb_eq. exact Hr. }
  split; [|apply procs_more.length_lines_of].
  unfold procs.report.
  rewrite (procs_more.report_loop_stops procs pre rest 0 0 [])
    by (assumption || lia).
  reflexivity.
Qed.

Lemma report_reads_up_to_last_marker_witness :
  exists pre rest,
    [procs.mkPrimeResult 7 true 0; procs.done_marker;
     procs.mkPrimeResult 9 false 0] = pre ++ rest /\
    procs_facts.markers pre = Z.to_nat 1 /\
    (forall r, last pre = Some r -> procs.n r = 0) /\
    procs.report 1 [procs.mkPrimeResult 7 true 0; procs.done_marker;
                    procs.mkPrimeResult 9 false 0]
      = (procs.Returned (Z.of_nat (procs_facts.checks pre)), rest, 1,
         procs_facts.lines_of pre) /\
    length (procs_facts.lines_of pre) = procs_facts.checks pre.
Proof.
  apply (report_reads_up_to_last_marker 1); [lia|].
  vm_compute. lia.
Defined.

(** As long as fewer than [procs] markers have come, [report] does not
    return: it prints a line for every result of the stream, counts the
    markers, and waits in [results.get()]. *)
Theorem report_waits_for_every_worker
    (procs : Z) (rs : procs.ResultQueue) :
  Z.of_nat (procs_facts.markers rs) < procs ->
  procs.report procs rs
    = (procs.Blocked, [], Z.of_nat (procs_facts.markers rs),
       procs_facts.lines_of rs).
Proof.
  intros H. unfold procs.report.
  rewrite procs_more.report_loop_blocks by lia. reflexivity.
Qed.

Lemma report_waits_for_every_worker_witness :
  procs.report 2 [procs.mkPrimeResult 7 true 0; procs.done_marker]
    = (procs.Blocked, [], 1, [procs.mkLine 7 "P" 0]).
Proof.
  apply (report_waits_for_every_worker
           2 [procs.mkPrimeResult 7 true 0; procs.done_marker]).
  vm_compute. reflexivity.
Defined.

(** Asked for no worker ([procs <= 0], as with a command line argument of
    0 or below), the pool checks nothing: [start_jobs] puts the numbers on
    the job queue, starts no process and sends no sentinel; in every run
    no worker ever moves, the result queue stays empty, and [report]
    returns zero at once, the numbers being left on the job queue. *)
Theorem no_worker_no_check
    (perf_counter : nat -> float) (NUMBERS : list Z) (procs : Z)
    (schedule : list procs.event) (s : procs.system) :
  procs <= 0 ->
  procs.run perf_counter procs schedule (procs.initial NUMBERS) = Some s ->
  procs.start_jobs NUMBERS procs [] = (NUMBERS, 0%nat) /\
  procs.workers s = [] /\
  procs.results s = [] /\
  (forall i, procs.step perf_counter procs (procs.Work i) s = None) /\
  procs.jobs s ++ procs_facts.todo_of (procs.starter s) = NUMBERS /\
  (procs.starter s = procs.Started -> procs.jobs s = NUMBERS) /\
  procs.report procs (procs.results s) = (procs.Returned 0, [], 0, []).
Proof.
  intros Hprocs Hrun.
  pose proof (procs_more.idle_run perf_counter NUMBERS procs schedule _ _
                Hprocs (procs_more.idle_initial NUMBERS) Hrun)
    as (Hws & Hrs & _ & Hjobs & _ & _).
  split.
  { rewrite procs_facts.start_jobs_spec.
    replace (Z.to_nat procs) with 0%nat by lia.
    simpl. rewrite app_nil_r. reflexivity. }
  split; [exact Hws|]. split; [exact Hrs|]. split.
  { intros i. simpl. unfold procs.step_worker. rewrite Hws. reflexivity. }
  split; [exact Hjobs|]. split.
  { intros Hst. rewrite Hst in Hjobs. simpl in Hjobs.
    rewrite app_nil_r in Hjobs. exact Hjobs. }
  rewrite Hrs. unfold procs.report.
  rewrite procs_more.report_loop_done by lia. reflexivity.
Qed.

Lemma no_worker_no_check_witness :
  procs.run still_clock 0
            [procs.Main; procs.Main; procs.Main; procs.Main]
            (procs.initial [7; 9])
    = Some (procs.mkSystem [7; 9] [] [] procs.Started 0 [7; 9]) /\
  procs.report 0 [] = (procs.Returned 0, [], 0, []).
Proof.
  split; [reflexivity|].
  apply (no_worker_no_check still_clock [7; 9] 0
           [procs.Main; procs.Main; procs.Main; procs.Main]
           (procs.mkSystem [7; 9] [] [] procs.Started 0 [7; 9]));
    [lia | reflexivity].
Defined.

(** No job is lost, answered twice or answered wrongly.  In every run of
    the pool each record on the result queue carries what [is_prime] says
    of its number, and the numbers answered are jobs of the batch, each
    at most as often as the batch holds it; when the pool has come to
    rest, with at least one worker and no sentinel among the jobs, the
    lines [report] prints are, in some order, one for every job of the
    batch, labelled [P] exactly for the numbers [is_prime] accepts. *)
Theorem every_job_answered_once
    (perf_counter : nat -> float) (NUMBERS : list Z) (procs : Z)
    (schedule : list procs.event) (s : procs.system) :
  procs.run perf_counter procs schedule (procs.initial NUMBERS) = Some s ->
  Forall (fun r => procs.prime r = primes.is_prime (procs.n r))
         (procs.results s) /\
  map procs.line_n (procs_facts.lines_of (procs.results s))
    ⊆+ filter (fun x => x <> 0) NUMBERS /\
  Forall (fun l => procs.label l
                   = if primes.is_prime (procs.line_n l) then "P" else " ")
         (procs_facts.lines_of (procs.results s)) /\
  (1 <= procs -> Forall (fun x => x <> 0) NUMBERS ->
   procs_facts.finished s ->
   Permutation (map procs.line_n (procs_facts.lines_of (procs.results s)))
               NUMBERS).
Proof.
  intros Hrun.
  pose proof (procs_more.accounted_run perf_counter NUMBERS procs schedule
                _ _ (procs_more.accounted_initial NUMBERS) Hrun)
    as (Hperm & Hres & _).
  split; [exact Hres|]. split.
  { rewrite <- Hperm. rewrite !app_assoc. apply submseteq_inserts_l.
    reflexivity. }
  split; [apply procs_more.honest_lines; exact Hres|].
  intros Hprocs Hnz [Hst Hex].
  pose proof (procs_facts.invariant_reachable perf_counter NUMBERS procs Hnz
                schedule s Hrun) as Hinv.
  assert (Hgone : (Z.to_nat procs
                   <= procs_facts.how_many procs_facts.gone (procs.workers s))%nat).
  { destruct Hinv as (rest & z & _ & _ & _ & Hlen & _).
    rewrite Hst in Hlen. simpl in Hlen.
    rewrite (procs_facts.how_many_Forall procs_facts.gone)
      by (apply procs_facts.gone_exited; exact Hex).
    lia. }
  destruct (procs_facts.all_exited NUMBERS procs s Hprocs Hinv Hgone)
    as (Hjobs & _).
  rewrite Hst, Hjobs, (procs_more.held_exited _ Hex) in Hperm.
  simpl in Hperm.
  rewrite (procs_more.filter_nonzero_all _ Hnz) in Hperm. exact Hperm.
Qed.

Lemma every_job_answered_once_witness :
  Permutation
    (map procs.line_n (procs_facts.lines_of (procs.results two_by_two_end)))
    [7; 9].
Proof.
  apply (every_job_answered_once still_clock [7; 9] 2 two_by_two
           two_by_two_end).
  - reflexivity.
  - lia.
  - repeat constructor; discriminate.
  - split; [reflexivity|]. repeat constructor.
Defined.

(** With a single worker the answers come in the order of the jobs.  In
    every run the numbers answered so far are a beginning of the batch,
    and when the pool has come to rest the result queue holds what
    [worker], run alone on the queue [start_jobs] builds, puts on it: one
    record for each job, in order, then the marker. *)
Theorem one_worker_answers_in_order
    (perf_counter : nat -> float) (NUMBERS : list Z)
    (schedule : list procs.event) (s : procs.system) :
  Forall (fun x => x <> 0) NUMBERS ->
  procs.run perf_counter 1 schedule (procs.initial NUMBERS) = Some s ->
  (exists later,
     map procs.line_n (procs_facts.lines_of (procs.results s)) ++ later
     = NUMBERS) /\
  (procs_facts.finished s ->
   procs.results s
     = procs_facts.checked_in_turn perf_counter NUMBERS 0
       ++ [procs.done_marker] /\
   procs.worker perf_counter (procs.start_jobs NUMBERS 1 []).1 [] 0
     = (procs.Returned tt, [], procs.results s, procs.ticks s) /\
   map procs.line_n (procs_facts.lines_of (procs.results s)) = NUMBERS).
Proof.
  intros Hnz Hrun.
  pose proof (procs_facts.invariant_reachable perf_counter NUMBERS 1 Hnz
                schedule s Hrun) as Hinv.
  pose proof (procs_more.in_order_run perf_counter NUMBERS Hnz schedule _ _
                (procs_facts.invariant_initial NUMBERS 1 Hnz)
                (procs_more.in_order_initial perf_counter NUMBERS) Hrun)
    as (done & hold & HN & Ht & Hw).
  assert (Hdone : Forall (fun x => x <> 0) done).
  { rewrite HN in Hnz. apply Forall_app in Hnz. tauto. }
  assert (Hans : forall xs t, Forall (fun x => x <> 0) xs ->
            map procs.line_n
                (procs_facts.lines_of
                   (procs_facts.checked_in_turn perf_counter xs t)) = xs).
  { induction xs as [|x xs IH]; intros t Hxs; [reflexivity|].
    apply Forall_cons in Hxs as [Hx Hxs].
    cbn [procs_facts.checked_in_turn].
    rewrite procs_more.lines_of_cons. unfold procs_facts.is_marker.
    cbn [procs.n procs.check].
    destruct (Z.eqb_spec x 0); [contradiction|].
    cbn [app map procs.line_n]. rewrite IH by exact Hxs. reflexivity. }
  split.
  { exists (hold ++ filter (fun x => x <> 0) (procs.jobs s)
              ++ procs_facts.todo_of (procs.starter s)).
    etransitivity; [|symmetry; exact HN]. f_equal.
    destruct (procs.workers s) as [|w [|w' ws]]; [| |contradiction].
    - destruct Hw as (_ & -> & ->). reflexivity.
    - destruct (procs.pc w);
        [destruct Hw as (_ & ->) | destruct Hw as (x & _ & _ & ->)
        | destruct Hw as (_ & ->) | destruct Hw as (_ & ->)];
        rewrite ?procs_more.lines_of_app, ?map_app, Hans by exact Hdone;
        try reflexivity.
      apply app_nil_r. }
  intros [Hst Hex].
  assert (Hgone : (Z.to_nat 1
                   <= procs_facts.how_many procs_facts.gone (procs.workers s))%nat).
  { destruct Hinv as (rest & z & _ & _ & _ & Hlen & _).
    rewrite Hst in Hlen. simpl in Hlen.
    rewrite (procs_facts.how_many_Forall procs_facts.gone)
      by (apply procs_facts.gone_exited; exact Hex).
    lia. }
  destruct (procs_facts.all_exited NUMBERS 1 s ltac:(lia) Hinv Hgone)
    as (Hjobs & _).
  rewrite Hst, Hjobs in HN. cbn [procs_facts.todo_of] in HN.
  destruct (procs.workers s) as [|w [|w' ws]]; [simpl in Hgone; lia| |contradiction].
  apply Forall_cons in Hex as [Hpc _]. rewrite Hpc in Hw.
  destruct Hw as (-> & Hres).
  cbn in HN. rewrite app_nil_r in HN. subst done.
  split; [exact Hres|]. split.
  - rewrite procs_facts.start_jobs_spec. cbn [fst app repeat Z.to_nat Pos.to_nat Pos.iter_op Nat.add].
    change (repeat 0 (Z.to_nat 1)) with [0].
    rewrite (procs_facts.worker_spec perf_counter NUMBERS [] [] 0 Hnz).
    rewrite Hres, Ht. cbn [length app]. repeat f_equal. lia.
  - rewrite Hres, procs_more.lines_of_app, map_app, Hans by exact Hnz.
    apply app_nil_r.
Qed.

Lemma one_worker_answers_in_order_witness :
  procs.run still_clock 1
    [procs.Main; procs.Main; procs.Main; procs.Main; procs.Main; procs.Main;
     procs.Work 0; procs.Work 0; procs.Work 0; procs.Work 0;
     procs.Work 0; procs.Work 0]
    (procs.initial [7; 9])
  = Some (procs.mkSystem []
            [procs.mkPrimeResult 7 true 0; procs.mkPrimeResult 9 false 0;
             procs.done_marker]
            [procs.mkWorker procs.Exited 1 1] procs.Started 4 [7; 9; 0]) /\
  procs.worker still_clock (procs.start_jobs [7; 9] 1 []).1 [] 0
  = (procs.Returned tt, [],
     [procs.mkPrimeResult 7 true 0; procs.mkPrimeResult 9 false 0;
      procs.done_marker], 4%nat).
Proof.
  split; [reflexivity|].
  apply (one_worker_answers_in_order still_clock [7; 9]
           [procs.Main; procs.Main; procs.Main; procs.Main; procs.Main;
            procs.Main;
            procs.Work 0; procs.Work 0; procs.Work 0; procs.Work 0;
            procs.Work 0; procs.Work 0]
           (procs.mkSystem []
              [procs.mkPrimeResult 7 true 0; procs.mkPrimeResult 9 false 0;
               procs.done_marker]
              [procs.mkWorker procs.Exited 1 1] procs.Started 4 [7; 9; 0])).
  - repeat constructor; discriminate.
  - reflexivity.
  - split; [reflexivity|]. repeat constructor.
Defined.

(** The twenty numbers the program ships with hold no sentinel. *)
Lemma NUMBERS_hold_no_sentinel : Forall (fun x => x <> 0) primes.NUMBERS.
Proof. repeat constructor; discriminate. Qed.

(** The schedule in which [start_jobs] runs to its end for one worker and
    the worker then takes the twenty numbers and the sentinel. *)
Definition one_after_the_other : list procs.event :=
  repeat procs.Main 24 ++ repeat (procs.Work 0) 42.

(** The state of rest of the pool of one worker on the numbers the program
    ships with. *)
Definition shipped_end : procs.system :=
  procs.mkSystem []
    (procs_facts.checked_in_turn still_clock primes.NUMBERS 0
       ++ [procs.done_marker])
    [procs.mkWorker procs.Exited 1 1] procs.Started 40
    (primes.NUMBERS ++ [0]).

(** The program as it stands: for the numbers of [PRIME_FIXTURE], with any
    number of workers from one up and in whatever order the processes
    move, once the pool has come to rest [report] returns 20 and has
    printed, in some order, one line for each number of the fixture,
    labelled [P] exactly where the fixture expects a prime. *)
Theorem shipped_numbers_are_all_reported
    (perf_counter : nat -> float) (procs : Z)
    (schedule : list procs.event) (s : procs.system) :
  1 <= procs ->
  procs.run perf_counter procs schedule (procs.initial primes.NUMBERS)
    = Some s ->
  procs_facts.finished s ->
  procs.report procs (procs.results s)
    = (procs.Returned 20, [], procs, procs_facts.lines_of (procs.results s)) /\
  Permutation
    (map (fun l => (procs.line_n l, procs.label l))
         (procs_facts.lines_of (procs.results s)))
    (map (fun entry : Z * bool => (entry.1, if entry.2 then "P" else " "))
         primes.PRIME_FIXTURE).
Proof.
  intros Hprocs Hrun Hfin.
  pose proof NUMBERS_hold_no_sentinel as Hnz.
  pose proof (procs_facts.invariant_reachable perf_counter _ procs Hnz
                schedule s Hrun) as Hinv.
  pose proof Hfin as [Hst Hex].
  assert (Hgone : (Z.to_nat procs
                   <= procs_facts.how_many procs_facts.gone (procs.workers s))%nat).
  { destruct Hinv as (rest & z & _ & _ & _ & Hlen & _).
    rewrite Hst in Hlen. simpl in Hlen.
    rewrite (procs_facts.how_many_Forall procs_facts.gone)
      by (apply procs_facts.gone_exited; exact Hex).
    lia. }
  destruct (procs_facts.all_exited _ procs s Hprocs Hinv Hgone)
    as (Hjobs & _ & _ & _ & _ & _ & Hlen).
  split.
  { apply (proj2 (procs_facts.report_on_reachable _ procs s Hprocs Hinv));
      assumption. }
  pose proof (procs_more.accounted_run perf_counter _ procs schedule
                _ _ (procs_more.accounted_initial primes.NUMBERS) Hrun)
    as (Hperm & Hres & _).
  rewrite Hst, Hjobs, (procs_more.held_exited _ Hex) in Hperm.
  simpl in Hperm.
  rewrite (procs_more.filter_nonzero_all _ Hnz) in Hperm.
  pose proof (procs_more.honest_lines _ Hres) as Hlab.
  transitivity
    (map (fun x => (x, if primes.is_prime x then "P" else " "))
         (map procs.line_n (procs_facts.lines_of (procs.results s)))).
  { rewrite map_map. apply eq_subrelation; [typeclasses eauto|].
    apply List.map_ext_Forall.
    eapply Forall_impl; [exact Hlab|].
    intros l Hl. cbv beta in *. rewrite Hl. reflexivity. }
  unfold procs_more.answered in Hperm. rewrite Hperm.
  unfold primes.NUMBERS. rewrite map_map.
  apply eq_subrelation; [typeclasses eauto|].
  apply List.map_ext_Forall.
  eapply Forall_impl; [exact primes_facts.PRIME_FIXTURE_agrees|].
  intros entry Hentry. cbv beta in *. rewrite Hentry. reflexivity.
Qed.

Lemma shipped_numbers_are_all_reported_witness :
  procs.run still_clock 1 one_after_the_other (procs.initial primes.NUMBERS)
    = Some shipped_end /\
  procs.report 1 (procs.results shipped_end)
    = (procs.Returned 20, [], 1,
       procs_facts.lines_of (procs.results shipped_end)).
Proof.
  assert (Hrun : procs.run still_clock 1 one_after_the_other
                           (procs.initial primes.NUMBERS) = Some shipped_end)
    by reflexivity.
  split; [exact Hrun|].
  apply (shipped_numbers_are_all_reported still_clock 1 one_after_the_other
           shipped_end).
  - lia.
  - exact Hrun.
  - split; [reflexivity|]. repeat constructor.
Defined.
(** * Properties of primes/sequential.py and primes/proc_pool.py *)

(** [main] of sequential.py prints the heading with the length of the
    list, then one line for each number, in the order of the list and
    labelled [P] exactly where [is_prime] accepts the number, then the
    total; the time on the [k]-th line is that between two readings of the
    clock taken around the call of [is_prime], and the total runs from the
    first reading to the last, [2 * N + 2] readings in all. *)
Theorem sequential_main_prints_in_order
    (perf_counter : nat -> float) (NUMBERS : list Z) :
  exists lines,
    sequential.main perf_counter NUMBERS
      = sequential.Checking (length NUMBERS) :: lines
        ++ [sequential.TotalTime
              (perf_counter (1 + 2 * length NUMBERS)%nat - perf_counter 0%nat)] /\
    length lines = length NUMBERS /\
    omap sequential_facts.entry_of lines
      = map (fun n => (n, if primes.is_prime n then "P" else " ")) NUMBERS /\
    (forall k n, NUMBERS !! k = Some n ->
       lines !! k
       = Some (sequential.Line n (if primes.is_prime n then "P" else " ")
                 (perf_counter (2 * k + 2)%nat - perf_counter (2 * k + 1)%nat))).
Proof.
  exists (sequential_facts.lines perf_counter NUMBERS 1).
  split.
  { unfold sequential.main. rewrite sequential_facts.for_n_spec.
    reflexivity. }
  split; [apply sequential_facts.length_lines|].
  split; [apply sequential_facts.lines_entries|].
  assert (H : forall numbers ticks k n,
             numbers !! k = Some n ->
             sequential_facts.lines perf_counter numbers ticks !! k
             = Some (sequential.Line n
                       (if primes.is_prime n then "P" else " ")
                       (perf_counter (S (ticks + 2 * k))
                        - perf_counter (ticks + 2 * k)%nat))).
  { induction numbers as [|m numbers IH]; intros ticks [|k] n Hk;
      try discriminate.
    - injection Hk as ->.
      replace (ticks + 2 * 0)%nat with ticks by lia. reflexivity.
    - replace (ticks + 2 * S k)%nat with (S (S ticks) + 2 * k)%nat by lia.
      exact (IH (S (S ticks)) k n Hk). }
  intros k n Hk. rewrite (H NUMBERS 1%nat k n Hk).
  replace (S (1 + 2 * k)) with (2 * k + 2)%nat by lia.
  replace (1 + 2 * k)%nat with (2 * k + 1)%nat by lia.
  reflexivity.
Qed.

(** The pool of processes prints what the sequential program prints.
    With at least one worker and no sentinel among the jobs, once the pool
    has come to rest the lines of [report] carry, in some order, the same
    numbers with the same labels as the lines of [main] of
    sequential.py. *)
Theorem pool_prints_what_sequential_prints
    (perf_counter clock : nat -> float) (NUMBERS : list Z) (procs : Z)
    (schedule : list procs.event) (s : procs.system) :
  1 <= procs ->
  Forall (fun x => x <> 0) NUMBERS ->
  procs.run perf_counter procs schedule (procs.initial NUMBERS) = Some s ->
  procs_facts.finished s ->
  Permutation
    (map (fun l => (procs.line_n l, procs.label l))
         (procs_facts.lines_of (procs.results s)))
    (omap sequential_facts.entry_of (sequential.main clock NUMBERS)).
Proof.
  intros Hprocs Hnz Hrun Hfin.
  destruct (procs_more.answered_at_rest perf_counter NUMBERS procs schedule s
              Hprocs Hnz Hrun Hfin) as (Hperm & Hres & _).
  rewrite (procs_more.lines_labelled _ Hres), Hperm.
  unfold sequential.main. rewrite sequential_facts.for_n_spec.
  rewrite !omap_app. cbn [omap list_omap sequential_facts.entry_of app].
  rewrite sequential_facts.lines_entries, app_nil_r. reflexivity.
Qed.

Lemma pool_prints_what_sequential_prints_witness :
  Permutation
    (map (fun l => (procs.line_n l, procs.label l))
         (procs_facts.lines_of (procs.results two_by_two_end)))
    (omap sequential_facts.entry_of (sequential.main still_clock [7; 9])).
Proof.
  apply (pool_prints_what_sequential_prints still_clock still_clock [7; 9] 2
           two_by_two two_by_two_end).
  - lia.
  - repeat constructor; discriminate.
  - reflexivity.
  - split; [reflexivity|]. repeat constructor.
Defined.

(** [main] of proc_pool.py prints the numbers largest first, whatever the
    order in which the processes of the pool finish: with a number of
    workers the executor accepts, it prints the heading, then one line
    for each number of the list, in descending order and labelled [P]
    exactly where [is_prime] accepts the number, then the total.  With a
    number of workers below one the executor raises [ValueError] and
    nothing is printed. *)
Theorem proc_pool_prints_largest_first
    (perf_counter : nat -> float) (workers : option Z) (cpu_count : Z)
    (NUMBERS : list Z) (started : nat -> nat) (finish : nat) :
  (forall w, workers = Some w -> w <= 0 ->
     proc_pool.main perf_counter workers cpu_count NUMBERS started finish
     = py.Raise (py.ValueError "max_workers must be greater than 0")) /\
  ((forall w, workers = Some w -> 1 <= w) ->
   exists lines,
     proc_pool.main perf_counter workers cpu_count NUMBERS started finish
       = py.Return
           (proc_pool.Checking (length NUMBERS) (default cpu_count workers)
            :: lines
            ++ [proc_pool.TotalTime
                  (perf_counter finish - perf_counter 0%nat)]) /\
     omap proc_pool_facts.entry_of lines
       = map (fun n => (n, if primes.is_prime n then "P" else " "))
             (proc_pool.sorted_reverse NUMBERS) /\
     length lines = length NUMBERS) /\
  proc_pool_facts.descending (proc_pool.sorted_reverse NUMBERS) /\
  Permutation (proc_pool.sorted_reverse NUMBERS) NUMBERS.
Proof.
  split.
  { intros w -> Hw. unfold proc_pool.main, proc_pool.ProcessPoolExecutor.
    destruct (Z.leb_spec w 0); [reflexivity | lia]. }
  split.
  { intros Hw.
    exists (proc_pool_facts.pool_lines perf_counter
              (proc_pool.sorted_reverse NUMBERS) 0 started).
    split.
    - unfold proc_pool.main, proc_pool.ProcessPoolExecutor.
      destruct workers as [w|]; cbn [default].
      + specialize (Hw w eq_refl).
        destruct (Z.leb_spec w 0); [lia|].
        rewrite proc_pool_facts.for_result_spec. reflexivity.
      + rewrite proc_pool_facts.for_result_spec. reflexivity.
    - split; [apply proc_pool_facts.pool_lines_entries|].
      rewrite <- (Permutation_length
                    (proc_pool_facts.sorted_reverse_perm NUMBERS)).
      generalize (proc_pool.sorted_reverse NUMBERS) 0%nat.
      induction l as [|x l IH]; intros k; [reflexivity|].
      cbn [proc_pool_facts.pool_lines length]. rewrite IH. reflexivity. }
  split.
  - apply proc_pool_facts.sorted_reverse_descending.
  - apply proc_pool_facts.sorted_reverse_perm.
Qed.
(** * Further properties of getflags/flags2_sequential.py *)

(** A script of answers for three downloads: two flags served, one not
    found. *)
Definition two_found_one_missing : @py.State flags_facts.scripted :=
  flags_facts.scripted_state
    [flags_facts.found; flags_facts.found; flags_facts.not_found].

(** [download_one] answers with [OK] or [NOT_FOUND] and never with
    [ERROR]; when it returns it has printed one line if it was asked to
    and none otherwise, and when it raises it has printed nothing. *)
Theorem download_one_reports_or_raises `{py.Externals}
    (cc base_url : string) (verbose : bool) (st : py.State) :
  let answer := flags2_sequential.download_one cc base_url verbose st in
  answer.1 <> py.Return flags2_common.ERROR /\
  (forall e, answer.1 = py.Raise e -> py.stdout answer.2 = py.stdout st) /\
  (forall s, answer.1 = py.Return s ->
     exists msg,
       py.stdout answer.2
       = py.stdout st ++ (if verbose then [cc +:+ " " +:+ msg] else []) /\
       (s = flags2_common.OK -> msg = "OK")).
Proof.
  cbv zeta. rewrite flags_more.download_one_attempt.
  unfold flags_more.attempt.
  destruct (flags_more.fetched base_url cc (py.world st)) as [[image|e] w1].
  - destruct (py.save_flag image _ w1) as [[[]|e] w2]; cbn [fst snd py.stdout].
    + split; [discriminate|]. split; [discriminate|].
      intros s [= <-]. exists "OK". split; reflexivity.
    + split; [discriminate|]. split; [reflexivity|]. discriminate.
  - destruct e; cbn [fst snd py.stdout];
      try (split; [discriminate|]; split; [reflexivity | discriminate]).
    destruct (py.status_code response =? flags2_sequential.NOT_FOUND_code);
      cbn [fst snd py.stdout].
    + split; [discriminate|]. split; [discriminate|].
      intros s [= <-]. eexists. split; [reflexivity | discriminate].
    + split; [discriminate|]. split; [reflexivity | discriminate].
Qed.

(** The sequential download counts every job under the way it ended.
    When every call of [download_one] returns or raises one of the two
    errors the loop catches, [download_many] returns a tally in which
    each status counts the jobs that ended with it (a caught error
    counting under [ERROR]); the counts sum to the number of jobs, and
    one line has been printed for each job when [verbose] is set and none
    otherwise. *)
Theorem sequential_tally_counts_every_outcome `{py.Externals}
    (cc_list : list string) (base_url : string) (verbose : bool)
    (concur_req : Z) (st : py.State) :
  let outcomes :=
    flags_more.calls (py.sorted cc_list) base_url (py.world st) in
  Forall (fun r => flags_facts.category r <> None) outcomes ->
  exists c st' out,
    flags2_sequential.download_many cc_list base_url verbose concur_req st
      = (py.Return c, st') /\
    (forall s, flags_more.count s c
               = length (filter (fun r => flags_facts.category r = Some s)
                                outcomes)) /\
    flags_facts.total c = length cc_list /\
    py.stdout st' = py.stdout st ++ out /\
    length out = (if verbose then length cc_list else 0)%nat.
Proof.
  cbv zeta. intros Hall.
  rewrite flags_more.download_many_rounds.
  destruct (flags_more.rounds_verdict base_url verbose (py.sorted cc_list)
              (py.world st) ∅) as [Hv Hout].
  destruct (flags_more.verdict_counted _ ∅ Hall) as [Hc Hn].
  rewrite Hv, Hc. rewrite Hn, flags_more.length_calls,
    flags_facts.sorted_length in Hout.
  eexists _, _, _. split; [reflexivity|].
  split.
  { intros s. rewrite flags_more.count_tallied, flags_more.count_empty,
      flags_more.count_categories. lia. }
  split.
  { rewrite flags_more.total_tallied, flags_facts.total_empty,
      (flags_more.length_omap_category _ Hall), flags_more.length_calls,
      flags_facts.sorted_length. lia. }
  split; [reflexivity | exact Hout].
Qed.

Lemma sequential_tally_counts_every_outcome_witness :
  exists c st' out,
    @flags2_sequential.download_many flags_facts.scripted
       ["MX"; "XX"; "BR"] "http://flags" true 1 two_found_one_missing
      = (py.Return c, st') /\
    (forall s, flags_more.count s c
               = length (filter (fun r => flags_facts.category r = Some s)
                           (@flags_more.calls flags_facts.scripted
                              (py.sorted ["MX"; "XX"; "BR"]) "http://flags"
                              (py.world two_found_one_missing)))) /\
    flags_facts.total c = length ["MX"; "XX"; "BR"] /\
    py.stdout st' = py.stdout two_found_one_missing ++ out /\
    length out = length ["MX"; "XX"; "BR"].
Proof.
  apply (@sequential_tally_counts_every_outcome flags_facts.scripted
           ["MX"; "XX"; "BR"] "http://flags" true 1 two_found_one_missing).
  vm_compute. repeat constructor; discriminate.
Defined.

(** An interrupt ends the sequential download with the counts made so
    far.  When the calls before the interrupted one were all counted,
    [download_many] returns the tally of those jobs alone: each status
    counts the jobs before the interrupt that ended with it, the counts
    sum to their number, and no line is printed for the interrupted job
    or for a later one. *)
Theorem sequential_interrupt_returns_the_counts_so_far `{py.Externals}
    (cc_list : list string) (base_url : string) (verbose : bool)
    (concur_req : Z) (st : py.State)
    (pre post : list (py.result flags2_common.DownloadStatus)) :
  flags_more.calls (py.sorted cc_list) base_url (py.world st)
    = pre ++ py.Raise py.KeyboardInterrupt :: post ->
  Forall (fun r => flags_facts.category r <> None) pre ->
  exists c st' out,
    flags2_sequential.download_many cc_list base_url verbose concur_req st
      = (py.Return c, st') /\
    (forall s, flags_more.count s c
               = length (filter (fun r => flags_facts.category r = Some s)
                                pre)) /\
    flags_facts.total c = length pre /\
    py.stdout st' = py.stdout st ++ out /\
    length out = (if verbose then length pre else 0)%nat.
Proof.
  intros Hcalls Hpre.
  rewrite flags_more.download_many_rounds.
  destruct (flags_more.rounds_verdict base_url verbose (py.sorted cc_list)
              (py.world st) ∅) as [Hv Hout].
  rewrite Hcalls in Hv, Hout.
  destruct (flags_more.verdict_stopped pre (py.Raise py.KeyboardInterrupt)
              post ∅ Hpre eq_refl) as [Hc Hn].
  rewrite Hv, Hc. rewrite Hn in Hout.
  eexists _, _, _. split; [reflexivity|].
  split.
  { intros s. rewrite flags_more.count_tallied, flags_more.count_empty,
      flags_more.count_categories. lia. }
  split.
  { rewrite flags_more.total_tallied, flags_facts.total_empty,
      (flags_more.length_omap_category _ Hpre). lia. }
  split; [reflexivity | exact Hout].
Qed.

Lemma sequential_interrupt_returns_the_counts_so_far_witness :
  exists c st' out,
    @flags2_sequential.download_many flags_facts.scripted
       ["BR"; "CN"; "MX"] "http://flags" true 1
       (flags_facts.scripted_state
          [flags_facts.found; py.Raise py.KeyboardInterrupt;
           flags_facts.found])
      = (py.Return c, st') /\
    (forall s, flags_more.count s c
               = length (filter (fun r => flags_facts.category r = Some s)
                                [py.Return flags2_common.OK])) /\
    flags_facts.total c = length [py.Return flags2_common.OK] /\
    py.stdout st' = [] ++ out /\
    length out = length [py.Return flags2_common.OK].
Proof.
  apply (@sequential_interrupt_returns_the_counts_so_far flags_facts.scripted
           ["BR"; "CN"; "MX"] "http://flags" true 1
           (flags_facts.scripted_state
              [flags_facts.found; py.Raise py.KeyboardInterrupt;
               flags_facts.found])
           [py.Return flags2_common.OK] [py.Return flags2_common.OK]).
  - vm_compute. reflexivity.
  - repeat constructor; discriminate.
Defined.

(** The sequential download raises only what a call of [download_one]
    raised.  [download_many] raises [e] exactly when the first call that
    is not counted raised [e], an exception other than the two errors
    caught and the interrupt; the tally of the jobs before it is lost.  In
    particular it never fails on a variable of its own that is not
    assigned. *)
Theorem sequential_raises_what_a_call_raised `{py.Externals}
    (cc_list : list string) (base_url : string) (verbose : bool)
    (concur_req : Z) (st : py.State) (e : py.exn) :
  let outcomes :=
    flags_more.calls (py.sorted cc_list) base_url (py.world st) in
  (flags2_sequential.download_many cc_list base_url verbose concur_req st).1
    = py.Raise e <->
  exists pre post,
    outcomes = pre ++ py.Raise e :: post /\
    Forall (fun r => flags_facts.category r <> None) pre /\
    flags_facts.category (py.Raise e) = None /\
    e <> py.KeyboardInterrupt.
Proof.
  cbv zeta. rewrite flags_more.download_many_rounds. cbn [fst].
  rewrite (proj1 (flags_more.rounds_verdict base_url verbose
                    (py.sorted cc_list) (py.world st) ∅)).
  split; [apply flags_more.verdict_raises|].
  intros (pre & post & -> & Hpre & He & Hki).
  rewrite (proj1 (flags_more.verdict_stopped pre (py.Raise e) post ∅ Hpre He)).
  destruct e; try reflexivity; try discriminate. contradiction.
Qed.

(** The order in which the country codes are given is immaterial to the
    sequential download: it visits them in the order of [sorted], so two
    lists that hold the same codes, each as often, give the same requests,
    the same lines and the same tally. *)
Theorem sequential_order_of_codes_is_immaterial `{py.Externals}
    (cc_list cc_list' : list string) (base_url : string) (verbose : bool)
    (concur_req : Z) (st : py.State) :
  Permutation cc_list cc_list' ->
  flags2_sequential.download_many cc_list base_url verbose concur_req st
  = flags2_sequential.download_many cc_list' base_url verbose concur_req st.
Proof.
  intros Hperm. unfold flags2_sequential.download_many.
  rewrite (flags_more.sorted_permutation _ _ Hperm). reflexivity.
Qed.

Lemma sequential_order_of_codes_is_immaterial_witness :
  @flags2_sequential.download_many flags_facts.scripted
     ["MX"; "XX"; "BR"] "http://flags" true 1 two_found_one_missing
  = @flags2_sequential.download_many flags_facts.scripted
      ["BR"; "MX"; "XX"] "http://flags" true 1 two_found_one_missing.
Proof.
  apply (@sequential_order_of_codes_is_immaterial flags_facts.scripted).
  apply perm_trans with ["MX"; "BR"; "XX"].
  - apply perm_skip, perm_swap.
  - apply perm_swap.
Defined.
(** * Further properties of getflags/flags2_threadpool.py *)

(** The tally of the download with a pool of threads is the outcome of the
    last future the loop went through.  Take the outcomes of the calls of
    [download_one] in the order in which [as_completed] yields their
    futures, up to the round of the interrupt if there is one.  When each
    of them is a return or one of the two errors caught, [download_many]
    returns a tally with a single count of one, under the category of the
    last of them; when there is none, it fails on the unassigned
    [error_msg]. *)
Theorem threadpool_tally_is_the_last_outcome `{py.Externals}
    (sched : flags2_threadpool.schedule) (cc_list : list string)
    (base_url : string) (verbose : bool) (concur_req : Z) (st : py.State) :
  let arrivals :=
    omap (fun i => flags_more.calls (py.sorted cc_list) base_url
                     (py.world st) !! i)
         (flags2_threadpool.order sched) in
  let consumed :=
    threadpool_more.consumed arrivals (flags2_threadpool.interrupt_at sched) in
  1 <= concur_req ->
  Forall (fun r => flags_facts.category r <> None) consumed ->
  (flags2_threadpool.download_many sched cc_list base_url verbose concur_req
     st).1
  = match last (omap flags_facts.category consumed) with
    | Some s => py.Return {[s := 1%nat]}
    | None => py.Raise (py.UnboundLocalError "error_msg")
    end.
Proof.
  cbv zeta. intros Hreq Hall. unfold flags2_threadpool.download_many.
  destruct (Z.leb_spec concur_req 0); [lia|].
  pose proof (threadpool_more.submit_all_spec base_url verbose
                (py.sorted cc_list) 0 ∅ [] st (Forall_nil_2 _))
    as [Hout Hmap].
  destruct (flags2_threadpool.submit_all (py.sorted cc_list) base_url verbose
              0 ∅ [] st) as [[to_do_map futures] st1].
  cbn [fst snd map app] in Hout, Hmap.
  rewrite <- Hout, <- threadpool_more.outcome_as_completed in Hall |- *.
  set (done_iter := flags2_threadpool.as_completed futures
                      (flags2_threadpool.order sched)) in *.
  set (start := flags2_threadpool.mkLocals ∅ None None None).
  pose proof (threadpool_more.for_future_outlook futures done_iter 0
                (flags2_threadpool.interrupt_at sched) start
                (threadpool_more.as_completed_elem futures _)
                (or_introl eq_refl)) as Hloop.
  rewrite (threadpool_more.outlook_consumed _ _ _ Hall) in Hloop.
  change (threadpool_more.mood start) with (@None flags2_common.DownloadStatus)
    in Hloop.
  unfold threadpool_more.latest in Hloop.
  rewrite Forall_forall in Hmap.
  set (cs := omap flags_facts.category
               (threadpool_more.consumed
                  (map flags2_threadpool.outcome done_iter)
                  (flags2_threadpool.interrupt_at sched))) in *.
  assert (Hend : forall l,
             threadpool_more.mood l = match last cs with
                                      | Some s => Some s
                                      | None => None
                                      end ->
             flags2_threadpool.counter l = ∅ ->
             threadpool_more.good futures l ->
             (py.bind (flags2_threadpool.tally to_do_map verbose l)
                      (fun l' => py.ret (flags2_threadpool.counter l')) st1).1
             = match last cs with
               | Some s => py.Return {[s := 1%nat]}
               | None => py.Raise (py.UnboundLocalError "error_msg")
               end).
  { intros l Hm Hc Hg.
    pose proof (threadpool_more.tally_mood futures to_do_map verbose l st1
                  Hg Hmap) as Ht.
    rewrite Hm in Ht. unfold py.bind.
    destruct (last cs) as [s|].
    - destruct Ht as (l' & st' & -> & Hl' & _). unfold py.ret. cbn [fst].
      rewrite Hl', Hc, flags_facts.increment_empty. reflexivity.
    - rewrite Ht. reflexivity. }
  destruct (flags2_threadpool.for_future done_iter 0
              (flags2_threadpool.interrupt_at sched) start)
    as [l|l|e]; [| |contradiction];
    destruct Hloop as (Hm & Hc & Hg); apply Hend; assumption.
Qed.

Lemma threadpool_tally_is_the_last_outcome_witness :
  (@flags2_threadpool.download_many flags_facts.scripted
     (flags2_threadpool.mkSchedule [1; 0]%nat None)
     ["BR"; "XX"] "http://flags" false 2
     (flags_facts.scripted_state [flags_facts.found; flags_facts.not_found])).1
  = py.Return {[flags2_common.OK := 1%nat]}.
Proof.
  apply (@threadpool_tally_is_the_last_outcome flags_facts.scripted
           (flags2_threadpool.mkSchedule [1; 0]%nat None)
           ["BR"; "XX"] "http://flags" false 2
           (flags_facts.scripted_state
              [flags_facts.found; flags_facts.not_found])).
  - lia.
  - vm_compute. repeat constructor; discriminate.
Defined.

(** The download with a pool of threads fails in four ways only.  With
    the interrupt of the operator arriving in the loop over the futures,
    at its head or inside [future.result()], when [download_many] raises,
    the exception is the [ValueError] of a pool asked for no worker, or
    the error of the unassigned [error_msg], or an exception one of the
    calls of [download_one] raised, other than the errors the loop
    catches, or the interrupt, which then arrived at the head of the
    loop; a look-up in [to_do_map] never fails, and [status] and [future]
    are never read unassigned.  An interrupt before the first future is
    yielded does leave [download_many]; and when no interrupt arrives at
    the head of the loop, [download_many] is that of [flags2_threadpool]
    with the same order and the same interrupt. *)
Theorem threadpool_fails_in_four_ways `{py.Externals}
    (sched : flags2_threadpool_interrupted.schedule) (cc_list : list string)
    (base_url : string) (verbose : bool) (concur_req : Z) (st : py.State) :
  (forall e,
     (flags2_threadpool_interrupted.download_many sched cc_list base_url
        verbose concur_req st).1 = py.Raise e ->
     (concur_req <= 0 /\
      e = py.ValueError "max_workers must be greater than 0") \/
     e = py.UnboundLocalError "error_msg" \/
     (In (py.Raise e)
         (flags_more.calls (py.sorted cc_list) base_url (py.world st)) /\
      e <> py.KeyboardInterrupt /\
      flags_facts.category (py.Raise e) = None) \/
     (e = py.KeyboardInterrupt /\ 1 <= concur_req /\
      exists k,
        flags2_threadpool_interrupted.interrupt_at sched
        = Some (flags2_threadpool_interrupted.InWait k))) /\
  (1 <= concur_req ->
   flags2_threadpool_interrupted.interrupt_at sched
   = Some (flags2_threadpool_interrupted.InWait 0) ->
   (flags2_threadpool_interrupted.download_many sched cc_list base_url
      verbose concur_req st).1 = py.Raise py.KeyboardInterrupt) /\
  ((forall k, flags2_threadpool_interrupted.interrupt_at sched
              <> Some (flags2_threadpool_interrupted.InWait k)) ->
   flags2_threadpool_interrupted.download_many sched cc_list base_url
     verbose concur_req st
   = flags2_threadpool.download_many
       (flags2_threadpool.mkSchedule
          (flags2_threadpool_interrupted.order sched)
          (match flags2_threadpool_interrupted.interrupt_at sched with
           | Some (flags2_threadpool_interrupted.InResult k) => Some k
           | _ => None
           end))
       cc_list base_url verbose concur_req st).
Proof.
  split; [|split].
  - intros e He.
    destruct (interrupted_facts.download_many_cases sched cc_list base_url
                verbose concur_req st) as [Heq|(Hki & Hreq & Hk)].
    + rewrite Heq in He.
      destruct (interrupted_facts.raises_three_ways _ _ _ _ _ _ _ He)
        as [Hv|[Hu|Hc]]; [left; exact Hv | right; left; exact Hu |].
      right. right. left. exact Hc.
    + right. right. right. rewrite Hki in He. injection He as <-.
      split; [reflexivity|]. split; [exact Hreq | exact Hk].
  - intros Hreq Hi.
    rewrite (interrupted_facts.download_many_interrupted_at_once _ _ _ _ _ _
               Hreq Hi). reflexivity.
  - intros Hno.
    exact (interrupted_facts.download_many_inner sched cc_list base_url
             verbose concur_req st Hno).
Qed.
(** * Properties of getflags/flags.py and getflags/flags_threadpool.py *)

(** A server for the examples: it has no flag for the code XX and serves
    every other address with a content made from the address. *)
Definition demo_server (url : string) : py.result py.Response :=
  if String.eqb url (archive.url_of "XX")
  then py.Return (py.mkResponse 404 "Not Found" url EmptyString)
  else py.Return (py.mkResponse 200 "OK" url ("GIF " +:+ url)).

(** The world before any download. *)
Definition blank : @py.State (archive.externals demo_server) :=
  @py.mkState (archive.externals demo_server) (archive.mkDisk [] []) [].

(** [download_any] counts every code, or stops at the first download
    that fails.  The downloads are made in the order of [sorted], each
    one a call of [get_flag] followed by [save_flag].  Whenever
    [download_any] returns, every download returned, the count is the
    length of the list, and each code was written, followed by a space,
    in that order.  Whenever it raises, the codes before some code [cc]
    were all downloaded, the download of [cc] raised the exception that
    [download_any] raises, the world is as that download left it, and the
    codes written are those before [cc] and no other. *)
Theorem download_any_counts_or_stops `{py.Externals}
    (cc_list : list string) (st : py.State) :
  match flags.download_any cc_list st with
  | (py.Return count, st') =>
      count = Z.of_nat (length cc_list) /\
      flags_py_facts.downloaded (py.sorted cc_list) (py.world st)
      = Some (py.world st') /\
      py.stdout st'
      = py.stdout st
        ++ concat (map (fun cc => [cc; " "]) (py.sorted cc_list))
  | (py.Raise e, st') =>
      exists pre cc post w,
        py.sorted cc_list = pre ++ cc :: post /\
        flags_py_facts.downloaded pre (py.world st) = Some w /\
        flags_py_facts.download cc w = (py.Raise e, py.world st') /\
        py.stdout st'
        = py.stdout st ++ concat (map (fun cc => [cc; " "]) pre)
  end.
Proof.
  unfold flags.download_any, py.bind.
  pose proof (flags_py_facts.for_cc_downloads (py.sorted cc_list) st) as Hloop.
  destruct (flags.for_cc (py.sorted cc_list) st) as [[[]|e] st'].
  - cbn [py.ret]. split; [reflexivity | exact Hloop].
  - exact Hloop.
Qed.

(** What the server serves is what the sequential download saves.  With a
    server that has a flag for every code of the list, [download_any]
    returns the length of the list, having asked for one address for each
    code, in the order of [sorted], and saved under the name of the code
    the content the server served for it. *)
Theorem download_any_saves_what_is_served
    (server : string -> py.result py.Response) (cc_list : list string)
    (st : @py.State (archive.externals server)) :
  Forall (fun cc => exists image, archive.served server cc = py.Return image)
         cc_list ->
  exists st',
    @flags.download_any (archive.externals server) cc_list st
      = (py.Return (Z.of_nat (length cc_list)), st') /\
    archive.requests (py.world st')
      = archive.requests (py.world st)
        ++ map archive.url_of (py.sorted cc_list) /\
    archive.files (py.world st')
      = archive.files (py.world st)
        ++ concat (map (archive.flag_of server) (py.sorted cc_list)) /\
    Forall2 (fun cc file =>
               file.1 = cc +:+ ".gif" /\
               archive.served server cc = py.Return file.2)
            (py.sorted cc_list)
            (concat (map (archive.flag_of server) (py.sorted cc_list))).
Proof.
  intros Hall.
  assert (Hsorted : Forall (fun cc => exists image,
                              archive.served server cc = py.Return image)
                           (py.sorted cc_list))
    by (rewrite flags_facts.sorted_perm; exact Hall).
  pose proof (pool_archive.failure_none server _ Hsorted) as Hnone.
  unfold flags.download_any, py.bind.
  rewrite archive.for_cc_archive. unfold archive.asked_in_turn.
  rewrite Hnone, (pool_archive.reached_all server _ Hnone), app_nil_r.
  eexists. split; [reflexivity|]. cbn [py.world archive.requests archive.files].
  split; [reflexivity|]. split; [reflexivity|].
  clear Hnone. induction Hsorted as [|cc codes [image Hcc] _ IH];
    [constructor|].
  cbn [map concat]. unfold archive.flag_of at 1. rewrite Hcc.
  constructor; [|exact IH]. split; [reflexivity | exact Hcc].
Qed.

Lemma download_any_saves_what_is_served_witness :
  exists st',
    @flags.download_any (archive.externals demo_server) ["MX"; "BR"] blank
      = (py.Return (Z.of_nat (length ["MX"; "BR"])), st') /\
    archive.requests (py.world st')
      = archive.requests (py.world blank)
        ++ map archive.url_of (py.sorted ["MX"; "BR"]) /\
    archive.files (py.world st')
      = archive.files (py.world blank)
        ++ concat (map (archive.flag_of demo_server) (py.sorted ["MX"; "BR"])) /\
    Forall2 (fun cc file =>
               file.1 = cc +:+ ".gif" /\
               archive.served demo_server cc = py.Return file.2)
            (py.sorted ["MX"; "BR"])
            (concat (map (archive.flag_of demo_server)
                         (py.sorted ["MX"; "BR"]))).
Proof.
  apply (download_any_saves_what_is_served demo_server ["MX"; "BR"] blank).
  repeat constructor; eexists; vm_compute; reflexivity.
Defined.

(** The sequential download stops at the first flag the server does not
    serve.  When the codes before [cc] in the order of [sorted] are served
    and the download for [cc] raises [e], [download_any] raises [e]; the
    flags of the codes before [cc] are on the disk and written on the
    output, and no address is asked for after that of [cc]. *)
Theorem download_any_stops_at_the_first_failure
    (server : string -> py.result py.Response) (cc_list : list string)
    (st : @py.State (archive.externals server))
    (pre post : list string) (cc : string) (e : py.exn) :
  py.sorted cc_list = pre ++ cc :: post ->
  Forall (fun c => exists image, archive.served server c = py.Return image)
         pre ->
  archive.served server cc = py.Raise e ->
  exists st',
    @flags.download_any (archive.externals server) cc_list st
      = (py.Raise e, st') /\
    archive.requests (py.world st')
      = archive.requests (py.world st) ++ map archive.url_of (pre ++ [cc]) /\
    archive.files (py.world st')
      = archive.files (py.world st)
        ++ concat (map (archive.flag_of server) pre) /\
    py.stdout st'
      = py.stdout st ++ concat (map (archive.pieces_of server) pre).
Proof.
  intros Hsorted Hpre Hcc.
  destruct (pool_archive.reached_stopped server pre cc e post Hpre Hcc)
    as [Hreached Hfailure].
  unfold flags.download_any, py.bind.
  rewrite archive.for_cc_archive. unfold archive.asked_in_turn.
  rewrite Hsorted, Hfailure, Hreached.
  eexists. split; [reflexivity|].
  cbn [py.world py.stdout archive.requests archive.files].
  rewrite map_app. repeat split; reflexivity.
Qed.

Lemma download_any_stops_at_the_first_failure_witness :
  exists st',
    @flags.download_any (archive.externals demo_server)
       ["ZA"; "XX"; "BR"] blank
      = (py.Raise
           (py.HTTPStatusError
              (py.mkResponse 404 "Not Found" (archive.url_of "XX")
                 EmptyString)), st') /\
    archive.requests (py.world st')
      = archive.requests (py.world blank)
        ++ map archive.url_of (["BR"] ++ ["XX"]) /\
    archive.files (py.world st')
      = archive.files (py.world blank)
        ++ concat (map (archive.flag_of demo_server) ["BR"]) /\
    py.stdout st'
      = py.stdout blank ++ concat (map (archive.pieces_of demo_server) ["BR"]).
Proof.
  apply (download_any_stops_at_the_first_failure demo_server
           ["ZA"; "XX"; "BR"] blank ["BR"] ["ZA"] "XX").
  - vm_compute. reflexivity.
  - repeat constructor. eexists. vm_compute. reflexivity.
  - vm_compute. reflexivity.
Defined.

(** A run of the pool for two codes and two threads in which the calls
    take turns. *)
Definition turn_by_turn : list nat := [0; 1; 1; 0; 0; 1; 1; 0]%nat.

(** The pool of threads downloads what the sequential program downloads.
    With a server that answers each address always in the same way, for
    every number of threads and every run of the pool in which all the
    calls come to their end, [download_many] of flags_threadpool.py
    returns or raises what [download_any] returns or raises; it has asked
    for the address of every code, saved the flag of every code the
    server serves and written those codes, in some order.  When no
    download fails, the disk and the output hold what the sequential
    download leaves, in some order. *)
Theorem pool_downloads_what_sequential_downloads
    (server : string -> py.result py.Response) (max_workers : nat)
    (schedule : list nat) (cc_list : list string)
    (st st' : @py.State (archive.externals server)) (r : py.result Z) :
  @flags_threadpool.download_many (archive.externals server)
     max_workers schedule cc_list st = Some (r, st') ->
  let sequential :=
    @flags.download_any (archive.externals server) cc_list st in
  r = sequential.1 /\
  Permutation (archive.requests (py.world st'))
              (archive.requests (py.world st)
               ++ map archive.url_of (py.sorted cc_list)) /\
  Permutation (archive.files (py.world st'))
              (archive.files (py.world st)
               ++ concat (map (archive.flag_of server) (py.sorted cc_list))) /\
  Permutation (py.stdout st')
              (py.stdout st
               ++ concat (map (archive.pieces_of server) (py.sorted cc_list))) /\
  (forall count, r = py.Return count ->
     count = Z.of_nat (length cc_list) /\
     Permutation (archive.files (py.world st'))
                 (archive.files (py.world sequential.2)) /\
     Permutation (py.stdout st') (py.stdout sequential.2)).
Proof.
  unfold flags_threadpool.download_many.
  destruct (flags_threadpool.run max_workers schedule _) as [p|] eqn:Erun;
    [|discriminate].
  destruct (forallb flags_threadpool.done (flags_threadpool.tasks p))
    eqn:Edone; [|discriminate].
  intros [= <- <-]. cbv zeta.
  pose proof (pool_archive.inv_run server st max_workers schedule _ _
                (pool_archive.inv_initial server st (py.sorted cc_list)) Erun)
    as (Hok & Hfiles & Hreq & Hout).
  destruct (pool_facts.pool_run_moves_left _ _ _ _ Erun) as (_ & Hcode & _).
  cbn [flags_threadpool.tasks] in Hcode.
  assert (Hcodes : map pool_facts.code (map flags_threadpool.Waiting
                                           (py.sorted cc_list))
                   = py.sorted cc_list).
  { rewrite map_map. apply map_id. }
  rewrite Hcodes in Hcode.
  pose proof (pool_archive.done_final server _ Hok Edone) as Hfinal.
  rewrite Hcode in Hfinal.
  destruct (pool_archive.final_contributions server (py.sorted cc_list))
    as (Hs & Ha & Hw).
  rewrite Hfinal in Hfiles, Hreq, Hout. rewrite Hs in Hfiles.
  rewrite Ha in Hreq. rewrite Hw in Hout.
  rewrite Hfinal. rewrite !pool_archive.len_list_final.
  unfold flags.download_any, py.bind.
  rewrite archive.for_cc_archive. cbn [fst snd py.world py.stdout].
  rewrite flags_facts.sorted_length.
  destruct (archive.failure server (py.sorted cc_list)) as [[cc e]|] eqn:Ef.
  - split; [reflexivity|]. split; [exact Hreq|]. split; [exact Hfiles|].
    split; [exact Hout|]. intros count [=].
  - split; [reflexivity|]. split; [exact Hreq|]. split; [exact Hfiles|].
    split; [exact Hout|].
    intros count [= <-].
    rewrite (pool_archive.reached_all server _ Ef).
    cbn [archive.files archive.requests].
    split; [reflexivity|]. split; assumption.
Qed.

Lemma pool_downloads_what_sequential_downloads_witness :
  exists st',
    @flags_threadpool.download_many (archive.externals demo_server)
       2 turn_by_turn ["MX"; "BR"] blank
    = Some ((@flags.download_any (archive.externals demo_server)
               ["MX"; "BR"] blank).1, st') /\
    Permutation (archive.files (py.world st'))
                (archive.files (py.world blank)
                 ++ concat (map (archive.flag_of demo_server)
                                (py.sorted ["MX"; "BR"]))).
Proof.
  assert (Hrun : exists st',
             @flags_threadpool.download_many (archive.externals demo_server)
                2 turn_by_turn ["MX"; "BR"] blank
             = Some (py.Return 2, st'))
    by (eexists; vm_compute; reflexivity).
  destruct Hrun as [st' Hrun]. exists st'.
  pose proof (pool_downloads_what_sequential_downloads demo_server 2
                turn_by_turn ["MX"; "BR"] blank st' (py.Return 2) Hrun)
    as (Hr & _ & Hfiles & _).
  split; [rewrite <- Hr; exact Hrun | exact Hfiles].
Defined.

(** The pool of flags_threadpool.py always comes to its end.  With at
    least one thread, whatever the world does, every run of the pool can
    be carried on to the point where every call is done, where
    [download_many] gives its answer; no run has more than four moves for
    each code, and at no point are more than [max_workers] calls
    running. *)
Theorem pool_always_comes_to_its_end `{py.Externals}
    (max_workers : nat) (schedule : list nat) (cc_list : list string)
    (st : py.State) (p : flags_threadpool.pool) :
  (1 <= max_workers)%nat ->
  flags_threadpool.run max_workers schedule
    (flags_threadpool.mkPool
       (map flags_threadpool.Waiting (py.sorted cc_list)) st) = Some p ->
  (exists schedule' answer,
     flags_threadpool.download_many max_workers (schedule ++ schedule')
       cc_list st = Some answer) /\
  (length schedule <= 4 * length cc_list)%nat /\
  (length (filter (fun t => flags_threadpool.running t = true)
                  (flags_threadpool.tasks p)) <= max_workers)%nat.
Proof.
  intros Hmw Hrun.
  destruct (pool_facts.pool_run_moves_left _ _ _ _ Hrun) as (Hmoves & _ & Hrunning).
  cbn [flags_threadpool.tasks] in Hmoves, Hrunning.
  rewrite pool_facts.moves_left_waiting, flags_facts.sorted_length in Hmoves.
  split; [|split; [lia|]].
  - destruct (pool_facts.pool_can_finish max_workers Hmw _ p (le_n _))
      as (schedule' & p' & Hrun' & Hdone).
    exists schedule'. eexists.
    unfold flags_threadpool.download_many.
    rewrite (pool_facts.pool_run_app _ _ _ _ _ _ Hrun Hrun'), Hdone. reflexivity.
  - rewrite pool_facts.running_count. apply Hrunning.
    clear. induction (py.sorted cc_list) as [|cc codes IH]; cbn; lia.
Qed.

Lemma pool_always_comes_to_its_end_witness :
  exists schedule' answer,
    @flags_threadpool.download_many (archive.externals demo_server) 2
       ([0; 1; 1]%nat ++ schedule') ["MX"; "BR"] blank = Some answer.
Proof.
  assert (Hrun : exists p,
             @flags_threadpool.run (archive.externals demo_server) 2
               [0; 1; 1]%nat
               (flags_threadpool.mkPool
                  (map flags_threadpool.Waiting (py.sorted ["MX"; "BR"]))
                  blank) = Some p)
    by (eexists; vm_compute; reflexivity).
  destruct Hrun as [p Hrun].
  apply (@pool_always_comes_to_its_end (archive.externals demo_server) 2
           [0; 1; 1]%nat ["MX"; "BR"] blank p); [lia | exact Hrun].
Defined.
(** * Properties of getflags/flags_threadpool_futures.py *)

(** A text for the futures of the examples. *)
Definition demo_repr (k : nat) (t : flags_threadpool.task) : string :=
  "<Future " +:+ pretty k +:+ ">".

(** A run for two codes in which the main thread submits both calls and
    the calls then take turns. *)
Definition submit_then_work : list flags_threadpool_futures.event :=
  [flags_threadpool_futures.Main; flags_threadpool_futures.Main;
   flags_threadpool_futures.Main; flags_threadpool_futures.Main;
   flags_threadpool_futures.Main; flags_threadpool_futures.Main;
   flags_threadpool_futures.Work 0; flags_threadpool_futures.Work 1;
   flags_threadpool_futures.Work 1; flags_threadpool_futures.Work 0;
   flags_threadpool_futures.Work 0; flags_threadpool_futures.Work 1;
   flags_threadpool_futures.Work 1; flags_threadpool_futures.Work 0;
   flags_threadpool_futures.Main].

(** The calls are submitted and the main thread is about to leave the
    block, with no call started yet. *)
Definition submit_both : list flags_threadpool_futures.event :=
  [flags_threadpool_futures.Main; flags_threadpool_futures.Main;
   flags_threadpool_futures.Main; flags_threadpool_futures.Main;
   flags_threadpool_futures.Main; flags_threadpool_futures.Main].

(** [download_many] of flags_threadpool_futures.py always gives an
    answer, and downloads no more than the first five codes of the list.
    Every run of its threads can be carried on to a run for which
    [download_many] answers, and for an empty list the run in which the
    main thread leaves the block at once fails on the unassigned
    [count].  Whenever [download_many] returns, the list was not empty
    and the count returned is the smaller of five and the length of the
    list; for an empty list it fails on the unassigned [count]; and an
    exception it raises otherwise is one a call of [download_one]
    raised. *)
Theorem futures_download_counts_the_first_five `{py.Externals}
    (repr_future : nat -> flags_threadpool.task -> string)
    (schedule : list flags_threadpool_futures.event)
    (cc_list : list string) (st : py.State)
    (s : flags_threadpool_futures.system) :
  flags_threadpool_futures.run repr_future schedule
    (flags_threadpool_futures.mkSystem
       (flags_threadpool.mkPool [] st)
       (flags_threadpool_futures.Submit (py.sorted (take 5 cc_list))))
  = Some s ->
  (exists rest yielded answer,
     flags_threadpool_futures.download_many repr_future (schedule ++ rest)
       yielded cc_list st = Some answer) /\
  (cc_list = [] ->
   flags_threadpool_futures.download_many repr_future
     [flags_threadpool_futures.Main] [] cc_list st
   = Some (py.Raise (py.UnboundLocalError "count"), st)) /\
  (forall yielded r st',
     flags_threadpool_futures.download_many repr_future schedule yielded
       cc_list st = Some (r, st') ->
     (cc_list = [] -> r = py.Raise (py.UnboundLocalError "count")) /\
     (forall count, r = py.Return count ->
        cc_list <> [] /\ count = Z.of_nat (min 5 (length cc_list))) /\
     (forall e, r = py.Raise e ->
        (cc_list = [] /\ e = py.UnboundLocalError "count") \/
        exists s k cc,
          flags_threadpool_futures.run repr_future schedule
            (flags_threadpool_futures.mkSystem
               (flags_threadpool.mkPool [] st)
               (flags_threadpool_futures.Submit
                  (py.sorted (take 5 cc_list))))
          = Some s /\
          flags_threadpool.tasks (flags_threadpool_futures.threads s) !! k
          = Some (flags_threadpool.Done cc (py.Raise e)))).
Proof.
  intros Hrun. split; [|split].
  - exact (futures_facts.futures_can_answer repr_future schedule cc_list st s
             Hrun).
  - intros ->. destruct st as [w out]. reflexivity.
  - intros yielded r st' Hdone.
    exact (futures_runs.complete_run_counts repr_future schedule yielded
             cc_list st st' r Hdone).
Qed.

Lemma futures_download_counts_the_first_five_witness :
  exists rest yielded answer,
    @flags_threadpool_futures.download_many (archive.externals demo_server)
       demo_repr (submit_both ++ rest) yielded ["MX"; "BR"] blank
    = Some answer.
Proof.
  assert (Hrun : exists s,
             @flags_threadpool_futures.run (archive.externals demo_server)
               demo_repr submit_both
               (flags_threadpool_futures.mkSystem
                  (flags_threadpool.mkPool [] blank)
                  (flags_threadpool_futures.Submit
                     (py.sorted (take 5 ["MX"; "BR"])))) = Some s)
    by (eexists; vm_compute; reflexivity).
  destruct Hrun as [s Hrun].
  exact (proj1 (@futures_download_counts_the_first_five
                  (archive.externals demo_server) demo_repr submit_both
                  ["MX"; "BR"] blank s Hrun)).
Defined.

(** With a server that answers each address always in the same way,
    every run of the threads of flags_threadpool_futures.py can be
    carried on to a run for which [download_many] answers, and whenever
    it answers it has asked for the addresses of the first five codes of
    the list and saved the flags the server serves for them, in some
    order, and nothing else; it returns only when the server serves all
    of them, and when it raises for a list that is not empty, the server
    refused one of them. *)
Theorem futures_download_saves_the_first_five
    (server : string -> py.result py.Response)
    (repr_future : nat -> flags_threadpool.task -> string)
    (schedule : list flags_threadpool_futures.event)
    (cc_list : list string)
    (st : @py.State (archive.externals server))
    (s : @flags_threadpool_futures.system (archive.externals server)) :
  @flags_threadpool_futures.run (archive.externals server) repr_future
    schedule
    (flags_threadpool_futures.mkSystem
       (flags_threadpool.mkPool [] st)
       (flags_threadpool_futures.Submit (py.sorted (take 5 cc_list))))
  = Some s ->
  (exists rest yielded answer,
     @flags_threadpool_futures.download_many (archive.externals server)
        repr_future (schedule ++ rest) yielded cc_list st = Some answer) /\
  (forall yielded r st',
     @flags_threadpool_futures.download_many (archive.externals server)
        repr_future schedule yielded cc_list st = Some (r, st') ->
     let codes := py.sorted (take 5 cc_list) in
     Permutation (archive.requests (py.world st'))
                 (archive.requests (py.world st)
                  ++ map archive.url_of codes) /\
     Permutation (archive.files (py.world st'))
                 (archive.files (py.world st)
                  ++ concat (map (archive.flag_of server) codes)) /\
     (forall count, r = py.Return count ->
        Forall (fun cc => exists image,
                  archive.served server cc = py.Return image)
               codes) /\
     (forall e, r = py.Raise e -> cc_list <> [] ->
        exists cc, cc ∈ codes /\ archive.served server cc = py.Raise e)).
Proof.
  intros Hrun. split.
  - exact (@futures_facts.futures_can_answer (archive.externals server)
             repr_future schedule cc_list st s Hrun).
  - intros yielded r st' Hdone.
    exact (futures_runs.complete_run_saves server repr_future schedule
             yielded cc_list st st' r Hdone).
Qed.

Lemma futures_download_saves_the_first_five_witness :
  exists st',
    @flags_threadpool_futures.download_many (archive.externals demo_server)
       demo_repr submit_then_work [1; 0]%nat ["MX"; "BR"] blank
    = Some (py.Return 2, st') /\
    Permutation (archive.files (py.world st'))
                (archive.files (py.world blank)
                 ++ concat (map (archive.flag_of demo_server)
                                (py.sorted (take 5 ["MX"; "BR"])))).
Proof.
  assert (Hrun : exists s,
             @flags_threadpool_futures.run (archive.externals demo_server)
               demo_repr submit_then_work
               (flags_threadpool_futures.mkSystem
                  (flags_threadpool.mkPool [] blank)
                  (flags_threadpool_futures.Submit
                     (py.sorted (take 5 ["MX"; "BR"])))) = Some s)
    by (eexists; vm_compute; reflexivity).
  destruct Hrun as [s Hrun].
  assert (Hdone : exists st',
             @flags_threadpool_futures.download_many
                (archive.externals demo_server)
                demo_repr submit_then_work [1; 0]%nat ["MX"; "BR"] blank
             = Some (py.Return 2, st'))
    by (eexists; vm_compute; reflexivity).
  destruct Hdone as [st' Hdone]. exists st'. split; [exact Hdone|].
  apply (proj2 (futures_download_saves_the_first_five demo_server demo_repr
                  submit_then_work ["MX"; "BR"] blank s Hrun)
           [1; 0]%nat (py.Return 2) st' Hdone).
Defined.
(** ** The spinner of spinner_thread.py *)

(** What [str(spinner)] gives for the first thread a program makes. *)
Definition first_thread : string := "<Thread(Thread-1 (spin), initial)>".

(** A run in which [spin] shows two frames: the first is wiped while
    [slow()] sleeps, the second is on the line when the event is set. *)
Definition two_frames : list spinner_thread.event :=
  [spinner_thread.Main; spinner_thread.Main;
   spinner_thread.Spin; spinner_thread.Spin; spinner_thread.Spin;
   spinner_thread.Main; spinner_thread.Spin; spinner_thread.Main;
   spinner_thread.Spin; spinner_thread.Main; spinner_thread.Main].

(** While the event is unset [spin] goes on for ever.  For every message
    and every number of moves, [spin] started with the event unset makes
    that many moves and has not returned; after [3 * k] moves it has
    written [k] status lines, each followed by the line that wipes it;
    the status lines take their character from ['\\|/-'] in turn, and
    the line that wipes one has as many blanks as the status has
    characters, three more than the message. *)
Theorem spin_goes_on_until_done_is_set (msg : string) (stdout : list string) :
  (forall n, exists pc stdout',
     spinner_facts.moves msg false n
       (spinner_thread.AtFor (spinner_thread.cycle "\|/-")) stdout
     = Some (pc, stdout') /\ pc <> spinner_thread.Returned) /\
  (forall k, exists pc,
     spinner_facts.moves msg false (3 * k)
       (spinner_thread.AtFor (spinner_thread.cycle "\|/-")) stdout
     = Some (pc, stdout ++ spinner_facts.frames msg k)) /\
  (forall k,
     spinner_facts.status_of msg k
     = spinner_thread.carriage_return
       +:+ String (nth (k mod 4) (String.list_ascii_of_string "\|/-")
                       Ascii.Space) EmptyString
       +:+ " " +:+ msg /\
     spinner_facts.wipe_of msg k
     = spinner_thread.carriage_return
       +:+ spinner_thread.times " " (3 + String.length msg)
       +:+ spinner_thread.carriage_return).
Proof.
  split; [|split].
  - intros n.
    destruct (spinner_facts.spinning_moves msg n
                (spinner_thread.AtFor (spinner_thread.cycle "\|/-")) stdout)
      as (pc & stdout' & Hm & Hpc); [exists O; reflexivity|].
    exists pc, stdout'. split; [exact Hm|].
    intros ->. exact Hpc.
  - intros k. eexists. apply (spinner_facts.rounds msg k stdout).
  - intros k. split; [reflexivity|].
    unfold spinner_facts.wipe_of.
    rewrite spinner_facts.length_status. reflexivity.
Qed.

(** The last frame of the spinner stays on the line.  In every
    interleaving of the two threads of spinner_thread.py that comes to
    the end of [main()], the output is the line of the spinner object,
    then [k] status lines each wiped by blanks, then one more status line
    that nothing wipes, then the line feed and [Answer: 42]; the spinner
    thread has made [3 * k + 2] moves and the main thread six, the event
    is set and [spin] has returned. *)
Theorem spinner_leaves_the_last_frame (str_spinner : string)
    (schedule : list spinner_thread.event) (s : spinner_thread.system) :
  spinner_thread.run str_spinner schedule spinner_thread.initial = Some s ->
  spinner_thread.main s = spinner_thread.AtExit ->
  exists k,
    spinner_thread.stdout s
    = spinner_facts.header str_spinner
      ++ spinner_facts.frames "thinking..." k
      ++ [spinner_facts.status_of "thinking..." k; EmptyString]
      ++ spinner_facts.answer /\
    spinner_facts.spins schedule = (3 * k + 2)%nat /\
    length schedule = (3 * k + 8)%nat /\
    spinner_thread.done s = true /\
    spinner_thread.spinner s
    = spinner_thread.Started spinner_thread.Returned.
Proof.
  intros Hrun Hexit.
  pose proof (spinner_facts.spinner_inv_run str_spinner _ _ _ _
                (spinner_facts.spinner_inv_initial str_spinner) Hrun) as Hinv.
  pose proof (spinner_facts.place_run str_spinner _ _ _ Hrun) as Hplace.
  unfold spinner_facts.inv in Hinv. rewrite Hexit in Hinv, Hplace.
  destruct Hinv as (at_spin & k & written & Hsp & Hspun & Hout & Hn & Hd & ->).
  cbn [spinner_facts.spun spinner_facts.made spinner_facts.closing
       spinner_facts.place spinner_thread.main spinner_thread.initial] in *.
  subst written. exists k.
  split; [rewrite Hout, <- !app_assoc; reflexivity|].
  split; [lia|]. split; [lia|]. split; assumption.
Qed.

Lemma spinner_leaves_the_last_frame_witness :
  exists s k,
    spinner_thread.run first_thread two_frames spinner_thread.initial = Some s /\
    spinner_thread.stdout s
    = spinner_facts.header first_thread
      ++ spinner_facts.frames "thinking..." k
      ++ [spinner_facts.status_of "thinking..." k; EmptyString]
      ++ spinner_facts.answer.
Proof.
  assert (Hrun : exists s,
             spinner_thread.run first_thread two_frames spinner_thread.initial
             = Some s /\ spinner_thread.main s = spinner_thread.AtExit)
    by (eexists; split; vm_compute; reflexivity).
  destruct Hrun as (s & Hrun & Hexit). exists s.
  destruct (spinner_leaves_the_last_frame first_thread two_frames s Hrun Hexit)
    as (k & Hout & _).
  exists k. split; [exact Hrun | exact Hout].
Defined.

(** The supervisor always comes to its end, and the spinner stops within
    a frame of [done.set()].  From every state the two threads of
    spinner_thread.py can reach, at most nine more moves bring [main()]
    to its end; once the event is set the spinner thread makes at most
    three more moves, whatever the schedule; [spin] returns only after
    the event is set, and the main thread goes past [spinner.join()]
    only after [spin] has returned. *)
Theorem spinner_stops_when_done_is_set (str_spinner : string)
    (schedule : list spinner_thread.event) (s : spinner_thread.system) :
  spinner_thread.run str_spinner schedule spinner_thread.initial = Some s ->
  (exists rest s',
     (length rest <= 9)%nat /\
     spinner_thread.run str_spinner (schedule ++ rest) spinner_thread.initial
     = Some s' /\
     spinner_thread.main s' = spinner_thread.AtExit) /\
  (spinner_thread.done s = true ->
   forall more s',
     spinner_thread.run str_spinner more s = Some s' ->
     (spinner_facts.spins more <= 3)%nat) /\
  (spinner_thread.spinner s = spinner_thread.Started spinner_thread.Returned ->
   spinner_thread.done s = true) /\
  (match spinner_thread.main s with
   | spinner_thread.AtAnswer _ | spinner_thread.AtExit =>
       spinner_thread.spinner s
       = spinner_thread.Started spinner_thread.Returned
   | _ => True
   end).
Proof.
  intros Hrun.
  pose proof (spinner_facts.spinner_inv_run str_spinner _ _ _ _
                (spinner_facts.spinner_inv_initial str_spinner) Hrun) as Hinv.
  split; [|split; [|split]].
  - destruct (spinner_facts.spinner_can_finish str_spinner _ s Hinv)
      as (rest & s' & Hlen & Hrest & Hexit).
    exists rest, s'. split; [exact Hlen|]. split; [|exact Hexit].
    eapply spinner_facts.spinner_run_app; eassumption.
  - intros Hd more s' Hmore.
    pose proof (spinner_facts.set_run str_spinner _ _ _ _ Hinv Hd Hmore).
    pose proof (spinner_facts.moves_left_bound s). lia.
  - destruct s as [out d sp pc]. unfold spinner_facts.inv in Hinv.
    cbn [spinner_thread.main spinner_thread.spinner spinner_thread.done
         spinner_thread.stdout] in *.
    intros ->.
    destruct pc as [| | |result|result|result|];
      cbn [spinner_facts.guard] in Hinv.
    + destruct Hinv as [[=] _].
    + destruct Hinv as [[=] _].
    + destruct Hinv as (? & ? & ? & [= <-] & _ & _ & _ & _ & Hne).
      contradiction.
    + destruct Hinv as (? & ? & ? & [= <-] & _ & _ & _ & _ & _ & Hne).
      contradiction.
    + destruct Hinv as (? & ? & ? & _ & _ & _ & _ & _ & Hd). exact Hd.
    + destruct Hinv as (? & ? & ? & _ & _ & _ & _ & _ & Hd & _). exact Hd.
    + destruct Hinv as (? & ? & ? & _ & _ & _ & _ & Hd & _). exact Hd.
  - destruct s as [out d sp pc]. unfold spinner_facts.inv in Hinv.
    cbn [spinner_thread.main spinner_thread.spinner] in *.
    destruct pc as [| | |result|result|result|]; try exact I;
      cbn [spinner_facts.guard] in Hinv.
    + destruct Hinv as (? & ? & ? & -> & _ & _ & _ & _ & _ & ->). reflexivity.
    + destruct Hinv as (? & ? & ? & -> & _ & _ & _ & _ & ->). reflexivity.
Qed.

Lemma spinner_stops_when_done_is_set_witness :
  exists rest s',
    (length rest <= 9)%nat /\
    spinner_thread.run first_thread
      ([spinner_thread.Main; spinner_thread.Main; spinner_thread.Spin;
        spinner_thread.Spin] ++ rest) spinner_thread.initial = Some s' /\
    spinner_thread.main s' = spinner_thread.AtExit.
Proof.
  assert (Hrun : exists s,
             spinner_thread.run first_thread
               [spinner_thread.Main; spinner_thread.Main; spinner_thread.Spin;
                spinner_thread.Spin] spinner_thread.initial = Some s)
    by (eexists; reflexivity).
  destruct Hrun as (s & Hrun).
  exact (proj1 (spinner_stops_when_done_is_set first_thread _ s Hrun)).
Defined.

